(** * fl::string — storage engine, block recycler and substring search

    A shallow embedding of the parts of [include/fl/alloc_hooks.hpp] and
    [include/fl/string.hpp] that the storage/search properties talk about.

    Conventions.
    - [std::size_t] is the 64-bit unsigned type of x86-64: a [Z] in
      [0, 2^64), with wrap-around written out by [sz].
    - A [char] is its unsigned byte value, a [Z] in [0, 256).
    - A pointer is its address, a [Z]; [nullptr] is [0].
    - The build is the default one: no custom allocation hooks are
      installed ([_hooks_active()] is false) and the thread-safety tracker
      is off (the [_guard_read]/[_guard_write] objects are empty).  The
      matcher is given for both builds, with and without [__AVX2__]; the
      flag [avx2] selects one.
    - Everything is per thread: the recycler state is [thread_local], so a
      single [world] value is the state one thread sees. *)

From Stdlib Require Import ZArith Lia List Bool.
From stdpp Require Import base option list gmap.

Local Open Scope Z_scope.

(** ** Machine integers *)

Definition SIZE_MAX : Z := 2 ^ 64 - 1.

(** Reduction of a mathematical result to [std::size_t]. *)
Definition sz (x : Z) : Z := x mod 2 ^ 64.

(** Reduction to [uint8_t]. *)
Definition u8 (x : Z) : Z := x mod 2 ^ 8.

Definition nullptr : Z := 0.

(** ** Outcomes of a call

    [Throw] is a C++ exception leaving the call, [Undefined] is undefined
    behaviour (an access outside a live buffer, a wild free), [OutOfFuel]
    is the embedding's own artefact for a loop cut short; theorems that
    report a value show it is not reached. *)

Inductive exception : Type :=
| out_of_range.

Inductive outcome (A : Type) : Type :=
| Ok (a : A)
| Throw (e : exception)
| Undefined
| OutOfFuel.

Arguments Ok {A} a.
Arguments Throw {A} e.
Arguments Undefined {A}.
Arguments OutOfFuel {A}.

(** ** Raw buffers

    A buffer is the list of its bytes.  [memcpy_at buf off src] is
    [std::memcpy(buf + off, src, |src|)] for a source that does not overlap
    the destination; it is undefined ([None]) when the range leaves the
    buffer.  [subbuf buf off len] reads [len] bytes at [buf + off]. *)

Definition memcpy_at (buf : list Z) (off : Z) (src : list Z) : option (list Z) :=
  if (0 <=? off) && (off + Z.of_nat (length src) <=? Z.of_nat (length buf))
  then Some (take (Z.to_nat off) buf ++ src
               ++ drop (Z.to_nat off + length src)%nat buf)
  else None.

Definition subbuf (buf : list Z) (off len : Z) : option (list Z) :=
  if (0 <=? off) && (0 <=? len) && (off + len <=? Z.of_nat (length buf))
  then Some (take (Z.to_nat len) (drop (Z.to_nat off) buf))
  else None.

(** [buf[off] = v]. *)
Definition poke (buf : list Z) (off : Z) (v : Z) : option (list Z) :=
  memcpy_at buf off [v].

(** [std::memmove(buf + dst, buf + src, len)]: read, then write. *)
Definition memmove_in (buf : list Z) (dst src len : Z) : option (list Z) :=
  match subbuf buf src len with
  | Some bytes => memcpy_at buf dst bytes
  | None => None
  end.

(** * include/fl/alloc_hooks.hpp *)

Module alloc_hooks.

(** Small-block pool size classes. *)
Definition MAX_POOL_SIZE : Z := 4096.
Definition POOL_CLASSES : list Z := [64; 128; 256; 512; 1024; 2048; 4096].

(** The loop of [pool_class_index], from class [i] on. *)
Fixpoint pool_class_index_from (i : Z) (classes : list Z) (n : Z) : Z :=
  match classes with
  | [] => -1
  | c :: rest => if n <=? c then i else pool_class_index_from (i + 1) rest n
  end.

(** Index into [POOL_CLASSES] for a given size, or -1 if too large. *)
Definition pool_class_index (n : Z) : Z :=
  pool_class_index_from 0 POOL_CLASSES n.

(** [POOL_CLASSES[idx]]. *)
Definition pool_class (idx : Z) : Z :=
  default 0 (POOL_CLASSES !! Z.to_nat idx).

Definition pool_alloc_usable_capacity (raw_size : Z) : Z :=
  let idx := pool_class_index raw_size in
  if 0 <=? idx then pool_class idx - 1 else sz (raw_size - 1).

Definition POOL_SLAB_DEPTH : Z := 8.

(** The per-thread free lists: one occupancy byte per class (hot region)
    and a fixed array of eight block addresses per class (cold region). *)
Record TlsFreeLists : Type := mkTls {
  counts : list Z;
  slots : list (list Z)
}.

(** [static thread_local TlsFreeLists tls{}]: zero-initialised. *)
Definition tls_zero : TlsFreeLists :=
  mkTls (replicate 7 0) (replicate 7 (replicate 8 nullptr)).

(** The fixed shape of the C arrays [counts[7]] and [slots[7][8]]. *)
Definition tls_shape (t : TlsFreeLists) : Prop :=
  length (counts t) = 7%nat /\
  length (slots t) = 7%nat /\
  Forall (fun row => length row = 8%nat) (slots t).

Definition count_of (t : TlsFreeLists) (idx : Z) : Z :=
  default 0 (counts t !! Z.to_nat idx).

Definition slot_of (t : TlsFreeLists) (idx k : Z) : Z :=
  default nullptr (default [] (slots t !! Z.to_nat idx) !! Z.to_nat k).

Definition set_count (t : TlsFreeLists) (idx c : Z) : TlsFreeLists :=
  mkTls (<[Z.to_nat idx := c]> (counts t)) (slots t).

Definition set_slot (t : TlsFreeLists) (idx k p : Z) : TlsFreeLists :=
  mkTls (counts t)
        (<[Z.to_nat idx :=
             <[Z.to_nat k := p]> (default [] (slots t !! Z.to_nat idx))]>
           (slots t)).

(** *** The state one thread sees

    [mem] holds the live blocks of the platform allocator, keyed by base
    address, each with its bytes.  The platform allocator itself
    ([std::malloc]/[std::free]) is libc, outside the repository; it is
    modelled as an allocator that never fails, hands out a fresh non-null
    address ([brk], never reused) and fills the block with zero bytes;
    freeing an address that is not a live block is undefined behaviour.

    [trace] is a ghost log of the calls that reach the allocation layer
    and of the block-to-block copies of the string, in program order. *)

Inductive event : Type :=
| EvAllocate (n : Z) (p : Z)          (* allocate_bytes_aligned(n, _) returned p *)
| EvDeallocate (p : Z) (n : Z)        (* deallocate_bytes_aligned(p, n, _) *)
| EvCopy (dst : Z) (src : Z) (n : Z). (* memcpy(dst, src, n) between two blocks *)

Record world : Type := mkWorld {
  tls : TlsFreeLists;
  mem : gmap Z (list Z);
  brk : Z;
  trace : list event
}.

Definition with_tls (w : world) (t : TlsFreeLists) : world :=
  mkWorld t (mem w) (brk w) (trace w).
Definition with_mem (w : world) (m : gmap Z (list Z)) : world :=
  mkWorld (tls w) m (brk w) (trace w).

(** Stateful calls: a state-and-outcome monad over [world]. *)
Definition M (A : Type) : Type := world -> outcome (A * world).

Definition ret {A} (a : A) : M A := fun w => Ok (a, w).

Definition bind {A B} (m : M A) (f : A -> M B) : M B :=
  fun w =>
    match m w with
    | Ok (a, w') => f a w'
    | Throw e => Throw e
    | Undefined => Undefined
    | OutOfFuel => OutOfFuel
    end.

Definition throw {A} (e : exception) : M A := fun _ => Throw e.
Definition undefined {A} : M A := fun _ => Undefined.

Definition emit (e : event) : M unit :=
  fun w => Ok (tt, mkWorld (tls w) (mem w) (brk w) (trace w ++ [e])).

(** An undefined read or write becomes undefined behaviour of the call. *)
Definition lift {A} (o : option A) : M A :=
  match o with
  | Some a => ret a
  | None => undefined
  end.

Notation "'let*' x ':=' c1 'in' c2" := (bind c1 (fun x => c2))
  (at level 10, x pattern, c1 at level 100, c2 at level 200).

Definition DEFAULT_ALIGNMENT : Z := 16.

(** [allocate_aligned_unpooled], on the branch
    [align <= alignof(std::max_align_t)]: [std::malloc(n)]. *)
Definition allocate_aligned_unpooled (n align : Z) : M Z :=
  if n =? 0 then ret nullptr
  else fun w =>
    let p := brk w in
    Ok (p, mkWorld (tls w)
                   (<[p := replicate (Z.to_nat n) 0]> (mem w))
                   (p + n)
                   (trace w)).

(** [deallocate_aligned_unpooled]: [std::free(p)]. *)
Definition deallocate_aligned_unpooled (p n align : Z) : M unit :=
  if p =? nullptr then ret tt
  else fun w =>
    match mem w !! p with
    | Some _ => Ok (tt, with_mem w (delete p (mem w)))
    | None => Undefined
    end.

Definition default_allocate_aligned (n align : Z) : M Z :=
  if n =? 0 then ret nullptr
  else
    let idx := pool_class_index n in
    if idx <? 0 then allocate_aligned_unpooled n align
    else fun w =>
      let t := tls w in
      if 0 <? count_of t idx then
        (* void* p = tls.slots[idx][--tls.counts[idx]]; *)
        let c := u8 (count_of t idx - 1) in
        let p := slot_of t idx c in
        Ok (p, with_tls w (set_count t idx c))
      else
        (* Pool miss: allocate a full class-sized block. *)
        let alloc_size := pool_class idx in
        allocate_aligned_unpooled alloc_size align w.

Definition default_deallocate_aligned (p n align : Z) : M unit :=
  if p =? nullptr then ret tt
  else
    let idx := pool_class_index n in
    if idx <? 0 then deallocate_aligned_unpooled p n align
    else fun w =>
      let t := tls w in
      if count_of t idx <? u8 POOL_SLAB_DEPTH then
        (* tls.slots[idx][tls.counts[idx]++] = p; *)
        let c := count_of t idx in
        Ok (tt, with_tls w (set_count (set_slot t idx c p) idx (u8 (c + 1))))
      else
        (* Slab full: fall through to the system allocator. *)
        deallocate_aligned_unpooled p n align w.

(** [allocate_bytes_aligned] / [deallocate_bytes_aligned] with no custom
    hooks: the default functions, logged. *)
Definition allocate_bytes_aligned (n align : Z) : M Z :=
  let* p := default_allocate_aligned n align in
  let* _ := emit (EvAllocate n p) in
  ret p.

Definition deallocate_bytes_aligned (p n align : Z) : M unit :=
  let* _ := emit (EvDeallocate p n) in
  default_deallocate_aligned p n align.

Definition preferred_alloc_alignment : Z := DEFAULT_ALIGNMENT.

(** A world in which nothing has been allocated yet. *)
Definition world_zero : world := mkWorld tls_zero ∅ 4096 [].

End alloc_hooks.

(** * include/fl/string.hpp *)

Module fl.
Import alloc_hooks.

(** Maximum number of characters that fit in the SSO buffer. *)
Definition SSO_CAPACITY : Z := 23.
Definition SSO_THRESHOLD : Z := SSO_CAPACITY + 1.

(** [static_cast<size_type>(-1)]. *)
Definition npos : Z := SIZE_MAX.

(** ** namespace detail *)

Module detail.

Definition fits_in_sso (n : Z) : bool := n <? SSO_THRESHOLD.

(** [memcmp(a, b, n) == 0] for two byte ranges of the same length. *)
Fixpoint bytes_eqb (a b : list Z) : bool :=
  match a, b with
  | [], [] => true
  | x :: a', y :: b' => (x =? y) && bytes_eqb a' b'
  | _, _ => false
  end.

(** [memcmp(a, b, n) == 0] where the ranges may be shorter than [n]: the
    comparison runs left to right and stops at the first difference; it is
    undefined ([None]) only when it reaches a byte outside a range. *)
Fixpoint memcmp_prefix (a b : list Z) (n : nat) : option bool :=
  match n with
  | O => Some true
  | S n' =>
    match a, b with
    | x :: a', y :: b' => if x =? y then memcmp_prefix a' b' n' else Some false
    | _, _ => None
    end
  end.

(** [std::memchr(s, c, |s|)]: offset of the first byte equal to [c]
    (libc, modelled by its contract). *)
Fixpoint memchr (s : list Z) (c : Z) : option Z :=
  match s with
  | [] => None
  | x :: s' => if x =? c then Some 0 else (λ i, i + 1) <$> memchr s' c
  end.

(** [std::string_view::find(needle)]: offset of the first occurrence
    (libstdc++, modelled by its contract: a left-to-right scan). *)
Fixpoint sv_find (haystack needle : list Z) : option Z :=
  if bytes_eqb (take (length needle) haystack) needle then Some 0
  else
    match haystack with
    | [] => None
    | _ :: rest => (λ i, i + 1) <$> sv_find rest needle
    end.

(** *** Bit scan and the small-copy helpers *)

(** The index of the lowest set bit of a non-zero mask. *)
Fixpoint trailing_zeros (p : positive) : Z :=
  match p with
  | xO q => 1 + trailing_zeros q
  | _ => 0
  end.

(** [first_set_bit_index(mask)] is [__builtin_ctz(mask)]: undefined
    ([None]) for a zero mask. *)
Definition first_set_bit_index (mask : Z) : option Z :=
  match mask with
  | Zpos p => Some (trailing_zeros p)
  | _ => None
  end.

(** [copy_small(dst, src, n)].  [dst] and [src] are the bytes from the two
    pointers to the end of their buffers.  A load
    [std::memcpy(&v, src + off, k)] followed by the store
    [std::memcpy(dst + off', &v, k)] moves [k] bytes unchanged, so a scalar
    is represented by its bytes; all loads come before the first store. *)
Definition copy_small (dst src : list Z) (n : Z) : option (list Z) :=
  if n =? 0 then Some dst
  else if n <=? 8 then
    if 4 <=? n then
      head ← subbuf src 0 4;
      tail ← subbuf src (n - 4) 4;
      dst ← memcpy_at dst 0 head;
      memcpy_at dst (n - 4) tail
    else if 2 <=? n then
      head ← subbuf src 0 2;
      tail ← subbuf src (n - 2) 2;
      dst ← memcpy_at dst 0 head;
      memcpy_at dst (n - 2) tail
    else
      (* dst[0] = src[0]; *)
      b ← src !! 0%nat;
      poke dst 0 b
  else if n <=? 16 then
    head ← subbuf src 0 8;
    tail ← subbuf src (n - 8) 8;
    dst ← memcpy_at dst 0 head;
    memcpy_at dst (n - 8) tail
  else if n <=? 32 then
    q0 ← subbuf src 0 8;
    q1 ← subbuf src 8 8;
    q2 ← subbuf src (n - 16) 8;
    q3 ← subbuf src (n - 8) 8;
    dst ← memcpy_at dst 0 q0;
    dst ← memcpy_at dst 8 q1;
    dst ← memcpy_at dst (n - 16) q2;
    memcpy_at dst (n - 8) q3
  else if n <=? 64 then
    bytes ← subbuf src 0 n;
    memcpy_at dst 0 bytes
  else
    bytes ← subbuf src 0 n;
    memcpy_at dst 0 bytes.

(** Copy limited to SSO-sized ranges. *)
Definition copy_sso (dst src : list Z) (n : Z) : option (list Z) :=
  copy_small dst src n.

(** [copy_heap_hot(dst, src, n)]: fixed-size fast paths for 96, 99 and 128
    bytes. *)
Definition copy_heap_hot (dst src : list Z) (n : Z) : option (list Z) :=
  if n <=? 64 then
    bytes ← subbuf src 0 n;
    memcpy_at dst 0 bytes
  else if n =? 96 then
    c0 ← subbuf src 0 32;
    dst ← memcpy_at dst 0 c0;
    c1 ← subbuf src 32 32;
    dst ← memcpy_at dst 32 c1;
    c2 ← subbuf src 64 32;
    memcpy_at dst 64 c2
  else if n =? 99 then
    c0 ← subbuf src 0 64;
    dst ← memcpy_at dst 0 c0;
    c1 ← subbuf src 64 35;
    memcpy_at dst 64 c1
  else if n =? 128 then
    c0 ← subbuf src 0 64;
    dst ← memcpy_at dst 0 c0;
    c1 ← subbuf src 64 64;
    memcpy_at dst 64 c1
  else
    bytes ← subbuf src 0 n;
    memcpy_at dst 0 bytes.

(** *** Single-character search *)

(** [_mm_movemask_epi8(_mm_cmpeq_epi8(block, needle))]: bit [k] of the
    mask is set exactly when byte [k] of the block equals the target. *)
Fixpoint cmpeq_movemask (block : list Z) (target : Z) : Z :=
  match block with
  | [] => 0
  | b :: rest => (if b =? target then 1 else 0) + 2 * cmpeq_movemask rest target
  end.

(** The scalar tail [for (; i < len; ++i) if (data[i] == target) return
    data + i;], [p] being the bytes from [data + i] to [data + len]. *)
Fixpoint find_char_tail (p : list Z) (target : Z) (i : Z) : option Z :=
  match p with
  | [] => None
  | x :: p' => if x =? target then Some i else find_char_tail p' target (i + 1)
  end.

(** The 16-byte block loop of the SSE2 build. *)
Fixpoint find_char_blocks (fuel : nat) (len target : Z) (i : Z) (p : list Z)
    : outcome (option Z) :=
  if i + 16 <=? len then
    match fuel with
    | O => OutOfFuel
    | S fuel' =>
      let mask := cmpeq_movemask (take 16 p) target in
      if negb (mask =? 0) then
        match first_set_bit_index mask with
        | Some k => Ok (Some (i + k))
        | None => Undefined
        end
      else find_char_blocks fuel' len target (i + 16) (drop 16 p)
    end
  else Ok (find_char_tail p target i).

(** [find_char_simd(data, len, target)] with [__SSE2__] defined (always so
    on x86-64); [data] holds the [len] bytes.  The offset of the returned
    pointer, [None] for [nullptr]. *)
Definition find_char_simd (data : list Z) (target : Z) : outcome (option Z) :=
  let len := Z.of_nat (length data) in
  if len =? 0 then Ok None
  else find_char_blocks (Z.to_nat (len / 16)) len target 0 data.

(** *** Boyer-Moore-Horspool *)

(** [for (i = 0; i + 1 < needle_len; ++i) shift[(unsigned char)needle[i]]
    = (T)(needle_len - 1 - i);] where [cs] holds [needle[i ..]] up to the
    last byte excluded and [wrap] is the conversion to the table's element
    type. *)
Fixpoint bmh_fill (wrap : Z -> Z) (needle_len : Z) (i : Z) (cs : list Z)
    (shift : list Z) : list Z :=
  match cs with
  | [] => shift
  | c :: cs' =>
    bmh_fill wrap needle_len (i + 1) cs'
      (<[Z.to_nat c := wrap (needle_len - 1 - i)]> shift)
  end.

(** The table after initialisation to [needle_len] and the fill loop. *)
Definition bmh_shift (wrap : Z -> Z) (needle : list Z) : list Z :=
  let needle_len := Z.of_nat (length needle) in
  bmh_fill wrap needle_len 0 (take (length needle - 1) needle)
    (replicate 256 (wrap needle_len)).

(** The search loop shared by the two Horspool searches. *)
Fixpoint bmh_loop (fuel : nat) (shift : list Z) (needle : list Z)
    (haystack_len needle_len last : Z) (pos : Z) (p : list Z)
    : outcome (option Z) :=
  if pos <=? haystack_len - needle_len then
    match fuel with
    | O => OutOfFuel
    | S fuel' =>
      match p !! Z.to_nat last, needle !! Z.to_nat last with
      | Some tail, Some needle_last =>
        if (tail =? needle_last)
           && bytes_eqb (take (Z.to_nat last) p) (take (Z.to_nat last) needle)
        then Ok (Some pos)
        else
          match shift !! Z.to_nat tail with
          | Some s =>
            bmh_loop fuel' shift needle haystack_len needle_len last
              (pos + s) (drop (Z.to_nat s) p)
          | None => Undefined
          end
      | _, _ => Undefined
      end
    end
  else Ok None.

(** [find_substring_bmh_compact]: the table holds [std::uint8_t].  The
    [assert(needle_len <= 255)] is compiled out under [NDEBUG]; a shift of
    zero never advances [pos], which the embedding reports as
    [OutOfFuel]. *)
Definition find_substring_bmh_compact (haystack needle : list Z)
    : outcome (option Z) :=
  let haystack_len := Z.of_nat (length haystack) in
  let needle_len := Z.of_nat (length needle) in
  if needle_len =? 0 then Ok (Some 0)
  else if haystack_len <? needle_len then Ok None
  else
    bmh_loop (Z.to_nat (haystack_len - needle_len + 1)) (bmh_shift u8 needle)
      needle haystack_len needle_len (needle_len - 1) 0 haystack.

(** *** Adaptive thresholds *)

(** [find_tuning_state], and the thread-local tick of
    [adapt_find_thresholds] next to it. *)
Record find_tuning_state : Type := mkTuning {
  small_haystack_cutoff : Z;
  bmh_haystack_cutoff : Z;
  adapt_counter : Z;
  local_tick : Z
}.

(** The state a fresh process starts with. *)
Definition tuning_initial : find_tuning_state := mkTuning 256 4096 0 0.

(** [adapt_find_thresholds]; [low_entropy] is the outcome of the
    comparison [entropy < 0.45f]. *)
Definition adapt_find_thresholds (st : find_tuning_state)
    (haystack_len needle_len : Z) (low_entropy : bool) (found_pos : Z)
    : find_tuning_state :=
  let tick := (local_tick st + 1) mod 2 ^ 32 in
  if negb (Z.land tick 1023 =? 0) then
    mkTuning (small_haystack_cutoff st) (bmh_haystack_cutoff st)
             (adapt_counter st) tick
  else
    let small_cut := small_haystack_cutoff st in
    let bmh_cut := bmh_haystack_cutoff st in
    let bmh_cut :=
      if (5 <=? needle_len) && (needle_len <=? 64) then
        if low_entropy then Z.min 8192 (sz (bmh_cut + 256))
        else if 2048 <? bmh_cut then bmh_cut - 128 else bmh_cut
      else bmh_cut in
    let small_cut :=
      if negb (found_pos =? SIZE_MAX) && (found_pos <? 32) then
        Z.min 512 (sz (small_cut + 16))
      else if 1024 <? haystack_len then
        if 128 <? small_cut then small_cut - 8 else small_cut
      else small_cut in
    mkTuning small_cut bmh_cut ((adapt_counter st + 1) mod 2 ^ 32) tick.

(** *** The multi-strategy search *)

(** The candidate loop of [find_substring_simd]: [find_char_simd] locates
    the next occurrence of [needle[0]], [check] decides on the bytes at
    the candidate. *)
Fixpoint candidate_loop (fuel : nat) (check : list Z -> option bool)
    (first limit : Z) (offset : Z) (p : list Z) : outcome (option Z) :=
  if offset <=? limit then
    match fuel with
    | O => OutOfFuel
    | S fuel' =>
      match find_char_simd (take (Z.to_nat (limit - offset + 1)) p) first with
      | Ok None => Ok None
      | Ok (Some d) =>
        let idx := offset + d in
        let candidate := drop (Z.to_nat d) p in
        match check candidate with
        | Some true => Ok (Some idx)
        | Some false =>
          candidate_loop fuel' check first limit (idx + 1) (drop 1 candidate)
        | None => Undefined
        end
      | Throw e => Throw e
      | Undefined => Undefined
      | OutOfFuel => OutOfFuel
      end
    end
  else Ok None.

(** [candidate[1] == needle[1] && (needle_len == 2 || candidate[2] ==
    needle[2]) && (needle_len <= 3 || candidate[3] == needle[3])], with
    the short-circuit evaluation of [&&] and [||]. *)
Definition check_short (needle : list Z) (candidate : list Z) : option bool :=
  let needle_len := Z.of_nat (length needle) in
  c1 ← candidate !! 1%nat;
  n1 ← needle !! 1%nat;
  if negb (c1 =? n1) then Some false
  else
    ok2 ← (if needle_len =? 2 then Some true
           else c2 ← candidate !! 2%nat;
                n2 ← needle !! 2%nat;
                Some (c2 =? n2));
    if negb ok2 then Some false
    else
      if needle_len <=? 3 then Some true
      else c3 ← candidate !! 3%nat;
           n3 ← needle !! 3%nat;
           Some (c3 =? n3).

(** [candidate[needle_len - 1] == last && memcmp(candidate, needle,
    needle_len) == 0]. *)
Definition check_first_last (needle : list Z) (candidate : list Z)
    : option bool :=
  let needle_len := length needle in
  c ← candidate !! (needle_len - 1)%nat;
  needle_last ← needle !! (needle_len - 1)%nat;
  if negb (c =? needle_last) then Some false
  else
    if (needle_len <=? length candidate)%nat
    then Some (bytes_eqb (take needle_len candidate) needle)
    else None.

(** [find_substring_simd(haystack, haystack_len, needle, needle_len)]. *)
Definition find_substring_simd (haystack needle : list Z)
    : outcome (option Z) :=
  let haystack_len := Z.of_nat (length haystack) in
  let needle_len := Z.of_nat (length needle) in
  if needle_len =? 0 then Ok (Some 0)
  else if haystack_len <? needle_len then Ok None
  else if needle_len =? 1 then
    find_char_simd haystack (default 0 (needle !! 0%nat))
  else
    let fuel := Z.to_nat (haystack_len - needle_len + 1) in
    if needle_len <=? 4 then
      candidate_loop fuel (check_short needle) (default 0 (needle !! 0%nat))
        (haystack_len - needle_len) 0 haystack
    else if (2048 <=? haystack_len) && (16 <=? needle_len) then
      (* std::size_t shift[256]: entries and values have one type *)
      bmh_loop fuel (bmh_shift (λ v, v) needle) needle haystack_len
        needle_len (needle_len - 1) 0 haystack
    else if haystack_len <? 256 then
      Ok (sv_find haystack needle)
    else
      candidate_loop fuel (check_first_last needle)
        (default 0 (needle !! 0%nat)) (haystack_len - needle_len) 0 haystack.

Module two_way.

Definition read (s : list Z) (i : Z) : option Z :=
  if 0 <=? i then s !! Z.to_nat i else None.

(** The loop shared by [max_suffix] ([lt] is [a < b]) and
    [max_suffix_rev] ([lt] is [a > b]); the state is [(i, j, k, *period)]. *)
Fixpoint max_suffix_loop (fuel : nat) (lt : Z -> Z -> bool) (needle : list Z)
    (m i j k period : Z) : outcome (Z * Z) :=
  if j + k <=? m then
    match fuel with
    | O => OutOfFuel
    | S fuel' =>
      match read needle (j + k - 1), read needle (i + k - 1) with
      | Some a, Some b =>
        if lt a b then
          (* j += k; k = 1; *period = j - i; *)
          max_suffix_loop fuel' lt needle m i (j + k) 1 (j + k - i)
        else if a =? b then
          if k =? period then
            max_suffix_loop fuel' lt needle m i (j + period) 1 period
          else
            max_suffix_loop fuel' lt needle m i j (k + 1) period
        else
          (* i = j; j = i + 1; k = 1; *period = 1; *)
          max_suffix_loop fuel' lt needle m j (j + 1) 1 1
      | _, _ => Undefined
      end
    end
  else Ok (i, period).

(** Every iteration increases [2*i + j + k], which stays below [3*m + 2]. *)
Definition max_suffix_fuel (m : Z) : nat := Z.to_nat (3 * m + 3).

(** Returns the index of the suffix start and the period. *)
Definition max_suffix (needle : list Z) (m : Z) : outcome (Z * Z) :=
  max_suffix_loop (max_suffix_fuel m) Z.ltb needle m 0 1 1 1.

Definition max_suffix_rev (needle : list Z) (m : Z) : outcome (Z * Z) :=
  max_suffix_loop (max_suffix_fuel m) Z.gtb needle m 0 1 1 1.

(** [while (i < bound && needle[i] == pos[i]) ++i;] where [xs] is
    [needle + i] up to [bound] and [ys] is [pos + i] up to the end of the
    haystack; [None] when the loop reads past the end of the haystack. *)
Fixpoint match_run (xs ys : list Z) (i : Z) : option Z :=
  match xs, ys with
  | [], _ => Some i
  | x :: xs', y :: ys' => if x =? y then match_run xs' ys' (i + 1) else Some i
  | _ :: _, [] => None
  end.

(** The short-needle loop ([m <= 8]); [scan] is the offset of the scan
    pointer and [p] the bytes from it to the end of the haystack. *)
Fixpoint short_loop (fuel : nat) (needle : list Z) (m first limit : Z)
    (scan : Z) (p : list Z) : outcome (option Z) :=
  if scan <=? limit then
    match fuel with
    | O => OutOfFuel
    | S fuel' =>
      match memchr (take (Z.to_nat (limit - scan + 1)) p) first with
      | None => Ok None
      | Some d =>
        let scan := scan + d in
        let p := drop (Z.to_nat d) p in
        if bytes_eqb (take (Z.to_nat m) p) needle then Ok (Some scan)
        else short_loop fuel' needle m first limit (scan + 1) (drop 1 p)
      end
    end
  else Ok None.

(** Where the AVX2 pre-scan leaves the candidate: at a position to
    compare, or past [end] ([return nullptr]). *)
Inductive prescan_result : Type :=
| Candidate (pos : Z) (p : list Z)
| Exhausted.

(** The AVX2 pre-scan ([#if defined(__AVX2__)]): 32-byte blocks at
    [scan = pos + l + 1] are searched for [needle[l + 1]]; a block without
    it moves [scan] and [pos] on by 32, a hit moves [pos] to the hit
    ([__builtin_ctz(mask)] is the offset of the first equal byte). *)
Fixpoint avx2_prescan (fuel : nat) (target l n end_ : Z)
    (pos : Z) (p : list Z) : outcome prescan_result :=
  if (pos + (l + 1) + 32 <=? n) && (pos <=? end_) then
    match fuel with
    | O => OutOfFuel
    | S fuel' =>
      match memchr (take 32 (drop (Z.to_nat (l + 1)) p)) target with
      | Some d => Ok (Candidate (pos + d) (drop (Z.to_nat d) p))
      | None => avx2_prescan fuel' target l n end_ (pos + 32) (drop 32 p)
      end
    end
  else if end_ <? pos then Ok Exhausted
  else Ok (Candidate pos p).

(** The pre-scan as the two loops call it ([avx2_ok] is [l + 1 < m]); in
    the scalar build it leaves the candidate where it is. *)
Definition prescan (avx2 : bool) (fuel0 : nat) (needle : list Z)
    (m l n end_ : Z) (pos : Z) (p : list Z) : outcome prescan_result :=
  if avx2 && (l + 1 <? m) then
    avx2_prescan fuel0 (default 0 (needle !! Z.to_nat (l + 1))) l n end_ pos p
  else Ok (Candidate pos p).

(** The periodic matching loop; [pos] is the offset of the candidate and
    [p] the bytes from it to the end of the haystack. *)
Fixpoint periodic_loop (avx2 : bool) (fuel0 fuel : nat) (needle : list Z)
    (m l period n end_ : Z) (pos : Z) (p : list Z) (memory : Z)
    : outcome (option Z) :=
  if pos <=? end_ then
    match fuel with
    | O => OutOfFuel
    | S fuel' =>
      match (if memory =? 0
             then prescan avx2 fuel0 needle m l n end_ pos p
             else Ok (Candidate pos p)) with
      | Ok Exhausted => Ok None
      | Ok (Candidate pos p) =>
        (* Compare right half (pos+l+1 .. pos+m-1). *)
        let i0 := Z.max (l + 1) memory in
        match match_run (drop (Z.to_nat i0) needle) (drop (Z.to_nat i0) p) i0 with
        | None => Undefined
        | Some i =>
          if i <? m then
            (* Mismatch in right half: skip forward, reset memory. *)
            periodic_loop avx2 fuel0 fuel' needle m l period n end_
              (pos + (i - l)) (drop (Z.to_nat (i - l)) p) 0
          else
            (* Right half matched; compare left half starting from memory. *)
            match match_run
                    (drop (Z.to_nat memory) (take (Z.to_nat (l + 1)) needle))
                    (drop (Z.to_nat memory) p) memory with
            | None => Undefined
            | Some j =>
              if l <? j then Ok (Some pos)
              else
                (* Mismatch in left half: advance by period, retain memory. *)
                periodic_loop avx2 fuel0 fuel' needle m l period n end_
                  (pos + period) (drop (Z.to_nat period) p)
                  (if period <? m then m - period else 0)
            end
        end
      | Throw e => Throw e
      | Undefined => Undefined
      | OutOfFuel => OutOfFuel
      end
    end
  else Ok None.

(** The non-periodic matching loop. *)
Fixpoint nonperiodic_loop (avx2 : bool) (fuel0 fuel : nat) (needle : list Z)
    (m l n end_ : Z) (pos : Z) (p : list Z) : outcome (option Z) :=
  if pos <=? end_ then
    match fuel with
    | O => OutOfFuel
    | S fuel' =>
      match prescan avx2 fuel0 needle m l n end_ pos p with
      | Ok Exhausted => Ok None
      | Ok (Candidate pos p) =>
        let i0 := l + 1 in
        match match_run (drop (Z.to_nat i0) needle) (drop (Z.to_nat i0) p) i0 with
        | None => Undefined
        | Some i =>
          if i <? m then
            nonperiodic_loop avx2 fuel0 fuel' needle m l n end_
              (pos + (i - l)) (drop (Z.to_nat (i - l)) p)
          else
            match match_run (take (Z.to_nat (l + 1)) needle) p 0 with
            | None => Undefined
            | Some j =>
              if l <? j then Ok (Some pos)
              else
                (* pos += right_skip; *)
                nonperiodic_loop avx2 fuel0 fuel' needle m l n end_
                  (pos + (l + 1)) (drop (Z.to_nat (l + 1)) p)
            end
        end
      | Throw e => Throw e
      | Undefined => Undefined
      | OutOfFuel => OutOfFuel
      end
    end
  else Ok None.

(** [two_way::search(haystack, n, needle, m)]: the offset of the returned
    pointer from [haystack], [None] for [nullptr].  [avx2] says whether the
    build defines [__AVX2__].  Every loop moves its pointer forward by at
    least one byte, so [n - m + 1] iterations are enough. *)
Definition search (avx2 : bool) (haystack needle : list Z)
    : outcome (option Z) :=
  let n := Z.of_nat (length haystack) in
  let m := Z.of_nat (length needle) in
  if m =? 0 then Ok (Some 0)
  else if n <? m then Ok None
  else
    let fuel := Z.to_nat (n - m + 1) in
    if m <=? 8 then
      short_loop fuel needle m (default 0 (needle !! 0%nat)) (n - m) 0 haystack
    else
      match max_suffix needle m, max_suffix_rev needle m with
      | Ok (l1, per1), Ok (l2, per2) =>
        (* Choose the factorization that gives the larger left part. *)
        let '(l, period) := if l2 <=? l1 then (l1, per1) else (l2, per2) in
        (* bool periodic = (memcmp(needle, needle + period, l + 1) == 0); *)
        match memcmp_prefix needle (drop (Z.to_nat period) needle)
                (Z.to_nat (l + 1)) with
        | None => Undefined
        | Some true =>
            periodic_loop avx2 fuel fuel needle m l period n (n - m) 0 haystack 0
        | Some false =>
            nonperiodic_loop avx2 fuel fuel needle m l n (n - m) 0 haystack
        end
      | OutOfFuel, _ | _, OutOfFuel => OutOfFuel
      | _, _ => Undefined
      end.

End two_way.

(** Threshold above which the two-way algorithm is preferred. *)
Definition kTwoWayHaystackThreshold : Z := 65536.

End detail.

(** ** class string *)

(** [union StorageData]: the inline buffer of 24 chars, or the heap
    pointer and capacity.  [_flags] is the discriminant the code consults;
    the constructor records which member was written last. *)
Inductive StorageData : Type :=
| Sso (sso : list Z)
| Heap (ptr : Z) (capacity : Z).

Record string : Type := mkString {
  _data : StorageData;
  _size : Z;
  _flags : Z
}.

(** Reading one member of the union after the other was written
    reinterprets the bytes (little-endian, 8-byte pointer and size). *)
Fixpoint le_bytes (k : nat) (x : Z) : list Z :=
  match k with
  | O => []
  | S k' => x mod 256 :: le_bytes k' (x / 256)
  end.

Fixpoint le_value (bs : list Z) : Z :=
  match bs with
  | [] => 0
  | b :: rest => b + 256 * le_value rest
  end.

Definition sso_view (d : StorageData) : list Z :=
  match d with
  | Sso b => b
  | Heap p c => le_bytes 8 p ++ le_bytes 8 c ++ replicate 8 0
  end.

Definition heap_ptr (d : StorageData) : Z :=
  match d with
  | Heap p _ => p
  | Sso b => le_value (take 8 b)
  end.

Definition heap_capacity (d : StorageData) : Z :=
  match d with
  | Heap _ c => c
  | Sso b => le_value (take 8 (drop 8 b))
  end.

Definition HEAP_ALLOCATED_FLAG : Z := 1.

Definition _is_heap_allocated (this : string) : bool :=
  negb (Z.land (_flags this) HEAP_ALLOCATED_FLAG =? 0).

Definition size (this : string) : Z := _size this.

Definition capacity (this : string) : Z :=
  if _is_heap_allocated this then heap_capacity (_data this)
  else SSO_CAPACITY.

Definition empty (this : string) : bool := _size this =? 0.

(** [_calculate_new_capacity]: rounds [min_capacity] up to the next power
    of two minus one (minimum 32).  [sizeof(size_type) > 4] holds, so the
    last shift by 32 is compiled in. *)
Definition _calculate_new_capacity (min_capacity : Z) : Z :=
  if min_capacity <? 32 then 32
  else
    let cap := min_capacity in
    let cap := Z.lor cap (Z.shiftr cap 1) in
    let cap := Z.lor cap (Z.shiftr cap 2) in
    let cap := Z.lor cap (Z.shiftr cap 4) in
    let cap := Z.lor cap (Z.shiftr cap 8) in
    let cap := Z.lor cap (Z.shiftr cap 16) in
    let cap := Z.lor cap (Z.shiftr cap 32) in
    cap.

(** *** Access to the bytes behind [_data_ptr()]

    [_data_ptr()] is [_data.heap.ptr] when the discriminant says heap and
    [_data.sso] otherwise.  [load_storage] reads the whole buffer that
    pointer designates, [store_storage] writes it back. *)

Definition load_storage (this : string) : M (list Z) :=
  fun w =>
    if _is_heap_allocated this then
      match mem w !! heap_ptr (_data this) with
      | Some buf => Ok (buf, w)
      | None => Undefined
      end
    else Ok (sso_view (_data this), w).

Definition store_storage (this : string) (buf : list Z) : M string :=
  fun w =>
    if _is_heap_allocated this then
      match mem w !! heap_ptr (_data this) with
      | Some _ => Ok (this, with_mem w (<[heap_ptr (_data this) := buf]> (mem w)))
      | None => Undefined
      end
    else Ok (mkString (Sso buf) (_size this) (_flags this), w).

(** Reads and writes of a heap block by address. *)
Definition block_read (p off len : Z) : M (list Z) :=
  fun w =>
    match mem w !! p with
    | Some buf =>
      match subbuf buf off len with
      | Some bytes => Ok (bytes, w)
      | None => Undefined
      end
    | None => Undefined
    end.

Definition block_write (p off : Z) (bytes : list Z) : M unit :=
  fun w =>
    match mem w !! p with
    | Some buf =>
      match memcpy_at buf off bytes with
      | Some buf' => Ok (tt, with_mem w (<[p := buf']> (mem w)))
      | None => Undefined
      end
    | None => Undefined
    end.

(** The bytes [data()[0 .. size())]. *)
Definition content (this : string) : M (list Z) :=
  let* buf := load_storage this in
  lift (subbuf buf 0 (_size this)).

(** The byte [data()[size()]]. *)
Definition terminator (this : string) : M Z :=
  let* buf := load_storage this in
  lift (detail.two_way.read buf (_size this)).

Definition with_size (this : string) (n : Z) : string :=
  mkString (_data this) n (_flags this).

(** *** Private helpers *)

Definition _allocate_heap (this : string) (min_capacity : Z) : M string :=
  let new_capacity := _calculate_new_capacity min_capacity in
  let align := preferred_alloc_alignment in
  let alloc_n := sz (new_capacity + 1) in
  let* p := allocate_bytes_aligned alloc_n align in
  ret (mkString (Heap p (pool_alloc_usable_capacity alloc_n))
                (_size this)
                (Z.lor (_flags this) HEAP_ALLOCATED_FLAG)).

Definition _allocate_heap_exact (this : string) (exact_capacity : Z) : M string :=
  let align := preferred_alloc_alignment in
  let alloc_n := sz (exact_capacity + 1) in
  let* p := allocate_bytes_aligned alloc_n align in
  ret (mkString (Heap p (pool_alloc_usable_capacity alloc_n))
                (_size this)
                (Z.lor (_flags this) HEAP_ALLOCATED_FLAG)).

Definition _grow_to (this : string) (min_capacity : Z) : M string :=
  if min_capacity <=? capacity this then ret this
  else if negb (_is_heap_allocated this) then
    let new_capacity := _calculate_new_capacity min_capacity in
    let align := preferred_alloc_alignment in
    let alloc_n := sz (new_capacity + 1) in
    let* new_ptr := allocate_bytes_aligned alloc_n align in
    (* detail::copy_sso(new_ptr, _data.sso, _size); new_ptr[_size] = '\0'; *)
    let* bytes := lift (subbuf (sso_view (_data this)) 0 (_size this)) in
    let* _ := block_write new_ptr 0 bytes in
    let* _ := block_write new_ptr (_size this) [0] in
    ret (mkString (Heap new_ptr (pool_alloc_usable_capacity alloc_n))
                  (_size this)
                  (Z.lor (_flags this) HEAP_ALLOCATED_FLAG))
  else
    let new_capacity := _calculate_new_capacity min_capacity in
    let align := preferred_alloc_alignment in
    let alloc_n := sz (new_capacity + 1) in
    let old_ptr := heap_ptr (_data this) in
    let old_alloc_n := sz (heap_capacity (_data this) + 1) in
    let* new_ptr := allocate_bytes_aligned alloc_n align in
    (* std::memcpy(new_ptr, old_ptr, _size); new_ptr[_size] = '\0'; *)
    let* bytes := block_read old_ptr 0 (_size this) in
    let* _ := emit (EvCopy new_ptr old_ptr (_size this)) in
    let* _ := block_write new_ptr 0 bytes in
    let* _ := block_write new_ptr (_size this) [0] in
    (* Now deallocate the old buffer after reading from it is complete. *)
    let* _ := deallocate_bytes_aligned old_ptr old_alloc_n align in
    ret (mkString (Heap new_ptr (pool_alloc_usable_capacity alloc_n))
                  (_size this) (_flags this)).

(** [copy(ptr, cstr, len); ptr[len] = '\0'; _size = len;] on the buffer
    [_data_ptr()] designates. *)
Definition fill_from (this : string) (cstr : list Z) : M string :=
  let len := Z.of_nat (length cstr) in
  let* buf := load_storage this in
  let* buf := lift (memcpy_at buf 0 cstr) in
  let* buf := lift (poke buf len 0) in
  let* this := store_storage this buf in
  ret (with_size this len).

Definition _assign_impl (this : string) (cstr : list Z) : M string :=
  let len := Z.of_nat (length cstr) in
  let sso_path (this : string) : M string :=
    if detail.fits_in_sso len then
      (* copy_sso(_data.sso, cstr, len); _data.sso[len] = '\0';
         _size = len; _flags = 0; *)
      let* buf := lift (memcpy_at (sso_view (_data this)) 0 cstr) in
      let* buf := lift (poke buf len 0) in
      ret (mkString (Sso buf) len 0)
    else
      let* this := _allocate_heap this len in
      fill_from this cstr in
  if _is_heap_allocated this then
    if len <=? heap_capacity (_data this) then
      fill_from this cstr
    else
      let align := preferred_alloc_alignment in
      let* _ := deallocate_bytes_aligned (heap_ptr (_data this))
                  (sz (heap_capacity (_data this) + 1)) align in
      sso_path (mkString (_data this) (_size this) 0)
  else sso_path this.

(** *** Construction, destruction, assignment *)

(** The bytes of a freshly declared [StorageData] are indeterminate; the
    embedding takes zeros. *)
Definition sso_fresh : StorageData := Sso (replicate 24 0).

(** [string() noexcept]. *)
Definition string_default : string :=
  mkString sso_fresh 0 0.

(** [string(const char* cstr, size_type len)], [len] being [|cstr|]. *)
Definition string_from (cstr : list Z) : M string :=
  let len := Z.of_nat (length cstr) in
  let this := mkString sso_fresh 0 0 in
  if 0 <? len then
    if detail.fits_in_sso len then
      fill_from this cstr
    else
      let* this := _allocate_heap_exact this len in
      fill_from this cstr
  else
    let* buf := lift (poke (sso_view (_data this)) 0 0) in
    ret (mkString (Sso buf) 0 0).

(** [string(string&& other) noexcept]: the new value and what is left in
    [other]. *)
Definition string_move (other : string) : string * string :=
  (mkString (_data other) (_size other) (_flags other),
   mkString (Sso (<[0%nat := 0]> (sso_view (_data other)))) 0 0).

(** [~string() noexcept]. *)
Definition destroy (this : string) : M unit :=
  if _is_heap_allocated this then
    let align := preferred_alloc_alignment in
    deallocate_bytes_aligned (heap_ptr (_data this))
      (sz (heap_capacity (_data this) + 1)) align
  else ret tt.

(** [operator=(const string& other)] for [this != &other]. *)
Definition copy_assign (this other : string) : M string :=
  let* bytes := content other in
  _assign_impl this bytes.

(** [operator=(string&& other)] for [this != &other]: the new value of
    [*this] and what is left in [other]. *)
Definition move_assign (this other : string) : M (string * string) :=
  let* _ :=
    if _is_heap_allocated this then
      let align := preferred_alloc_alignment in
      deallocate_bytes_aligned (heap_ptr (_data this))
        (sz (heap_capacity (_data this) + 1)) align
    else ret tt in
  ret (mkString (_data other) (_size other) (_flags other),
       mkString (Sso (<[0%nat := 0]> (sso_view (_data other)))) 0 0).

(** [assign(const char* cstr, size_type len)]. *)
Definition assign (this : string) (cstr : list Z) : M string :=
  _assign_impl this cstr.

(** *** Element access *)

(** [at(pos)]: throws [std::out_of_range] if [pos >= size()]. *)
Definition at_ (this : string) (pos : Z) : M Z :=
  if _size this <=? pos then throw out_of_range
  else
    let* buf := load_storage this in
    lift (detail.two_way.read buf pos).

(** *** Capacity *)

Definition reserve (this : string) (cap : Z) : M string :=
  if capacity this <? cap then _grow_to this cap else ret this.

Definition shrink_to_fit (this : string) : M string :=
  if _is_heap_allocated this && (_size this <? heap_capacity (_data this)) then
    if detail.fits_in_sso (_size this) then
      (* copy to a temporary, release the block, copy back inline *)
      let* temp := block_read (heap_ptr (_data this)) 0 (_size this) in
      let align := preferred_alloc_alignment in
      let* _ := deallocate_bytes_aligned (heap_ptr (_data this))
                  (sz (heap_capacity (_data this) + 1)) align in
      let* buf := lift (memcpy_at (sso_view (_data this)) 0 temp) in
      let* buf := lift (poke buf (_size this) 0) in
      ret (mkString (Sso buf) (_size this) 0)
    else
      let align := preferred_alloc_alignment in
      let* new_ptr := allocate_bytes_aligned (sz (_size this + 1)) align in
      let* bytes := block_read (heap_ptr (_data this)) 0 (_size this) in
      let* _ := emit (EvCopy new_ptr (heap_ptr (_data this)) (_size this)) in
      let* _ := block_write new_ptr 0 bytes in
      let* _ := block_write new_ptr (_size this) [0] in
      let* _ := deallocate_bytes_aligned (heap_ptr (_data this))
                  (sz (heap_capacity (_data this) + 1)) align in
      (* _data.heap.ptr = new_ptr; _data.heap.capacity = _size; *)
      ret (mkString (Heap new_ptr (_size this)) (_size this) (_flags this))
  else ret this.

(** *** Modifiers *)

Definition clear (this : string) : M string :=
  let this := with_size this 0 in
  let* buf := load_storage this in
  let* buf := lift (poke buf 0 0) in
  store_storage this buf.


Definition pop_back (this : string) : M string :=
  if 0 <? _size this then
    let this := with_size this (_size this - 1) in
    let* buf := load_storage this in
    let* buf := lift (poke buf (_size this) 0) in
    store_storage this buf
  else ret this.

(** [erase(size_type pos, size_type len)]. *)
Definition erase (this : string) (pos len : Z) : M string :=
  if _size this <=? pos then ret this
  else
    let len := if len =? npos then _size this - pos
               else Z.min len (_size this - pos) in
    if len =? 0 then ret this
    else
      let* buf := load_storage this in
      let* buf := lift (memmove_in buf pos (pos + len) (_size this - pos - len)) in
      let new_size := _size this - len in
      let* buf := lift (poke buf new_size 0) in
      let* this := store_storage this buf in
      ret (with_size this new_size).

(** [insert(size_type pos, const char* cstr, size_type len)]. *)
Definition insert (this : string) (pos : Z) (cstr : list Z) : M string :=
  let len := Z.of_nat (length cstr) in
  if (len =? 0) || (_size this <? pos) then ret this
  else
    let new_size := sz (_size this + len) in
    let* this :=
      if capacity this <=? new_size
      then _grow_to this (sz (new_size + new_size / 2))
      else ret this in
    let* buf := load_storage this in
    let* buf := lift (memmove_in buf (pos + len) pos (_size this - pos)) in
    let* buf := lift (memcpy_at buf pos cstr) in
    let* buf := lift (poke buf new_size 0) in
    let* this := store_storage this buf in
    ret (with_size this new_size).

(** [replace(size_type pos, size_type len, const char* cstr, size_type clen)]. *)
Definition replace (this : string) (pos len : Z) (cstr : list Z) : M string :=
  let clen := Z.of_nat (length cstr) in
  if _size this <? pos then ret this
  else
    let len := Z.min len (_size this - pos) in
    let new_size := sz (_size this - len + clen) in
    let* this :=
      if capacity this <=? new_size
      then _grow_to this (sz (new_size + new_size / 2))
      else ret this in
    let* buf := load_storage this in
    let* buf :=
      if len =? clen then ret buf
      else lift (memmove_in buf (pos + clen) (pos + len) (_size this - pos - len)) in
    let* buf := lift (memcpy_at buf pos cstr) in
    let* buf := lift (poke buf new_size 0) in
    let* this := store_storage this buf in
    ret (with_size this new_size).

(** *** Search *)

(** [find(std::string_view sv, size_type pos)], on the bytes [data] the
    string holds; [avx2] says whether the build defines [__AVX2__]. *)
Definition find_bytes (avx2 : bool) (data : list Z) (_size : Z)
    (sv : list Z) (pos : Z) : outcome Z :=
  if _size <? pos then Ok npos
  else if Z.of_nat (length sv) =? 0 then Ok pos
  else
    let remaining := _size - pos in
    match subbuf data pos remaining with
    | None => Undefined
    | Some haystack =>
      if Z.of_nat (length sv) =? 1 then
        (* Fast path: single character uses memchr. *)
        match detail.memchr haystack (default 0 (sv !! 0%nat)) with
        | Some d => Ok (pos + d)
        | None => Ok npos
        end
      else if (detail.kTwoWayHaystackThreshold <=? remaining)
              && (2 <=? Z.of_nat (length sv)) then
        match detail.two_way.search avx2 haystack sv with
        | Ok (Some d) => Ok (pos + d)
        | Ok None => Ok npos
        | Throw e => Throw e
        | Undefined => Undefined
        | OutOfFuel => OutOfFuel
        end
      else
        match detail.sv_find haystack sv with
        | Some found => Ok (pos + found)
        | None => Ok npos
        end
    end.

Definition find (avx2 : bool) (this : string) (sv : list Z) (pos : Z) : M Z :=
  fun w =>
    match load_storage this w with
    | Ok (data, w') =>
      match find_bytes avx2 data (_size this) sv pos with
      | Ok r => Ok (r, w')
      | Throw e => Throw e
      | Undefined => Undefined
      | OutOfFuel => OutOfFuel
      end
    | Throw e => Throw e
    | Undefined => Undefined
    | OutOfFuel => OutOfFuel
    end.

(** [find(char ch, size_type pos)]. *)
Definition find_char (this : string) (ch pos : Z) : M Z :=
  if _size this <=? pos then ret npos
  else
    let* p := load_storage this in
    let* range := lift (subbuf p pos (_size this - pos)) in
    ret (match detail.memchr range ch with
         | Some d => pos + d
         | None => npos
         end).

(** The loop of [rfind(char, pos)]: [for (difference_type i = pos; i >= 0;
    --i) if (p[i] == ch) return i;]. *)
Fixpoint rfind_char_loop (fuel : nat) (p : list Z) (ch : Z) (i : Z) : outcome Z :=
  if 0 <=? i then
    match fuel with
    | O => OutOfFuel
    | S fuel' =>
      match detail.two_way.read p i with
      | Some b => if b =? ch then Ok i else rfind_char_loop fuel' p ch (i - 1)
      | None => Undefined
      end
    end
  else Ok npos.

(** [rfind(char ch, size_type pos)]; the index runs over at most
    [pos + 1] values. *)
Definition rfind_char (this : string) (ch pos : Z) : M Z :=
  if _size this =? 0 then ret npos
  else
    let pos := if _size this <=? pos then _size this - 1 else pos in
    fun w =>
      match load_storage this w with
      | Ok (p, w') =>
        match rfind_char_loop (Z.to_nat (pos + 1)) p ch pos with
        | Ok r => Ok (r, w')
        | Throw e => Throw e
        | Undefined => Undefined
        | OutOfFuel => OutOfFuel
        end
      | Throw e => Throw e
      | Undefined => Undefined
      | OutOfFuel => OutOfFuel
      end.

(** [contains(char ch)]. *)
Definition contains_char (this : string) (ch : Z) : M bool :=
  let* r := find_char this ch 0 in
  ret (negb (r =? npos)).

(** *** Comparison *)

(** [operator==(const string& other)]: the sizes are compared first, the
    bytes only when they agree. *)
Definition string_eq (this other : string) : M bool :=
  if negb (_size this =? _size other) then ret false
  else
    let* a := load_storage this in
    let* b := load_storage other in
    let* x := lift (subbuf a 0 (_size this)) in
    let* y := lift (subbuf b 0 (_size this)) in
    ret (detail.bytes_eqb x y).

(** [starts_with(std::string_view sv)]. *)
Definition starts_with (this : string) (sv : list Z) : M bool :=
  let n := Z.of_nat (length sv) in
  if _size this <? n then ret false
  else
    let* p := load_storage this in
    let* x := lift (subbuf p 0 n) in
    ret (detail.bytes_eqb x sv).

(** [ends_with(std::string_view sv)]. *)
Definition ends_with (this : string) (sv : list Z) : M bool :=
  let n := Z.of_nat (length sv) in
  if _size this <? n then ret false
  else
    let* p := load_storage this in
    let* x := lift (subbuf p (_size this - n) n) in
    ret (detail.bytes_eqb x sv).

(** *** More constructors *)

(** [string(const string& other)].  The bytes of the new inline buffer
    beyond the copied ones are indeterminate; the embedding takes zeros. *)
Definition string_copy (other : string) : M string :=
  let this := mkString sso_fresh (_size other) 0 in
  if _is_heap_allocated other then
    let* this := _allocate_heap_exact this (_size other) in
    (* std::memcpy(_data.heap.ptr, other._data.heap.ptr, other._size);
       _data.heap.ptr[_size] = '\0'; *)
    let* bytes := block_read (heap_ptr (_data other)) 0 (_size other) in
    let* _ := emit (EvCopy (heap_ptr (_data this)) (heap_ptr (_data other))
                      (_size other)) in
    let* _ := block_write (heap_ptr (_data this)) 0 bytes in
    let* _ := block_write (heap_ptr (_data this)) (_size this) [0] in
    ret this
  else
    let* buf := lift (detail.copy_sso (sso_view (_data this))
                        (sso_view (_data other)) (sz (_size other + 1))) in
    ret (mkString (Sso buf) (_size other) 0).

(** [string(const string& other, size_type pos, size_type count)]. *)
Definition string_sub (other : string) (pos count : Z) : M string :=
  let this := mkString sso_fresh 0 0 in
  let* buf := lift (poke (sso_view (_data this)) 0 0) in
  let this := mkString (Sso buf) 0 0 in
  if _size other <? pos then throw out_of_range
  else
    let len := Z.min count (_size other - pos) in
    if len =? 0 then ret this
    else
      let* p := load_storage other in
      let* src := lift (subbuf p pos len) in
      if detail.fits_in_sso len then fill_from this src
      else
        let* this := _allocate_heap_exact this len in
        fill_from this src.

(** [substr(size_type pos, size_type len)]. *)
Definition substr (this : string) (pos len : Z) : M string :=
  if _size this <? pos then throw out_of_range
  else
    let len := Z.min len (_size this - pos) in
    let* p := load_storage this in
    let* src := lift (subbuf p pos len) in
    string_from src.

(** [copy(char* dest, size_type count, size_type pos)]: the number of
    bytes copied and the destination buffer afterwards. *)
Definition copy (this : string) (dest : list Z) (count pos : Z)
    : M (Z * list Z) :=
  if _size this <? pos then throw out_of_range
  else
    let len := Z.min count (_size this - pos) in
    let* p := load_storage this in
    let* src := lift (subbuf p pos len) in
    let* dest := lift (memcpy_at dest 0 src) in
    ret (len, dest).

(** *** More modifiers *)

(** [append(char ch)]. *)
Definition append_char (this : string) (ch : Z) : M string :=
  let cur_size := _size this in
  let new_size := sz (cur_size + 1) in
  let* this :=
    if capacity this <? new_size then _grow_to this new_size else ret this in
  let* buf := load_storage this in
  let* buf := lift (poke buf cur_size ch) in
  let* buf := lift (poke buf new_size 0) in
  let* this := store_storage this buf in
  ret (with_size this new_size).

(** [push_back(char ch)]. *)
Definition push_back (this : string) (ch : Z) : M string :=
  append_char this ch.




(** *** Concatenation *)

(** [_concat_raw(lhs_ptr, lhs_size, rhs_ptr, rhs_size)], which
    [operator+] on two lvalues forwards to. *)
Definition _concat_raw (lhs rhs : list Z) : M string :=
  let out := string_default in
  let lhs_size := Z.of_nat (length lhs) in
  let rhs_size := Z.of_nat (length rhs) in
  let total := sz (lhs_size + rhs_size) in
  if total =? 0 then ret out
  else if detail.fits_in_sso total then
    let buf := sso_view (_data out) in
    let* buf :=
      if negb (lhs_size =? 0) then lift (detail.copy_sso buf lhs lhs_size)
      else ret buf in
    let* buf :=
      if negb (rhs_size =? 0) then
        (* detail::copy_sso(out._data.sso + lhs_size, rhs_ptr, rhs_size); *)
        let* tail := lift (detail.copy_sso (drop (Z.to_nat lhs_size) buf)
                             rhs rhs_size) in
        ret (take (Z.to_nat lhs_size) buf ++ tail)
      else ret buf in
    let* buf := lift (poke buf total 0) in
    ret (mkString (Sso buf) total 0)
  else
    let* out := _allocate_heap out total in
    let dst := heap_ptr (_data out) in
    let* _ := if negb (lhs_size =? 0) then block_write dst 0 lhs else ret tt in
    let* _ := if negb (rhs_size =? 0) then block_write dst lhs_size rhs
              else ret tt in
    let* _ := block_write dst total [0] in
    ret (with_size out total).

(** [operator+(const string& lhs, const string& rhs)]. *)
Definition concat (lhs rhs : string) : M string :=
  let* a := content lhs in
  let* b := content rhs in
  _concat_raw a b.

(** ** class basic_lazy_concat

    [_views] holds the appended parts and [_total_size] their summed
    sizes; a part is represented by the bytes it views. *)
Record lazy_concat : Type := mkLazy {
  _views : list (list Z);
  _total_size : Z
}.

Definition lazy_empty : lazy_concat := mkLazy [] 0.

(** [append(std::string_view part)]. *)
Definition lazy_append (chain : lazy_concat) (part : list Z) : lazy_concat :=
  mkLazy (_views chain ++ [part])
         (sz (_total_size chain + Z.of_nat (length part))).

(** The copy loop of [materialize]: [dst] is the offset of the write
    pointer in the output buffer. *)
Fixpoint materialize_parts (parts : list (list Z)) (buf : list Z) (dst : Z)
    : option (list Z) :=
  match parts with
  | [] => Some buf
  | part :: rest =>
    let n := Z.of_nat (length part) in
    tail ← detail.copy_small (drop (Z.to_nat dst) buf) part n;
    materialize_parts rest (take (Z.to_nat dst) buf ++ tail) (dst + n)
  end.

(** [materialize()]. *)
Definition materialize (chain : lazy_concat) : M string :=
  match _views chain with
  | [] => ret string_default
  | [only] => string_from only
  | _ =>
    let out := string_default in
    let* out := reserve out (_total_size chain) in
    let* buf := load_storage out in
    let* buf := lift (materialize_parts (_views chain) buf 0) in
    let* out := store_storage out buf in
    let out := with_size out (_total_size chain) in
    let* buf := load_storage out in
    let* buf := lift (poke buf (_total_size chain) 0) in
    store_storage out buf
  end.

End fl.

(** * include/fl/builder.hpp *)

Module string_builder.

Inductive growth_policy : Type :=
| linear        (* Grow by constant amount. *)
| exponential.  (* Grow by multiplier (1.5x or 2x). *)

Definition kInitialCapacity : Z := 64.
Definition kHalfGrowthThreshold : Z := 256.

(** The [while (candidate < target)] loop of
    [_calculate_growth_capacity]. *)
Fixpoint growth_loop (fuel : nat) (candidate target : Z) : outcome Z :=
  if candidate <? target then
    match fuel with
    | O => OutOfFuel
    | S fuel' =>
      let candidate :=
        if candidate <? kHalfGrowthThreshold
        then Z.max (sz (candidate * 2)) kInitialCapacity
        else sz (candidate + candidate / 2) in
      growth_loop fuel' candidate target
    end
  else Ok candidate.

(** [_calculate_growth_capacity(min_size)] of a builder with the given
    policy, [_capacity] and [_linear_growth]; the loop makes at most
    [target] rounds while nothing wraps. *)
Definition _calculate_growth_capacity (_growth_policy : growth_policy)
    (_capacity _linear_growth min_size : Z) : outcome Z :=
  let target := Z.max min_size kInitialCapacity in
  match _growth_policy with
  | linear =>
    if target <=? _capacity then Ok _capacity
    else if _linear_growth =? 0 then Undefined
    else
      let steps := sz (target - _capacity + _linear_growth - 1) / _linear_growth in
      Ok (Z.max (sz (_capacity + steps * _linear_growth)) target)
  | exponential =>
    let candidate := Z.max _capacity kInitialCapacity in
    let candidate := if candidate =? 0 then kInitialCapacity else candidate in
    growth_loop (Z.to_nat target) candidate target
  end.

Definition INT64_MAX : Z := 2 ^ 63 - 1.
Definition INT64_MIN : Z := - 2 ^ 63.

(** The loop [while (value > 0) { temp[len++] = '0' + (value % 10);
    value /= 10; }] of [_format_uint64]. *)
Fixpoint format_digits (fuel : nat) (temp : list Z) (len value : Z)
    : outcome (list Z * Z) :=
  if 0 <? value then
    match fuel with
    | O => OutOfFuel
    | S fuel' =>
      match poke temp len (48 + value mod 10) with
      | Some temp => format_digits fuel' temp (len + 1) (value / 10)
      | None => Undefined
      end
    end
  else Ok (temp, len).

(** [_format_uint64(buffer, capacity, value)]: the length returned and the
    buffer afterwards.  [temp] has 20 bytes. *)
Definition _format_uint64 (buffer : list Z) (capacity value : Z)
    : outcome (Z * list Z) :=
  if capacity =? 0 then Ok (0, buffer)
  else if value =? 0 then
    match poke buffer 0 48 with
    | Some buffer => Ok (1, buffer)
    | None => Undefined
    end
  else
    match format_digits 21 (replicate 20 0) 0 value with
    | Ok (temp, len) =>
      (* std::reverse_copy(temp, temp + len, buffer); *)
      match memcpy_at buffer 0 (rev (take (Z.to_nat len) temp)) with
      | Some buffer => Ok (len, buffer)
      | None => Undefined
      end
    | Throw e => Throw e
    | Undefined => Undefined
    | OutOfFuel => OutOfFuel
    end.

(** The loop [while (temp > 0) { ++len; temp /= 10; }] of
    [_format_int64]. *)
Fixpoint count_digits (fuel : nat) (len temp : Z) : outcome Z :=
  if 0 <? temp then
    match fuel with
    | O => OutOfFuel
    | S fuel' => count_digits fuel' (len + 1) (temp / 10)
    end
  else Ok len.

(** The loop [while (uvalue > 0) { buffer[--pos] = '0' + (uvalue % 10);
    uvalue /= 10; }]. *)
Fixpoint write_digits (fuel : nat) (buffer : list Z) (pos uvalue : Z)
    : outcome (list Z) :=
  if 0 <? uvalue then
    match fuel with
    | O => OutOfFuel
    | S fuel' =>
      let pos := sz (pos - 1) in
      match poke buffer pos (48 + uvalue mod 10) with
      | Some buffer => write_digits fuel' buffer pos (uvalue / 10)
      | None => Undefined
      end
    end
  else Ok buffer.

(** [_format_int64(buffer, capacity, value)]. *)
Definition _format_int64 (buffer : list Z) (capacity value : Z)
    : outcome (Z * list Z) :=
  if capacity =? 0 then Ok (0, buffer)
  else if value =? 0 then
    match poke buffer 0 48 with
    | Some buffer => Ok (1, buffer)
    | None => Undefined
    end
  else
    let negative := value <? 0 in
    let uvalue :=
      if negative
      then (if value =? INT64_MIN then INT64_MAX + 1 else - value)
      else value in
    match count_digits 21 0 uvalue with
    | Ok len =>
      let total_len := if negative then len + 1 else len in
      if capacity <? total_len then Ok (0, buffer)
      else
        match write_digits 21 buffer total_len uvalue with
        | Ok buffer =>
          if negative then
            match poke buffer 0 45 with
            | Some buffer => Ok (total_len, buffer)
            | None => Undefined
            end
          else Ok (total_len, buffer)
        | Throw e => Throw e
        | Undefined => Undefined
        | OutOfFuel => OutOfFuel
        end
    | Throw e => Throw e
    | Undefined => Undefined
    | OutOfFuel => OutOfFuel
    end.

End string_builder.

(** * Vocabulary of the properties *)

Import alloc_hooks fl fl.detail.

(** The inline buffer has its 24 bytes. *)
Definition string_shape (this : string) : Prop :=
  length (sso_view (_data this)) = 24%nat.

(** Every block the recycler holds is live and as large as its class, and
    no class holds more than [POOL_SLAB_DEPTH] blocks. *)
Definition pool_live (w : world) : Prop :=
  forall idx, 0 <= idx < 7 ->
    0 <= count_of (tls w) idx <= POOL_SLAB_DEPTH /\
    forall k, 0 <= k < count_of (tls w) idx ->
      exists blk, mem w !! slot_of (tls w) idx k = Some blk /\
                  pool_class idx <= Z.of_nat (length blk).

(** The data-model invariant of a string value in a world: the length is
    within the capacity, and the active variant has its buffer (the inline
    array, or a live heap block that covers capacity and terminator). *)
Definition string_wf (this : string) (w : world) : Prop :=
  0 <= _size this <= capacity this /\
  if _is_heap_allocated this
  then exists buf, mem w !! heap_ptr (_data this) = Some buf /\
                   capacity this + 1 <= Z.of_nat (length buf)
  else string_shape this.

(** [cls] is the smallest size class that is at least [raw]. *)
Definition smallest_class_ge (cls raw : Z) : Prop :=
  cls ∈ POOL_CLASSES /\ raw <= cls /\
  forall c, c ∈ POOL_CLASSES -> raw <= c -> cls <= c.

(** The request [_grow_to] and [_allocate_heap] send to the allocation
    layer for a given minimum capacity. *)
Definition grow_request (min_capacity : Z) : Z :=
  sz (_calculate_new_capacity min_capacity + 1).

(** The result of a call, without the final state. *)
Definition value {A} (o : outcome (A * world)) : outcome A :=
  match o with
  | Ok (a, _) => Ok a
  | Throw e => Throw e
  | Undefined => Undefined
  | OutOfFuel => OutOfFuel
  end.

(** A call that lets no exception out. *)
Definition no_throw {A} (m : M A) : Prop :=
  forall w e, m w <> Throw e.

(** The allocation-layer log a call leaves behind. *)
Definition trace_of {A} (o : outcome (A * world)) : list event :=
  match o with
  | Ok (_, w) => trace w
  | _ => []
  end.

(** [e1] is logged before [e2]. *)
Definition happens_before (e1 e2 : event) (tr : list event) : Prop :=
  exists i j, (i < j)%nat /\ tr !! i = Some e1 /\ tr !! j = Some e2.

(** The reference scan: the first offset [i >= from] at which [needle]
    occurs in [data], the bytes of the haystack from offset [from] on. *)
Fixpoint scan_from (data needle : list Z) (from : Z) : option Z :=
  if detail.bytes_eqb (take (length needle) data) needle then Some from
  else
    match data with
    | [] => None
    | _ :: rest => scan_from rest needle (from + 1)
    end.

(** The brute-force reference for [find]: the index of the first
    occurrence at or after [start_pos], or [npos]. *)
Definition brute_force_find (haystack needle : list Z) (start_pos : Z) : Z :=
  if Z.of_nat (length haystack) <? start_pos then npos
  else
    match scan_from (drop (Z.to_nat start_pos) haystack) needle start_pos with
    | Some i => i
    | None => npos
    end.

(** [needle] occurs in [haystack] at index [i]. *)
Definition occurs_at (haystack needle : list Z) (i : nat) : Prop :=
  (i + length needle <= length haystack)%nat /\
  take (length needle) (drop i haystack) = needle.

(** Construct a string from [haystack], then search it. *)
Definition find_in_fresh_string (avx2 : bool) (haystack needle : list Z)
    (pos : Z) : M Z :=
  let* s := string_from haystack in
  find avx2 s needle pos.

(** [p] is one of the blocks the recycler holds. *)
Definition in_pool (t : TlsFreeLists) (p : Z) : Prop :=
  exists idx k, 0 <= idx < 7 /\ 0 <= k < count_of t idx /\ slot_of t idx k = p.

(** The recycler holds no block twice. *)
Definition pool_distinct (t : TlsFreeLists) : Prop :=
  forall idx k idx' k',
    0 <= idx < 7 -> 0 <= k < count_of t idx ->
    0 <= idx' < 7 -> 0 <= k' < count_of t idx' ->
    slot_of t idx k = slot_of t idx' k' -> idx = idx' /\ k = k'.

(** The invariant of the allocation layer: the free lists have their
    shape, every recycled block is live, as large as its class and held
    once, and the live blocks lie between [nullptr] and the platform
    allocator's next address. *)
Definition heap_ok (w : world) : Prop :=
  tls_shape (tls w) /\ pool_live w /\ pool_distinct (tls w) /\
  0 < brk w /\ forall q, is_Some (mem w !! q) -> 0 < q < brk w.

(** A string has its buffers: the union holds its 24 bytes, and a
    Heap-variant string has a live heap block that is as large as the
    allocation layer made it for [capacity() + 1] bytes and that the
    recycler does not hold. *)
Definition backed (this : string) (w : world) : Prop :=
  0 <= capacity this < 2 ^ 63 /\
  string_shape this /\
  (_is_heap_allocated this = true ->
     exists buf, mem w !! heap_ptr (_data this) = Some buf /\
                 pool_alloc_usable_capacity (capacity this + 1) + 1
                   <= Z.of_nat (length buf) /\
                 ~ in_pool (tls w) (heap_ptr (_data this))).

(** The representation invariant of a string in a state: the length is
    within the capacity, [data()[size()]] is the terminator, and the
    active variant has its buffer. *)
Definition valid (this : string) (w : world) : Prop :=
  0 <= _size this <= capacity this /\
  terminator this w = Ok (0, w) /\
  backed this w.

(** A [char] value. *)
Definition is_byte (b : Z) : Prop := 0 <= b < 256.

(** [r] is the offset of the first byte of [data] equal to [target], or
    [None] when no byte is. *)
Definition first_byte (data : list Z) (target : Z) (r : option Z) : Prop :=
  match r with
  | Some d => 0 <= d /\ data !! Z.to_nat d = Some target /\
              forall i, (i < Z.to_nat d)%nat -> data !! i <> Some target
  | None => forall i, data !! i <> Some target
  end.

(** [r] is the offset of the first occurrence of [needle] in [haystack],
    or [None] when it does not occur. *)
Definition first_occurrence (haystack needle : list Z) (r : option Z) : Prop :=
  match r with
  | Some d => exists i : nat, d = Z.of_nat i /\ occurs_at haystack needle i /\
                forall j, (j < i)%nat -> ~ occurs_at haystack needle j
  | None => forall i, ~ occurs_at haystack needle i
  end.

(** The thresholds of the adaptive search are within their limits and on
    their grids. *)
Definition tuning_ok (st : find_tuning_state) : Prop :=
  128 <= small_haystack_cutoff st <= 512 /\
  small_haystack_cutoff st mod 8 = 0 /\
  2048 <= bmh_haystack_cutoff st <= 8192 /\
  bmh_haystack_cutoff st mod 128 = 0.

(** One observation reported to [adapt_find_thresholds]. *)
Record observation : Type := mkObservation {
  obs_haystack_len : Z;
  obs_needle_len : Z;
  obs_low_entropy : bool;
  obs_found_pos : Z
}.

Definition observe (st : find_tuning_state) (o : observation)
    : find_tuning_state :=
  adapt_find_thresholds st (obs_haystack_len o) (obs_needle_len o)
    (obs_low_entropy o) (obs_found_pos o).

(** An ASCII decimal digit, and the number a digit string denotes. *)
Definition is_digit (c : Z) : Prop := 48 <= c <= 57.

Definition decimal_value (digits : list Z) : Z :=
  foldl (fun acc c => 10 * acc + (c - 48)) 0 digits.

(** The number a decimal text with an optional leading ['-'] denotes. *)
Definition signed_decimal_value (text : list Z) : Z :=
  match text with
  | c :: digits => if c =? 45 then - decimal_value digits
                   else decimal_value text
  | [] => 0
  end.

(** The decimal digits of [v], least significant first. *)
Fixpoint digits_of (fuel : nat) (v : Z) : list Z :=
  if 0 <? v then
    match fuel with
    | O => []
    | S fuel' => (48 + v mod 10) :: digits_of fuel' (v / 10)
    end
  else [].

(** *** Example values

    The needle "aaaaaaabb" and a 64 KiB haystack "a" ++ "aaaaaaabb" ++
    "zzz..."; the string of 30 bytes "aaa..." as the constructor leaves it
    in an empty world (a 64-byte block at address 4096); the inline
    string "abc". *)
Definition needle_aaaaaaabb : list Z := [97; 97; 97; 97; 97; 97; 97; 98; 98].
Definition haystack_64k : list Z :=
  97 :: needle_aaaaaaabb ++ replicate (Z.to_nat 65526) 122.

(** The two large-haystack scenarios of the specification: "needle" at
    offset 900 of a 1000-byte buffer of filler, and 24 x 'a' then 'b' at
    the last valid offset of 100000 bytes of 'a'; and the second one with
    one more leading 'a'. *)
Definition needle_word : list Z := [110; 101; 101; 100; 108; 101].
Definition haystack_1000 : list Z :=
  replicate 900 120 ++ needle_word ++ replicate 94 120.
Definition needle_24a_b : list Z := replicate 24 97 ++ [98].
Definition haystack_100k : list Z :=
  replicate (Z.to_nat 99975) 97 ++ needle_24a_b.
Definition haystack_100k_plus_1 : list Z := 97 :: haystack_100k.

Definition demo_bytes : list Z := replicate 30 97.
Definition demo_block : list Z := demo_bytes ++ replicate 34 0.
Definition demo_world : world :=
  mkWorld tls_zero {[4096 := demo_block]} 4160 [EvAllocate 31 4096].
Definition demo_heap : string := mkString (Heap 4096 63) 30 1.
Definition demo_inline : string :=
  mkString (Sso ([97; 98; 99; 0] ++ replicate 20 0)) 3 0.

(** [window n i w]: some bit of [n] is set in positions [i .. i + w - 1]. *)
Fixpoint window (n i : Z) (w : nat) : bool :=
  match w with
  | O => false
  | S w' => Z.testbit n i || window n (i + 1) w'
  end.

(** *** Tactics for concrete instances *)

Ltac class_cases idx :=
  assert (idx = 0 \/ idx = 1 \/ idx = 2 \/ idx = 3 \/ idx = 4 \/ idx = 5 \/ idx = 6)
    as [-> | [-> | [-> | [-> | [-> | [-> | ->]]]]]] by lia.

Ltac pool_live_by_computation :=
  let idx := fresh "idx" in
  let Hidx := fresh "Hidx" in
  let k := fresh "k" in
  let Hk := fresh "Hk" in
  intros idx Hidx; class_cases idx;
  (split; [cbv -[Z.le Z.lt]; lia | intros k Hk; cbv -[Z.le Z.lt] in Hk; lia]).

Ltac arith_by_computation := cbv -[Z.le Z.lt]; lia.

(** * Facts about raw buffers *)

Lemma memcpy_at_ok buf off src :
  0 <= off -> off + Z.of_nat (length src) <= Z.of_nat (length buf) ->
  memcpy_at buf off src =
    Some (take (Z.to_nat off) buf ++ src ++ drop (Z.to_nat off + length src)%nat buf).
Proof.
  intros H1 H2. unfold memcpy_at.
  destruct (0 <=? off) eqn:E1; [| apply Z.leb_gt in E1; lia].
  destruct (off + Z.of_nat (length src) <=? Z.of_nat (length buf)) eqn:E2;
    [reflexivity | apply Z.leb_gt in E2; lia].
Qed.

Lemma subbuf_ok buf off len :
  0 <= off -> 0 <= len -> off + len <= Z.of_nat (length buf) ->
  subbuf buf off len = Some (take (Z.to_nat len) (drop (Z.to_nat off) buf)).
Proof.
  intros H1 H2 H3. unfold subbuf.
  destruct (0 <=? off) eqn:E1; [| apply Z.leb_gt in E1; lia].
  destruct (0 <=? len) eqn:E2; [| apply Z.leb_gt in E2; lia].
  destruct (off + len <=? Z.of_nat (length buf)) eqn:E3;
    [reflexivity | apply Z.leb_gt in E3; lia].
Qed.

Lemma memcpy_at_length buf off src buf' :
  memcpy_at buf off src = Some buf' -> length buf' = length buf.
Proof.
  unfold memcpy_at.
  destruct (0 <=? off) eqn:E1; simpl; [| discriminate].
  destruct (off + Z.of_nat (length src) <=? Z.of_nat (length buf)) eqn:E2;
    [| discriminate].
  apply Z.leb_le in E1, E2. intros H. inversion H.
  rewrite !length_app, length_take, length_drop. lia.
Qed.

Lemma subbuf_Some buf off len bytes :
  subbuf buf off len = Some bytes ->
  0 <= off /\ 0 <= len /\ off + len <= Z.of_nat (length buf) /\
  bytes = take (Z.to_nat len) (drop (Z.to_nat off) buf).
Proof.
  unfold subbuf. intros H.
  destruct (0 <=? off) eqn:E1; simpl in H; [| discriminate].
  destruct (0 <=? len) eqn:E2; simpl in H; [| discriminate].
  destruct (off + len <=? Z.of_nat (length buf)) eqn:E3; [| discriminate].
  apply Z.leb_le in E1, E2, E3. inversion H. auto.
Qed.

(** The buffer after [memcpy(ptr, cstr, len); ptr[len] = '\0']. *)
Lemma write_cstr_ok buf cstr :
  Z.of_nat (length cstr) + 1 <= Z.of_nat (length buf) ->
  exists buf',
    memcpy_at buf 0 cstr = Some buf' /\
    poke buf' (Z.of_nat (length cstr)) 0
      = Some (cstr ++ 0 :: drop (S (length cstr)) buf) /\
    length buf' = length buf.
Proof.
  intros Hlen. eexists. split; [apply memcpy_at_ok; lia |].
  simpl. split.
  - unfold poke. rewrite memcpy_at_ok.
    + f_equal. rewrite Nat2Z.id.
      rewrite take_app_length. simpl. f_equal. f_equal.
      rewrite drop_app_ge by lia. rewrite drop_drop. f_equal. lia.
    + lia.
    + rewrite length_app, length_drop. simpl. lia.
  - rewrite length_app, length_drop. lia.
Qed.

(** * The block recycler *)

Lemma pool_class_index_range n :
  0 <= pool_class_index n -> pool_class_index n < 7.
Proof.
  unfold pool_class_index, POOL_CLASSES. simpl.
  repeat (match goal with |- context [if ?c then _ else _] => destruct c end); lia.
Qed.

Lemma count_of_set_count t idx c :
  0 <= idx < 7 -> length (counts t) = 7%nat ->
  count_of (set_count t idx c) idx = c.
Proof.
  intros Hidx Hlen. unfold count_of, set_count. simpl.
  rewrite list_lookup_insert_eq by lia. reflexivity.
Qed.

Lemma slot_of_set_count t idx c k :
  slot_of (set_count t idx c) idx k = slot_of t idx k.
Proof. reflexivity. Qed.

Lemma slot_of_set_slot t idx k p :
  0 <= idx < 7 -> 0 <= k < 8 -> tls_shape t ->
  slot_of (set_slot t idx k p) idx k = p.
Proof.
  intros Hidx Hk (Hc & Hs & Hrows). unfold slot_of, set_slot. simpl.
  rewrite list_lookup_insert_eq by lia. simpl.
  destruct (slots t !! Z.to_nat idx) as [row|] eqn:Hrow.
  - simpl. pose proof (Forall_lookup_1 _ _ _ _ Hrows Hrow) as Hlen. simpl in Hlen.
    rewrite list_lookup_insert_eq by lia. reflexivity.
  - apply lookup_ge_None in Hrow. lia.
Qed.

Lemma count_of_set_slot t idx k p j :
  count_of (set_slot t idx k p) j = count_of t j.
Proof. reflexivity. Qed.

Lemma tls_shape_set_slot t idx k p :
  tls_shape t -> tls_shape (set_slot t idx k p).
Proof.
  intros (Hc & Hs & Hrows). unfold tls_shape, set_slot; simpl.
  repeat split; [exact Hc | now rewrite length_insert |].
  destruct (slots t !! Z.to_nat idx) as [row|] eqn:Hrow.
  - apply Forall_insert; [exact Hrows |]. simpl. rewrite length_insert.
    exact (Forall_lookup_1 _ _ _ _ Hrows Hrow).
  - rewrite list_insert_ge; [exact Hrows |]. now apply lookup_ge_None.
Qed.

Lemma tls_shape_set_count t idx c :
  tls_shape t -> tls_shape (set_count t idx c).
Proof.
  intros (Hc & Hs & Hrows). unfold tls_shape, set_count; simpl.
  repeat split; [now rewrite length_insert | exact Hs | exact Hrows].
Qed.

Lemma sz_small x : 0 <= x < 2 ^ 64 -> sz x = x.
Proof. intros H. unfold sz. apply Z.mod_small. lia. Qed.

Lemma u8_small x : 0 <= x < 256 -> u8 x = x.
Proof. intros H. unfold u8. apply Z.mod_small. lia. Qed.

Lemma pool_class_fits n :
  0 <= pool_class_index n -> n <= pool_class (pool_class_index n).
Proof.
  unfold pool_class_index, POOL_CLASSES. simpl.
  repeat (match goal with
          | |- context [if ?x <=? ?y then _ else _] =>
              destruct (Z.leb_spec x y)
          end); intros Hidx; try lia; unfold pool_class, POOL_CLASSES; simpl; lia.
Qed.

Lemma pool_class_index_large n :
  pool_class_index n < 0 -> 4096 < n.
Proof.
  unfold pool_class_index, POOL_CLASSES. simpl.
  repeat (match goal with
          | |- context [if ?x <=? ?y then _ else _] =>
              destruct (Z.leb_spec x y)
          end); lia.
Qed.

(** What an allocation through the recycler gives back: a live block that
    covers the usable capacity the string will record, and its terminator. *)
Lemma allocate_bytes_ok n align w :
  pool_live w -> 0 < n < 2 ^ 64 ->
  exists p w' blk,
    allocate_bytes_aligned n align w = Ok (p, w') /\
    trace w' = trace w ++ [EvAllocate n p] /\
    mem w' !! p = Some blk /\ n <= Z.of_nat (length blk) /\
    n <= pool_alloc_usable_capacity n + 1 <= Z.of_nat (length blk) /\
    (forall q, q <> p -> mem w' !! q = mem w !! q).
Proof.
  intros Hpool Hn.
  assert (Hfresh : forall size, 0 < size -> exists p w' blk,
            allocate_aligned_unpooled size align w = Ok (p, w') /\
            trace w' = trace w /\
            mem w' !! p = Some blk /\ size = Z.of_nat (length blk) /\
            (forall q, q <> p -> mem w' !! q = mem w !! q)).
  { intros size Hpos. unfold allocate_aligned_unpooled.
    destruct (size =? 0) eqn:E; [apply Z.eqb_eq in E; lia |].
    eexists _, _, _. split; [reflexivity |]. simpl.
    split; [reflexivity |]. split; [apply lookup_insert_eq |].
    split; [rewrite length_replicate; lia |].
    intros q Hq. apply lookup_insert_ne. congruence. }
  assert (Hdef : exists p w' blk,
            default_allocate_aligned n align w = Ok (p, w') /\
            trace w' = trace w /\
            mem w' !! p = Some blk /\
            n <= pool_alloc_usable_capacity n + 1 <= Z.of_nat (length blk) /\
            (forall q, q <> p -> mem w' !! q = mem w !! q)).
  { unfold default_allocate_aligned, pool_alloc_usable_capacity.
    destruct (n =? 0) eqn:E; [apply Z.eqb_eq in E; lia |].
    destruct (pool_class_index n <? 0) eqn:Ei.
    { apply Z.ltb_lt in Ei.
      destruct (0 <=? pool_class_index n) eqn:Ei'; [apply Z.leb_le in Ei'; lia |].
      destruct (Hfresh n ltac:(lia)) as (p & w' & blk & H1 & H2 & H3 & H4 & H5).
      exists p, w', blk. rewrite sz_small by lia. repeat split; auto; lia. }
    apply Z.ltb_ge in Ei.
    destruct (0 <=? pool_class_index n) eqn:Ei'; [| apply Z.leb_gt in Ei'; lia].
    pose proof (pool_class_index_range n Ei) as Hlt.
    pose proof (pool_class_fits n Ei) as Hfit.
    destruct (Hpool (pool_class_index n) ltac:(lia)) as [Hc Hslots].
    unfold POOL_SLAB_DEPTH in Hc.
    destruct (0 <? count_of (tls w) (pool_class_index n)) eqn:Ec.
    - apply Z.ltb_lt in Ec.
      rewrite u8_small by lia.
      destruct (Hslots (count_of (tls w) (pool_class_index n) - 1) ltac:(lia))
        as (blk & Hblk & Hlen).
      eexists _, _, blk. split; [reflexivity |]. simpl.
      split; [reflexivity |]. split; [exact Hblk |]. split; [lia |].
      reflexivity.
    - destruct (Hfresh (pool_class (pool_class_index n)) ltac:(lia))
        as (p & w' & blk & H1 & H2 & H3 & H4 & H5).
      exists p, w', blk. repeat split; auto; lia. }
  destruct Hdef as (p & w' & blk & Hd & Ht & Hm & Hl & Hq).
  exists p, (mkWorld (tls w') (mem w') (brk w') (trace w' ++ [EvAllocate n p])), blk.
  unfold allocate_bytes_aligned, bind. rewrite Hd. simpl.
  split; [reflexivity |]. split; [now rewrite Ht |].
  split; [exact Hm |]. split; [lia |]. auto.
Qed.

Lemma block_read_ok p len w buf :
  mem w !! p = Some buf -> 0 <= len <= Z.of_nat (length buf) ->
  block_read p 0 len w = Ok (take (Z.to_nat len) buf, w).
Proof.
  intros Hb Hl. unfold block_read. rewrite Hb, subbuf_ok by lia. reflexivity.
Qed.

Lemma block_write_ok p off bytes w buf :
  mem w !! p = Some buf -> 0 <= off ->
  off + Z.of_nat (length bytes) <= Z.of_nat (length buf) ->
  exists buf',
    block_write p off bytes w = Ok (tt, with_mem w (<[p := buf']> (mem w))) /\
    length buf' = length buf.
Proof.
  intros Hb H0 Hl. unfold block_write. rewrite Hb.
  destruct (memcpy_at buf off bytes) as [buf'|] eqn:Hc.
  - exists buf'. split; [reflexivity |]. eapply memcpy_at_length; eauto.
  - rewrite memcpy_at_ok in Hc by lia. discriminate.
Qed.

Lemma default_deallocate_mem p n align w :
  (p <> nullptr -> is_Some (mem w !! p)) ->
  exists w',
    default_deallocate_aligned p n align w = Ok (tt, w') /\
    trace w' = trace w /\ brk w' = brk w /\
    (mem w' = mem w \/ mem w' = delete p (mem w)).
Proof.
  intros Hlive. unfold default_deallocate_aligned.
  destruct (p =? nullptr) eqn:Ep.
  { exists w. auto. }
  apply Z.eqb_neq in Ep. destruct (Hlive Ep) as [blk Hblk].
  assert (Hfree : exists w',
            deallocate_aligned_unpooled p n align w = Ok (tt, w') /\
            trace w' = trace w /\ brk w' = brk w /\
            (mem w' = mem w \/ mem w' = delete p (mem w))).
  { unfold deallocate_aligned_unpooled.
    destruct (p =? nullptr) eqn:Ep'; [apply Z.eqb_eq in Ep'; contradiction |].
    rewrite Hblk. eexists. split; [reflexivity |]. simpl. auto. }
  destruct (pool_class_index n <? 0); [exact Hfree |].
  destruct (count_of (tls w) (pool_class_index n) <? u8 POOL_SLAB_DEPTH);
    [| exact Hfree].
  eexists. split; [reflexivity |]. simpl. auto.
Qed.

Lemma deallocate_bytes_mem p n align w :
  (p <> nullptr -> is_Some (mem w !! p)) ->
  exists w',
    deallocate_bytes_aligned p n align w = Ok (tt, w') /\
    trace w' = trace w ++ [EvDeallocate p n] /\ brk w' = brk w /\
    (mem w' = mem w \/ mem w' = delete p (mem w)).
Proof.
  intros Hlive. unfold deallocate_bytes_aligned, bind, emit.
  set (w0 := mkWorld _ _ _ _).
  destruct (default_deallocate_mem p n align w0 Hlive) as (w' & H & Ht & Hb & Hm).
  exists w'. rewrite H. auto.
Qed.

(** C6 (amended).  For every size class: releasing a non-null block [b]
    with a size that maps to the class, while the class holds fewer than
    [POOL_SLAB_DEPTH] = 8 recycled blocks, and then allocating any
    non-zero size that maps to the same class, returns exactly [b]; the
    class is left with the count it had and no platform memory is touched.
    (A request of size zero returns [nullptr] before the class is
    consulted.) *)
Theorem release_then_allocate_reuses_block
    (w : world) (b n n' align align' : Z) :
  tls_shape (tls w) ->
  b <> nullptr ->
  n' <> 0 ->
  0 <= pool_class_index n ->
  pool_class_index n' = pool_class_index n ->
  0 <= count_of (tls w) (pool_class_index n) < POOL_SLAB_DEPTH ->
  exists w1 w2,
    default_deallocate_aligned b n align w = Ok (tt, w1) /\
    default_allocate_aligned n' align' w1 = Ok (b, w2) /\
    count_of (tls w2) (pool_class_index n) = count_of (tls w) (pool_class_index n) /\
    mem w2 = mem w.
Proof.
  intros Hshape Hb Hn' Hidx Hsame Hcount.
  pose proof (pool_class_index_range n Hidx) as Hlt.
  set (idx := pool_class_index n) in *.
  set (c := count_of (tls w) idx) in *.
  unfold POOL_SLAB_DEPTH in Hcount.
  eexists _, _. split; [| split; [| split]].
  - unfold default_deallocate_aligned.
    destruct (b =? nullptr) eqn:E; [apply Z.eqb_eq in E; contradiction |].
    fold idx. destruct (idx <? 0) eqn:E1; [apply Z.ltb_lt in E1; lia |].
    fold c. unfold POOL_SLAB_DEPTH. rewrite (u8_small 8) by lia.
    destruct (c <? 8) eqn:E2; [| apply Z.ltb_ge in E2; lia].
    reflexivity.
  - unfold default_allocate_aligned.
    destruct (n' =? 0) eqn:E; [apply Z.eqb_eq in E; contradiction |].
    rewrite Hsame. fold idx.
    destruct (idx <? 0) eqn:E1; [apply Z.ltb_lt in E1; lia |].
    cbn [tls with_tls].
    destruct Hshape as (Hc & Hs & Hrows).
    rewrite count_of_set_count by (simpl; lia).
    rewrite (u8_small (c + 1)) by lia.
    destruct (0 <? c + 1) eqn:E2; [| apply Z.ltb_ge in E2; lia].
    replace (c + 1 - 1) with c by lia. rewrite (u8_small c) by lia.
    rewrite slot_of_set_count, slot_of_set_slot by (try lia; repeat split; assumption).
    reflexivity.
  - cbn [tls with_tls]. destruct Hshape as (Hc & Hs & Hrows).
    rewrite count_of_set_count; [reflexivity | lia |].
    simpl. now rewrite length_insert.
  - reflexivity.
Qed.

(** * Growth-capacity arithmetic *)

Lemma window_app n a : forall i b,
  window n i (a + b) = window n i a || window n (i + Z.of_nat a) b.
Proof.
  induction a as [|a IH]; intros i b; simpl.
  - now rewrite Z.add_0_r.
  - rewrite IH, orb_assoc.
    replace (i + 1 + Z.of_nat a) with (i + Z.of_nat (S a)) by lia. reflexivity.
Qed.

Lemma window_true n w : forall i,
  window n i w = true <-> exists j, 0 <= j < Z.of_nat w /\ Z.testbit n (i + j) = true.
Proof.
  induction w as [|w IH]; intros i; simpl.
  - split; [discriminate | intros (j & ? & _); lia].
  - rewrite orb_true_iff, IH. split.
    + intros [H | (j & Hj & H)].
      * exists 0. rewrite Z.add_0_r. split; [lia | exact H].
      * exists (j + 1). split; [lia |]. now replace (i + (j + 1)) with (i + 1 + j) by lia.
    + intros (j & Hj & H). destruct (Z.eq_dec j 0) as [-> | Hne].
      * left. now rewrite Z.add_0_r in H.
      * right. exists (j - 1). split; [lia |].
        now replace (i + 1 + (j - 1)) with (i + j) by lia.
Qed.

Lemma smear_step n x w :
  (forall i, 0 <= i -> Z.testbit x i = window n i w) ->
  forall i, 0 <= i ->
    Z.testbit (Z.lor x (Z.shiftr x (Z.of_nat w))) i = window n i (w + w).
Proof.
  intros Hx i Hi.
  rewrite Z.lor_spec, Z.shiftr_spec by lia.
  rewrite window_app, !Hx by lia. reflexivity.
Qed.

Lemma smear_bits n :
  32 <= n ->
  forall i, 0 <= i -> Z.testbit (_calculate_new_capacity n) i = window n i 64.
Proof.
  intros Hn. unfold _calculate_new_capacity.
  destruct (n <? 32) eqn:E; [apply Z.ltb_lt in E; lia |].
  cbv zeta.
  assert (H1 : forall i, 0 <= i -> Z.testbit n i = window n i 1).
  { intros i _. simpl. now rewrite orb_false_r. }
  pose proof (smear_step n _ 1 H1) as H2.
  pose proof (smear_step n _ 2 H2) as H4.
  pose proof (smear_step n _ 4 H4) as H8.
  pose proof (smear_step n _ 8 H8) as H16.
  pose proof (smear_step n _ 16 H16) as H32.
  pose proof (smear_step n _ 32 H32) as H64.
  exact H64.
Qed.

Lemma smear_value n :
  32 <= n < 2 ^ 64 ->
  _calculate_new_capacity n = 2 ^ (Z.log2 n + 1) - 1.
Proof.
  intros [Hlo Hhi].
  assert (Hlog : 0 <= Z.log2 n < 64).
  { split; [apply Z.log2_nonneg |]. apply Z.log2_lt_pow2; lia. }
  replace (2 ^ (Z.log2 n + 1) - 1) with (Z.ones (Z.log2 n + 1))
    by (rewrite Z.ones_equiv; lia).
  apply Z.bits_inj'. intros i Hi.
  rewrite (smear_bits n Hlo i Hi).
  destruct (Z.le_gt_cases i (Z.log2 n)) as [Hle | Hgt].
  - rewrite Z.ones_spec_low by lia.
    apply window_true. exists (Z.log2 n - i). split; [simpl; lia |].
    replace (i + (Z.log2 n - i)) with (Z.log2 n) by lia.
    apply Z.bit_log2. lia.
  - rewrite Z.ones_spec_high by lia.
    apply not_true_iff_false. rewrite window_true.
    intros (j & Hj & Hbit).
    rewrite Z.bits_above_log2 in Hbit by lia. discriminate.
Qed.

(** C5.  For every required size [n] (a [std::size_t]),
    [_calculate_new_capacity n] is 32 when [n < 32], and otherwise the
    smallest value of the form [2^k - 1] that is at least [n]. *)
Theorem calculate_new_capacity_rule (n : Z) :
  0 <= n < 2 ^ 64 ->
  (n < 32 -> _calculate_new_capacity n = 32) /\
  (32 <= n ->
     exists k, 0 <= k /\
       _calculate_new_capacity n = 2 ^ k - 1 /\
       n <= _calculate_new_capacity n /\
       (forall k', 0 <= k' -> n <= 2 ^ k' - 1 ->
          _calculate_new_capacity n <= 2 ^ k' - 1)).
Proof.
  intros [H0 Hhi]. split.
  - intros Hlt. unfold _calculate_new_capacity.
    destruct (n <? 32) eqn:E; [reflexivity | apply Z.ltb_ge in E; lia].
  - intros Hlo. exists (Z.log2 n + 1).
    rewrite smear_value by lia.
    pose proof (Z.log2_nonneg n) as Hnn.
    pose proof (Z.log2_spec n ltac:(lia)) as [Hl Hu].
    replace (Z.succ (Z.log2 n)) with (Z.log2 n + 1) in Hu by lia.
    repeat split; try lia.
    intros k' Hk' Hle.
    assert (Z.log2 n < k') by (apply Z.log2_lt_pow2; lia).
    assert (2 ^ (Z.log2 n + 1) <= 2 ^ k') by (apply Z.pow_le_mono_r; lia).
    lia.
Qed.

(** * The string *)

Lemma load_storage_world this w buf w' :
  load_storage this w = Ok (buf, w') -> w' = w.
Proof.
  unfold load_storage. destruct (_is_heap_allocated this).
  - destruct (mem w !! heap_ptr (_data this)); congruence.
  - congruence.
Qed.

Lemma content_inv this w bytes w' :
  content this w = Ok (bytes, w') ->
  exists buf,
    load_storage this w = Ok (buf, w) /\ w' = w /\
    0 <= _size this <= Z.of_nat (length buf) /\
    bytes = take (Z.to_nat (_size this)) buf.
Proof.
  unfold content, bind. intros H.
  destruct (load_storage this w) as [[buf w1] | | |] eqn:Hl; try discriminate.
  pose proof (load_storage_world _ _ _ _ Hl) as ->.
  destruct (subbuf buf 0 (_size this)) as [bs|] eqn:Hs; simpl in H; [| discriminate].
  unfold ret in H. inversion H; subst.
  apply subbuf_Some in Hs as (_ & H0 & Hlen & ->).
  exists buf. repeat split; try lia. 
Qed.

(** C8.  [at(pos)] throws [std::out_of_range] when [pos] is at or beyond
    [size()] (so in particular when it exceeds the length), and for any
    [pos < size()] it returns the byte stored at that index without
    failing and without changing anything. *)
Theorem at_bounds_checked (this : string) (pos : Z) (w : world) :
  0 <= pos ->
  (_size this <= pos -> at_ this pos w = Throw out_of_range) /\
  (pos < _size this ->
     forall bytes, content this w = Ok (bytes, w) ->
       exists b, bytes !! Z.to_nat pos = Some b /\ at_ this pos w = Ok (b, w)).
Proof.
  intros Hpos. split.
  - intros Hge. unfold at_.
    destruct (_size this <=? pos) eqn:E; [reflexivity | apply Z.leb_gt in E; lia].
  - intros Hlt bytes Hc.
    apply content_inv in Hc as (buf & Hl & _ & Hsz & ->).
    assert (Hin : (Z.to_nat pos < length buf)%nat) by lia.
    destruct (lookup_lt_is_Some_2 buf _ Hin) as [b Hb].
    exists b. split.
    + rewrite lookup_take_lt by lia. exact Hb.
    + unfold at_. destruct (_size this <=? pos) eqn:E; [apply Z.leb_le in E; lia |].
      unfold bind. rewrite Hl. unfold detail.two_way.read.
      destruct (0 <=? pos) eqn:E0; [| apply Z.leb_gt in E0; lia].
      rewrite Hb. reflexivity.
Qed.

(** C10.  [pop_back()] on an empty string is a no-op: the call returns
    normally with the string value and the whole state (buffers,
    recycler) exactly as they were. *)
Theorem pop_back_empty_noop (this : string) (w : world) :
  _size this = 0 -> pop_back this w = Ok (this, w).
Proof.
  intros H. unfold pop_back. rewrite H. reflexivity.
Qed.

(** C2 (amended).  [insert], [erase] and [replace] called with a position
    greater than [size()] report nothing: they return normally and leave
    the string and the recycler unchanged. *)
Theorem mutators_ignore_position_past_size
    (this : string) (pos len : Z) (cstr : list Z) (w : world) :
  _size this < pos ->
  insert this pos cstr w = Ok (this, w) /\
  erase this pos len w = Ok (this, w) /\
  replace this pos len cstr w = Ok (this, w).
Proof.
  intros H. unfold insert, erase, replace.
  assert (E1 : (_size this <? pos) = true) by (apply Z.ltb_lt; lia).
  assert (E2 : (_size this <=? pos) = true) by (apply Z.leb_le; lia).
  rewrite E1, E2, orb_true_r. auto.
Qed.

Lemma fill_from_heap this cstr w buf :
  _is_heap_allocated this = true ->
  mem w !! heap_ptr (_data this) = Some buf ->
  Z.of_nat (length cstr) + 1 <= Z.of_nat (length buf) ->
  fill_from this cstr w =
    Ok (with_size this (Z.of_nat (length cstr)),
        with_mem w (<[heap_ptr (_data this) :=
                        cstr ++ 0 :: drop (S (length cstr)) buf]> (mem w))).
Proof.
  intros Hheap Hbuf Hlen.
  destruct (write_cstr_ok buf cstr Hlen) as (buf' & Hcpy & Hpoke & _).
  unfold fill_from, bind, load_storage. rewrite Hheap, Hbuf.
  rewrite Hcpy. simpl. rewrite Hpoke. simpl.
  unfold store_storage. rewrite Hheap, Hbuf. reflexivity.
Qed.

Lemma content_heap this w buf :
  _is_heap_allocated this = true ->
  mem w !! heap_ptr (_data this) = Some buf ->
  0 <= _size this <= Z.of_nat (length buf) ->
  content this w = Ok (take (Z.to_nat (_size this)) buf, w).
Proof.
  intros Hheap Hbuf Hsz. unfold content, bind, load_storage.
  rewrite Hheap, Hbuf. rewrite subbuf_ok by lia. reflexivity.
Qed.

(** C9.  For a Heap-variant string whose block is live and any byte
    sequence no longer than [capacity()], [assign] (and copy-assignment
    from a string holding those bytes) rewrites the existing block in
    place: afterwards the string holds the new bytes with a terminator,
    is still Heap-backed at the same address with the same [capacity()],
    and the allocation layer saw no call. *)
Theorem assign_within_capacity_in_place
    (this : string) (cstr buf : list Z) (w : world) :
  _is_heap_allocated this = true ->
  mem w !! heap_ptr (_data this) = Some buf ->
  capacity this + 1 <= Z.of_nat (length buf) ->
  Z.of_nat (length cstr) <= capacity this ->
  exists s' w',
    assign this cstr w = Ok (s', w') /\
    (forall other, content other w = Ok (cstr, w) ->
       copy_assign this other w = Ok (s', w')) /\
    content s' w' = Ok (cstr, w') /\
    terminator s' w' = Ok (0, w') /\
    size s' = Z.of_nat (length cstr) /\
    _is_heap_allocated s' = true /\
    capacity s' = capacity this /\
    heap_ptr (_data s') = heap_ptr (_data this) /\
    trace w' = trace w /\ tls w' = tls w /\ brk w' = brk w.
Proof.
  intros Hheap Hbuf Hblk Hlen.
  assert (Hcap : capacity this = heap_capacity (_data this)).
  { unfold capacity. now rewrite Hheap. }
  rewrite Hcap in *.
  assert (Hassign : assign this cstr w =
            Ok (with_size this (Z.of_nat (length cstr)),
                with_mem w (<[heap_ptr (_data this) :=
                        cstr ++ 0 :: drop (S (length cstr)) buf]> (mem w)))).
  { unfold assign, _assign_impl. rewrite Hheap.
    destruct (Z.of_nat (length cstr) <=? heap_capacity (_data this)) eqn:E;
      [| apply Z.leb_gt in E; lia].
    apply fill_from_heap; [assumption | assumption | lia]. }
  eexists _, _. split; [exact Hassign |].
  split.
  { intros other Hother. unfold copy_assign, bind. rewrite Hother. exact Hassign. }
  set (s' := with_size this (Z.of_nat (length cstr))).
  set (buf' := cstr ++ 0 :: drop (S (length cstr)) buf).
  set (w' := with_mem w _).
  assert (Hheap' : _is_heap_allocated s' = true) by exact Hheap.
  assert (Hbuf' : mem w' !! heap_ptr (_data s') = Some buf').
  { subst w' s'. simpl. apply lookup_insert_eq. }
  split.
  { rewrite (content_heap s' w' buf' Hheap' Hbuf').
    - subst s' buf'. simpl. rewrite Nat2Z.id, take_app_length. reflexivity.
    - subst s' buf'. simpl. rewrite length_app. simpl. lia. }
  split.
  { unfold terminator, bind, load_storage. rewrite Hheap', Hbuf'.
    subst s' buf'. simpl. unfold detail.two_way.read.
    destruct (0 <=? Z.of_nat (length cstr)) eqn:E; [| apply Z.leb_gt in E; lia].
    rewrite Nat2Z.id. rewrite lookup_app_r by lia.
    rewrite Nat.sub_diag. reflexivity. }
  repeat split; try reflexivity.
  all: try (unfold capacity; rewrite Hheap'; reflexivity).
Qed.

Lemma content_frame this w w' :
  (_is_heap_allocated this = true ->
     mem w' !! heap_ptr (_data this) = mem w !! heap_ptr (_data this)) ->
  forall bytes, content this w = Ok (bytes, w) -> content this w' = Ok (bytes, w').
Proof.
  intros Hsame bytes. unfold content, bind, load_storage.
  destruct (_is_heap_allocated this).
  - rewrite Hsame by reflexivity.
    destruct (mem w !! heap_ptr (_data this)); [| discriminate].
    destruct (subbuf l 0 (_size this)); unfold lift, ret, undefined; congruence.
  - destruct (subbuf _ 0 (_size this)); unfold lift, ret, undefined; congruence.
Qed.

(** C7.  After move-constructing [B] from [A] (first part) or
    move-assigning [A] into an existing string (second part), [B] holds
    [A]'s bytes and size, and [A] is left empty: zero length, discriminant
    cleared (Inline), empty content with its terminator, and destroying it
    calls no deallocation — the state, trace included, is unchanged; so
    destroying both values releases the stolen buffer exactly once. *)
Theorem move_steals_and_empties (A : string) (w : world) (bytes : list Z) :
  string_shape A ->
  content A w = Ok (bytes, w) ->
  let B := fst (string_move A) in
  let A' := snd (string_move A) in
  (content B w = Ok (bytes, w) /\ size B = size A /\
   size A' = 0 /\ _flags A' = 0 /\ _is_heap_allocated A' = false /\
   capacity A' = SSO_CAPACITY /\
   content A' w = Ok ([], w) /\ terminator A' w = Ok (0, w) /\
   destroy A' w = Ok (tt, w) /\
   exists w',
     (let* _ := destroy A' in destroy B) w = Ok (tt, w') /\
     trace w' = trace w ++
       (if _is_heap_allocated A
        then [EvDeallocate (heap_ptr (_data A))
                           (sz (heap_capacity (_data A) + 1))]
        else [])) /\
  (forall this : string,
     (_is_heap_allocated this = true ->
        is_Some (mem w !! heap_ptr (_data this)) /\
        (_is_heap_allocated A = true ->
           heap_ptr (_data this) <> heap_ptr (_data A))) ->
     exists w',
       move_assign this A w = Ok ((B, A'), w') /\
       content B w' = Ok (bytes, w') /\
       destroy A' w' = Ok (tt, w') /\
       trace w' = trace w ++
         (if _is_heap_allocated this
          then [EvDeallocate (heap_ptr (_data this))
                             (sz (heap_capacity (_data this) + 1))]
          else [])).
Proof.
  intros Hshape Hc B A'.
  assert (HB : forall w1, content B w1 = content A w1).
  { intros w1. destruct A; reflexivity. }
  assert (HBheap : _is_heap_allocated B = _is_heap_allocated A).
  { destruct A; reflexivity. }
  assert (HBptr : heap_ptr (_data B) = heap_ptr (_data A)).
  { destruct A; reflexivity. }
  assert (Hne : exists x rest, sso_view (_data A) = x :: rest).
  { unfold string_shape in Hshape.
    destruct (sso_view (_data A)) as [|x rest]; [discriminate | eauto]. }
  destruct Hne as (x & rest & Hview).
  split.
  - split; [rewrite HB; exact Hc |].
    split; [destruct A; reflexivity |].
    do 4 (split; [reflexivity |]).
    split.
    { unfold content, bind, load_storage. subst A'. simpl.
      rewrite Hview. reflexivity. }
    split.
    { unfold terminator, bind, load_storage. subst A'. simpl.
      rewrite Hview. reflexivity. }
    split; [reflexivity |].
    change ((let* _ := destroy A' in destroy B) w) with (destroy B w).
    unfold destroy. rewrite HBheap.
    destruct (_is_heap_allocated A) eqn:EA.
    + assert (Hlive : is_Some (mem w !! heap_ptr (_data A))).
      { apply content_inv in Hc as (buf & Hl & _).
        unfold load_storage in Hl. rewrite EA in Hl.
        destruct (mem w !! heap_ptr (_data A)); [eauto | discriminate]. }
      replace (heap_ptr (_data B)) with (heap_ptr (_data A)) by (destruct A; reflexivity).
      replace (heap_capacity (_data B)) with (heap_capacity (_data A))
        by (destruct A; reflexivity).
      destruct (deallocate_bytes_mem (heap_ptr (_data A))
                  (sz (heap_capacity (_data A) + 1))
                  preferred_alloc_alignment w (fun _ => Hlive))
        as (w' & Hd & Ht & _ & _).
      exists w'. split; [exact Hd | exact Ht].
    + exists w. split; [reflexivity | now rewrite app_nil_r].
  - intros this Hthis. unfold move_assign, bind.
    destruct (_is_heap_allocated this) eqn:Eh.
    + destruct (Hthis eq_refl) as [Hlive Hdisj].
      destruct (deallocate_bytes_mem (heap_ptr (_data this))
                  (sz (heap_capacity (_data this) + 1))
                  preferred_alloc_alignment w (fun _ => Hlive))
        as (w' & Hd & Ht & _ & Hm).
      exists w'. rewrite Hd. split; [reflexivity |].
      split; [| split; [reflexivity | exact Ht]].
      apply (content_frame B w w'); [| rewrite HB; exact Hc].
      rewrite HBheap, HBptr. intros HA. specialize (Hdisj HA).
      destruct Hm as [-> | ->]; [reflexivity |].
      apply lookup_delete_ne. exact Hdisj.
    + exists w. split; [reflexivity |].
      split; [rewrite HB; exact Hc |].
      split; [reflexivity |]. now rewrite app_nil_r.
Qed.

(** ** Growth *)

Lemma calculate_new_capacity_bounds n :
  0 <= n < 2 ^ 63 ->
  n <= _calculate_new_capacity n < 2 ^ 63 /\ 32 <= _calculate_new_capacity n.
Proof.
  intros [H0 Hhi]. destruct (Z.lt_ge_cases n 32) as [Hlt | Hge].
  - unfold _calculate_new_capacity.
    destruct (n <? 32) eqn:E; [lia | apply Z.ltb_ge in E; lia].
  - rewrite smear_value by lia.
    pose proof (Z.log2_spec n ltac:(lia)) as [Hl Hu].
    replace (Z.succ (Z.log2 n)) with (Z.log2 n + 1) in Hu by lia.
    assert (Z.log2 n < 63) by (apply Z.log2_lt_pow2; lia).
    assert (2 ^ (Z.log2 n + 1) <= 2 ^ 63) by (apply Z.pow_le_mono_r; lia).
    assert (2 ^ 5 <= 2 ^ (Z.log2 n)).
    { apply Z.pow_le_mono_r; [lia |]. apply Z.log2_le_pow2; lia. }
    lia.
Qed.

Lemma grow_request_bounds n :
  0 <= n < 2 ^ 63 ->
  grow_request n = _calculate_new_capacity n + 1 /\
  n + 1 <= grow_request n < 2 ^ 64.
Proof.
  intros H. pose proof (calculate_new_capacity_bounds n H) as [[? ?] ?].
  unfold grow_request. rewrite sz_small by lia. lia.
Qed.

Lemma grow_heap_to_heap (this : string) (min_capacity : Z) (w : world) :
  pool_live w ->
  string_wf this w ->
  _is_heap_allocated this = true ->
  capacity this < min_capacity < 2 ^ 63 ->
  exists new_ptr w',
    _grow_to this min_capacity w =
      Ok (mkString (Heap new_ptr
                      (pool_alloc_usable_capacity (grow_request min_capacity)))
                   (_size this) (_flags this), w') /\
    trace w' = trace w ++
      [EvAllocate (grow_request min_capacity) new_ptr;
       EvCopy new_ptr (heap_ptr (_data this)) (_size this);
       EvDeallocate (heap_ptr (_data this))
                    (sz (heap_capacity (_data this) + 1))].
Proof.
  intros Hpool [Hsize Hbuf] Hheap Hmin.
  rewrite Hheap in Hbuf. destruct Hbuf as (buf & Hbuf & Hlen).
  destruct (grow_request_bounds min_capacity ltac:(lia)) as [Hreq Hreq'].
  destruct (allocate_bytes_ok (grow_request min_capacity)
              preferred_alloc_alignment w Hpool ltac:(lia))
    as (p & w1 & blk & Halloc & Ht1 & Hp1 & Hblk & Husable & Hother1).
  (* the old block is still readable after the allocation *)
  assert (Hold1 : exists buf1, mem w1 !! heap_ptr (_data this) = Some buf1 /\
                               _size this <= Z.of_nat (length buf1)).
  { destruct (Z.eq_dec (heap_ptr (_data this)) p) as [-> | Hne].
    - exists blk. split; [exact Hp1 | lia].
    - exists buf. rewrite Hother1 by exact Hne. split; [exact Hbuf | lia]. }
  destruct Hold1 as (buf1 & Hold1 & Hlen1).
  unfold _grow_to.
  destruct (min_capacity <=? capacity this) eqn:E; [apply Z.leb_le in E; lia |].
  rewrite Hheap. cbn [negb]. cbv zeta. fold (grow_request min_capacity).
  unfold bind at 1. rewrite Halloc.
  unfold bind at 1. rewrite (block_read_ok _ _ _ _ Hold1) by lia.
  unfold bind at 1. unfold emit at 1.
  set (w2 := mkWorld _ _ _ (trace w1 ++ _)).
  assert (Hp2 : mem w2 !! p = Some blk) by exact Hp1.
  destruct (block_write_ok p 0 (take (Z.to_nat (_size this)) buf1) w2 blk Hp2
              ltac:(lia)) as (blk' & Hw1 & Hlen').
  { rewrite length_take. lia. }
  unfold bind at 1. rewrite Hw1.
  set (w3 := with_mem w2 _).
  assert (Hp3 : mem w3 !! p = Some blk') by (apply lookup_insert_eq).
  destruct (block_write_ok p (_size this) [0] w3 blk' Hp3 ltac:(lia))
    as (blk'' & Hw2 & Hlen'').
  { simpl. lia. }
  unfold bind at 1. rewrite Hw2.
  set (w4 := with_mem w3 _).
  assert (Hold4 : heap_ptr (_data this) <> nullptr ->
                  is_Some (mem w4 !! heap_ptr (_data this))).
  { intros _. subst w4 w3. simpl.
    destruct (Z.eq_dec p (heap_ptr (_data this))) as [<- | Hne].
    - rewrite lookup_insert_eq. eauto.
    - rewrite !lookup_insert_ne by exact Hne. subst w2. simpl. eauto. }
  destruct (deallocate_bytes_mem (heap_ptr (_data this))
              (sz (heap_capacity (_data this) + 1))
              preferred_alloc_alignment w4 Hold4)
    as (w5 & Hd & Ht5 & _ & _).
  unfold bind at 1. rewrite Hd.
  exists p, w5. split; [reflexivity |].
  rewrite Ht5. subst w4 w3 w2. simpl. rewrite Ht1.
  rewrite <- !app_assoc. reflexivity.
Qed.

Lemma grow_inline_to_heap (this : string) (min_capacity : Z) (w : world) :
  pool_live w ->
  string_wf this w ->
  _is_heap_allocated this = false ->
  capacity this < min_capacity < 2 ^ 63 ->
  exists new_ptr w',
    _grow_to this min_capacity w =
      Ok (mkString (Heap new_ptr
                      (pool_alloc_usable_capacity (grow_request min_capacity)))
                   (_size this)
                   (Z.lor (_flags this) HEAP_ALLOCATED_FLAG), w') /\
    trace w' = trace w ++ [EvAllocate (grow_request min_capacity) new_ptr].
Proof.
  intros Hpool [Hsize Hshape] Hheap Hmin.
  rewrite Hheap in Hshape. unfold string_shape in Hshape.
  assert (Hcap : capacity this = SSO_CAPACITY).
  { unfold capacity. now rewrite Hheap. }
  rewrite Hcap in *.
  assert (H23 : SSO_CAPACITY = 23) by reflexivity.
  destruct (grow_request_bounds min_capacity ltac:(lia)) as [Hreq Hreq'].
  destruct (allocate_bytes_ok (grow_request min_capacity)
              preferred_alloc_alignment w Hpool ltac:(lia))
    as (p & w1 & blk & Halloc & Ht1 & Hp1 & Hblk & Husable & Hother1).
  unfold _grow_to. rewrite Hcap.
  destruct (min_capacity <=? SSO_CAPACITY) eqn:E;
    [apply Z.leb_le in E; lia |].
  rewrite Hheap. cbn [negb]. cbv zeta. fold (grow_request min_capacity).
  unfold bind at 1. rewrite Halloc.
  unfold bind at 1. rewrite subbuf_ok by lia. cbn [lift]. unfold ret at 1.
  destruct (block_write_ok p 0 (take (Z.to_nat (_size this))
                                     (drop (Z.to_nat 0) (sso_view (_data this))))
              w1 blk Hp1 ltac:(lia)) as (blk' & Hw1 & Hlen').
  { rewrite length_take. lia. }
  unfold bind at 1. rewrite Hw1.
  set (w3 := with_mem w1 _).
  assert (Hp3 : mem w3 !! p = Some blk') by (apply lookup_insert_eq).
  destruct (block_write_ok p (_size this) [0] w3 blk' Hp3 ltac:(lia))
    as (blk'' & Hw2 & Hlen'').
  { simpl. lia. }
  unfold bind at 1. rewrite Hw2.
  eexists _, _. split; [reflexivity |]. simpl. exact Ht1.
Qed.

Lemma heap_flag_set f :
  negb (Z.land (Z.lor f HEAP_ALLOCATED_FLAG) HEAP_ALLOCATED_FLAG =? 0) = true.
Proof.
  unfold HEAP_ALLOCATED_FLAG.
  replace (Z.land (Z.lor f 1) 1) with 1; [reflexivity |].
  apply Z.bits_inj'. intros i Hi.
  rewrite Z.land_spec, Z.lor_spec.
  destruct (Z.eq_dec i 0) as [-> | Hne].
  - simpl. now rewrite orb_true_r.
  - replace (Z.testbit 1 i) with false; [now rewrite andb_false_r |].
    symmetry. apply (Z.bits_above_log2 1 i); simpl; lia.
Qed.

Lemma pool_class_index_cases raw :
  (raw <= 64 /\ pool_class_index raw = 0) \/
  (64 < raw <= 128 /\ pool_class_index raw = 1) \/
  (128 < raw <= 256 /\ pool_class_index raw = 2) \/
  (256 < raw <= 512 /\ pool_class_index raw = 3) \/
  (512 < raw <= 1024 /\ pool_class_index raw = 4) \/
  (1024 < raw <= 2048 /\ pool_class_index raw = 5) \/
  (2048 < raw <= 4096 /\ pool_class_index raw = 6) \/
  (4096 < raw /\ pool_class_index raw = -1).
Proof.
  unfold pool_class_index, POOL_CLASSES. cbn [pool_class_index_from].
  repeat (match goal with
          | |- context [if raw <=? ?y then _ else _] =>
              destruct (Z.leb_spec raw y)
          end); simpl; lia.
Qed.

Lemma pool_classes_elem c :
  c ∈ POOL_CLASSES ->
  c = 64 \/ c = 128 \/ c = 256 \/ c = 512 \/ c = 1024 \/ c = 2048 \/ c = 4096.
Proof.
  unfold POOL_CLASSES. intros Hc.
  repeat (apply elem_of_cons in Hc as [Hc | Hc]; [lia |]).
  apply elem_of_nil in Hc. contradiction.
Qed.

Lemma usable_capacity_smallest_class raw :
  0 < raw <= MAX_POOL_SIZE ->
  exists cls, smallest_class_ge cls raw /\
              pool_alloc_usable_capacity raw = cls - 1.
Proof.
  unfold MAX_POOL_SIZE. intros Hraw.
  unfold pool_alloc_usable_capacity.
  assert (Hmin : forall cls, cls ∈ POOL_CLASSES -> raw <= cls ->
            (forall c, c ∈ POOL_CLASSES -> raw <= c -> cls <= c) ->
            smallest_class_ge cls raw) by (intros; repeat split; assumption).
  destruct (pool_class_index_cases raw)
    as [[Hr E] | [[Hr E] | [[Hr E] | [[Hr E] | [[Hr E] | [[Hr E] |
        [[Hr E] | [Hr E]]]]]]]]; rewrite E; [| | | | | | | exfalso; lia];
  match goal with
  | |- context [pool_class ?k - 1] => exists (pool_class k)
  end;
  (split; [| reflexivity]);
  (apply Hmin;
     [unfold pool_class, POOL_CLASSES; simpl;
      repeat first [apply list_elem_of_here | apply list_elem_of_further]
     | unfold pool_class; simpl; lia |]);
  intros c Hc Hle; apply pool_classes_elem in Hc;
  unfold pool_class; simpl; lia.
Qed.

Lemma allocate_bytes_total n align w :
  exists p w', allocate_bytes_aligned n align w = Ok (p, w').
Proof.
  assert (Hfresh : forall size, exists p w',
            allocate_aligned_unpooled size align w = Ok (p, w')).
  { intros size. unfold allocate_aligned_unpooled.
    destruct (size =? 0); eexists _, _; reflexivity. }
  assert (Hdef : exists p w', default_allocate_aligned n align w = Ok (p, w')).
  { unfold default_allocate_aligned.
    destruct (n =? 0); [eexists _, _; reflexivity |].
    destruct (pool_class_index n <? 0); [apply Hfresh |].
    destruct (0 <? count_of (tls w) (pool_class_index n));
      [eexists _, _; reflexivity | apply Hfresh]. }
  destruct Hdef as (p & w' & Hd).
  unfold allocate_bytes_aligned, bind. rewrite Hd. eexists _, _. reflexivity.
Qed.

(** ** Exceptions *)

Create HintDb nothrow.

Lemma no_throw_ret {A} (a : A) : no_throw (ret a).
Proof. intros w e. discriminate. Qed.

Lemma no_throw_undefined {A} : no_throw (@undefined A).
Proof. intros w e. discriminate. Qed.

Lemma no_throw_lift {A} (o : option A) : no_throw (lift o).
Proof. destruct o; intros w e; discriminate. Qed.

Lemma no_throw_emit ev : no_throw (emit ev).
Proof. intros w e. discriminate. Qed.

Lemma no_throw_bind {A B} (m : M A) (f : A -> M B) :
  no_throw m -> (forall a, no_throw (f a)) -> no_throw (bind m f).
Proof.
  intros Hm Hf w e. unfold bind.
  destruct (m w) as [[a w'] | e' | |] eqn:E; try discriminate.
  - apply Hf.
  - exfalso. exact (Hm w e' E).
Qed.

Lemma no_throw_if {A} (b : bool) (m1 m2 : M A) :
  no_throw m1 -> no_throw m2 -> no_throw (if b then m1 else m2).
Proof. destruct b; auto. Qed.

#[local] Hint Resolve no_throw_ret no_throw_undefined no_throw_lift
  no_throw_emit : nothrow.

Lemma no_throw_load_storage this : no_throw (load_storage this).
Proof.
  intros w e. unfold load_storage.
  destruct (_is_heap_allocated this); [| discriminate].
  destruct (mem w !! _); discriminate.
Qed.

Lemma no_throw_store_storage this buf : no_throw (store_storage this buf).
Proof.
  intros w e. unfold store_storage.
  destruct (_is_heap_allocated this); [| discriminate].
  destruct (mem w !! _); discriminate.
Qed.

Lemma no_throw_block_read p off len : no_throw (block_read p off len).
Proof.
  intros w e. unfold block_read.
  destruct (mem w !! p); [| discriminate]. destruct (subbuf _ _ _); discriminate.
Qed.

Lemma no_throw_block_write p off bytes : no_throw (block_write p off bytes).
Proof.
  intros w e. unfold block_write.
  destruct (mem w !! p); [| discriminate]. destruct (memcpy_at _ _ _); discriminate.
Qed.

Lemma no_throw_allocate_unpooled n align :
  no_throw (allocate_aligned_unpooled n align).
Proof.
  intros w e. unfold allocate_aligned_unpooled. destruct (n =? 0); discriminate.
Qed.

Lemma no_throw_deallocate_unpooled p n align :
  no_throw (deallocate_aligned_unpooled p n align).
Proof.
  intros w e. unfold deallocate_aligned_unpooled.
  destruct (p =? nullptr); [discriminate |]. destruct (mem w !! p); discriminate.
Qed.

Lemma no_throw_allocate_bytes n align : no_throw (allocate_bytes_aligned n align).
Proof.
  unfold allocate_bytes_aligned. apply no_throw_bind;
    [| intros p; apply no_throw_bind; auto with nothrow].
  intros w e. unfold default_allocate_aligned.
  destruct (n =? 0); [discriminate |].
  destruct (pool_class_index n <? 0); [apply no_throw_allocate_unpooled |].
  destruct (0 <? count_of _ _); [discriminate | apply no_throw_allocate_unpooled].
Qed.

Lemma no_throw_deallocate_bytes p n align :
  no_throw (deallocate_bytes_aligned p n align).
Proof.
  unfold deallocate_bytes_aligned. apply no_throw_bind; [auto with nothrow |].
  intros _ w e. unfold default_deallocate_aligned.
  destruct (p =? nullptr); [discriminate |].
  destruct (pool_class_index n <? 0); [apply no_throw_deallocate_unpooled |].
  destruct (_ <? _); [discriminate | apply no_throw_deallocate_unpooled].
Qed.

#[local] Hint Resolve no_throw_load_storage no_throw_store_storage
  no_throw_block_read no_throw_block_write no_throw_allocate_bytes
  no_throw_deallocate_bytes : nothrow.

Ltac no_throw_steps :=
  repeat first
    [ solve [auto with nothrow]
    | match goal with |- forall _, no_throw _ => intro end
    | match goal with |- no_throw (if _ then _ else _) => apply no_throw_if end
    | match goal with |- no_throw (bind _ _) => apply no_throw_bind end ].

Lemma no_throw_grow_to this min_capacity : no_throw (_grow_to this min_capacity).
Proof.
  unfold _grow_to. cbv zeta.
  no_throw_steps.
Qed.

#[local] Hint Resolve no_throw_grow_to : nothrow.

(** [insert], [erase] and [replace] are [noexcept] in earnest: whatever
    the position, the length and the bytes, no exception leaves them. *)
Lemma mutators_never_throw (this : string) (pos len : Z) (cstr : list Z) :
  no_throw (insert this pos cstr) /\
  no_throw (erase this pos len) /\
  no_throw (replace this pos len cstr).
Proof.
  unfold insert, erase, replace. cbv zeta.
  repeat split; no_throw_steps.
Qed.

(** ** Construction *)

Lemma fill_from_inline this cstr w :
  _is_heap_allocated this = false ->
  string_shape this ->
  Z.of_nat (length cstr) <= SSO_CAPACITY ->
  fill_from this cstr w =
    Ok (mkString (Sso (cstr ++ 0 :: drop (S (length cstr)) (sso_view (_data this))))
                 (Z.of_nat (length cstr)) (_flags this), w).
Proof.
  intros Hheap Hshape Hlen. unfold string_shape in Hshape.
  unfold SSO_CAPACITY in Hlen.
  destruct (write_cstr_ok (sso_view (_data this)) cstr ltac:(lia))
    as (buf' & Hcpy & Hpoke & _).
  unfold fill_from, bind, load_storage. rewrite Hheap.
  rewrite Hcpy. simpl. rewrite Hpoke. simpl.
  unfold store_storage. rewrite Hheap. reflexivity.
Qed.

Lemma content_of_storage this w buf :
  load_storage this w = Ok (buf, w) ->
  0 <= _size this <= Z.of_nat (length buf) ->
  content this w = Ok (take (Z.to_nat (_size this)) buf, w).
Proof.
  intros Hl Hsz. unfold content, bind. rewrite Hl, subbuf_ok by lia.
  now rewrite drop_0.
Qed.

Lemma terminator_of_storage this w buf b :
  load_storage this w = Ok (buf, w) ->
  0 <= _size this ->
  buf !! Z.to_nat (_size this) = Some b ->
  terminator this w = Ok (b, w).
Proof.
  intros Hl Hsz Hb. unfold terminator, bind. rewrite Hl.
  unfold two_way.read.
  destruct (0 <=? _size this) eqn:E; [| apply Z.leb_gt in E; lia].
  now rewrite Hb.
Qed.

Lemma load_storage_inline this w :
  _is_heap_allocated this = false ->
  load_storage this w = Ok (sso_view (_data this), w).
Proof. intros H. unfold load_storage. now rewrite H. Qed.

Lemma load_storage_heap this w buf :
  _is_heap_allocated this = true ->
  mem w !! heap_ptr (_data this) = Some buf ->
  load_storage this w = Ok (buf, w).
Proof. intros H Hb. unfold load_storage. now rewrite H, Hb. Qed.

(** Construction from raw bytes yields a well-formed string that holds
    exactly those bytes: Inline up to 23 bytes, Heap-backed beyond. *)
Lemma string_from_holds_bytes (cstr : list Z) (w : world) :
  pool_live w ->
  Z.of_nat (length cstr) < 2 ^ 63 ->
  exists s w',
    string_from cstr w = Ok (s, w') /\
    size s = Z.of_nat (length cstr) /\
    content s w' = Ok (cstr, w') /\
    terminator s w' = Ok (0, w') /\
    string_wf s w' /\
    _is_heap_allocated s = negb (fits_in_sso (Z.of_nat (length cstr))).
Proof.
  intros Hpool Hbig. unfold string_from. cbv zeta.
  set (len := Z.of_nat (length cstr)) in *.
  set (this := mkString sso_fresh 0 0).
  assert (Hinl : _is_heap_allocated this = false) by reflexivity.
  assert (Hshape0 : string_shape this) by reflexivity.
  destruct (0 <? len) eqn:E0.
  2:{ apply Z.ltb_ge in E0. assert (cstr = []) as ->
        by (destruct cstr; [reflexivity | simpl in *; lia]).
      eexists _, _. split; [reflexivity |].
      split; [reflexivity |]. split; [reflexivity |]. split; [reflexivity |].
      split; [| reflexivity].
      split; [cbv -[Z.le Z.lt]; lia | reflexivity]. }
  apply Z.ltb_lt in E0.
  destruct (fits_in_sso len) eqn:Efit.
  - unfold fits_in_sso, SSO_THRESHOLD, SSO_CAPACITY in Efit. apply Z.ltb_lt in Efit.
    rewrite fill_from_inline by (try reflexivity; unfold SSO_CAPACITY; lia).
    eexists _, _. split; [reflexivity |].
    split; [reflexivity |].
    assert (Hl : length (cstr ++ 0 :: drop (S (length cstr)) (sso_view (_data this)))
                 = 24%nat).
    { rewrite length_app. simpl. rewrite length_drop. simpl. lia. }
    set (s' := mkString (Sso (cstr ++ _)) _ _).
    assert (Hload : load_storage s' w
              = Ok (cstr ++ 0 :: drop (S (length cstr)) (sso_view (_data this)), w))
      by (apply load_storage_inline; reflexivity).
    split.
    { rewrite (content_of_storage _ _ _ Hload)
        by (subst s'; cbn [_size]; rewrite Hl; lia).
      subst s'. cbn [_size]. rewrite Nat2Z.id, take_app_length. reflexivity. }
    split.
    { apply (terminator_of_storage _ _ _ _ Hload); [subst s'; simpl; lia |].
      subst s'. cbn [_size]. rewrite Nat2Z.id, lookup_app_r by lia.
      rewrite Nat.sub_diag. reflexivity. }
    split; [| reflexivity].
    split; [unfold capacity; simpl; unfold SSO_CAPACITY; lia |].
    simpl. exact Hl.
  - unfold fits_in_sso, SSO_THRESHOLD, SSO_CAPACITY in Efit. apply Z.ltb_ge in Efit.
    unfold _allocate_heap_exact. cbv zeta.
    rewrite sz_small by lia.
    destruct (allocate_bytes_ok (len + 1) preferred_alloc_alignment w Hpool
                ltac:(lia)) as (p & w1 & blk & Ha & _ & Hp & Hblk & Hcapge & _).
    unfold bind at 1. unfold bind at 1. rewrite Ha. unfold ret at 1.
    set (s1 := mkString _ _ _).
    assert (Hheap1 : _is_heap_allocated s1 = true) by apply heap_flag_set.
    rewrite (fill_from_heap s1 cstr w1 blk Hheap1 Hp) by (fold len; lia).
    eexists _, _. split; [reflexivity |].
    split; [reflexivity |].
    set (s' := with_size s1 _). set (blk' := cstr ++ _). set (w' := with_mem w1 _).
    assert (Hheap' : _is_heap_allocated s' = true) by exact Hheap1.
    assert (Hbuf' : mem w' !! heap_ptr (_data s') = Some blk')
      by apply lookup_insert_eq.
    assert (Hl : length blk' = length blk).
    { subst blk'. rewrite length_app. simpl. rewrite length_drop. lia. }
    pose proof (load_storage_heap s' w' blk' Hheap' Hbuf') as Hload.
    split.
    { rewrite (content_of_storage _ _ _ Hload)
        by (subst s'; cbn [_size with_size]; rewrite Hl; lia).
      subst s' blk'. cbn [_size with_size]. rewrite Nat2Z.id, take_app_length.
      reflexivity. }
    split.
    { apply (terminator_of_storage _ _ _ _ Hload); [subst s'; simpl; lia |].
      subst s' blk'. cbn [_size with_size]. rewrite Nat2Z.id, lookup_app_r by lia.
      rewrite Nat.sub_diag. reflexivity. }
    split; [| exact Hheap'].
    unfold string_wf. rewrite Hheap'.
    assert (Hcap : capacity s' = pool_alloc_usable_capacity (len + 1)).
    { unfold capacity. rewrite Hheap'. reflexivity. }
    rewrite Hcap. split; [simpl; fold len; lia |].
    exists blk'. split; [exact Hbuf' | lia].
Qed.

(** ** Growth and capacity *)

(** C3 (amended).  When a Heap-variant string grows into a larger Heap
    variant, the new buffer is requested first, the old bytes are copied
    into it next, and only then is the old buffer released through the
    recycler: these are the three events the call logs, in this order. *)
Theorem grow_heap_requests_copies_then_releases
    (this : string) (min_capacity : Z) (w : world) :
  pool_live w ->
  string_wf this w ->
  _is_heap_allocated this = true ->
  capacity this < min_capacity < 2 ^ 63 ->
  exists s' w' new_ptr,
    _grow_to this min_capacity w = Ok (s', w') /\
    _is_heap_allocated s' = true /\
    heap_ptr (_data s') = new_ptr /\
    size s' = size this /\
    trace w' = trace w ++
      [EvAllocate (grow_request min_capacity) new_ptr;
       EvCopy new_ptr (heap_ptr (_data this)) (size this);
       EvDeallocate (heap_ptr (_data this)) (sz (capacity this + 1))].
Proof.
  intros Hpool Hwf Hheap Hmin.
  destruct (grow_heap_to_heap this min_capacity w Hpool Hwf Hheap Hmin)
    as (p & w' & Hg & Ht).
  eexists _, w', p. split; [exact Hg |].
  split; [exact Hheap |]. split; [reflexivity |]. split; [reflexivity |].
  unfold capacity, size. rewrite Hheap. exact Ht.
Qed.

(** C4 (amended).  After a heap allocation made by
    [_allocate_heap_exact] (the constructors), by [_allocate_heap]
    (assignment) or by [_grow_to] (growth) whose raw request — requested
    capacity plus one — fits a size class, [capacity()] is the smallest
    size class that is at least the raw request, minus one, which is at
    least the requested capacity.  (The reallocation in [shrink_to_fit] is
    not covered: it records [size()] as the capacity.) *)
Theorem heap_capacity_is_pool_rounded
    (this : string) (requested : Z) (w : world) :
  0 <= requested ->
  requested + 1 <= MAX_POOL_SIZE ->
  exists cls,
    smallest_class_ge cls (requested + 1) /\
    requested <= cls - 1 /\
    (exists s' w',
       _allocate_heap_exact this requested w = Ok (s', w') /\
       _is_heap_allocated s' = true /\ capacity s' = cls - 1) /\
    (forall min_capacity,
       _calculate_new_capacity min_capacity = requested ->
       (exists s' w',
          _allocate_heap this min_capacity w = Ok (s', w') /\
          _is_heap_allocated s' = true /\ capacity s' = cls - 1) /\
       (pool_live w -> string_wf this w ->
        capacity this < min_capacity < 2 ^ 63 ->
        exists s' w',
          _grow_to this min_capacity w = Ok (s', w') /\
          _is_heap_allocated s' = true /\ capacity s' = cls - 1)).
Proof.
  intros H0 Hmax. unfold MAX_POOL_SIZE in Hmax.
  destruct (usable_capacity_smallest_class (requested + 1))
    as (cls & Hcls & Hcap); [unfold MAX_POOL_SIZE; lia |].
  assert (Hsz : sz (requested + 1) = requested + 1) by (apply sz_small; lia).
  exists cls. split; [exact Hcls |].
  split; [destruct Hcls as (_ & ? & _); lia |].
  assert (Hexact : forall req', sz (req' + 1) = requested + 1 ->
            exists s' w',
              (let* p := allocate_bytes_aligned (sz (req' + 1))
                           preferred_alloc_alignment in
               ret (mkString (Heap p (pool_alloc_usable_capacity (sz (req' + 1))))
                      (_size this) (Z.lor (_flags this) HEAP_ALLOCATED_FLAG))) w
                = Ok (s', w') /\
              _is_heap_allocated s' = true /\ capacity s' = cls - 1).
  { intros req' Hreq.
    destruct (allocate_bytes_total (sz (req' + 1)) preferred_alloc_alignment w)
      as (p & w' & Ha).
    unfold bind. rewrite Ha. eexists _, _. split; [reflexivity |].
    split; [apply heap_flag_set |].
    unfold capacity, _is_heap_allocated. cbn [_flags _data].
    rewrite heap_flag_set. cbn [heap_capacity]. now rewrite Hreq. }
  split; [apply Hexact; exact Hsz |].
  intros min_capacity Hreq. split.
  - unfold _allocate_heap. cbv zeta. rewrite Hreq. apply Hexact. exact Hsz.
  - intros Hpool Hwf Hmin.
    assert (Hgr : grow_request min_capacity = requested + 1).
    { unfold grow_request. now rewrite Hreq. }
    destruct (_is_heap_allocated this) eqn:Hheap.
    + destruct (grow_heap_to_heap this min_capacity w Hpool Hwf Hheap Hmin)
        as (p & w' & Hg & _).
      eexists _, _. split; [exact Hg |].
      split; [exact Hheap |].
      unfold capacity, _is_heap_allocated. cbn [_flags _data heap_capacity].
      unfold _is_heap_allocated in Hheap. rewrite Hheap, Hgr. exact Hcap.
    + destruct (grow_inline_to_heap this min_capacity w Hpool Hwf Hheap Hmin)
        as (p & w' & Hg & _).
      eexists _, _. split; [exact Hg |].
      split; [apply heap_flag_set |].
      unfold capacity, _is_heap_allocated. cbn [_flags _data heap_capacity].
      rewrite heap_flag_set, Hgr. exact Hcap.
Qed.

(** * Search *)

(** ** The reference scan *)

Lemma bytes_eqb_eq a : forall b, bytes_eqb a b = true <-> a = b.
Proof.
  induction a as [|x a IH]; intros [|y b]; simpl; split; try discriminate; auto.
  - intros H. apply andb_true_iff in H as [Hx H]. apply Z.eqb_eq in Hx.
    apply IH in H. congruence.
  - intros H. inversion H; subst. apply andb_true_iff. split.
    + apply Z.eqb_refl.
    + now apply IH.
Qed.

Lemma occurs_at_head data needle :
  bytes_eqb (take (length needle) data) needle = true <-> occurs_at data needle 0.
Proof.
  rewrite bytes_eqb_eq. unfold occurs_at. rewrite drop_0. split.
  - intros H. split; [| exact H].
    apply (f_equal length) in H. rewrite length_take in H. lia.
  - intros [_ H]. exact H.
Qed.

Lemma occurs_at_tail x data needle i :
  occurs_at (x :: data) needle (S i) <-> occurs_at data needle i.
Proof. unfold occurs_at. simpl. split; intros [H1 H2]; split; auto; lia. Qed.

Lemma scan_from_first_occurrence needle : forall data from,
  match scan_from data needle from with
  | Some r => exists i : nat, r = from + Z.of_nat i /\
                occurs_at data needle i /\
                forall j, (j < i)%nat -> ~ occurs_at data needle j
  | None => forall i, ~ occurs_at data needle i
  end.
Proof.
  induction data as [|x data IH]; intros from; cbn [scan_from].
  - destruct (bytes_eqb _ _) eqn:E.
    + exists 0%nat. split; [lia |]. split; [now apply occurs_at_head |].
      intros j Hj. lia.
    + intros i [Hlen Hocc]. simpl in Hlen.
      assert (occurs_at [] needle 0) as H0.
      { split; [simpl; lia |]. rewrite drop_nil in Hocc. now rewrite drop_0. }
      apply occurs_at_head in H0. congruence.
  - destruct (bytes_eqb _ _) eqn:E.
    + exists 0%nat. split; [lia |]. split; [now apply occurs_at_head |].
      intros j Hj. lia.
    + specialize (IH (from + 1)).
      destruct (scan_from data needle (from + 1)) as [r|].
      * destruct IH as (i & -> & Hocc & Hfirst).
        exists (S i). split; [lia |]. split; [now apply occurs_at_tail |].
        intros [|j] Hj.
        -- intros H0. apply occurs_at_head in H0. congruence.
        -- rewrite occurs_at_tail. apply Hfirst. lia.
      * intros [|i].
        -- intros H0. apply occurs_at_head in H0. congruence.
        -- rewrite occurs_at_tail. apply IH.
Qed.

Lemma occurs_at_drop data needle (k i : nat) :
  (k <= length data)%nat ->
  occurs_at (drop k data) needle i <-> occurs_at data needle (k + i).
Proof.
  intros Hk. unfold occurs_at. rewrite length_drop, drop_drop.
  split; intros [H1 H2]; split; auto; lia.
Qed.

(** The reference returns the first occurrence at or after [start_pos],
    and [npos] exactly when there is none. *)
Lemma brute_force_find_first_occurrence haystack needle start_pos :
  0 <= start_pos ->
  (brute_force_find haystack needle start_pos = npos /\
   forall i, start_pos <= Z.of_nat i -> ~ occurs_at haystack needle i) \/
  (exists i : nat,
     brute_force_find haystack needle start_pos = Z.of_nat i /\
     start_pos <= Z.of_nat i /\
     occurs_at haystack needle i /\
     forall j, start_pos <= Z.of_nat j -> (j < i)%nat ->
       ~ occurs_at haystack needle j).
Proof.
  intros Hpos. unfold brute_force_find.
  destruct (Z.of_nat (length haystack) <? start_pos) eqn:E.
  - apply Z.ltb_lt in E. left. split; [reflexivity |].
    intros i Hi [Hlen _]. lia.
  - apply Z.ltb_ge in E.
    pose proof (scan_from_first_occurrence needle
                  (drop (Z.to_nat start_pos) haystack) start_pos) as H.
    destruct (scan_from _ needle start_pos) as [r|].
    + right. destruct H as (i & -> & Hocc & Hfirst).
      exists (Z.to_nat start_pos + i)%nat.
      split; [lia |]. split; [lia |].
      split; [apply occurs_at_drop in Hocc; [exact Hocc | lia] |].
      intros j Hj Hlt Hoc.
      apply (Hfirst (j - Z.to_nat start_pos)%nat); [lia |].
      apply occurs_at_drop; [lia |].
      now replace (Z.to_nat start_pos + (j - Z.to_nat start_pos))%nat with j by lia.
    + left. split; [reflexivity |]. intros i Hi Hoc.
      apply (H (i - Z.to_nat start_pos)%nat).
      apply occurs_at_drop; [lia |].
      now replace (Z.to_nat start_pos + (i - Z.to_nat start_pos))%nat with i by lia.
Qed.

(** ** The tiers that do not use the critical factorization *)

Lemma scan_from_sv_find needle : forall data from,
  scan_from data needle from = (λ i, from + i) <$> sv_find data needle.
Proof.
  induction data as [|x data IH]; intros from; simpl.
  - destruct (bytes_eqb _ _); simpl; [f_equal; lia | reflexivity].
  - destruct (bytes_eqb _ _); simpl; [f_equal; lia |].
    rewrite IH. destruct (sv_find data needle); simpl; [f_equal; lia | reflexivity].
Qed.

Lemma sv_find_single c : forall h, sv_find h [c] = memchr h c.
Proof.
  induction h as [|x h IH]; simpl; [reflexivity |].
  rewrite andb_true_r. destruct (x =? c); [reflexivity |]. now rewrite IH.
Qed.

Lemma bytes_eqb_length a : forall b, bytes_eqb a b = true -> length a = length b.
Proof.
  induction a as [|x a IH]; intros [|y b]; simpl; try discriminate; auto.
  intros H. apply andb_true_iff in H as [_ H]. f_equal. auto.
Qed.

Lemma scan_from_too_short needle : forall data from,
  (length data < length needle)%nat -> scan_from data needle from = None.
Proof.
  induction data as [|x data IH]; intros from Hlen; simpl.
  - destruct (bytes_eqb _ _) eqn:E; [| reflexivity].
    apply bytes_eqb_length in E. rewrite length_take in E. simpl in *. lia.
  - destruct (bytes_eqb _ _) eqn:E.
    + apply bytes_eqb_length in E. rewrite length_take in E. simpl in *. lia.
    + apply IH. simpl in Hlen. lia.
Qed.

Lemma memchr_None s c :
  memchr s c = None -> forall i, s !! i <> Some c.
Proof.
  induction s as [|x s IH]; simpl; intros H i.
  - rewrite lookup_nil. discriminate.
  - destruct (Z.eqb_spec x c) as [-> | Hne]; [discriminate |].
    destruct (memchr s c); [discriminate |].
    destruct i as [|i]; simpl; [congruence | apply IH; reflexivity].
Qed.

Lemma memchr_Some s c : forall d,
  memchr s c = Some d ->
  0 <= d /\ s !! Z.to_nat d = Some c /\
  forall i, (i < Z.to_nat d)%nat -> s !! i <> Some c.
Proof.
  induction s as [|x s IH]; simpl; intros d H; [discriminate |].
  destruct (Z.eqb_spec x c) as [-> | Hne].
  - inversion H; subst. simpl. repeat split; [lia | lia..| intros; lia].
  - destruct (memchr s c) as [d'|] eqn:E; [| discriminate].
    simpl in H. inversion H; subst.
    destruct (IH d' eq_refl) as (H0 & Hd & Hbefore).
    split; [lia |]. split.
    + replace (Z.to_nat (d' + 1)) with (S (Z.to_nat d')) by lia. exact Hd.
    + intros i Hi. destruct i as [|i]; simpl; [congruence |].
      apply Hbefore. lia.
Qed.

(** Positions whose byte is not the first byte of the needle cannot start
    an occurrence. *)
Lemma scan_from_skip first rest : forall (d : nat) p from,
  (forall i, (i < d)%nat -> p !! i <> Some first) ->
  scan_from p (first :: rest) from
    = scan_from (drop d p) (first :: rest) (from + Z.of_nat d).
Proof.
  induction d as [|d IH]; intros p from Hno.
  - rewrite drop_0. f_equal. lia.
  - destruct p as [|x p].
    + reflexivity.
    + assert (Hx : x <> first).
      { intros ->. apply (Hno 0%nat); [lia | reflexivity]. }
      cbn [scan_from length take bytes_eqb drop].
      destruct (Z.eqb_spec x first) as [E | _]; [contradiction |].
      cbn [andb]. rewrite (IH p (from + 1)).
      * f_equal. lia.
      * intros i Hi. apply (Hno (S i)). lia.
Qed.

Lemma short_loop_scan first rest limit :
  let needle := first :: rest in
  let m := Z.of_nat (length needle) in
  forall fuel scan p,
    0 <= scan ->
    Z.of_nat (length p) = limit + m - scan ->
    limit - scan + 1 <= Z.of_nat fuel ->
    two_way.short_loop fuel needle m first limit scan p
      = Ok (scan_from p needle scan).
Proof.
  intros needle m.
  assert (Hm : 1 <= m) by (subst m needle; simpl; lia).
  induction fuel as [|fuel IH]; intros scan p Hscan Hlen Hfuel.
  - simpl. destruct (scan <=? limit) eqn:E; [apply Z.leb_le in E; lia |].
    rewrite scan_from_too_short; [reflexivity |].
    apply Z.leb_gt in E. subst m. lia.
  - cbn [two_way.short_loop].
    destruct (scan <=? limit) eqn:E.
    2:{ apply Z.leb_gt in E. rewrite scan_from_too_short; [reflexivity |].
        subst m. lia. }
    apply Z.leb_le in E.
    set (k := Z.to_nat (limit - scan + 1)).
    destruct (memchr (take k p) first) as [d|] eqn:Hchr.
    + apply memchr_Some in Hchr as (Hd0 & Hd & Hbefore).
      assert (Hdk : (Z.to_nat d < k)%nat).
      { apply lookup_lt_Some in Hd. rewrite length_take in Hd. lia. }
      rewrite lookup_take_lt in Hd by exact Hdk.
      change (scan_from p needle scan) with (scan_from p (first :: rest) scan).
      rewrite (scan_from_skip first rest (Z.to_nat d) p scan).
      2:{ intros i Hi Hp. apply (Hbefore i Hi).
          rewrite lookup_take_lt by lia. exact Hp. }
      rewrite Z2Nat.id by lia.
      destruct (drop (Z.to_nat d) p) as [|y q] eqn:Hdrop.
      { apply (f_equal length) in Hdrop. rewrite length_drop in Hdrop.
        apply lookup_lt_Some in Hd. simpl in Hdrop. lia. }
      cbn [scan_from]. fold needle.
      replace (Z.to_nat m) with (length needle) by (subst m; lia).
      destruct (bytes_eqb (take (length needle) (y :: q)) needle); [reflexivity |].
      cbn [drop]. rewrite drop_0. apply IH.
      * lia.
      * apply (f_equal length) in Hdrop. rewrite length_drop in Hdrop.
        simpl in Hdrop. lia.
      * lia.
    + pose proof (memchr_None _ _ Hchr) as Hno.
      change (scan_from p needle scan) with (scan_from p (first :: rest) scan).
      rewrite (scan_from_skip first rest k p scan).
      2:{ intros i Hi Hp. apply (Hno i). rewrite lookup_take_lt by lia. exact Hp. }
      rewrite scan_from_too_short; [reflexivity |].
      rewrite length_drop. subst m k. fold needle. lia.
Qed.

Lemma search_short avx2 haystack needle :
  1 <= Z.of_nat (length needle) <= 8 ->
  Z.of_nat (length needle) <= Z.of_nat (length haystack) ->
  two_way.search avx2 haystack needle = Ok (scan_from haystack needle 0).
Proof.
  intros Hm Hn. unfold two_way.search. cbv zeta.
  destruct (Z.of_nat (length needle) =? 0) eqn:E0; [apply Z.eqb_eq in E0; lia |].
  destruct (Z.of_nat (length haystack) <? Z.of_nat (length needle)) eqn:E1;
    [apply Z.ltb_lt in E1; lia |].
  destruct (Z.of_nat (length needle) <=? 8) eqn:E2; [| apply Z.leb_gt in E2; lia].
  destruct needle as [|first rest]; [simpl in Hm; lia |].
  cbn [lookup list_lookup default]. simpl (default _ _).
  apply (short_loop_scan first rest); lia.
Qed.

(** Outside the critical-factorization path — an empty needle, a single
    byte, a needle of at most 8 bytes, or fewer than 64 KiB of remaining
    haystack — [find] returns what the brute-force reference returns, in
    either build. *)
Theorem find_agrees_off_the_factorization_path
    (avx2 : bool) (data sv : list Z) (pos : Z) :
  0 <= pos ->
  Z.of_nat (length sv) <= 8 \/ Z.of_nat (length data) - pos < 65536 ->
  find_bytes avx2 data (Z.of_nat (length data)) sv pos
    = Ok (brute_force_find data sv pos).
Proof.
  intros Hpos Htier. unfold find_bytes, brute_force_find.
  destruct (Z.of_nat (length data) <? pos) eqn:Epos; [reflexivity |].
  apply Z.ltb_ge in Epos.
  rewrite subbuf_ok by lia.
  rewrite take_ge by (rewrite length_drop; lia).
  set (hay := drop (Z.to_nat pos) data).
  assert (Hhay : Z.of_nat (length hay) = Z.of_nat (length data) - pos).
  { subst hay. rewrite length_drop. lia. }
  destruct (Z.of_nat (length sv) =? 0) eqn:E0.
  { apply Z.eqb_eq in E0. destruct sv; [| simpl in E0; lia].
    destruct hay; reflexivity. }
  apply Z.eqb_neq in E0.
  destruct (Z.of_nat (length sv) =? 1) eqn:E1.
  { apply Z.eqb_eq in E1. destruct sv as [|c [|? ?]]; simpl in E1; try lia.
    simpl (default _ _). rewrite scan_from_sv_find, sv_find_single.
    destruct (memchr hay c); reflexivity. }
  apply Z.eqb_neq in E1.
  assert (E2 : (2 <=? Z.of_nat (length sv)) = true) by (apply Z.leb_le; lia).
  rewrite E2, andb_true_r. unfold kTwoWayHaystackThreshold.
  destruct (65536 <=? Z.of_nat (length data) - pos) eqn:E3.
  - apply Z.leb_le in E3. destruct Htier as [Hshort | Hsmall]; [| lia].
    rewrite search_short by lia.
    rewrite (scan_from_sv_find sv hay pos), (scan_from_sv_find sv hay 0).
    destruct (sv_find hay sv); reflexivity.
  - rewrite scan_from_sv_find. destruct (sv_find hay sv); reflexivity.
Qed.

(** [find] on a string is [find_bytes] on the bytes it holds. *)
Lemma find_of_content avx2 this sv pos w bytes :
  content this w = Ok (bytes, w) ->
  0 <= pos ->
  find avx2 this sv pos w =
    match find_bytes avx2 bytes (Z.of_nat (length bytes)) sv pos with
    | Ok r => Ok (r, w)
    | Throw e => Throw e
    | Undefined => Undefined
    | OutOfFuel => OutOfFuel
    end.
Proof.
  intros Hc Hpos. apply content_inv in Hc as (buf & Hl & _ & Hsz & ->).
  unfold find. rewrite Hl. rewrite length_take.
  replace (Z.of_nat (Z.to_nat (_size this) `min` length buf)) with (_size this) by lia.
  unfold find_bytes.
  destruct (_size this <? pos) eqn:E; [reflexivity |]. apply Z.ltb_ge in E.
  destruct (Z.of_nat (length sv) =? 0); [reflexivity |].
  rewrite !subbuf_ok by (try rewrite length_take; lia).
  replace (take (Z.to_nat (_size this - pos))
             (drop (Z.to_nat pos) (take (Z.to_nat (_size this)) buf)))
    with (take (Z.to_nat (_size this - pos)) (drop (Z.to_nat pos) buf)).
  - reflexivity.
  - rewrite (take_ge (drop _ (take _ _)))
      by (rewrite length_drop, length_take; lia).
    rewrite take_drop_commute. do 2 f_equal. lia.
Qed.

(** On a string that holds [bytes], [find] returns what the brute-force
    reference returns on [bytes], off the critical-factorization path. *)
Theorem find_on_string_agrees_off_the_factorization_path
    (avx2 : bool) (this : string) (w : world) (bytes sv : list Z) (pos : Z) :
  content this w = Ok (bytes, w) ->
  0 <= pos ->
  Z.of_nat (length sv) <= 8 \/ Z.of_nat (length bytes) - pos < 65536 ->
  find avx2 this sv pos w = Ok (brute_force_find bytes sv pos, w).
Proof.
  intros Hc Hpos Htier.
  rewrite (find_of_content avx2 this sv pos w bytes Hc Hpos).
  now rewrite find_agrees_off_the_factorization_path.
Qed.

(** ** The critical-factorization tier *)

Lemma read_in_range (s : list Z) i :
  0 <= i < Z.of_nat (length s) -> exists b, two_way.read s i = Some b.
Proof.
  intros H. unfold two_way.read.
  destruct (0 <=? i) eqn:E; [| apply Z.leb_gt in E; lia].
  destruct (lookup_lt_is_Some_2 s (Z.to_nat i) ltac:(lia)) as [b Hb].
  exists b. exact Hb.
Qed.

(** The preprocessing loop returns within its fuel, for either order, and
    never reads outside the needle. *)
Lemma max_suffix_loop_returns lt needle m :
  m = Z.of_nat (length needle) ->
  forall fuel i j k period,
    0 <= i < j -> 1 <= k <= period -> period <= j - i -> j + k <= m + 1 ->
    3 * m - (2 * i + j + k) <= Z.of_nat fuel ->
    exists l per,
      two_way.max_suffix_loop fuel lt needle m i j k period = Ok (l, per) /\
      0 <= l < m /\ 1 <= per.
Proof.
  intros Hm. induction fuel as [|fuel IH]; intros i j k period Hi Hk Hp Hjk Hfuel.
  - cbn [two_way.max_suffix_loop].
    destruct (j + k <=? m) eqn:E; [apply Z.leb_le in E; lia |].
    apply Z.leb_gt in E. exists i, period. split; [reflexivity | lia].
  - cbn [two_way.max_suffix_loop].
    destruct (j + k <=? m) eqn:E.
    2:{ apply Z.leb_gt in E. exists i, period. split; [reflexivity | lia]. }
    apply Z.leb_le in E.
    destruct (read_in_range needle (j + k - 1) ltac:(lia)) as [a ->].
    destruct (read_in_range needle (i + k - 1) ltac:(lia)) as [b ->].
    destruct (lt a b).
    { apply IH; lia. }
    destruct (a =? b).
    { destruct (Z.eqb_spec k period); apply IH; lia. }
    apply IH; lia.
Qed.

Lemma max_suffix_returns lt needle :
  1 <= Z.of_nat (length needle) ->
  exists l per,
    two_way.max_suffix_loop (two_way.max_suffix_fuel (Z.of_nat (length needle)))
      lt needle (Z.of_nat (length needle)) 0 1 1 1 = Ok (l, per) /\
    0 <= l < Z.of_nat (length needle) /\ 1 <= per.
Proof.
  intros Hm. apply max_suffix_loop_returns; try lia; try reflexivity.
  unfold two_way.max_suffix_fuel. lia.
Qed.

Lemma memchr_nonneg s c d : memchr s c = Some d -> 0 <= d.
Proof. intros H. apply memchr_Some in H. tauto. Qed.

Lemma match_run_ge xs : forall ys i r,
  two_way.match_run xs ys i = Some r -> i <= r.
Proof.
  induction xs as [|x xs IH]; intros ys i r; simpl.
  - intros H. inversion H. lia.
  - destruct ys as [|y ys]; [discriminate |].
    destruct (x =? y); [| intros H; inversion H; lia].
    intros H. apply IH in H. lia.
Qed.

Lemma avx2_prescan_returns target l n end_ : forall fuel pos p,
  end_ - pos + 1 <= Z.of_nat fuel ->
  two_way.avx2_prescan fuel target l n end_ pos p = Ok two_way.Exhausted \/
  exists pos' p', pos <= pos' /\
    two_way.avx2_prescan fuel target l n end_ pos p
      = Ok (two_way.Candidate pos' p').
Proof.
  induction fuel as [|fuel IH]; intros pos p Hfuel; cbn [two_way.avx2_prescan].
  - destruct (pos + (l + 1) + 32 <=? n); cbn [andb].
    + destruct (pos <=? end_) eqn:E; [apply Z.leb_le in E; lia |].
      apply Z.leb_gt in E. apply Z.ltb_lt in E. rewrite E. now left.
    + destruct (end_ <? pos); [now left |]. right. exists pos, p. split; [lia | reflexivity].
  - destruct ((pos + (l + 1) + 32 <=? n) && (pos <=? end_)) eqn:E.
    + destruct (memchr _ target) as [d|] eqn:Hc.
      * right. apply memchr_nonneg in Hc. eexists _, _. split; [| reflexivity]. lia.
      * destruct (IH (pos + 32) (drop 32 p) ltac:(lia)) as [H | (pos' & p' & Hle & H)].
        -- now left.
        -- right. exists pos', p'. split; [lia | exact H].
    + destruct (end_ <? pos); [now left |]. right. exists pos, p. split; [lia | reflexivity].
Qed.

Lemma prescan_returns avx2 fuel0 needle m l n end_ pos p :
  end_ - pos + 1 <= Z.of_nat fuel0 ->
  two_way.prescan avx2 fuel0 needle m l n end_ pos p = Ok two_way.Exhausted \/
  exists pos' p', pos <= pos' /\
    two_way.prescan avx2 fuel0 needle m l n end_ pos p
      = Ok (two_way.Candidate pos' p').
Proof.
  intros Hfuel. unfold two_way.prescan.
  destruct (avx2 && (l + 1 <? m)).
  - now apply avx2_prescan_returns.
  - right. exists pos, p. split; [lia | reflexivity].
Qed.

Lemma periodic_loop_fuel avx2 fuel0 needle m l period n end_ :
  0 <= l -> 1 <= period -> end_ + 1 <= Z.of_nat fuel0 ->
  forall fuel pos p memory,
    0 <= pos -> 0 <= memory ->
    end_ - pos + 1 <= Z.of_nat fuel ->
    two_way.periodic_loop avx2 fuel0 fuel needle m l period n end_ pos p memory
      <> OutOfFuel.
Proof.
  intros Hl Hper Hfuel0.
  induction fuel as [|fuel IH]; intros pos p memory Hpos Hmem Hfuel;
    cbn [two_way.periodic_loop].
  - destruct (pos <=? end_) eqn:E; [apply Z.leb_le in E; lia | discriminate].
  - destruct (pos <=? end_) eqn:E; [| discriminate]. apply Z.leb_le in E.
    assert (Hpre : (if memory =? 0
                    then two_way.prescan avx2 fuel0 needle m l n end_ pos p
                    else Ok (two_way.Candidate pos p)) = Ok two_way.Exhausted \/
                   exists pos' p', pos <= pos' /\
                     (if memory =? 0
                      then two_way.prescan avx2 fuel0 needle m l n end_ pos p
                      else Ok (two_way.Candidate pos p))
                       = Ok (two_way.Candidate pos' p')).
    { destruct (memory =? 0).
      - apply prescan_returns. lia.
      - right. exists pos, p. split; [lia | reflexivity]. }
    destruct Hpre as [-> | (pos' & p' & Hle & ->)]; [discriminate |].
    cbv zeta.
    destruct (two_way.match_run _ _ (Z.max (l + 1) memory)) as [i|] eqn:Hi;
      [| discriminate].
    apply match_run_ge in Hi.
    destruct (i <? m).
    { apply IH; lia. }
    destruct (two_way.match_run _ _ memory) as [j|]; [| discriminate].
    destruct (l <? j); [discriminate |].
    apply IH; try lia. destruct (period <? m) eqn:Ep; [apply Z.ltb_lt in Ep |]; lia.
Qed.

Lemma nonperiodic_loop_fuel avx2 fuel0 needle m l n end_ :
  0 <= l -> end_ + 1 <= Z.of_nat fuel0 ->
  forall fuel pos p,
    0 <= pos ->
    end_ - pos + 1 <= Z.of_nat fuel ->
    two_way.nonperiodic_loop avx2 fuel0 fuel needle m l n end_ pos p
      <> OutOfFuel.
Proof.
  intros Hl Hfuel0.
  induction fuel as [|fuel IH]; intros pos p Hpos Hfuel;
    cbn [two_way.nonperiodic_loop].
  - destruct (pos <=? end_) eqn:E; [apply Z.leb_le in E; lia | discriminate].
  - destruct (pos <=? end_) eqn:E; [| discriminate]. apply Z.leb_le in E.
    destruct (prescan_returns avx2 fuel0 needle m l n end_ pos p ltac:(lia))
      as [-> | (pos' & p' & Hle & ->)]; [discriminate |].
    cbv zeta.
    destruct (two_way.match_run _ _ (l + 1)) as [i|] eqn:Hi; [| discriminate].
    apply match_run_ge in Hi.
    destruct (i <? m).
    { apply IH; lia. }
    destruct (two_way.match_run _ _ 0) as [j|]; [| discriminate].
    destruct (l <? j); [discriminate |].
    apply IH; lia.
Qed.

(** The fuel of the embedding is never exhausted: [search] always comes
    back with a result of the code (a position, [nullptr], or a read
    outside a buffer). *)
Theorem search_fuel_suffices (avx2 : bool) (haystack needle : list Z) :
  two_way.search avx2 haystack needle <> OutOfFuel.
Proof.
  destruct needle as [|first rest]; [discriminate |].
  unfold two_way.search. cbv zeta.
  set (needle := first :: rest).
  assert (Hm : 1 <= Z.of_nat (length needle)) by (subst needle; simpl; lia).
  destruct (Z.of_nat (length needle) =? 0) eqn:E0; [discriminate |].
  destruct (Z.of_nat (length haystack) <? Z.of_nat (length needle)) eqn:E1;
    [discriminate |].
  apply Z.ltb_ge in E1.
  destruct (Z.of_nat (length needle) <=? 8) eqn:E8.
  - simpl (default _ _).
    rewrite (short_loop_scan first rest
               (Z.of_nat (length haystack) - Z.of_nat (length needle)));
      [discriminate | lia | fold needle; lia | fold needle; lia].
  - unfold two_way.max_suffix, two_way.max_suffix_rev.
    destruct (max_suffix_returns Z.ltb needle Hm) as (l1 & per1 & -> & Hl1 & Hp1).
    destruct (max_suffix_returns Z.gtb needle Hm) as (l2 & per2 & -> & Hl2 & Hp2).
    assert (Hsel : exists l period,
              (if l2 <=? l1 then (l1, per1) else (l2, per2)) = (l, period) /\
              0 <= l /\ 1 <= period).
    { destruct (l2 <=? l1); eexists _, _; (split; [reflexivity | lia]). }
    destruct Hsel as (l & period & -> & Hl & Hper).
    destruct (memcmp_prefix _ _ _) as [[|]|]; [| | discriminate].
    + apply periodic_loop_fuel; lia.
    + apply nonperiodic_loop_fuel; lia.
Qed.

(** C1 (the code departs from the claim).  On the 64 KiB haystack
    "a" ++ "aaaaaaabb" ++ "zzz..." the needle "aaaaaaabb" occurs at index
    1, and the brute-force reference finds it there; [find] reaches the
    two-way matcher (65536 bytes remain, the needle has 9 bytes) and
    returns [npos], in the scalar and in the AVX2 build alike.
    [max_suffix] returns the start (7) of the maximal suffix "bb" and
    [search] uses it as the last index of the left part, so the right part
    is taken to be "b" alone and the shift after a left-part mismatch
    ([l + 1] = 8) jumps over the occurrence. *)
Theorem find_two_way_misses_occurrence :
  Z.of_nat (length haystack_64k) = 65536 /\
  detail.two_way.max_suffix needle_aaaaaaabb 9 = Ok (7, 1) /\
  detail.two_way.max_suffix_rev needle_aaaaaaabb 9 = Ok (0, 9) /\
  detail.two_way.search false haystack_64k needle_aaaaaaabb = Ok None /\
  detail.two_way.search true haystack_64k needle_aaaaaaabb = Ok None /\
  value (find_in_fresh_string false haystack_64k needle_aaaaaaabb 0 world_zero)
    = Ok npos /\
  value (find_in_fresh_string true haystack_64k needle_aaaaaaabb 0 world_zero)
    = Ok npos /\
  occurs_at haystack_64k needle_aaaaaaabb 1 /\
  brute_force_find haystack_64k needle_aaaaaaabb 0 = 1 /\
  npos <> 1.
Proof.
  split; [vm_compute; reflexivity |].
  split; [vm_compute; reflexivity |].
  split; [vm_compute; reflexivity |].
  split; [vm_compute; reflexivity |].
  split; [vm_compute; reflexivity |].
  split; [vm_compute; reflexivity |].
  split; [vm_compute; reflexivity |].
  split; [split; [apply Nat.leb_le; vm_compute; reflexivity | reflexivity] |].
  split; [vm_compute; reflexivity |].
  vm_compute. discriminate.
Qed.

(** The two scenarios the specification lists come out as it expects, in
    both builds: 900, and 99975 — a multiple of the shift [l + 1] = 25 the
    loop takes on this needle.  With one more leading byte the occurrence
    is at 99976 and [find] returns [npos]. *)
Lemma specification_scenarios :
  find_bytes false haystack_1000 1000 needle_word 0 = Ok 900 /\
  find_bytes true haystack_1000 1000 needle_word 0 = Ok 900 /\
  find_bytes false haystack_100k 100000 needle_24a_b 0 = Ok 99975 /\
  find_bytes true haystack_100k 100000 needle_24a_b 0 = Ok 99975 /\
  find_bytes false haystack_100k_plus_1 100001 needle_24a_b 0 = Ok npos /\
  find_bytes true haystack_100k_plus_1 100001 needle_24a_b 0 = Ok npos /\
  brute_force_find haystack_100k_plus_1 needle_24a_b 0 = 99976.
Proof.
  split; [vm_compute; reflexivity |].
  split; [vm_compute; reflexivity |].
  split; [vm_compute; reflexivity |].
  split; [vm_compute; reflexivity |].
  split; [vm_compute; reflexivity |].
  split; [vm_compute; reflexivity |].
  vm_compute; reflexivity.
Qed.

(** * The example values are what the code produces *)

Lemma demo_heap_constructed :
  string_from demo_bytes world_zero = Ok (demo_heap, demo_world).
Proof. vm_compute. reflexivity. Qed.

Lemma demo_inline_constructed :
  string_from [97; 98; 99] world_zero = Ok (demo_inline, world_zero).
Proof. vm_compute. reflexivity. Qed.

(** * Counterexamples to the claims as first stated *)

(** C2 as stated fails: on the inline string "abc" (size 3), [insert],
    [erase] and [replace] at position 5 return normally, with the string
    and the state unchanged; no [out_of_range] is raised. *)
Lemma mutators_past_size_do_not_throw :
  size demo_inline = 3 /\
  insert demo_inline 5 [120] world_zero = Ok (demo_inline, world_zero) /\
  erase demo_inline 5 1 world_zero = Ok (demo_inline, world_zero) /\
  replace demo_inline 5 1 [120] world_zero = Ok (demo_inline, world_zero).
Proof. repeat split. Qed.

(** C3 as stated fails: growing the 30-byte heap string (block 4096, class
    64) to capacity 100 logs, after the constructor's own allocation, the
    request for the new 128-byte block, then the copy, then the release of
    the old block; the release does not come before the request. *)
Lemma grow_releases_after_request :
  string_wf demo_heap demo_world /\
  _is_heap_allocated demo_heap = true /\
  trace_of (_grow_to demo_heap 100 demo_world)
    = [EvAllocate 31 4096; EvAllocate 128 4160; EvCopy 4160 4096 30;
       EvDeallocate 4096 64] /\
  ~ happens_before (EvDeallocate 4096 64) (EvAllocate 128 4160)
      (trace_of (_grow_to demo_heap 100 demo_world)).
Proof.
  assert (E : trace_of (_grow_to demo_heap 100 demo_world)
    = [EvAllocate 31 4096; EvAllocate 128 4160; EvCopy 4160 4096 30;
       EvDeallocate 4096 64])
    by (vm_compute; reflexivity).
  split.
  { split; [cbv -[Z.le Z.lt]; lia |].
    exists demo_block. split; [vm_compute; reflexivity | cbv -[Z.le Z.lt]; lia]. }
  split; [reflexivity |].
  split; [exact E |]. rewrite E.
  intros (i & j & Hlt & Hi & Hj).
  destruct i as [|[|[|[|i]]]]; simpl in Hi; try discriminate.
  destruct j as [|[|[|[|j]]]]; simpl in Hj; try discriminate; lia.
Qed.

(** C4 as stated fails: a string constructed from 30 bytes is Heap-backed
    with capacity 63; [shrink_to_fit] then requests 31 bytes (which fits
    the 64-byte class, whose rounded capacity is 63) and reports
    [capacity()] = 30. *)
Lemma shrink_to_fit_capacity_not_rounded :
  value ((let* s := string_from (replicate 30 97) in
          ret (size s, capacity s)) world_zero) = Ok (30, 63) /\
  value ((let* s := string_from (replicate 30 97) in
          let* s := shrink_to_fit s in
          ret (_is_heap_allocated s, size s, capacity s)) world_zero)
    = Ok (true, 30, 30) /\
  trace_of ((let* s := string_from (replicate 30 97) in
             shrink_to_fit s) world_zero)
    = [EvAllocate 31 4096; EvAllocate 31 4160; EvCopy 4160 4096 30;
       EvDeallocate 4096 64] /\
  smallest_class_ge 64 31 /\
  pool_alloc_usable_capacity 31 = 63.
Proof.
  split; [vm_compute; reflexivity |].
  split; [vm_compute; reflexivity |].
  split; [vm_compute; reflexivity |].
  split; [| reflexivity].
  split; [unfold POOL_CLASSES; apply list_elem_of_here |].
  split; [lia |]. intros c Hc Hle. apply pool_classes_elem in Hc. lia.
Qed.

(** C6 as stated fails: sizes 0 and 64 map to the same class (index 0);
    after the block 4096 is released with size 64 into the empty class,
    an allocation of size 0 returns [nullptr], not the block. *)
Lemma allocate_zero_after_release_is_null :
  pool_class_index 0 = pool_class_index 64 /\
  count_of (tls demo_world) (pool_class_index 64) = 0 /\
  value (default_deallocate_aligned 4096 64 16 demo_world) = Ok tt /\
  value ((let* _ := default_deallocate_aligned 4096 64 16 in
          default_allocate_aligned 0 16) demo_world) = Ok nullptr /\
  value ((let* _ := default_deallocate_aligned 4096 64 16 in
          default_allocate_aligned 64 16) demo_world) = Ok 4096 /\
  nullptr <> 4096.
Proof.
  repeat split; try (vm_compute; reflexivity). discriminate.
Qed.

(** * Instances of the theorems *)

Lemma mutators_ignore_position_past_size_witness :
  _size demo_inline < 5 /\
  insert demo_inline 5 [120] world_zero = Ok (demo_inline, world_zero) /\
  erase demo_inline 5 1 world_zero = Ok (demo_inline, world_zero) /\
  replace demo_inline 5 1 [120] world_zero = Ok (demo_inline, world_zero).
Proof.
  split; [simpl; lia |].
  apply (mutators_ignore_position_past_size demo_inline 5 1 [120] world_zero).
  simpl; lia.
Defined.

Lemma grow_heap_requests_copies_then_releases_witness :
  pool_live demo_world /\
  string_wf demo_heap demo_world /\
  _is_heap_allocated demo_heap = true /\
  capacity demo_heap < 100 < 2 ^ 63 /\
  exists s' w' new_ptr,
    _grow_to demo_heap 100 demo_world = Ok (s', w') /\
    _is_heap_allocated s' = true /\
    heap_ptr (_data s') = new_ptr /\
    size s' = size demo_heap /\
    trace w' = trace demo_world ++
      [EvAllocate (grow_request 100) new_ptr;
       EvCopy new_ptr (heap_ptr (_data demo_heap)) (size demo_heap);
       EvDeallocate (heap_ptr (_data demo_heap)) (sz (capacity demo_heap + 1))].
Proof.
  assert (Hpool : pool_live demo_world) by pool_live_by_computation.
  assert (Hwf : string_wf demo_heap demo_world).
  { split; [arith_by_computation |].
    exists demo_block. split; [vm_compute; reflexivity | arith_by_computation]. }
  assert (Hr : capacity demo_heap < 100 < 2 ^ 63) by arith_by_computation.
  split; [exact Hpool |]. split; [exact Hwf |]. split; [reflexivity |].
  split; [exact Hr |].
  apply (grow_heap_requests_copies_then_releases demo_heap 100 demo_world);
    [exact Hpool | exact Hwf | reflexivity | exact Hr].
Defined.

Lemma heap_capacity_is_pool_rounded_witness :
  0 <= 100 /\ 100 + 1 <= MAX_POOL_SIZE /\
  exists cls,
    smallest_class_ge cls (100 + 1) /\
    100 <= cls - 1 /\
    (exists s' w',
       _allocate_heap_exact string_default 100 world_zero = Ok (s', w') /\
       _is_heap_allocated s' = true /\ capacity s' = cls - 1) /\
    (forall min_capacity,
       _calculate_new_capacity min_capacity = 100 ->
       (exists s' w',
          _allocate_heap string_default min_capacity world_zero = Ok (s', w') /\
          _is_heap_allocated s' = true /\ capacity s' = cls - 1) /\
       (pool_live world_zero -> string_wf string_default world_zero ->
        capacity string_default < min_capacity < 2 ^ 63 ->
        exists s' w',
          _grow_to string_default min_capacity world_zero = Ok (s', w') /\
          _is_heap_allocated s' = true /\ capacity s' = cls - 1)).
Proof.
  split; [lia |]. split; [arith_by_computation |].
  apply (heap_capacity_is_pool_rounded string_default 100 world_zero);
    [lia | arith_by_computation].
Defined.

Lemma calculate_new_capacity_rule_witness :
  0 <= 100 < 2 ^ 64 /\
  (100 < 32 -> _calculate_new_capacity 100 = 32) /\
  (32 <= 100 ->
     exists k, 0 <= k /\
       _calculate_new_capacity 100 = 2 ^ k - 1 /\
       100 <= _calculate_new_capacity 100 /\
       (forall k', 0 <= k' -> 100 <= 2 ^ k' - 1 ->
          _calculate_new_capacity 100 <= 2 ^ k' - 1)).
Proof.
  split; [lia |]. apply (calculate_new_capacity_rule 100). lia.
Defined.

Lemma release_then_allocate_reuses_block_witness :
  tls_shape (tls demo_world) /\
  4096 <> nullptr /\
  50 <> 0 /\
  0 <= pool_class_index 64 /\
  pool_class_index 50 = pool_class_index 64 /\
  0 <= count_of (tls demo_world) (pool_class_index 64) < POOL_SLAB_DEPTH /\
  exists w1 w2,
    default_deallocate_aligned 4096 64 16 demo_world = Ok (tt, w1) /\
    default_allocate_aligned 50 16 w1 = Ok (4096, w2) /\
    count_of (tls w2) (pool_class_index 64)
      = count_of (tls demo_world) (pool_class_index 64) /\
    mem w2 = mem demo_world.
Proof.
  assert (Hshape : tls_shape (tls demo_world)).
  { split; [reflexivity |]. split; [reflexivity |].
    simpl. repeat constructor. }
  split; [exact Hshape |].
  split; [discriminate |]. split; [discriminate |].
  split; [arith_by_computation |]. split; [reflexivity |].
  split; [arith_by_computation |].
  apply (release_then_allocate_reuses_block demo_world 4096 64 50 16 16);
    [exact Hshape | discriminate | discriminate | arith_by_computation
    | reflexivity | arith_by_computation].
Defined.

Lemma move_steals_and_empties_witness :
  string_shape demo_heap /\
  content demo_heap demo_world = Ok (demo_bytes, demo_world) /\
  (content (fst (string_move demo_heap)) demo_world = Ok (demo_bytes, demo_world) /\
   size (fst (string_move demo_heap)) = size demo_heap /\
   size (snd (string_move demo_heap)) = 0 /\
   _flags (snd (string_move demo_heap)) = 0 /\
   _is_heap_allocated (snd (string_move demo_heap)) = false /\
   capacity (snd (string_move demo_heap)) = SSO_CAPACITY /\
   content (snd (string_move demo_heap)) demo_world = Ok ([], demo_world) /\
   terminator (snd (string_move demo_heap)) demo_world = Ok (0, demo_world) /\
   destroy (snd (string_move demo_heap)) demo_world = Ok (tt, demo_world) /\
   exists w',
     (let* _ := destroy (snd (string_move demo_heap)) in
      destroy (fst (string_move demo_heap))) demo_world = Ok (tt, w') /\
     trace w' = trace demo_world ++
       (if _is_heap_allocated demo_heap
        then [EvDeallocate (heap_ptr (_data demo_heap))
                           (sz (heap_capacity (_data demo_heap) + 1))]
        else [])) /\
  (forall this : string,
     (_is_heap_allocated this = true ->
        is_Some (mem demo_world !! heap_ptr (_data this)) /\
        (_is_heap_allocated demo_heap = true ->
           heap_ptr (_data this) <> heap_ptr (_data demo_heap))) ->
     exists w',
       move_assign this demo_heap demo_world
         = Ok ((fst (string_move demo_heap), snd (string_move demo_heap)), w') /\
       content (fst (string_move demo_heap)) w' = Ok (demo_bytes, w') /\
       destroy (snd (string_move demo_heap)) w' = Ok (tt, w') /\
       trace w' = trace demo_world ++
         (if _is_heap_allocated this
          then [EvDeallocate (heap_ptr (_data this))
                             (sz (heap_capacity (_data this) + 1))]
          else [])).
Proof.
  split; [reflexivity |]. split; [vm_compute; reflexivity |].
  apply (move_steals_and_empties demo_heap demo_world demo_bytes);
    [reflexivity | vm_compute; reflexivity].
Defined.

Lemma at_bounds_checked_witness :
  0 <= 1 /\
  (_size demo_heap <= 1 -> at_ demo_heap 1 demo_world = Throw out_of_range) /\
  (1 < _size demo_heap ->
     forall bytes, content demo_heap demo_world = Ok (bytes, demo_world) ->
       exists b, bytes !! Z.to_nat 1 = Some b /\
                 at_ demo_heap 1 demo_world = Ok (b, demo_world)).
Proof.
  split; [lia |]. apply (at_bounds_checked demo_heap 1 demo_world). lia.
Defined.

Lemma assign_within_capacity_in_place_witness :
  _is_heap_allocated demo_heap = true /\
  mem demo_world !! heap_ptr (_data demo_heap) = Some demo_block /\
  capacity demo_heap + 1 <= Z.of_nat (length demo_block) /\
  Z.of_nat (length [120; 121; 122]) <= capacity demo_heap /\
  exists s' w',
    assign demo_heap [120; 121; 122] demo_world = Ok (s', w') /\
    (forall other, content other demo_world = Ok ([120; 121; 122], demo_world) ->
       copy_assign demo_heap other demo_world = Ok (s', w')) /\
    content s' w' = Ok ([120; 121; 122], w') /\
    terminator s' w' = Ok (0, w') /\
    size s' = Z.of_nat (length [120; 121; 122]) /\
    _is_heap_allocated s' = true /\
    capacity s' = capacity demo_heap /\
    heap_ptr (_data s') = heap_ptr (_data demo_heap) /\
    trace w' = trace demo_world /\ tls w' = tls demo_world /\
    brk w' = brk demo_world.
Proof.
  split; [reflexivity |]. split; [vm_compute; reflexivity |].
  split; [arith_by_computation |]. split; [arith_by_computation |].
  apply (assign_within_capacity_in_place demo_heap [120; 121; 122] demo_block
           demo_world);
    [reflexivity | vm_compute; reflexivity | arith_by_computation
    | arith_by_computation].
Defined.

Lemma pop_back_empty_noop_witness :
  _size string_default = 0 /\
  pop_back string_default world_zero = Ok (string_default, world_zero).
Proof.
  split; [reflexivity |].
  apply (pop_back_empty_noop string_default world_zero). reflexivity.
Defined.

(** * Further properties of the code

    What the helpers, constructors, modifiers and queries of the string,
    the allocation layer under them and the builder's arithmetic do, for
    any input.  The states are those that satisfy [heap_ok], the strings
    those that satisfy [valid]; both are established by the constructors
    and kept by every operation below.  The bytes handed to a call are a
    value: the source of a copy lies outside the buffer it is copied
    to. *)

(** ** The copy helpers *)

(** A store of source bytes into a buffer whose first [x] bytes already
    are the source's. *)
Lemma store_src dst src x off k :
  0 <= off <= x -> 0 <= k ->
  x <= Z.of_nat (length src) -> x <= Z.of_nat (length dst) ->
  off + k <= Z.of_nat (length src) -> off + k <= Z.of_nat (length dst) ->
  memcpy_at (take (Z.to_nat x) src ++ drop (Z.to_nat x) dst) off
            (take (Z.to_nat k) (drop (Z.to_nat off) src))
    = Some (take (Z.to_nat (Z.max x (off + k))) src
              ++ drop (Z.to_nat (Z.max x (off + k))) dst).
Proof.
  intros Hoff Hk Hxs Hxd Hs Hd.
  rewrite memcpy_at_ok.
  2: lia.
  2: { rewrite length_app, !length_take, !length_drop. lia. }
  f_equal. rewrite length_take, length_drop.
  rewrite take_app_le by (rewrite length_take; lia).
  rewrite take_take.
  replace (Z.to_nat off `min` Z.to_nat x)%nat with (Z.to_nat off) by lia.
  rewrite app_assoc, take_take_drop.
  replace (Z.to_nat off + Z.to_nat k `min` (length src - Z.to_nat off))%nat
    with (Z.to_nat (off + k)) by lia.
  replace (Z.to_nat off + Z.to_nat k)%nat with (Z.to_nat (off + k)) by lia.
  destruct (Z.le_gt_cases (off + k) x) as [Hle | Hgt].
  - rewrite Z.max_l by lia.
    rewrite drop_app_le by (rewrite length_take; lia).
    rewrite app_assoc. f_equal.
    rewrite <- (take_drop (Z.to_nat (off + k)) (take (Z.to_nat x) src)) at 2.
    f_equal. rewrite take_take. f_equal. lia.
  - rewrite Z.max_r by lia. f_equal.
    rewrite drop_app_ge by (rewrite length_take; lia).
    rewrite length_take, drop_drop. f_equal. lia.
Qed.

Lemma first_store dst src k :
  0 <= k -> k <= Z.of_nat (length src) -> k <= Z.of_nat (length dst) ->
  memcpy_at dst 0 (take (Z.to_nat k) (drop (Z.to_nat 0) src))
    = Some (take (Z.to_nat k) src ++ drop (Z.to_nat k) dst).
Proof.
  intros Hk Hs Hd.
  change dst with (take (Z.to_nat 0) src ++ drop (Z.to_nat 0) dst) at 1.
  rewrite store_src by lia. now rewrite Z.max_r by lia.
Qed.

Ltac run_stores :=
  repeat (rewrite subbuf_ok by lia; cbn [mbind option_bind]);
  rewrite first_store by lia; cbn [mbind option_bind];
  repeat (rewrite store_src by lia; cbn [mbind option_bind]);
  repeat f_equal; lia.

(** [copy_small] stores the first [n] bytes of the source at the head of
    the destination. *)
Lemma copy_small_stores dst src n :
  0 <= n -> n <= Z.of_nat (length src) -> n <= Z.of_nat (length dst) ->
  copy_small dst src n
    = Some (take (Z.to_nat n) src ++ drop (Z.to_nat n) dst).
Proof.
  intros Hn Hs Hd. unfold copy_small.
  destruct (Z.eqb_spec n 0) as [-> | Hn0]; [reflexivity |].
  destruct (Z.leb_spec n 8).
  { destruct (Z.leb_spec 4 n); [run_stores |].
    destruct (Z.leb_spec 2 n); [run_stores |].
    assert (n = 1) as -> by lia.
    destruct src as [|b src]; [simpl in Hs; lia |].
    destruct dst as [|d dst]; [simpl in Hd; lia |].
    simpl. unfold poke. rewrite memcpy_at_ok by (simpl in *; lia). reflexivity. }
  destruct (Z.leb_spec n 16); [run_stores |].
  destruct (Z.leb_spec n 32); [run_stores |].
  destruct (Z.leb_spec n 64); run_stores.
Qed.

(** X1.  [copy_small] (and [copy_sso], which forwards to it) and
    [copy_heap_hot] copy exactly the first [n] bytes of the source over
    the first [n] bytes of the destination and leave the rest of the
    destination alone, for every [n] within both buffers: their
    overlapping head/tail stores and fixed-size chunks amount to one
    [memcpy(dst, src, n)]. *)
Theorem copy_helpers_are_memcpy (dst src : list Z) (n : Z) :
  0 <= n -> n <= Z.of_nat (length src) -> n <= Z.of_nat (length dst) ->
  memcpy_at dst 0 (take (Z.to_nat n) src)
    = Some (take (Z.to_nat n) src ++ drop (Z.to_nat n) dst) /\
  copy_small dst src n = memcpy_at dst 0 (take (Z.to_nat n) src) /\
  copy_sso dst src n = memcpy_at dst 0 (take (Z.to_nat n) src) /\
  copy_heap_hot dst src n = memcpy_at dst 0 (take (Z.to_nat n) src).
Proof.
  intros Hn Hs Hd.
  assert (Hmem : memcpy_at dst 0 (take (Z.to_nat n) src)
            = Some (take (Z.to_nat n) src ++ drop (Z.to_nat n) dst)).
  { rewrite <- (first_store dst src n) by lia. reflexivity. }
  assert (Hsmall : copy_small dst src n = memcpy_at dst 0 (take (Z.to_nat n) src)).
  { rewrite Hmem. apply copy_small_stores; lia. }
  split; [exact Hmem |]. split; [exact Hsmall |]. split; [exact Hsmall |].
  rewrite Hmem. unfold copy_heap_hot.
  destruct (Z.leb_spec n 64); [run_stores |].
  destruct (Z.eqb_spec n 96) as [-> | ?]; [run_stores |].
  destruct (Z.eqb_spec n 99) as [-> | ?]; [run_stores |].
  destruct (Z.eqb_spec n 128) as [-> | ?]; run_stores.
Qed.

(** ** The search helpers *)

Lemma cmpeq_movemask_nonneg block target : 0 <= cmpeq_movemask block target.
Proof.
  induction block as [|b rest IH]; simpl; [lia |].
  destruct (b =? target); lia.
Qed.

(** The lowest set bit of the comparison mask is the first matching byte. *)
Lemma first_set_bit_of_mask target : forall block,
  first_set_bit_index (cmpeq_movemask block target) = memchr block target.
Proof.
  induction block as [|b rest IH]; [reflexivity |].
  cbn [cmpeq_movemask memchr].
  pose proof (cmpeq_movemask_nonneg rest target) as Hm.
  destruct (b =? target).
  - destruct (cmpeq_movemask rest target) as [|p|p]; [reflexivity | reflexivity | lia].
  - rewrite <- IH.
    destruct (cmpeq_movemask rest target) as [|p|p]; [reflexivity | | lia].
    simpl. rewrite Pos.mul_1_l. f_equal. lia.
Qed.

Lemma memchr_app a b target :
  memchr (a ++ b) target =
    match memchr a target with
    | Some k => Some k
    | None => (λ d, Z.of_nat (length a) + d) <$> memchr b target
    end.
Proof.
  induction a as [|x a IH]; simpl.
  - destruct (memchr b target); reflexivity.
  - destruct (x =? target); [reflexivity |].
    rewrite IH. destruct (memchr a target); [reflexivity |].
    destruct (memchr b target); simpl; [f_equal; lia | reflexivity].
Qed.

Lemma find_char_tail_memchr target : forall p i,
  find_char_tail p target i = (λ d, i + d) <$> memchr p target.
Proof.
  induction p as [|x p IH]; intros i; simpl; [reflexivity |].
  destruct (x =? target); simpl; [f_equal; lia |].
  rewrite IH. destruct (memchr p target); simpl; [f_equal; lia | reflexivity].
Qed.

Lemma find_char_blocks_memchr len target : forall fuel i p,
  0 <= i -> Z.of_nat (length p) = len - i ->
  (len - i) / 16 <= Z.of_nat fuel ->
  find_char_blocks fuel len target i p = Ok ((λ d, i + d) <$> memchr p target).
Proof.
  induction fuel as [|fuel IH]; intros i p Hi Hlen Hfuel; cbn [find_char_blocks].
  - destruct (Z.leb_spec (i + 16) len) as [Hle | Hgt].
    + assert (1 <= (len - i) / 16) by (apply Z.div_le_lower_bound; lia). lia.
    + now rewrite find_char_tail_memchr.
  - destruct (Z.leb_spec (i + 16) len) as [Hle | Hgt];
      [| now rewrite find_char_tail_memchr].
    rewrite first_set_bit_of_mask.
    replace (memchr p target) with (memchr (take 16 p ++ drop 16 p) target)
      by (now rewrite take_drop).
    rewrite memchr_app.
    destruct (memchr (take 16 p) target) as [k|] eqn:Hk.
    + rewrite <- first_set_bit_of_mask in Hk.
      destruct (cmpeq_movemask (take 16 p) target); try discriminate.
      reflexivity.
    + rewrite <- first_set_bit_of_mask in Hk.
      pose proof (cmpeq_movemask_nonneg (take 16 p) target) as Hm.
      destruct (cmpeq_movemask (take 16 p) target); try discriminate; [| lia].
      cbn [Z.eqb negb].
      rewrite IH.
      * rewrite length_take.
        replace (16 `min` length p)%nat with 16%nat by lia.
        destruct (memchr (drop 16 p) target); simpl; [do 2 f_equal; lia | reflexivity].
      * lia.
      * rewrite length_drop. lia.
      * replace (len - i) with ((len - (i + 16)) + 1 * 16) in Hfuel by lia.
        rewrite Z.div_add in Hfuel by lia. lia.
Qed.

Lemma find_char_simd_memchr (data : list Z) (target : Z) :
  find_char_simd data target = Ok (memchr data target).
Proof.
  unfold find_char_simd. cbv zeta.
  destruct (Z.eqb_spec (Z.of_nat (length data)) 0) as [E | E].
  - destruct data; [reflexivity | simpl in E; lia].
  - rewrite find_char_blocks_memchr.
    + destruct (memchr data target); reflexivity.
    + lia.
    + lia.
    + rewrite Z.sub_0_r.
      pose proof (Z.div_pos (Z.of_nat (length data)) 16 ltac:(lia) ltac:(lia)).
      lia.
Qed.

(** X2.  The SSE2 single-character search returns what [memchr] returns:
    the offset of the first byte equal to the target, or [nullptr] when
    there is none (in particular for an empty range). *)
Theorem find_char_simd_finds_first_byte (data : list Z) (target : Z) :
  exists r, find_char_simd data target = Ok r /\
            r = memchr data target /\
            first_byte data target r.
Proof.
  exists (memchr data target). split; [apply find_char_simd_memchr |].
  split; [reflexivity |]. unfold first_byte.
  destruct (memchr data target) as [d|] eqn:E.
  - now apply memchr_Some.
  - now apply memchr_None.
Qed.

(** Positions at which the needle does not occur can be skipped. *)
Lemma scan_from_no_occurrence needle : forall (d : nat) p from,
  (forall i, (i < d)%nat -> ~ occurs_at p needle i) ->
  scan_from p needle from = scan_from (drop d p) needle (from + Z.of_nat d).
Proof.
  induction d as [|d IH]; intros p from Hno.
  - rewrite drop_0. f_equal. lia.
  - assert (H0 : bytes_eqb (take (length needle) p) needle = false).
    { apply not_true_iff_false. rewrite occurs_at_head. apply Hno. lia. }
    destruct p as [|x p].
    + cbn [scan_from drop]. rewrite H0.
      destruct (bytes_eqb (take (length needle) []) needle); congruence.
    + cbn [scan_from drop]. rewrite H0.
      rewrite (IH p (from + 1)).
      * f_equal. lia.
      * intros i Hi. rewrite <- occurs_at_tail. apply Hno. lia.
Qed.

Lemma bmh_fill_length wrap m : forall cs i shift,
  length (bmh_fill wrap m i cs shift) = length shift.
Proof.
  induction cs as [|c cs IH]; intros i shift; simpl; [reflexivity |].
  rewrite IH. apply length_insert.
Qed.

(** An entry of the finished table is the initial one when the byte does
    not occur in the filled range, and otherwise the value written for its
    last occurrence. *)
Lemma bmh_fill_spec wrap m : forall cs i shift k s,
  bmh_fill wrap m i cs shift !! k = Some s ->
  (shift !! k = Some s /\ forall j c, cs !! j = Some c -> Z.to_nat c <> k) \/
  (exists j c, cs !! j = Some c /\ Z.to_nat c = k /\
               s = wrap (m - 1 - (i + Z.of_nat j)) /\
               forall j' c', (j < j')%nat -> cs !! j' = Some c' -> Z.to_nat c' <> k).
Proof.
  induction cs as [|c cs IH]; intros i shift k s H; simpl in H.
  - left. split; [exact H |]. intros j c Hj. rewrite lookup_nil in Hj. discriminate.
  - apply IH in H as [[Hs Hno] | (j & c' & Hj & Hc & -> & Hlast)].
    + destruct (Nat.eq_dec (Z.to_nat c) k) as [E | E].
      * right. exists 0%nat, c. split; [reflexivity |]. split; [exact E |].
        split.
        { subst k. apply lookup_lt_Some in Hs as Hlt. rewrite length_insert in Hlt.
          rewrite list_lookup_insert_eq in Hs by exact Hlt.
          inversion Hs. f_equal. lia. }
        intros [|j'] c' Hlt Hj'; [lia |]. simpl in Hj'. eapply Hno; eauto.
      * left. rewrite list_lookup_insert_ne in Hs by exact E.
        split; [exact Hs |]. intros [|j] c' Hj; simpl in Hj.
        -- inversion Hj; subst. exact E.
        -- eapply Hno; eauto.
    + right. exists (S j), c'. split; [exact Hj |]. split; [exact Hc |].
      split; [f_equal; lia |].
      intros [|j'] c'' Hlt Hj'; [lia |]. simpl in Hj'.
      eapply Hlast; [| exact Hj']. lia.
Qed.

(** The test at a candidate position is the full comparison. *)
Lemma bmh_check p needle (last : nat) tl nl :
  length needle = S last ->
  p !! last = Some tl -> needle !! last = Some nl ->
  (tl =? nl) && bytes_eqb (take last p) (take last needle)
    = bytes_eqb (take (length needle) p) needle.
Proof.
  intros Hlen Hp Hn.
  assert (Hneedle : needle = take last needle ++ [nl]).
  { rewrite <- (take_drop last needle) at 1. f_equal.
    apply list_eq. intros [|i]; simpl.
    - rewrite lookup_drop, Nat.add_0_r. exact Hn.
    - rewrite lookup_drop. apply lookup_ge_None. lia. }
  assert (Hp' : take (length needle) p = take last p ++ [tl]).
  { rewrite Hlen. erewrite take_S_r by exact Hp. reflexivity. }
  rewrite Hp'.
  replace (bytes_eqb (take last p ++ [tl]) needle)
    with (bytes_eqb (take last p ++ [tl]) (take last needle ++ [nl]))
    by (now rewrite <- Hneedle).
  destruct (Z.eqb_spec tl nl) as [-> | Hne]; simpl.
  - destruct (bytes_eqb (take last p) (take last needle)) eqn:E.
    + apply bytes_eqb_eq in E. rewrite E. symmetry. now apply bytes_eqb_eq.
    + symmetry. apply not_true_iff_false. rewrite bytes_eqb_eq.
      intros H. apply app_inj_tail in H as [H _].
      apply bytes_eqb_eq in H. congruence.
  - symmetry. apply not_true_iff_false. rewrite bytes_eqb_eq.
    intros H. apply app_inj_tail in H as [_ H]. congruence.
Qed.

(** After a failed test at the head of [p], the needle occurs at none of
    the next [s] positions, [s] being the table entry of the byte under
    the needle's last position. *)
Lemma bmh_skip_safe wrap needle p (last : nat) tl s :
  length needle = S last ->
  (forall v, 1 <= v <= Z.of_nat (length needle) -> wrap v = v) ->
  Forall is_byte needle -> is_byte tl ->
  p !! last = Some tl ->
  bmh_shift wrap needle !! Z.to_nat tl = Some s ->
  ~ occurs_at p needle 0 ->
  1 <= s /\ forall i, (i < Z.to_nat s)%nat -> ~ occurs_at p needle i.
Proof.
  intros Hlen Hwrap Hbytes Htl Hp Hs Hno0.
  unfold bmh_shift in Hs. cbv zeta in Hs.
  set (m := Z.of_nat (length needle)) in *.
  assert (Hm : m = Z.of_nat last + 1) by lia.
  replace (length needle - 1)%nat with last in Hs by lia.
  (* the needle's byte under an occurrence shifted by d *)
  assert (Hocc : forall d, (0 < d <= last)%nat -> occurs_at p needle d ->
            take last needle !! (last - d)%nat = Some tl).
  { intros d Hd [Hin Heq].
    rewrite lookup_take_lt by lia.
    rewrite <- Heq. rewrite lookup_take_lt by lia. rewrite lookup_drop.
    replace (d + (last - d))%nat with last by lia. exact Hp. }
  apply bmh_fill_spec in Hs as [[Hs Hnone] | (j & c & Hj & Hc & -> & Hlast)].
  - apply lookup_replicate in Hs as [-> _].
    rewrite Hwrap by lia. split; [lia |].
    intros i Hi Hoc. destruct i as [|i]; [contradiction |].
    destruct (Nat.le_gt_cases (S i) last) as [Hle | Hgt].
    + apply (Hnone _ _ (Hocc (S i) ltac:(lia) Hoc)). reflexivity.
    + lia.
  - assert (Hjl : (j < last)%nat).
    { apply lookup_lt_Some in Hj. rewrite length_take in Hj. lia. }
    rewrite Z.add_0_l in *. rewrite Hwrap in * by lia.
    split; [lia |].
    intros i Hi Hoc. destruct i as [|i]; [contradiction |].
    apply (Hlast (last - S i)%nat tl); [lia | | reflexivity].
    apply Hocc; [lia | exact Hoc].
Qed.

Lemma bmh_loop_scan wrap needle (last : nat) n :
  length needle = S last ->
  (forall v, 1 <= v <= Z.of_nat (length needle) -> wrap v = v) ->
  Forall is_byte needle ->
  forall fuel pos p,
    Forall is_byte p -> 0 <= pos ->
    Z.of_nat (length p) = n - pos ->
    n - Z.of_nat (length needle) - pos + 1 <= Z.of_nat fuel ->
    bmh_loop fuel (bmh_shift wrap needle) needle n (Z.of_nat (length needle))
      (Z.of_nat (length needle) - 1) pos p
      = Ok (scan_from p needle pos).
Proof.
  intros Hlen Hwrap Hbytes.
  assert (Hlast : Z.to_nat (Z.of_nat (length needle) - 1) = last) by lia.
  induction fuel as [|fuel IH]; intros pos p Hp Hpos Hplen Hfuel;
    cbn [bmh_loop].
  - destruct (Z.leb_spec pos (n - Z.of_nat (length needle))); [lia |].
    rewrite scan_from_too_short by lia. reflexivity.
  - destruct (Z.leb_spec pos (n - Z.of_nat (length needle))) as [Hle | Hgt].
    2:{ rewrite scan_from_too_short by lia. reflexivity. }
    rewrite Hlast.
    destruct (lookup_lt_is_Some_2 p last ltac:(lia)) as [tl Htl].
    destruct (lookup_lt_is_Some_2 needle last ltac:(lia)) as [nl Hnl].
    rewrite Htl, Hnl.
    rewrite (bmh_check p needle last tl nl Hlen Htl Hnl).
    destruct (bytes_eqb (take (length needle) p) needle) eqn:Hcheck.
    + destruct p as [|x p]; cbn [scan_from]; rewrite Hcheck; reflexivity.
    + assert (Hbtl : is_byte tl).
      { eapply Forall_lookup_1; [exact Hp | exact Htl]. }
      assert (Hlen256 : length (bmh_shift wrap needle) = 256%nat).
      { unfold bmh_shift. rewrite bmh_fill_length. apply length_replicate. }
      destruct (lookup_lt_is_Some_2 (bmh_shift wrap needle) (Z.to_nat tl))
        as [s Hs]; [unfold is_byte in Hbtl; lia |].
      rewrite Hs.
      assert (Hno0 : ~ occurs_at p needle 0).
      { rewrite <- occurs_at_head. congruence. }
      destruct (bmh_skip_safe wrap needle p last tl s Hlen Hwrap Hbytes Hbtl
                  Htl Hs Hno0) as [Hs1 Hskip].
      rewrite (scan_from_no_occurrence needle (Z.to_nat s) p pos Hskip).
      rewrite Z2Nat.id by lia.
      destruct (Z.le_gt_cases (Z.of_nat (length p)) s) as [Hshort | Hlong].
      * (* the shift leaves the haystack *)
        rewrite drop_ge by lia.
        rewrite scan_from_too_short by (simpl; lia).
        destruct fuel as [|fuel']; cbn [bmh_loop];
          (destruct (Z.leb_spec (pos + s) (n - Z.of_nat (length needle))); [lia |]);
          reflexivity.
      * apply IH.
        -- now apply Forall_drop.
        -- lia.
        -- rewrite length_drop. lia.
        -- lia.
Qed.

Lemma scan_from_is_first_occurrence haystack needle :
  first_occurrence haystack needle (scan_from haystack needle 0).
Proof.
  pose proof (scan_from_first_occurrence needle haystack 0) as H.
  unfold first_occurrence. destruct (scan_from haystack needle 0); [| exact H].
  destruct H as (i & -> & H). exists i. split; [lia | exact H].
Qed.

Lemma find_substring_bmh_compact_scan haystack needle :
  Z.of_nat (length needle) <= 255 ->
  Forall is_byte haystack -> Forall is_byte needle ->
  find_substring_bmh_compact haystack needle = Ok (scan_from haystack needle 0).
Proof.
  intros Hm Hh Hn. unfold find_substring_bmh_compact. cbv zeta.
  destruct (Z.eqb_spec (Z.of_nat (length needle)) 0) as [E | E].
  { destruct needle; [| simpl in E; lia]. destruct haystack; reflexivity. }
  destruct (Z.ltb_spec (Z.of_nat (length haystack)) (Z.of_nat (length needle))).
  { rewrite scan_from_too_short by lia. reflexivity. }
  destruct (length needle) as [|last] eqn:Hlen; [lia |]. rewrite <- Hlen.
  apply (bmh_loop_scan u8 needle last); try assumption; try lia.
  intros v Hv. apply u8_small. lia.
Qed.

(** X3.  For a needle of at most 255 bytes, the compact
    Boyer-Moore-Horspool search returns the offset of the first occurrence
    of the needle in the haystack, and [nullptr] exactly when the needle
    does not occur. *)
Theorem bmh_compact_finds_first_occurrence (haystack needle : list Z) :
  Z.of_nat (length needle) <= 255 ->
  Forall is_byte haystack -> Forall is_byte needle ->
  exists r, find_substring_bmh_compact haystack needle = Ok r /\
            first_occurrence haystack needle r.
Proof.
  intros Hm Hh Hn. exists (scan_from haystack needle 0).
  split; [now apply find_substring_bmh_compact_scan |].
  apply scan_from_is_first_occurrence.
Qed.

(** With 256 bytes the 8-bit table entry wraps to zero: on a haystack
    byte the needle does not contain, the position never advances. *)
Lemma bmh_compact_needs_short_needle : forall fuel,
  bmh_loop fuel (bmh_shift u8 (replicate 256 97)) (replicate 256 97)
    256 256 255 0 (replicate 256 98) = OutOfFuel.
Proof.
  assert (Hs : bmh_shift u8 (replicate 256 97) !! Z.to_nat 98 = Some 0)
    by (vm_compute; reflexivity).
  assert (Hp : replicate 256 98 !! Z.to_nat 255 = Some 98)
    by (vm_compute; reflexivity).
  assert (Hn : replicate 256 97 !! Z.to_nat 255 = Some 97)
    by (vm_compute; reflexivity).
  induction fuel as [|fuel IH]; [reflexivity |].
  cbn [bmh_loop]. rewrite Hp, Hn, Hs.
  destruct (Z.leb_spec 0 (256 - 256)); [| lia].
  cbn [Z.eqb Pos.eqb andb]. exact IH.
Qed.

Lemma bytes_eqb_head x a y b :
  bytes_eqb (x :: a) (y :: b) = (x =? y) && bytes_eqb a b.
Proof. reflexivity. Qed.

(** The candidate loop is the reference scan, when the check at a
    candidate whose first byte matches is the full comparison. *)
Lemma candidate_loop_scan check first rest limit :
  let needle := first :: rest in
  let m := Z.of_nat (length needle) in
  (forall candidate,
     (length needle <= length candidate)%nat ->
     candidate !! 0%nat = Some first ->
     check candidate = Some (bytes_eqb (take (length needle) candidate) needle)) ->
  forall fuel offset p,
    0 <= offset ->
    Z.of_nat (length p) = limit + m - offset ->
    limit - offset + 1 <= Z.of_nat fuel ->
    candidate_loop fuel check first limit offset p
      = Ok (scan_from p needle offset).
Proof.
  intros needle m Hcheck.
  assert (Hm : 1 <= m) by (subst m needle; simpl; lia).
  induction fuel as [|fuel IH]; intros offset p Hoff Hlen Hfuel.
  - simpl. destruct (Z.leb_spec offset limit); [lia |].
    rewrite scan_from_too_short; [reflexivity | subst m; lia].
  - cbn [candidate_loop].
    destruct (Z.leb_spec offset limit) as [E | E].
    2:{ rewrite scan_from_too_short; [reflexivity | subst m; lia]. }
    rewrite find_char_simd_memchr.
    set (k := Z.to_nat (limit - offset + 1)).
    destruct (memchr (take k p) first) as [d|] eqn:Hchr.
    + apply memchr_Some in Hchr as (Hd0 & Hd & Hbefore).
      assert (Hdk : (Z.to_nat d < k)%nat).
      { apply lookup_lt_Some in Hd. rewrite length_take in Hd. lia. }
      rewrite lookup_take_lt in Hd by exact Hdk.
      change (scan_from p needle offset) with (scan_from p (first :: rest) offset).
      rewrite (scan_from_skip first rest (Z.to_nat d) p offset).
      2:{ intros i Hi Hp. apply (Hbefore i Hi).
          rewrite lookup_take_lt by lia. exact Hp. }
      rewrite Z2Nat.id by lia. fold needle.
      rewrite Hcheck.
      2:{ rewrite length_drop. subst m k. lia. }
      2:{ rewrite lookup_drop, Nat.add_0_r. exact Hd. }
      destruct (drop (Z.to_nat d) p) as [|y q] eqn:Hdrop.
      { apply (f_equal length) in Hdrop. rewrite length_drop in Hdrop.
        apply lookup_lt_Some in Hd. simpl in Hdrop. lia. }
      cbn [scan_from].
      destruct (bytes_eqb (take (length needle) (y :: q)) needle); [reflexivity |].
      cbn [drop]. apply IH.
      * lia.
      * apply (f_equal length) in Hdrop. rewrite length_drop in Hdrop.
        simpl in Hdrop. lia.
      * lia.
    + pose proof (memchr_None _ _ Hchr) as Hno.
      change (scan_from p needle offset) with (scan_from p (first :: rest) offset).
      rewrite (scan_from_skip first rest k p offset).
      2:{ intros i Hi Hp. apply (Hno i). rewrite lookup_take_lt by lia. exact Hp. }
      rewrite scan_from_too_short; [reflexivity |].
      rewrite length_drop. subst m k. fold needle. lia.
Qed.

Lemma check_short_ok needle candidate :
  2 <= Z.of_nat (length needle) <= 4 ->
  (length needle <= length candidate)%nat ->
  candidate !! 0%nat = needle !! 0%nat ->
  check_short needle candidate
    = Some (bytes_eqb (take (length needle) candidate) needle).
Proof.
  intros Hm Hlen H0.
  destruct needle as [|n0 [|n1 [|n2 [|n3 [|? ?]]]]]; simpl in Hm; try lia;
    (destruct candidate as [|c0 [|c1 candidate]]; simpl in Hlen; try lia);
    simpl in H0; inversion H0; subst; unfold check_short.
  - simpl. rewrite Z.eqb_refl. destruct (c1 =? n1); reflexivity.
  - destruct candidate as [|c2 candidate]; [simpl in Hlen; lia |].
    simpl. rewrite Z.eqb_refl.
    destruct (c1 =? n1); [| reflexivity]. simpl.
    destruct (c2 =? n2); reflexivity.
  - destruct candidate as [|c2 [|c3 candidate]]; simpl in Hlen; try lia.
    simpl. rewrite Z.eqb_refl.
    destruct (c1 =? n1); [| reflexivity]. simpl.
    destruct (c2 =? n2); [| reflexivity]. simpl.
    destruct (c3 =? n3); reflexivity.
Qed.

Lemma bytes_eqb_lookup a : forall b i x y,
  bytes_eqb a b = true -> a !! i = Some x -> b !! i = Some y -> x = y.
Proof.
  intros b i x y H Ha Hb. apply bytes_eqb_eq in H. congruence.
Qed.

Lemma check_first_last_ok needle candidate :
  (1 <= length needle)%nat ->
  (length needle <= length candidate)%nat ->
  check_first_last needle candidate
    = Some (bytes_eqb (take (length needle) candidate) needle).
Proof.
  intros Hm Hlen. unfold check_first_last. cbv zeta.
  destruct (lookup_lt_is_Some_2 candidate (length needle - 1) ltac:(lia)) as [c Hc].
  destruct (lookup_lt_is_Some_2 needle (length needle - 1) ltac:(lia)) as [nl Hnl].
  rewrite Hc, Hnl. cbn [mbind option_bind].
  destruct (Z.eqb_spec c nl) as [-> | Hne]; cbn [negb].
  - destruct (Nat.leb_spec (length needle) (length candidate)); [reflexivity | lia].
  - f_equal. symmetry. apply not_true_iff_false. intros H.
    apply Hne. eapply (bytes_eqb_lookup _ _ (length needle - 1)); [exact H | | exact Hnl].
    rewrite lookup_take_lt by lia. exact Hc.
Qed.

Lemma find_substring_simd_scan haystack needle :
  Forall is_byte haystack -> Forall is_byte needle ->
  find_substring_simd haystack needle = Ok (scan_from haystack needle 0).
Proof.
  intros Hh Hn. unfold find_substring_simd. cbv zeta.
  destruct (Z.eqb_spec (Z.of_nat (length needle)) 0) as [E0 | E0].
  { destruct needle; [| simpl in E0; lia]. destruct haystack; reflexivity. }
  destruct (Z.ltb_spec (Z.of_nat (length haystack)) (Z.of_nat (length needle))).
  { rewrite scan_from_too_short by lia. reflexivity. }
  destruct (Z.eqb_spec (Z.of_nat (length needle)) 1) as [E1 | E1].
  { destruct needle as [|c [|? ?]]; simpl in E1; try lia.
    simpl (default _ _). rewrite find_char_simd_memchr.
    rewrite scan_from_sv_find, sv_find_single.
    destruct (memchr haystack c); simpl; reflexivity. }
  destruct needle as [|first rest]; [simpl in E0; lia |].
  simpl (default _ _).
  destruct (Z.leb_spec (Z.of_nat (length (first :: rest))) 4).
  { apply (candidate_loop_scan (check_short (first :: rest)) first rest); try lia.
    intros candidate Hlen Hc0. apply check_short_ok; [lia | exact Hlen | exact Hc0]. }
  destruct ((2048 <=? Z.of_nat (length haystack))
            && (16 <=? Z.of_nat (length (first :: rest)))).
  { apply (bmh_loop_scan (λ v, v) (first :: rest) (length rest));
      try assumption; try reflexivity; try lia. }
  destruct (Z.ltb_spec (Z.of_nat (length haystack)) 256).
  { rewrite scan_from_sv_find.
    destruct (sv_find haystack (first :: rest)); simpl; reflexivity. }
  apply (candidate_loop_scan (check_first_last (first :: rest)) first rest); try lia.
  intros candidate Hlen Hc0. apply check_first_last_ok; [simpl; lia | exact Hlen].
Qed.

(** X4.  Whatever strategy it dispatches to (single character, needles of
    two to four bytes, Horspool for long needles in large haystacks,
    [string_view::find] for small haystacks, first/last-byte filter
    otherwise), [find_substring_simd] returns the offset of the first
    occurrence of the needle, and [nullptr] exactly when there is none. *)
Theorem find_substring_simd_finds_first_occurrence (haystack needle : list Z) :
  Forall is_byte haystack -> Forall is_byte needle ->
  exists r, find_substring_simd haystack needle = Ok r /\
            first_occurrence haystack needle r.
Proof.
  intros Hh Hn. exists (scan_from haystack needle 0).
  split; [now apply find_substring_simd_scan |].
  apply scan_from_is_first_occurrence.
Qed.

(** ** The invariant of the allocation layer *)

Lemma count_of_set_count_ne t idx c idx' :
  0 <= idx -> 0 <= idx' -> idx' <> idx ->
  count_of (set_count t idx c) idx' = count_of t idx'.
Proof.
  intros H H' Hne. unfold count_of, set_count. simpl.
  rewrite list_lookup_insert_ne by lia. reflexivity.
Qed.

Lemma slot_of_set_slot_ne t idx k p idx' k' :
  0 <= idx -> 0 <= k -> 0 <= idx' -> 0 <= k' ->
  idx' <> idx \/ k' <> k ->
  slot_of (set_slot t idx k p) idx' k' = slot_of t idx' k'.
Proof.
  intros H1 H2 H3 H4 Hne. unfold slot_of, set_slot. simpl.
  destruct (Z.eq_dec idx' idx) as [-> | Hi].
  - destruct Hne as [? | Hk]; [contradiction |].
    destruct (slots t !! Z.to_nat idx) as [row|] eqn:Hrow.
    + rewrite list_lookup_insert_eq by (apply lookup_lt_Some in Hrow; exact Hrow).
      simpl. rewrite list_lookup_insert_ne by lia. reflexivity.
    + rewrite list_insert_ge by (now apply lookup_ge_None). rewrite Hrow. reflexivity.
  - rewrite list_lookup_insert_ne by lia. reflexivity.
Qed.

Lemma usable_capacity_ge n :
  0 < n < 2 ^ 64 -> n <= pool_alloc_usable_capacity n + 1.
Proof.
  intros Hn. unfold pool_alloc_usable_capacity.
  destruct (Z.leb_spec 0 (pool_class_index n)) as [Hi | Hi].
  - pose proof (pool_class_fits n Hi). lia.
  - rewrite sz_small by lia. lia.
Qed.

Lemma usable_capacity_class n :
  0 <= pool_class_index n ->
  pool_alloc_usable_capacity n + 1 = pool_class (pool_class_index n).
Proof.
  intros Hi. unfold pool_alloc_usable_capacity.
  destruct (Z.leb_spec 0 (pool_class_index n)); lia.
Qed.

Lemma usable_capacity_idem n :
  0 < n < 2 ^ 64 ->
  pool_alloc_usable_capacity (pool_alloc_usable_capacity n + 1)
    = pool_alloc_usable_capacity n.
Proof.
  intros Hn. unfold pool_alloc_usable_capacity at 2 3.
  destruct (pool_class_index_cases n)
    as [[Hr E] | [[Hr E] | [[Hr E] | [[Hr E] | [[Hr E] | [[Hr E] |
        [[Hr E] | [Hr E]]]]]]]]; rewrite E; simpl;
    try reflexivity.
  rewrite sz_small by lia. replace (n - 1 + 1) with n by lia.
  unfold pool_alloc_usable_capacity. rewrite E. simpl. apply sz_small. lia.
Qed.

(** Allocation keeps the invariant of the allocation layer and hands out
    a live block nobody holds: a recycled one or a new one. *)
Lemma allocate_bytes_inv n align w :
  heap_ok w -> 0 < n < 2 ^ 64 ->
  exists p w' blk,
    allocate_bytes_aligned n align w = Ok (p, w') /\
    heap_ok w' /\
    mem w' !! p = Some blk /\
    pool_alloc_usable_capacity n + 1 <= Z.of_nat (length blk) /\
    ~ in_pool (tls w') p /\
    (in_pool (tls w) p \/ mem w !! p = None) /\
    (forall q, q <> p -> mem w' !! q = mem w !! q) /\
    (forall q, in_pool (tls w') q -> in_pool (tls w) q) /\
    trace w' = trace w ++ [EvAllocate n p].
Proof.
  intros (Hshape & Hpool & Hdist & Hbrk & Hkeys) Hn.
  (* a new block from the platform *)
  assert (Hfresh : forall size, 0 < size ->
            pool_alloc_usable_capacity n + 1 <= size ->
            exists p w' blk,
              allocate_aligned_unpooled size align w = Ok (p, w') /\
              heap_ok w' /\
              mem w' !! p = Some blk /\
              pool_alloc_usable_capacity n + 1 <= Z.of_nat (length blk) /\
              ~ in_pool (tls w') p /\
              (in_pool (tls w) p \/ mem w !! p = None) /\
              (forall q, q <> p -> mem w' !! q = mem w !! q) /\
              (forall q, in_pool (tls w') q -> in_pool (tls w) q) /\
              trace w' = trace w).
  { intros size Hpos Hsize. unfold allocate_aligned_unpooled.
    destruct (Z.eqb_spec size 0); [lia |].
    assert (Hnew : mem w !! brk w = None).
    { destruct (mem w !! brk w) eqn:E; [| reflexivity].
      specialize (Hkeys (brk w) ltac:(eauto)). lia. }
    assert (Hnotin : ~ in_pool (tls w) (brk w)).
    { intros (idx & k & Hidx & Hk & Hslot).
      destruct (Hpool idx Hidx) as [_ Hlive].
      destruct (Hlive k Hk) as (blk & Hblk & _). rewrite Hslot in Hblk. congruence. }
    eexists _, _, _. split; [reflexivity |]. cbn [tls mem brk trace].
    split.
    { split; [exact Hshape |]. split.
      - intros idx Hidx. destruct (Hpool idx Hidx) as [Hc Hlive].
        split; [exact Hc |]. intros k Hk. cbn [tls mem].
        destruct (Hlive k Hk) as (blk & Hblk & Hlen).
        exists blk. split; [| exact Hlen].
        rewrite lookup_insert_ne; [exact Hblk |].
        intros E. rewrite <- E in Hblk. congruence.
      - split; [exact Hdist |]. cbn [brk mem]. split; [lia |].
        intros q Hq. destruct (Z.eq_dec q (brk w)) as [-> | Hne]; [lia |].
        rewrite lookup_insert_ne in Hq by congruence.
        specialize (Hkeys q Hq). lia. }
    split; [apply lookup_insert_eq |].
    split; [rewrite length_replicate; lia |].
    split; [exact Hnotin |].
    split; [right; exact Hnew |].
    split; [intros q Hq; apply lookup_insert_ne; congruence |].
    split; [auto | reflexivity]. }
  assert (Hdef : exists p w' blk,
            default_allocate_aligned n align w = Ok (p, w') /\
            heap_ok w' /\
            mem w' !! p = Some blk /\
            pool_alloc_usable_capacity n + 1 <= Z.of_nat (length blk) /\
            ~ in_pool (tls w') p /\
            (in_pool (tls w) p \/ mem w !! p = None) /\
            (forall q, q <> p -> mem w' !! q = mem w !! q) /\
            (forall q, in_pool (tls w') q -> in_pool (tls w) q) /\
            trace w' = trace w).
  { unfold default_allocate_aligned.
    destruct (Z.eqb_spec n 0); [lia |].
    pose proof (usable_capacity_ge n Hn) as Hge.
    destruct (Z.ltb_spec (pool_class_index n) 0) as [Ei | Ei].
    { apply Hfresh; [lia |]. unfold pool_alloc_usable_capacity.
      destruct (Z.leb_spec 0 (pool_class_index n)); [lia |].
      rewrite sz_small by lia. lia. }
    pose proof (pool_class_index_range n Ei) as Hlt.
    pose proof (usable_capacity_class n Ei) as Hcls.
    set (idx := pool_class_index n) in *.
    destruct (Hpool idx ltac:(lia)) as [Hc Hslots].
    unfold POOL_SLAB_DEPTH in Hc.
    destruct (Z.ltb_spec 0 (count_of (tls w) idx)) as [Ec | Ec].
    2:{ apply Hfresh; lia. }
    rewrite u8_small by lia.
    set (c := count_of (tls w) idx - 1).
    destruct (Hslots c ltac:(lia)) as (blk & Hblk & Hlen).
    assert (Hcount : forall idx', 0 <= idx' < 7 ->
              count_of (set_count (tls w) idx c) idx' <= count_of (tls w) idx').
    { intros idx' Hidx'. destruct (Z.eq_dec idx' idx) as [-> | Hne].
      - destruct Hshape as (Hcs & _). rewrite count_of_set_count by lia. lia.
      - rewrite count_of_set_count_ne by lia. lia. }
    assert (Hcount0 : forall idx', 0 <= idx' < 7 ->
              0 <= count_of (set_count (tls w) idx c) idx').
    { intros idx' Hidx'. destruct (Z.eq_dec idx' idx) as [-> | Hne].
      - destruct Hshape as (Hcs & _). rewrite count_of_set_count by lia. lia.
      - rewrite count_of_set_count_ne by lia.
        destruct (Hpool idx' Hidx') as [? _]. lia. }
    eexists _, _, blk. split; [reflexivity |]. cbn [tls with_tls mem brk trace].
    split.
    { split; [now apply tls_shape_set_count |]. split.
      - intros idx' Hidx'. cbn [tls with_tls mem].
        destruct (Hpool idx' Hidx') as [Hc' Hlive'].
        split; [specialize (Hcount idx' Hidx'); specialize (Hcount0 idx' Hidx'); lia |].
        intros k Hk. apply Hlive'. specialize (Hcount idx' Hidx'). lia.
      - split; [| split; [exact Hbrk | exact Hkeys]].
        unfold pool_distinct. cbn [tls with_tls].
        intros i1 k1 i2 k2 Hi1 Hk1 Hi2 Hk2 Heq.
        apply (Hdist i1 k1 i2 k2); try assumption.
        + specialize (Hcount i1 Hi1). lia.
        + specialize (Hcount i2 Hi2). lia. }
    split; [exact Hblk |]. split; [lia |].
    split.
    { unfold in_pool. cbn [tls with_tls].
      intros (idx' & k' & Hidx' & Hk' & Hslot).
      change (slot_of (set_count (tls w) idx c) idx' k') with (slot_of (tls w) idx' k')
        in Hslot.
      destruct (Hdist idx' k' idx c) as [-> ->]; try assumption; try lia.
      - specialize (Hcount idx' Hidx'). lia.
      - destruct Hshape as (Hcs & _). rewrite count_of_set_count in Hk' by lia. lia. }
    split; [left; exists idx, c; repeat split; lia |].
    split; [reflexivity |].
    split; [| reflexivity].
    unfold in_pool. cbn [tls with_tls].
    intros q (idx' & k' & Hidx' & Hk' & Hslot).
    exists idx', k'. split; [exact Hidx' |]. split; [| exact Hslot].
    specialize (Hcount idx' Hidx'). lia. }
  destruct Hdef as (p & w' & blk & Hd & Hok & Hm & Hl & Hnin & Hfrom & Hq & Hin & Ht).
  exists p, (mkWorld (tls w') (mem w') (brk w') (trace w' ++ [EvAllocate n p])), blk.
  unfold allocate_bytes_aligned, bind. rewrite Hd. simpl.
  split; [reflexivity |]. split; [exact Hok |].
  split; [exact Hm |]. split; [exact Hl |]. split; [exact Hnin |].
  split; [exact Hfrom |]. split; [exact Hq |]. split; [exact Hin |].
  now rewrite Ht.
Qed.

(** Releasing a live block nobody else holds keeps the invariant: the
    block goes to its class, or back to the platform when the class is
    full or the size is beyond the classes. *)
Lemma deallocate_bytes_inv p n align w blk :
  heap_ok w -> 0 < n < 2 ^ 64 ->
  mem w !! p = Some blk ->
  ~ in_pool (tls w) p ->
  pool_alloc_usable_capacity n + 1 <= Z.of_nat (length blk) ->
  exists w',
    deallocate_bytes_aligned p n align w = Ok (tt, w') /\
    heap_ok w' /\
    (forall q, q <> p -> mem w' !! q = mem w !! q) /\
    (forall q, q <> p -> in_pool (tls w') q -> in_pool (tls w) q) /\
    trace w' = trace w ++ [EvDeallocate p n].
Proof.
  intros (Hshape & Hpool & Hdist & Hbrk & Hkeys) Hn Hblk Hnin Hlen.
  assert (Hp : p <> nullptr).
  { specialize (Hkeys p ltac:(eauto)). unfold nullptr. lia. }
  unfold deallocate_bytes_aligned, bind, emit.
  set (w0 := mkWorld (tls w) (mem w) (brk w) (trace w ++ [EvDeallocate p n])).
  (* back to the platform *)
  assert (Hfree : exists w',
            deallocate_aligned_unpooled p n align w0 = Ok (tt, w') /\
            heap_ok w' /\
            (forall q, q <> p -> mem w' !! q = mem w !! q) /\
            (forall q, q <> p -> in_pool (tls w') q -> in_pool (tls w) q) /\
            trace w' = trace w ++ [EvDeallocate p n]).
  { unfold deallocate_aligned_unpooled.
    destruct (Z.eqb_spec p nullptr); [contradiction |].
    subst w0. cbn [mem]. rewrite Hblk.
    eexists. split; [reflexivity |]. cbn [tls with_mem mem brk trace].
    split.
    { split; [exact Hshape |]. split.
      - intros idx Hidx. destruct (Hpool idx Hidx) as [Hc Hlive].
        split; [exact Hc |]. cbn [tls mem with_mem]. intros k Hk.
        destruct (Hlive k Hk) as (b & Hb & Hbl).
        exists b. split; [| exact Hbl].
        rewrite lookup_delete_ne; [exact Hb |].
        intros E. apply Hnin. exists idx, k. repeat split; try lia; congruence.
      - split; [exact Hdist |]. split; [exact Hbrk |]. cbn [mem brk with_mem].
        intros q Hq. apply Hkeys.
        destruct (Z.eq_dec q p) as [-> | Hne].
        + rewrite lookup_delete_eq in Hq. destruct Hq; discriminate.
        + rewrite lookup_delete_ne in Hq by congruence. exact Hq. }
    split; [intros q Hq; apply lookup_delete_ne; congruence |].
    split; [auto | reflexivity]. }
  unfold default_deallocate_aligned.
  destruct (Z.eqb_spec p nullptr); [contradiction |].
  destruct (Z.ltb_spec (pool_class_index n) 0) as [Ei | Ei]; [exact Hfree |].
  pose proof (pool_class_index_range n Ei) as Hlt.
  pose proof (usable_capacity_class n Ei) as Hcls.
  set (idx := pool_class_index n) in *.
  subst w0. cbn [tls].
  destruct (Hpool idx ltac:(lia)) as [Hc Hslots].
  unfold POOL_SLAB_DEPTH in *. rewrite (u8_small 8) by lia.
  destruct (Z.ltb_spec (count_of (tls w) idx) 8) as [Ec | Ec]; [| exact Hfree].
  set (c := count_of (tls w) idx) in *.
  rewrite (u8_small (c + 1)) by lia.
  set (t' := set_count (set_slot (tls w) idx c p) idx (c + 1)).
  assert (Hshape' : tls_shape t').
  { apply tls_shape_set_count, tls_shape_set_slot, Hshape. }
  assert (Hcount : forall idx', 0 <= idx' < 7 ->
            count_of t' idx' = if Z.eq_dec idx' idx then c + 1 else count_of (tls w) idx').
  { intros idx' Hidx'. subst t'. destruct (Z.eq_dec idx' idx) as [-> | Hne].
    - rewrite count_of_set_count; [reflexivity | lia |].
      destruct Hshape as (Hcs & _). exact Hcs.
    - rewrite count_of_set_count_ne by lia. reflexivity. }
  assert (Hslot : forall idx' k', 0 <= idx' < 7 -> 0 <= k' ->
            slot_of t' idx' k' =
              if Z.eq_dec idx' idx
              then (if Z.eq_dec k' c then p else slot_of (tls w) idx' k')
              else slot_of (tls w) idx' k').
  { intros idx' k' Hidx' Hk'. subst t'.
    change (slot_of (set_count (set_slot (tls w) idx c p) idx (c + 1)) idx' k')
      with (slot_of (set_slot (tls w) idx c p) idx' k').
    destruct (Z.eq_dec idx' idx) as [-> | Hne].
    - destruct (Z.eq_dec k' c) as [-> | Hk].
      + apply slot_of_set_slot; [lia | lia | exact Hshape].
      + apply slot_of_set_slot_ne; try lia.
    - apply slot_of_set_slot_ne; try lia. }
  eexists. split; [reflexivity |]. cbn [tls with_tls mem brk trace]. fold t'.
  split.
  { split; [exact Hshape' |]. split.
    - intros idx' Hidx'. cbn [tls mem with_tls]. rewrite (Hcount idx' Hidx').
      destruct (Hpool idx' Hidx') as [Hc' Hlive'].
      unfold POOL_SLAB_DEPTH in *.
      destruct (Z.eq_dec idx' idx) as [-> | Hne].
      + split; [lia |]. intros k Hk. rewrite Hslot by lia.
        destruct (Z.eq_dec idx idx); [| contradiction].
        destruct (Z.eq_dec k c) as [-> | Hkc].
        * exists blk. split; [exact Hblk | lia].
        * apply Hslots. lia.
      + split; [exact Hc' |]. intros k Hk. rewrite Hslot by lia.
        destruct (Z.eq_dec idx' idx); [contradiction |]. now apply Hlive'.
    - split; [| split; [exact Hbrk | exact Hkeys]].
      unfold pool_distinct. cbn [tls with_tls]. fold t'.
      assert (Hcase : forall i k, 0 <= i < 7 -> 0 <= k < count_of t' i ->
                (i = idx /\ k = c /\ slot_of t' i k = p) \/
                (0 <= k < count_of (tls w) i /\
                 slot_of t' i k = slot_of (tls w) i k)).
      { intros i k Hi Hk. rewrite (Hcount i Hi) in Hk. rewrite Hslot by lia.
        destruct (Z.eq_dec i idx) as [-> | Hne].
        - destruct (Z.eq_dec k c) as [-> | Hkc]; [left; auto |].
          right. split; [lia | reflexivity].
        - right. split; [lia | reflexivity]. }
      intros i1 k1 i2 k2 Hi1 Hk1 Hi2 Hk2 Heq.
      destruct (Hcase i1 k1 Hi1 Hk1) as [(-> & -> & E1) | (Hk1' & E1)];
        destruct (Hcase i2 k2 Hi2 Hk2) as [(-> & -> & E2) | (Hk2' & E2)];
        try rewrite E1 in Heq; try rewrite E2 in Heq.
      + auto.
      + exfalso. apply Hnin. exists i2, k2. repeat split; try lia.
      + exfalso. apply Hnin. exists i1, k1. repeat split; try lia.
      + now apply Hdist. }
  split; [reflexivity |].
  split; [| reflexivity].
  unfold in_pool at 1. cbn [tls with_tls]. fold t'.
  intros q Hq (idx' & k' & Hidx' & Hk' & Hs).
  rewrite (Hcount idx' Hidx') in Hk'. rewrite Hslot in Hs by lia.
  destruct (Z.eq_dec idx' idx) as [-> | Hne].
  - destruct (Z.eq_dec k' c) as [-> | Hkc]; [congruence |].
    exists idx, k'. repeat split; try lia; exact Hs.
  - exists idx', k'. repeat split; try lia; exact Hs.
Qed.

(** ** The representation invariant of the string *)

Lemma backed_storage this w :
  backed this w ->
  exists buf, load_storage this w = Ok (buf, w) /\
              capacity this + 1 <= Z.of_nat (length buf).
Proof.
  intros (Hcap & Hshape & Hb). unfold load_storage.
  destruct (_is_heap_allocated this) eqn:Hheap.
  - destruct (Hb eq_refl) as (buf & Hbuf & Hlen & _). rewrite Hbuf.
    exists buf. split; [reflexivity |].
    pose proof (usable_capacity_ge (capacity this + 1) ltac:(lia)). lia.
  - exists (sso_view (_data this)). split; [reflexivity |].
    unfold string_shape in Hshape. unfold capacity. rewrite Hheap.
    unfold SSO_CAPACITY. lia.
Qed.

Lemma valid_storage this w :
  valid this w ->
  exists buf, load_storage this w = Ok (buf, w) /\
              capacity this + 1 <= Z.of_nat (length buf) /\
              buf !! Z.to_nat (_size this) = Some 0 /\
              content this w = Ok (take (Z.to_nat (_size this)) buf, w).
Proof.
  intros (Hsize & Hterm & Hb).
  destruct (backed_storage this w Hb) as (buf & Hl & Hlen).
  exists buf. split; [exact Hl |]. split; [exact Hlen |]. split.
  - unfold terminator, bind in Hterm. rewrite Hl in Hterm.
    unfold two_way.read in Hterm.
    destruct (Z.leb_spec 0 (_size this)); [| lia].
    destruct (buf !! Z.to_nat (_size this)); simpl in Hterm; [| discriminate].
    unfold ret in Hterm. congruence.
  - apply content_of_storage; [exact Hl | lia].
Qed.

Lemma valid_intro this w buf :
  backed this w ->
  load_storage this w = Ok (buf, w) ->
  0 <= _size this <= capacity this ->
  buf !! Z.to_nat (_size this) = Some 0 ->
  valid this w.
Proof.
  intros Hb Hl Hsize Hterm. split; [exact Hsize |]. split; [| exact Hb].
  apply (terminator_of_storage _ _ buf); [exact Hl | lia | exact Hterm].
Qed.

Lemma heap_ok_update w p buf buf' :
  heap_ok w -> mem w !! p = Some buf -> length buf' = length buf ->
  heap_ok (with_mem w (<[p := buf']> (mem w))).
Proof.
  intros (Hshape & Hpool & Hdist & Hbrk & Hkeys) Hp Hlen.
  split; [exact Hshape |]. split.
  - intros idx Hidx. destruct (Hpool idx Hidx) as [Hc Hlive].
    split; [exact Hc |]. cbn [tls mem with_mem]. intros k Hk.
    destruct (Hlive k Hk) as (b & Hb & Hbl).
    destruct (Z.eq_dec (slot_of (tls w) idx k) p) as [E | E].
    + exists buf'. rewrite E, lookup_insert_eq. split; [reflexivity |].
      rewrite E, Hp in Hb. inversion Hb; subst. lia.
    + exists b. rewrite lookup_insert_ne by congruence. auto.
  - split; [exact Hdist |]. split; [exact Hbrk |]. cbn [mem brk with_mem].
    intros q Hq. apply Hkeys.
    destruct (Z.eq_dec q p) as [-> | Hne]; [eauto |].
    rewrite lookup_insert_ne in Hq by congruence. exact Hq.
Qed.

Lemma heap_ok_emit w ev :
  heap_ok w -> heap_ok (mkWorld (tls w) (mem w) (brk w) (trace w ++ [ev])).
Proof. intros H. exact H. Qed.

(** Writing an edited buffer of the same length back. *)
Lemma store_backed this w buf buf' :
  heap_ok w -> backed this w ->
  load_storage this w = Ok (buf, w) ->
  length buf' = length buf ->
  exists this1 w1,
    store_storage this buf' w = Ok (this1, w1) /\
    heap_ok w1 /\
    (forall n, backed (with_size this1 n) w1 /\
               load_storage (with_size this1 n) w1 = Ok (buf', w1) /\
               capacity (with_size this1 n) = capacity this /\
               _is_heap_allocated (with_size this1 n) = _is_heap_allocated this) /\
    trace w1 = trace w /\ tls w1 = tls w.
Proof.
  intros Hok (Hcap & Hshape & Hb) Hl Hlen. unfold store_storage, load_storage in *.
  destruct (_is_heap_allocated this) eqn:Hheap.
  - destruct (Hb eq_refl) as (b & Hbuf & Hblen & Hnin). rewrite Hbuf in *.
    inversion Hl; subst b.
    eexists _, _. split; [reflexivity |].
    split; [eapply heap_ok_update; eauto |].
    split; [| split; reflexivity].
    intros n.
    assert (Hh : _is_heap_allocated (with_size this n) = true) by exact Hheap.
    assert (Hc : capacity (with_size this n) = capacity this) by reflexivity.
    split; [| split; [| split; [exact Hc | exact Hh]]].
    + split; [rewrite Hc; exact Hcap |]. split; [exact Hshape |].
      intros _. rewrite Hc.
      exists buf'. cbn [mem with_mem tls with_size _data].
      split; [apply lookup_insert_eq |]. split; [lia | exact Hnin].
    + unfold load_storage. rewrite Hh. cbn [mem with_mem with_size _data].
      rewrite lookup_insert_eq. reflexivity.
  - inversion Hl; subst buf.
    eexists _, _. split; [reflexivity |]. split; [exact Hok |].
    split; [| split; reflexivity].
    intros n.
    assert (Hh : _is_heap_allocated
                   (with_size (mkString (Sso buf') (_size this) (_flags this)) n)
                 = false) by exact Hheap.
    assert (Hc : capacity (with_size (mkString (Sso buf') (_size this) (_flags this)) n)
                 = capacity this).
    { unfold capacity. rewrite Hh, Hheap. reflexivity. }
    split; [| split; [| split; [exact Hc | exact Hh]]].
    + split; [rewrite Hc; exact Hcap |]. split.
      * unfold string_shape in *. cbn [with_size _data sso_view]. lia.
      * rewrite Hh. discriminate.
    + unfold load_storage. rewrite Hh. reflexivity.
Qed.

Lemma usable_capacity_bounds n :
  0 < n <= 2 ^ 63 ->
  0 <= pool_alloc_usable_capacity n < 2 ^ 63 /\
  n <= pool_alloc_usable_capacity n + 1.
Proof.
  intros Hn. split; [| apply usable_capacity_ge; lia].
  unfold pool_alloc_usable_capacity.
  destruct (pool_class_index_cases n)
    as [[Hr E] | [[Hr E] | [[Hr E] | [[Hr E] | [[Hr E] | [[Hr E] |
        [[Hr E] | [Hr E]]]]]]]]; rewrite E; simpl;
    try (unfold pool_class; simpl; lia).
  rewrite sz_small by lia. lia.
Qed.

Lemma block_write_at p off bytes w buf :
  mem w !! p = Some buf -> 0 <= off ->
  off + Z.of_nat (length bytes) <= Z.of_nat (length buf) ->
  block_write p off bytes w
    = Ok (tt, with_mem w (<[p := take (Z.to_nat off) buf ++ bytes
                                  ++ drop (Z.to_nat off + length bytes) buf]>
                            (mem w))).
Proof.
  intros Hp Hoff Hlen. unfold block_write. rewrite Hp, memcpy_at_ok by lia.
  reflexivity.
Qed.

(** [memcpy(p, bytes, n); p[n] = '\0'] on a live block. *)
Lemma block_write_cstr p bytes w blk :
  mem w !! p = Some blk ->
  Z.of_nat (length bytes) + 1 <= Z.of_nat (length blk) ->
  (let* _ := block_write p 0 bytes in
   block_write p (Z.of_nat (length bytes)) [0]) w
    = Ok (tt, with_mem w (<[p := bytes ++ 0 :: drop (S (length bytes)) blk]>
                            (mem w))).
Proof.
  intros Hp Hlen. unfold bind.
  rewrite (block_write_at p 0 bytes w blk Hp) by lia.
  erewrite block_write_at; [| apply lookup_insert_eq | lia |].
  2:{ rewrite !length_app, length_take, length_drop. simpl. lia. }
  f_equal. f_equal. unfold with_mem. cbn [tls mem brk trace].
  rewrite insert_insert_eq. f_equal. f_equal.
  change (take (Z.to_nat 0) blk) with (@nil Z). cbn [app].
  rewrite Nat2Z.id, take_app_length. f_equal. f_equal.
  rewrite drop_app_ge by (rewrite ?length_app; simpl; lia).
  rewrite drop_drop. f_equal. simpl. lia.
Qed.

(** Growth keeps the bytes, the length and both invariants, and reaches
    the requested capacity. *)
Lemma grow_to_valid this min_capacity w buf :
  heap_ok w -> valid this w ->
  load_storage this w = Ok (buf, w) ->
  0 <= min_capacity < 2 ^ 63 ->
  exists s' w' buf',
    _grow_to this min_capacity w = Ok (s', w') /\
    heap_ok w' /\ valid s' w' /\
    load_storage s' w' = Ok (buf', w') /\
    take (Z.to_nat (_size this)) buf' = take (Z.to_nat (_size this)) buf /\
    _size s' = _size this /\
    min_capacity <= capacity s' /\ capacity this <= capacity s'.
Proof.
  intros Hok Hvalid Hload Hmin.
  destruct (valid_storage this w Hvalid) as (buf0 & Hl0 & Hblen & Hterm & _).
  rewrite Hload in Hl0. inversion Hl0; subst buf0. clear Hl0.
  destruct Hvalid as (Hsize & Hterminator & Hbacked).
  unfold _grow_to.
  destruct (Z.leb_spec min_capacity (capacity this)) as [Hle | Hgt].
  { exists this, w, buf. split; [reflexivity |]. split; [exact Hok |].
    split; [exact (conj Hsize (conj Hterminator Hbacked)) |]. split; [exact Hload |].
    repeat split; try reflexivity; lia. }
  cbv zeta. fold (grow_request min_capacity).
  destruct (grow_request_bounds min_capacity ltac:(lia)) as [Hreq Hreq'].
  pose proof (calculate_new_capacity_bounds min_capacity ltac:(lia)) as [[Hnc1 Hnc2] _].
  destruct (usable_capacity_bounds (grow_request min_capacity) ltac:(lia))
    as [Hub Huge].
  destruct (allocate_bytes_inv (grow_request min_capacity)
              preferred_alloc_alignment w Hok ltac:(lia))
    as (p & w1 & blk & Halloc & Hok1 & Hp1 & Hblk & Hnin1 & Hfrom & Hother1 & Hpool1 & Ht1).
  set (bytes := take (Z.to_nat (_size this)) buf).
  assert (Hbytes : Z.of_nat (length bytes) = _size this).
  { subst bytes. rewrite length_take. lia. }
  set (blk' := bytes ++ 0 :: drop (S (length bytes)) blk).
  assert (Hblk' : length blk' = length blk).
  { subst blk'. rewrite length_app. simpl. rewrite length_drop. lia. }
  assert (Htake : take (Z.to_nat (_size this)) blk' = bytes).
  { subst blk'. replace (Z.to_nat (_size this)) with (length bytes) by lia.
    apply take_app_length. }
  assert (Hterm' : blk' !! Z.to_nat (_size this) = Some 0).
  { subst blk'. replace (Z.to_nat (_size this)) with (length bytes) by lia.
    rewrite lookup_app_r by lia. rewrite Nat.sub_diag. reflexivity. }
  destruct Hbacked as (Hcap & Hshape & Hback).
  destruct (_is_heap_allocated this) eqn:Hheap; cbn [negb].
  - (* heap to heap *)
    destruct (Hback eq_refl) as (b & Hbuf & Hbl & Hnin).
    assert (Hb : b = buf).
    { unfold load_storage in Hload. rewrite Hheap, Hbuf in Hload. congruence. }
    subst b.
    assert (Hcapeq : capacity this = heap_capacity (_data this)).
    { unfold capacity. now rewrite Hheap. }
    set (old := heap_ptr (_data this)) in *.
    assert (Hne : old <> p).
    { intros E. destruct Hfrom as [Hin | Hnone].
      - apply Hnin. now rewrite E.
      - rewrite <- E in Hnone. congruence. }
    assert (Hold1 : mem w1 !! old = Some buf) by (rewrite Hother1; assumption).
    unfold bind at 1. rewrite Halloc.
    unfold bind at 1. rewrite (block_read_ok _ _ _ _ Hold1) by lia. fold bytes.
    unfold bind at 1. unfold emit at 1.
    set (w2 := mkWorld (tls w1) (mem w1) (brk w1) _).
    assert (Hp2 : mem w2 !! p = Some blk) by exact Hp1.
    assert (Hwrite := block_write_cstr p bytes w2 blk Hp2 ltac:(lia)).
    rewrite Hbytes in Hwrite. fold blk' in Hwrite. unfold bind at 1 in Hwrite.
    unfold bind at 1.
    destruct (block_write p 0 bytes w2) as [[[] w3] | | |] eqn:Hw3; try discriminate.
    unfold bind at 1. rewrite Hwrite.
    set (w4 := with_mem w2 _).
    assert (Hok4 : heap_ok w4).
    { subst w4. eapply heap_ok_update; [| exact Hp2 | exact Hblk'].
      subst w2. apply heap_ok_emit. exact Hok1. }
    assert (Hold4 : mem w4 !! old = Some buf).
    { subst w4. cbn [mem with_mem]. rewrite lookup_insert_ne by congruence.
      exact Hold1. }
    assert (Hnin4 : ~ in_pool (tls w4) old).
    { intros Hin. apply Hnin. apply Hpool1. exact Hin. }
    rewrite <- Hcapeq.
    destruct (deallocate_bytes_inv old (sz (capacity this + 1))
                preferred_alloc_alignment w4 buf Hok4)
      as (w5 & Hd & Hok5 & Hother5 & Hpool5 & Ht5);
      [rewrite sz_small by lia; lia | exact Hold4 | exact Hnin4
      | rewrite sz_small by lia; exact Hbl |].
    unfold bind at 1. rewrite Hd. unfold ret.
    set (s' := mkString _ _ _).
    assert (Hheap' : _is_heap_allocated s' = true) by exact Hheap.
    assert (Hcap' : capacity s' = pool_alloc_usable_capacity (grow_request min_capacity)).
    { unfold capacity. rewrite Hheap'. reflexivity. }
    assert (Hp5 : mem w5 !! p = Some blk').
    { rewrite Hother5 by congruence. subst w4. cbn [mem with_mem].
      apply lookup_insert_eq. }
    assert (Hload' : load_storage s' w5 = Ok (blk', w5)).
    { apply load_storage_heap; [exact Hheap' | exact Hp5]. }
    assert (Hbacked' : backed s' w5).
    { split; [rewrite Hcap'; lia |]. split; [reflexivity |].
      intros _. rewrite Hcap'.
      exists blk'. split; [exact Hp5 |].
      split; [rewrite usable_capacity_idem by lia; lia |].
      intros Hin. apply Hnin1. apply (Hpool5 p ltac:(congruence)) in Hin.
      exact Hin. }
    exists s', w5, blk'. split; [reflexivity |]. split; [exact Hok5 |].
    split.
    { apply (valid_intro s' w5 blk' Hbacked' Hload'); [| exact Hterm'].
      rewrite Hcap'. cbn [_size s']. lia. }
    split; [exact Hload' |]. split; [exact Htake |]. split; [reflexivity |].
    rewrite Hcap'. lia.
  - (* inline to heap *)
    assert (Hbuf : buf = sso_view (_data this)).
    { unfold load_storage in Hload. rewrite Hheap in Hload. congruence. }
    unfold bind at 1. rewrite Halloc.
    unfold bind at 1. rewrite <- Hbuf. rewrite subbuf_ok by lia.
    rewrite drop_0. fold bytes. cbn [lift]. unfold ret at 1.
    assert (Hwrite := block_write_cstr p bytes w1 blk Hp1 ltac:(lia)).
    rewrite Hbytes in Hwrite. fold blk' in Hwrite. unfold bind at 1 in Hwrite.
    unfold bind at 1.
    destruct (block_write p 0 bytes w1) as [[[] w3] | | |] eqn:Hw3; try discriminate.
    unfold bind at 1. rewrite Hwrite. unfold ret.
    set (w4 := with_mem w1 _).
    set (s' := mkString _ _ _).
    assert (Hheap' : _is_heap_allocated s' = true) by apply heap_flag_set.
    assert (Hcap' : capacity s' = pool_alloc_usable_capacity (grow_request min_capacity)).
    { unfold capacity. rewrite Hheap'. reflexivity. }
    assert (Hp4 : mem w4 !! p = Some blk') by apply lookup_insert_eq.
    assert (Hload' : load_storage s' w4 = Ok (blk', w4)).
    { apply load_storage_heap; [exact Hheap' | exact Hp4]. }
    assert (Hbacked' : backed s' w4).
    { split; [rewrite Hcap'; lia |]. split; [reflexivity |].
      intros _. rewrite Hcap'.
      exists blk'. split; [exact Hp4 |].
      split; [rewrite usable_capacity_idem by lia; lia | exact Hnin1]. }
    exists s', w4, blk'. split; [reflexivity |].
    split; [eapply heap_ok_update; eauto |].
    split.
    { apply (valid_intro s' w4 blk' Hbacked' Hload'); [| exact Hterm'].
      rewrite Hcap'. cbn [_size s']. lia. }
    split; [exact Hload' |]. split; [exact Htake |]. split; [reflexivity |].
    rewrite Hcap'. lia.
Qed.

(** The last two steps of a mutator: the edited buffer is written back
    and the length updated. *)
Lemma commit this w buf buf' n' :
  heap_ok w -> backed this w ->
  load_storage this w = Ok (buf, w) ->
  length buf' = length buf ->
  0 <= n' <= capacity this ->
  buf' !! Z.to_nat n' = Some 0 ->
  exists this1 w1,
    store_storage this buf' w = Ok (this1, w1) /\
    heap_ok w1 /\ valid (with_size this1 n') w1 /\
    content (with_size this1 n') w1 = Ok (take (Z.to_nat n') buf', w1) /\
    capacity (with_size this1 n') = capacity this /\
    _is_heap_allocated (with_size this1 n') = _is_heap_allocated this /\
    trace w1 = trace w.
Proof.
  intros Hok Hb Hl Hlen Hn Hterm.
  destruct (backed_storage this w Hb) as (buf0 & Hl0 & Hblen).
  rewrite Hl in Hl0. inversion Hl0; subst buf0. clear Hl0.
  destruct (store_backed this w buf buf' Hok Hb Hl Hlen)
    as (this1 & w1 & Hs & Hok1 & Hn1 & Ht & _).
  destruct (Hn1 n') as (Hb1 & Hl1 & Hc1 & Hh1).
  exists this1, w1. split; [exact Hs |]. split; [exact Hok1 |].
  assert (Hv : valid (with_size this1 n') w1).
  { apply (valid_intro _ _ buf' Hb1 Hl1); [rewrite Hc1; exact Hn | exact Hterm]. }
  split; [exact Hv |]. split.
  - apply content_of_storage; [exact Hl1 |]. cbn [with_size _size]. lia.
  - auto.
Qed.

(** The optional growth at the head of a mutator. *)
Lemma maybe_grow (c : bool) this m needed w buf :
  heap_ok w -> valid this w ->
  load_storage this w = Ok (buf, w) ->
  0 <= m < 2 ^ 63 ->
  (c = true -> needed <= m) ->
  (c = false -> needed <= capacity this) ->
  exists s' w' buf',
    (if c then _grow_to this m else ret this) w = Ok (s', w') /\
    heap_ok w' /\ valid s' w' /\
    load_storage s' w' = Ok (buf', w') /\
    take (Z.to_nat (_size this)) buf' = take (Z.to_nat (_size this)) buf /\
    _size s' = _size this /\
    needed <= capacity s' /\ capacity this <= capacity s'.
Proof.
  intros Hok Hv Hl Hm Ht Hf. destruct c.
  - destruct (grow_to_valid this m w buf Hok Hv Hl Hm)
      as (s' & w' & buf' & H1 & H2 & H3 & H4 & H5 & H6 & H7 & H8).
    exists s', w', buf'. specialize (Ht eq_refl).
    split; [exact H1 |]. split; [exact H2 |]. split; [exact H3 |].
    split; [exact H4 |]. split; [exact H5 |]. split; [exact H6 |]. lia.
  - exists this, w, buf. specialize (Hf eq_refl).
    split; [reflexivity |]. split; [exact Hok |]. split; [exact Hv |].
    split; [exact Hl |]. split; [reflexivity |]. split; [reflexivity |]. lia.
Qed.

(** A terminator written right after a prefix. *)
Lemma poke_after (x y : list Z) n :
  Z.of_nat (length x) = n -> (1 <= length y)%nat ->
  poke (x ++ y) n 0 = Some (x ++ 0 :: drop 1 y).
Proof.
  intros Hx Hy. unfold poke. rewrite memcpy_at_ok.
  - f_equal. replace (Z.to_nat n) with (length x) by lia.
    rewrite take_app_length. f_equal. simpl. f_equal.
    rewrite drop_app_ge by lia. f_equal. lia.
  - lia.
  - rewrite length_app. simpl. lia.
Qed.

Lemma prefix_terminated (x y : list Z) :
  take (length x) (x ++ 0 :: y) = x /\ (x ++ 0 :: y) !! length x = Some 0.
Proof.
  split; [apply take_app_length |].
  rewrite lookup_app_r by lia. now rewrite Nat.sub_diag.
Qed.


(** The bytes of a string inside its buffer. *)
Lemma take_of_content (buf : list Z) (size pos : nat) :
  (pos <= size)%nat -> take pos buf = take pos (take size buf).
Proof. intros. rewrite take_take. f_equal. lia. Qed.

Lemma tail_of_content (buf : list Z) (size k : nat) :
  (k <= size)%nat ->
  take (size - k) (drop k buf) = drop k (take size buf).
Proof.
  intros. rewrite take_drop_commute. do 2 f_equal. lia.
Qed.



(** X6.  [erase(pos, len)] leaves a valid string from which the bytes
    [pos .. pos + len) are gone (all bytes from [pos] on when fewer than
    [len] remain, none when [pos] is at or beyond the end); the capacity
    is kept and the allocation layer sees no call. *)
Theorem erase_erases (this : string) (pos len : Z) (bytes : list Z) (w : world) :
  heap_ok w -> valid this w ->
  content this w = Ok (bytes, w) ->
  0 <= pos -> 0 <= len ->
  exists s' w',
    erase this pos len w = Ok (s', w') /\
    heap_ok w' /\ valid s' w' /\
    content s' w'
      = Ok (take (Z.to_nat pos) bytes ++ drop (Z.to_nat (pos + len)) bytes, w') /\
    capacity s' = capacity this /\ trace w' = trace w.
Proof.
  intros Hok Hv Hc Hpos Hlen.
  destruct (valid_storage this w Hv) as (buf & Hl & Hblen & Hterm & Hc').
  assert (Hbytes : bytes = take (Z.to_nat (_size this)) buf) by congruence.
  clear Hc'.
  pose proof Hv as (Hsize & _ & Hb).
  assert (Hbl : Z.of_nat (length bytes) = _size this).
  { rewrite Hbytes, length_take. lia. }
  unfold erase.
  destruct (Z.leb_spec (_size this) pos) as [Hout | Hin].
  { exists this, w. rewrite take_ge, drop_ge, app_nil_r by lia.
    split; [reflexivity |]. split; [exact Hok |]. split; [exact Hv |].
    split; [exact Hc |]. split; reflexivity. }
  set (len' := if len =? npos then _size this - pos
               else Z.min len (_size this - pos)).
  assert (Hlen' : 0 <= len' <= _size this - pos /\
                  drop (Z.to_nat (pos + len)) bytes
                    = drop (Z.to_nat (pos + len')) bytes).
  { subst len'. destruct (Z.eqb_spec len npos) as [E | E].
    - split; [lia |]. rewrite !drop_ge; [reflexivity | lia |].
      subst len. unfold npos, SIZE_MAX.
      destruct Hb as [Hcap _]. lia.
    - split; [lia |]. destruct (Z.le_gt_cases len (_size this - pos)).
      + rewrite Z.min_l by lia. reflexivity.
      + rewrite Z.min_r by lia. rewrite !drop_ge; [reflexivity | lia | lia]. }
  destruct Hlen' as [Hl' Hdrop]. rewrite Hdrop.
  destruct (Z.eqb_spec len' 0) as [E0 | E0].
  { exists this, w. rewrite E0, Z.add_0_r, take_drop.
    split; [reflexivity |]. split; [exact Hok |]. split; [exact Hv |].
    split; [exact Hc |]. split; reflexivity. }
  unfold bind at 1. rewrite Hl.
  set (sz0 := Z.to_nat (_size this)) in *.
  set (k := Z.to_nat pos).
  set (j := Z.to_nat (pos + len')).
  unfold memmove_in. rewrite subbuf_ok by lia.
  replace (Z.to_nat (_size this - pos - len')) with (sz0 - j)%nat by lia. fold j.
  rewrite (tail_of_content buf sz0 j) by lia. rewrite <- Hbytes.
  rewrite memcpy_at_ok by (rewrite ?length_drop; lia). fold k.
  cbn [lift]. unfold bind at 1, ret at 1.
  rewrite (take_of_content buf sz0 k) by lia. rewrite <- Hbytes.
  set (x := take k bytes ++ drop j bytes).
  set (rest := drop (k + length (drop j bytes)) buf).
  replace (take k bytes ++ drop j bytes ++ rest) with (x ++ rest)
    by (subst x; now rewrite <- !app_assoc).
  assert (Hx : Z.of_nat (length x) = _size this - len').
  { subst x. rewrite !length_app, length_take, length_drop. lia. }
  rewrite (poke_after x rest)
    by (try exact Hx; subst rest; rewrite !length_drop; lia).
  cbn [lift]. unfold bind at 1, ret at 1.
  destruct (commit this w buf (x ++ 0 :: drop 1 rest) (_size this - len') Hok Hb Hl)
    as (s2 & w2 & Hs & Hok2 & Hv2 & Hc2 & Hcap2 & _ & Ht2).
  { rewrite !length_app. cbn [length]. subst rest. rewrite !length_drop. lia. }
  { lia. }
  { replace (Z.to_nat (_size this - len')) with (length x) by lia.
    apply prefix_terminated. }
  unfold bind at 1. rewrite Hs. unfold ret.
  exists (with_size s2 (_size this - len')), w2.
  split; [reflexivity |]. split; [exact Hok2 |]. split; [exact Hv2 |].
  split; [| split; [exact Hcap2 | exact Ht2]].
  rewrite Hc2. do 2 f_equal.
  replace (Z.to_nat (_size this - len')) with (length x) by lia.
  apply prefix_terminated.
Qed.


(** ** Truncation, [push_back], [pop_back], [clear], [resize] *)

Lemma store_storage_size this buf w s w' :
  store_storage this buf w = Ok (s, w') -> _size s = _size this.
Proof.
  unfold store_storage. destruct (_is_heap_allocated this).
  - destruct (mem w !! heap_ptr (_data this)); [| discriminate].
    intros H. inversion H. reflexivity.
  - intros H. inversion H. reflexivity.
Qed.

Lemma with_size_same s : with_size s (_size s) = s.
Proof. destruct s. reflexivity. Qed.

Lemma backed_with_size this n w : backed this w -> backed (with_size this n) w.
Proof. intros H. exact H. Qed.

(** [_size = n; ptr[n] = '\0';] for [n] within the length. *)
Lemma truncate_spec this n bytes w :
  heap_ok w -> valid this w -> content this w = Ok (bytes, w) ->
  0 <= n <= _size this ->
  exists s' w',
    (let* buf := load_storage (with_size this n) in
     let* buf := lift (poke buf n 0) in
     store_storage (with_size this n) buf) w = Ok (s', w') /\
    heap_ok w' /\ valid s' w' /\
    content s' w' = Ok (take (Z.to_nat n) bytes, w') /\
    capacity s' = capacity this /\
    _is_heap_allocated s' = _is_heap_allocated this /\
    trace w' = trace w.
Proof.
  intros Hok Hv Hc Hn.
  destruct (valid_storage this w Hv) as (buf & Hl & Hblen & Hterm & Hc').
  assert (Hbytes : bytes = take (Z.to_nat (_size this)) buf) by congruence.
  clear Hc'. destruct Hv as (Hsize & _ & Hb).
  assert (Hl' : load_storage (with_size this n) w = Ok (buf, w)) by exact Hl.
  unfold bind at 1. rewrite Hl'.
  unfold poke. rewrite memcpy_at_ok by (simpl; lia).
  cbn [lift]. unfold bind at 1, ret at 1.
  destruct (commit (with_size this n) w buf
              (take (Z.to_nat n) buf ++ [0] ++ drop (Z.to_nat n + length [0]) buf)
              n Hok (backed_with_size this n w Hb) Hl')
    as (s1 & w1 & Hs & Hok1 & Hv1 & Hc1 & Hcap1 & Hh1 & Ht1).
  { rewrite !length_app, length_take, length_drop. simpl. lia. }
  { change (capacity (with_size this n)) with (capacity this). lia. }
  { rewrite lookup_app_r by (rewrite length_take; lia).
    rewrite length_take. replace (Z.to_nat n - Z.to_nat n `min` length buf)%nat
      with 0%nat by lia. reflexivity. }
  rewrite Hs.
  assert (Hsz : _size s1 = n) by (apply store_storage_size in Hs; exact Hs).
  assert (Hsame : with_size s1 n = s1) by (rewrite <- Hsz; apply with_size_same).
  rewrite Hsame in *.
  exists s1, w1. split; [reflexivity |]. split; [exact Hok1 |].
  split; [exact Hv1 |]. split; [| auto].
  rewrite Hc1. do 2 f_equal.
  rewrite take_app_le by (rewrite length_take; lia).
  rewrite take_take, Hbytes, take_take. f_equal. lia.
Qed.

(** [pop_back]: the last byte goes, the buffer stays. *)
Lemma pop_back_spec this bytes w :
  heap_ok w -> valid this w -> content this w = Ok (bytes, w) ->
  exists s' w',
    pop_back this w = Ok (s', w') /\
    heap_ok w' /\ valid s' w' /\
    content s' w' = Ok (take (length bytes - 1) bytes, w') /\
    capacity s' = capacity this /\ trace w' = trace w.
Proof.
  intros Hok Hv Hc.
  destruct (valid_storage this w Hv) as (buf & Hl & Hblen & Hterm & Hc').
  assert (Hbytes : bytes = take (Z.to_nat (_size this)) buf) by congruence.
  assert (Hlen : Z.of_nat (length bytes) = _size this).
  { destruct Hv as (? & _). rewrite Hbytes, length_take. lia. }
  unfold pop_back. destruct (Z.ltb_spec 0 (_size this)) as [Hpos | Hzero].
  - destruct (truncate_spec this (_size this - 1) bytes w Hok Hv Hc ltac:(lia))
      as (s' & w' & Hrun & Hok' & Hv' & Hcont & Hcap & _ & Ht).
    exists s', w'. split; [exact Hrun |]. split; [exact Hok' |].
    split; [exact Hv' |]. split; [| auto].
    rewrite Hcont. do 3 f_equal. lia.
  - exists this, w. split; [reflexivity |]. split; [exact Hok |].
    split; [exact Hv |]. split; [| auto].
    rewrite Hc. do 2 f_equal. destruct bytes; [reflexivity | simpl in Hlen; lia].
Qed.

(** [push_back]: one byte is appended. *)
Lemma push_back_spec this ch bytes w :
  heap_ok w -> valid this w -> content this w = Ok (bytes, w) ->
  _size this + 1 < 2 ^ 63 ->
  exists s' w',
    push_back this ch w = Ok (s', w') /\
    heap_ok w' /\ valid s' w' /\
    content s' w' = Ok (bytes ++ [ch], w') /\
    capacity this <= capacity s'.
Proof.
  intros Hok Hv Hc Hbig.
  destruct (valid_storage this w Hv) as (buf & Hl & Hblen & Hterm & Hc').
  assert (Hbytes : bytes = take (Z.to_nat (_size this)) buf) by congruence.
  clear Hc'.
  pose proof Hv as (Hsize & _ & _).
  unfold push_back, append_char. cbv zeta.
  rewrite sz_small by lia.
  destruct (maybe_grow (capacity this <? _size this + 1) this
              (_size this + 1) (_size this + 1) w buf Hok Hv Hl)
    as (s1 & w1 & buf1 & Hg & Hok1 & Hv1 & Hl1 & Hpre & Hsz1 & Hcap1 & Hmono);
    [lia | lia | intros H; apply Z.ltb_ge in H; lia |].
  unfold bind at 1. rewrite Hg.
  destruct (valid_storage s1 w1 Hv1) as (b & Hlb & Hb1len & _).
  rewrite Hl1 in Hlb. inversion Hlb; subst b. clear Hlb.
  unfold bind at 1. rewrite Hl1.
  unfold poke at 1. rewrite memcpy_at_ok by (simpl; lia).
  cbn [lift]. unfold bind at 1, ret at 1.
  rewrite Hpre, <- Hbytes.
  set (rest := drop (Z.to_nat (_size this) + length [ch]) buf1).
  assert (Hbl : Z.of_nat (length bytes) = _size this).
  { rewrite Hbytes, length_take. lia. }
  rewrite app_assoc.
  rewrite (poke_after (bytes ++ [ch]) rest)
    by (rewrite ?length_app; subst rest; rewrite ?length_drop; simpl; lia).
  cbn [lift]. unfold bind at 1, ret at 1.
  destruct Hv1 as (_ & _ & Hb1).
  destruct (commit s1 w1 buf1 ((bytes ++ [ch]) ++ 0 :: drop 1 rest)
              (_size this + 1) Hok1 Hb1 Hl1)
    as (s2 & w2 & Hs & Hok2 & Hv2 & Hc2 & Hcap2 & _).
  { rewrite !length_app. cbn [length]. subst rest. rewrite !length_drop.
    simpl. lia. }
  { lia. }
  { replace (Z.to_nat (_size this + 1)) with (length (bytes ++ [ch]))
      by (rewrite length_app; simpl; lia).
    apply prefix_terminated. }
  unfold bind at 1. rewrite Hs. unfold ret.
  exists (with_size s2 (_size this + 1)), w2.
  split; [reflexivity |]. split; [exact Hok2 |]. split; [exact Hv2 |].
  split; [| lia].
  rewrite Hc2. do 2 f_equal.
  replace (Z.to_nat (_size this + 1)) with (length (bytes ++ [ch]))
    by (rewrite length_app; simpl; lia).
  apply prefix_terminated.
Qed.

(** [clear]: the string becomes empty and keeps its buffer. *)
Lemma clear_spec this bytes w :
  heap_ok w -> valid this w -> content this w = Ok (bytes, w) ->
  exists s' w',
    clear this w = Ok (s', w') /\
    heap_ok w' /\ valid s' w' /\
    content s' w' = Ok ([], w') /\ _size s' = 0 /\
    capacity s' = capacity this /\ trace w' = trace w.
Proof.
  intros Hok Hv Hc. pose proof Hv as (Hsize & _ & _).
  destruct (truncate_spec this 0 bytes w Hok Hv Hc ltac:(lia))
    as (s' & w' & Hrun & Hok' & Hv' & Hcont & Hcap & _ & Ht).
  exists s', w'. split; [exact Hrun |]. split; [exact Hok' |].
  split; [exact Hv' |]. split; [exact Hcont |]. split; [| auto].
  unfold bind in Hrun.
  destruct (load_storage (with_size this 0) w) as [[b w0] | | |]; try discriminate.
  destruct (lift (poke b 0 0) w0) as [[b1 w1] | | |]; try discriminate.
  apply store_storage_size in Hrun. exact Hrun.
Qed.


(** [reserve]: the capacity reaches the request, the bytes stay. *)
Lemma reserve_spec this cap bytes w :
  heap_ok w -> valid this w -> content this w = Ok (bytes, w) ->
  0 <= cap < 2 ^ 63 ->
  exists s' w',
    reserve this cap w = Ok (s', w') /\
    heap_ok w' /\ valid s' w' /\
    content s' w' = Ok (bytes, w') /\
    _size s' = _size this /\
    cap <= capacity s' /\ capacity this <= capacity s'.
Proof.
  intros Hok Hv Hc Hcap.
  destruct (valid_storage this w Hv) as (buf & Hl & Hblen & Hterm & Hc').
  assert (Hbytes : bytes = take (Z.to_nat (_size this)) buf) by congruence.
  clear Hc'. unfold reserve.
  destruct (maybe_grow (capacity this <? cap) this cap cap w buf Hok Hv Hl)
    as (s1 & w1 & buf1 & Hg & Hok1 & Hv1 & Hl1 & Hpre & Hsz1 & Hcap1 & Hmono);
    [lia | lia | intros H; apply Z.ltb_ge in H; lia |].
  exists s1, w1. split; [exact Hg |]. split; [exact Hok1 |].
  split; [exact Hv1 |]. split; [| auto].
  destruct (valid_storage s1 w1 Hv1) as (b & Hlb & _ & _ & Hc1).
  rewrite Hl1 in Hlb. inversion Hlb; subst b.
  rewrite Hc1, Hsz1, Hpre, <- Hbytes. reflexivity.
Qed.

(** ** Construction, copy, assignment, [shrink_to_fit], destruction *)

(** [copy(ptr, cstr, len); ptr[len] = '\0'; _size = len;] on a string that
    has its buffer. *)
Lemma fill_from_spec this cstr w :
  heap_ok w -> backed this w ->
  Z.of_nat (length cstr) <= capacity this ->
  exists s' w',
    fill_from this cstr w = Ok (s', w') /\
    heap_ok w' /\ valid s' w' /\ content s' w' = Ok (cstr, w') /\
    capacity s' = capacity this /\
    _is_heap_allocated s' = _is_heap_allocated this /\
    trace w' = trace w.
Proof.
  intros Hok Hb Hlen.
  destruct (backed_storage this w Hb) as (buf & Hl & Hblen).
  destruct (write_cstr_ok buf cstr ltac:(lia)) as (buf' & Hcpy & Hpoke & Hl').
  unfold fill_from. cbv zeta. unfold bind at 1. rewrite Hl.
  rewrite Hcpy. cbn [lift]. unfold bind at 1, ret at 1.
  rewrite Hpoke. cbn [lift]. unfold bind at 1, ret at 1.
  destruct (commit this w buf (cstr ++ 0 :: drop (S (length cstr)) buf)
              (Z.of_nat (length cstr)) Hok Hb Hl)
    as (s1 & w1 & Hs & Hok1 & Hv1 & Hc1 & Hcap1 & Hh1 & Ht1).
  { rewrite length_app. cbn [length]. rewrite length_drop. lia. }
  { lia. }
  { rewrite Nat2Z.id. apply prefix_terminated. }
  unfold bind at 1. rewrite Hs. unfold ret.
  exists (with_size s1 (Z.of_nat (length cstr))), w1.
  split; [reflexivity |]. split; [exact Hok1 |]. split; [exact Hv1 |].
  split; [| auto].
  rewrite Hc1, Nat2Z.id. do 2 f_equal. apply prefix_terminated.
Qed.

(** [_allocate_heap_exact]: the string gets a block of its own. *)
Lemma allocate_heap_exact_backed this c w :
  heap_ok w -> 0 <= c < 2 ^ 63 ->
  exists s' w',
    _allocate_heap_exact this c w = Ok (s', w') /\
    heap_ok w' /\ backed s' w' /\
    _is_heap_allocated s' = true /\ _size s' = _size this /\
    c <= capacity s' /\
    (in_pool (tls w) (heap_ptr (_data s')) \/
     mem w !! heap_ptr (_data s') = None) /\
    (forall q, q <> heap_ptr (_data s') -> mem w' !! q = mem w !! q) /\
    (forall q, in_pool (tls w') q -> in_pool (tls w) q) /\
    trace w' = trace w ++ [EvAllocate (c + 1) (heap_ptr (_data s'))].
Proof.
  intros Hok Hc. unfold _allocate_heap_exact. cbv zeta.
  rewrite sz_small by lia.
  destruct (allocate_bytes_inv (c + 1) preferred_alloc_alignment w Hok ltac:(lia))
    as (p & w1 & blk & Halloc & Hok1 & Hp1 & Hblk & Hnin1 & Hfrom & Hother1
        & Hpool1 & Ht1).
  destruct (usable_capacity_bounds (c + 1) ltac:(lia)) as [Hub Huge].
  unfold bind. rewrite Halloc. unfold ret.
  set (s' := mkString _ _ _).
  assert (Hheap' : _is_heap_allocated s' = true) by apply heap_flag_set.
  assert (Hcap' : capacity s' = pool_alloc_usable_capacity (c + 1)).
  { unfold capacity. rewrite Hheap'. reflexivity. }
  exists s', w1. split; [reflexivity |]. split; [exact Hok1 |].
  split.
  { split; [rewrite Hcap'; lia |]. split; [reflexivity |].
    intros _. rewrite Hcap'. exists blk. split; [exact Hp1 |].
    split; [rewrite usable_capacity_idem by lia; lia | exact Hnin1]. }
  split; [exact Hheap' |]. split; [reflexivity |].
  split; [rewrite Hcap'; lia |]. auto.
Qed.

(** A string keeps its invariant across a step that leaves its block
    alone and recycles nothing new. *)
Lemma valid_frame other w w' :
  valid other w ->
  (_is_heap_allocated other = true ->
     mem w' !! heap_ptr (_data other) = mem w !! heap_ptr (_data other) /\
     (in_pool (tls w') (heap_ptr (_data other)) ->
      in_pool (tls w) (heap_ptr (_data other)))) ->
  valid other w'.
Proof.
  intros (Hsize & Hterm & Hcap & Hshape & Hb) Hsame.
  split; [exact Hsize |]. split.
  - unfold terminator, bind, load_storage in *.
    destruct (_is_heap_allocated other).
    + destruct (Hsame eq_refl) as [-> _].
      destruct (mem w !! heap_ptr (_data other)); [| discriminate].
      destruct (two_way.read l (_size other)); simpl in *; [| discriminate].
      unfold ret in *. congruence.
    + destruct (two_way.read _ (_size other)); simpl in *; [| discriminate].
      unfold ret in *. congruence.
  - split; [exact Hcap |]. split; [exact Hshape |].
    intros Hheap. destruct (Hsame Hheap) as [Hm Hp].
    destruct (Hb Hheap) as (buf & Hbuf & Hlen & Hnin).
    exists buf. rewrite Hm. split; [exact Hbuf |]. split; [exact Hlen |].
    intros Hin. apply Hnin, Hp, Hin.
Qed.

(** The block of a string is none of those an allocation can return. *)
Lemma live_block_not_fresh other w p :
  backed other w -> _is_heap_allocated other = true ->
  in_pool (tls w) p \/ mem w !! p = None ->
  heap_ptr (_data other) <> p.
Proof.
  intros (_ & _ & Hb) Hheap Hfrom E.
  destruct (Hb Hheap) as (buf & Hbuf & _ & Hnin). subst p.
  destruct Hfrom as [Hin | Hnone]; [exact (Hnin Hin) | congruence].
Qed.

Lemma store_storage_frame this buf w s w' :
  store_storage this buf w = Ok (s, w') ->
  tls w' = tls w /\ trace w' = trace w /\
  (_is_heap_allocated this = true -> s = this) /\
  (_is_heap_allocated this = false -> w' = w) /\
  forall q, q <> heap_ptr (_data this) -> mem w' !! q = mem w !! q.
Proof.
  unfold store_storage. destruct (_is_heap_allocated this).
  - destruct (mem w !! heap_ptr (_data this)); [| discriminate].
    intros H. inversion H; subst. cbn [tls trace mem with_mem].
    split; [reflexivity |]. split; [reflexivity |]. split; [reflexivity |].
    split; [discriminate |]. intros q Hq. now rewrite lookup_insert_ne.
  - intros H. inversion H; subst. repeat split; auto. discriminate.
Qed.

Lemma fill_from_frame this cstr w s w' :
  fill_from this cstr w = Ok (s, w') ->
  tls w' = tls w /\ trace w' = trace w /\
  (_is_heap_allocated this = true -> heap_ptr (_data s) = heap_ptr (_data this)) /\
  (_is_heap_allocated this = false -> w' = w) /\
  forall q, q <> heap_ptr (_data this) -> mem w' !! q = mem w !! q.
Proof.
  unfold fill_from, bind. cbv zeta. intros H.
  destruct (load_storage this w) as [[b w0] | | |] eqn:Hl; try discriminate.
  apply load_storage_world in Hl. subst w0.
  destruct (memcpy_at b 0 cstr) as [b1|]; simpl in H; [| discriminate].
  destruct (poke b1 _ 0) as [b2|]; simpl in H; [| discriminate].
  destruct (store_storage this b2 w) as [[s1 w1] | | |] eqn:Hs; try discriminate.
  unfold ret in H. inversion H; subst.
  destruct (store_storage_frame _ _ _ _ _ Hs) as (Ht & Htr & Hsame & Hw & Hm).
  split; [exact Ht |]. split; [exact Htr |]. split; [| split; [exact Hw | exact Hm]].
  intros Hh. rewrite (Hsame Hh). reflexivity.
Qed.

(** Construction from bytes establishes the invariant and leaves the
    blocks in use alone. *)
Lemma string_from_spec cstr w :
  heap_ok w -> Z.of_nat (length cstr) < 2 ^ 63 ->
  exists s' w',
    string_from cstr w = Ok (s', w') /\
    heap_ok w' /\ valid s' w' /\ content s' w' = Ok (cstr, w') /\
    _is_heap_allocated s' = negb (fits_in_sso (Z.of_nat (length cstr))) /\
    (forall q, is_Some (mem w !! q) -> ~ in_pool (tls w) q ->
               mem w' !! q = mem w !! q) /\
    (forall q, in_pool (tls w') q -> in_pool (tls w) q).
Proof.
  intros Hok Hbig. unfold string_from. cbv zeta.
  set (fresh := mkString sso_fresh 0 0).
  assert (Hfresh : forall w0, backed fresh w0).
  { intros w0. split; [unfold capacity; simpl; unfold SSO_CAPACITY; lia |].
    split; [reflexivity |]. intros H. discriminate. }
  destruct (Z.ltb_spec 0 (Z.of_nat (length cstr))) as [Hpos | Hzero].
  - destruct (fits_in_sso (Z.of_nat (length cstr))) eqn:Hfit.
    + destruct (fill_from_spec fresh cstr w Hok (Hfresh w))
        as (s' & w' & Hrun & Hok' & Hv' & Hc' & _ & Hh' & _).
      { unfold fits_in_sso, SSO_THRESHOLD in Hfit. apply Z.ltb_lt in Hfit.
        unfold capacity. simpl. lia. }
      destruct (fill_from_frame _ _ _ _ _ Hrun) as (_ & _ & _ & Hw & _).
      rewrite (Hw eq_refl) in *.
      exists s', w. split; [exact Hrun |]. split; [exact Hok' |].
      split; [exact Hv' |]. split; [exact Hc' |]. split; [exact Hh' |].
      split; auto.
    + destruct (allocate_heap_exact_backed fresh (Z.of_nat (length cstr)) w Hok
                  ltac:(lia))
        as (s1 & w1 & Ha & Hok1 & Hb1 & Hh1 & _ & Hcap1 & Hfrom & Hother & Hpool & _).
      unfold bind at 1. rewrite Ha.
      destruct (fill_from_spec s1 cstr w1 Hok1 Hb1 Hcap1)
        as (s' & w' & Hrun & Hok' & Hv' & Hc' & _ & Hh' & _).
      destruct (fill_from_frame _ _ _ _ _ Hrun) as (Ht & _ & _ & _ & Hm).
      exists s', w'. split; [exact Hrun |]. split; [exact Hok' |].
      split; [exact Hv' |]. split; [exact Hc' |].
      split; [rewrite Hh'; exact Hh1 |]. split.
      * intros q Hlive Hnin.
        assert (q <> heap_ptr (_data s1)).
        { intros ->. destruct Hfrom as [Hin | Hnone]; [exact (Hnin Hin) |].
          rewrite Hnone in Hlive. destruct Hlive; discriminate. }
        rewrite Hm, Hother by assumption. reflexivity.
      * intros q. rewrite Ht. apply Hpool.
  - assert (Hnil : cstr = []) by (destruct cstr; [reflexivity | simpl in Hzero; lia]).
    subst cstr. simpl. unfold bind, ret. simpl.
    eexists _, w. split; [reflexivity |]. split; [exact Hok |].
    split; [| split; [reflexivity | split; [reflexivity | split; auto]]].
    split; [simpl; unfold capacity; simpl; unfold SSO_CAPACITY; lia |].
    split; [reflexivity |].
    split; [unfold capacity; simpl; unfold SSO_CAPACITY; lia |].
    split; [reflexivity | discriminate].
Qed.

Lemma backed_update this w p buf buf' :
  backed this w -> mem w !! p = Some buf -> length buf' = length buf ->
  backed this (with_mem w (<[p := buf']> (mem w))).
Proof.
  intros (Hcap & Hshape & Hb) Hp Hlen.
  split; [exact Hcap |]. split; [exact Hshape |].
  intros Hheap. destruct (Hb Hheap) as (b & Hbuf & Hbl & Hnin).
  cbn [mem tls with_mem].
  destruct (Z.eq_dec (heap_ptr (_data this)) p) as [E | E].
  - exists buf'. rewrite E, lookup_insert_eq. split; [reflexivity |].
    rewrite E, Hp in Hbuf. inversion Hbuf; subst b.
    split; [lia |]. rewrite <- E. exact Hnin.
  - exists b. rewrite lookup_insert_ne by congruence. auto.
Qed.

(** An inline string whose buffer holds a terminator at its length. *)
Lemma inline_valid buf n w :
  length buf = 24%nat -> 0 <= n <= 23 -> buf !! Z.to_nat n = Some 0 ->
  valid (mkString (Sso buf) n 0) w /\
  content (mkString (Sso buf) n 0) w = Ok (take (Z.to_nat n) buf, w).
Proof.
  intros Hlen Hn Hterm.
  assert (Hl : load_storage (mkString (Sso buf) n 0) w = Ok (buf, w)) by reflexivity.
  split.
  - apply (valid_intro _ _ buf); [| exact Hl | exact Hn | exact Hterm].
    split; [unfold capacity; simpl; unfold SSO_CAPACITY; lia |].
    split; [exact Hlen | discriminate].
  - apply content_of_storage; [exact Hl |]. simpl. lia.
Qed.

(** X11.  The copy constructor makes a deep copy: the new string is valid
    and holds the bytes of the source, the source is still valid with its
    bytes, both use the same variant, and a Heap-variant copy has a block
    of its own. *)
Theorem copy_constructor_makes_deep_copy
    (other : string) (bytes : list Z) (w : world) :
  heap_ok w -> valid other w -> content other w = Ok (bytes, w) ->
  exists s' w',
    string_copy other w = Ok (s', w') /\
    heap_ok w' /\ valid s' w' /\ content s' w' = Ok (bytes, w') /\
    valid other w' /\ content other w' = Ok (bytes, w') /\
    _is_heap_allocated s' = _is_heap_allocated other /\
    (_is_heap_allocated other = true ->
       heap_ptr (_data s') <> heap_ptr (_data other)).
Proof.
  intros Hok Hv Hc.
  destruct (valid_storage other w Hv) as (buf & Hl & Hblen & Hterm & Hc').
  assert (Hbytes : bytes = take (Z.to_nat (_size other)) buf) by congruence.
  clear Hc'.
  pose proof Hv as (Hsize & _ & Hb). pose proof Hb as (Hcap & Hshape & Hblock).
  assert (Hbl : Z.of_nat (length bytes) = _size other).
  { rewrite Hbytes, length_take. lia. }
  unfold string_copy. cbv zeta.
  destruct (_is_heap_allocated other) eqn:Hheap.
  - set (this0 := mkString sso_fresh (_size other) 0).
    destruct (allocate_heap_exact_backed this0 (_size other) w Hok ltac:(lia))
      as (s1 & w1 & Ha & Hok1 & Hb1 & Hh1 & Hsz1 & Hcap1 & Hfrom & Hother & Hpool & _).
    set (p := heap_ptr (_data s1)) in *.
    set (optr := heap_ptr (_data other)) in *.
    assert (Hne : optr <> p) by (apply (live_block_not_fresh other w); auto).
    assert (Hbuf : mem w !! optr = Some buf).
    { unfold load_storage in Hl. rewrite Hheap in Hl. fold optr in Hl.
      destruct (mem w !! optr); congruence. }
    assert (Hbuf1 : mem w1 !! optr = Some buf) by (rewrite Hother; assumption).
    unfold bind at 1. rewrite Ha.
    unfold bind at 1. rewrite (block_read_ok _ _ _ _ Hbuf1) by lia.
    rewrite <- Hbytes.
    unfold bind at 1. unfold emit at 1.
    set (w2 := mkWorld (tls w1) (mem w1) (brk w1) _).
    pose proof Hb1 as (Hcap1' & _ & Hblock1).
    destruct (Hblock1 Hh1) as (blk & Hp1 & Hblk & Hnin1). fold p in Hp1, Hnin1.
    assert (Hblk' : _size other + 1 <= Z.of_nat (length blk)).
    { pose proof (usable_capacity_ge (capacity s1 + 1) ltac:(lia)). lia. }
    assert (Hp2 : mem w2 !! p = Some blk) by exact Hp1.
    assert (Hwrite := block_write_cstr p bytes w2 blk Hp2 ltac:(lia)).
    rewrite Hbl in Hwrite. unfold bind at 1 in Hwrite.
    unfold bind at 1. fold p.
    destruct (block_write p 0 bytes w2) as [[[] w3] | | |] eqn:Hw3; try discriminate.
    unfold bind at 1. fold p. rewrite Hsz1. change (_size this0) with (_size other).
    rewrite Hwrite. unfold ret.
    set (blk' := bytes ++ 0 :: drop (S (length bytes)) blk).
    assert (Hlen' : length blk' = length blk).
    { subst blk'. rewrite length_app. cbn [length]. rewrite length_drop. lia. }
    set (w4 := with_mem w2 _).
    assert (Hok4 : heap_ok w4).
    { subst w4. eapply heap_ok_update; [| exact Hp2 | exact Hlen'].
      subst w2. apply heap_ok_emit. exact Hok1. }
    assert (Hb4 : backed s1 w4).
    { subst w4. apply (backed_update s1 w2 p blk); [exact Hb1 | exact Hp2 | exact Hlen']. }
    assert (Hl4 : load_storage s1 w4 = Ok (blk', w4)).
    { apply load_storage_heap; [exact Hh1 |]. apply lookup_insert_eq. }
    assert (Hpre : take (Z.to_nat (_size s1)) blk' = bytes /\
                   blk' !! Z.to_nat (_size s1) = Some 0).
    { rewrite Hsz1. change (_size this0) with (_size other).
      replace (Z.to_nat (_size other)) with (length bytes) by lia.
      apply prefix_terminated. }
    assert (Hv4 : valid s1 w4).
    { apply (valid_intro _ _ blk' Hb4 Hl4); [| apply Hpre].
      rewrite Hsz1. change (_size this0) with (_size other). lia. }
    assert (Hvo : valid other w4).
    { apply (valid_frame other w); [exact Hv |]. intros _. fold optr. split.
      - subst w4. cbn [mem with_mem]. rewrite lookup_insert_ne by congruence.
        apply Hother. exact Hne.
      - apply Hpool. }
    exists s1, w4. split; [reflexivity |]. split; [exact Hok4 |].
    split; [exact Hv4 |]. split.
    { rewrite (content_of_storage _ _ _ Hl4)
        by (rewrite Hsz1; change (_size this0) with (_size other); lia).
      do 2 f_equal. apply Hpre. }
    split; [exact Hvo |]. split.
    { apply (content_frame other w); [| exact Hc]. intros _. fold optr.
      subst w4. cbn [mem with_mem]. rewrite lookup_insert_ne by congruence.
      apply Hother. exact Hne. }
    split; [exact Hh1 |]. intros _. fold p optr. congruence.
  - assert (Hbuf : buf = sso_view (_data other)).
    { unfold load_storage in Hl. rewrite Hheap in Hl. congruence. }
    assert (Hcap23 : capacity other = 23) by (unfold capacity; now rewrite Hheap).
    unfold string_shape in Hshape. rewrite <- Hbuf in *.
    rewrite sz_small by lia.
    unfold copy_sso. rewrite copy_small_stores by (simpl; lia).
    cbn [lift]. unfold bind, ret.
    set (buf' := take (Z.to_nat (_size other + 1)) buf ++ _).
    assert (Hlen' : length buf' = 24%nat).
    { subst buf'. rewrite length_app, length_take, length_drop.
      change (length (sso_view (_data (mkString sso_fresh (_size other) 0))))
        with 24%nat. lia. }
    assert (Htake : take (Z.to_nat (_size other)) buf' = bytes).
    { subst buf'. rewrite take_app_le by (rewrite length_take; lia).
      rewrite take_take, Hbytes. f_equal. lia. }
    assert (Hterm' : buf' !! Z.to_nat (_size other) = Some 0).
    { subst buf'. rewrite lookup_app_l by (rewrite length_take; lia).
      rewrite lookup_take_lt by lia. exact Hterm. }
    destruct (inline_valid buf' (_size other) w Hlen' ltac:(lia) Hterm')
      as [Hv' Hc''].
    eexists _, w. split; [reflexivity |]. split; [exact Hok |].
    split; [exact Hv' |]. split; [rewrite Hc'', Htake; reflexivity |].
    split; [exact Hv |]. split; [exact Hc |]. split; [reflexivity | discriminate].
Qed.

(** The block of a valid Heap-variant string can be handed back. *)
Lemma release_block this w :
  heap_ok w -> backed this w -> _is_heap_allocated this = true ->
  exists w',
    deallocate_bytes_aligned (heap_ptr (_data this))
      (sz (heap_capacity (_data this) + 1)) preferred_alloc_alignment w
      = Ok (tt, w') /\
    heap_ok w' /\
    (forall q, q <> heap_ptr (_data this) -> mem w' !! q = mem w !! q) /\
    (forall q, q <> heap_ptr (_data this) ->
               in_pool (tls w') q -> in_pool (tls w) q) /\
    trace w' = trace w ++ [EvDeallocate (heap_ptr (_data this))
                             (capacity this + 1)].
Proof.
  intros Hok (Hcap & _ & Hb) Hheap.
  destruct (Hb Hheap) as (buf & Hbuf & Hlen & Hnin).
  assert (Hc : capacity this = heap_capacity (_data this)).
  { unfold capacity. now rewrite Hheap. }
  rewrite <- Hc. rewrite sz_small by lia.
  apply (deallocate_bytes_inv (heap_ptr (_data this)) (capacity this + 1)
           preferred_alloc_alignment w buf Hok); [lia | exact Hbuf | exact Hnin
           | exact Hlen].
Qed.

(** X9.  The destructor of a valid string succeeds and keeps the
    invariant of the allocation layer.  For a Heap-variant string it makes
    exactly one call, [deallocate_bytes_aligned(ptr, capacity() + 1, _)];
    for an inline string it makes none.  Every other valid string that
    does not share the block stays valid with the same bytes. *)
Theorem destructor_releases_its_block (this : string) (w : world) :
  heap_ok w -> valid this w ->
  exists w',
    destroy this w = Ok (tt, w') /\ heap_ok w' /\
    trace w' = trace w ++
      (if _is_heap_allocated this
       then [EvDeallocate (heap_ptr (_data this)) (capacity this + 1)]
       else []) /\
    forall other, valid other w ->
      (_is_heap_allocated this = true -> _is_heap_allocated other = true ->
       heap_ptr (_data other) <> heap_ptr (_data this)) ->
      valid other w' /\
      forall bytes, content other w = Ok (bytes, w) ->
                    content other w' = Ok (bytes, w').
Proof.
  intros Hok (_ & _ & Hb). unfold destroy.
  destruct (_is_heap_allocated this) eqn:Hheap.
  - destruct (release_block this w Hok Hb Hheap)
      as (w' & Hd & Hok' & Hother & Hpool & Ht).
    exists w'. split; [exact Hd |]. split; [exact Hok' |]. split; [exact Ht |].
    intros other Hvo Hne. split.
    + apply (valid_frame other w); [exact Hvo |]. intros Hho.
      specialize (Hne eq_refl Hho). split; [apply Hother | apply Hpool]; exact Hne.
    + apply content_frame. intros Hho. apply Hother. exact (Hne eq_refl Hho).
  - exists w. split; [reflexivity |]. split; [exact Hok |].
    split; [now rewrite app_nil_r |]. auto.
Qed.




(** ** Reading: search for a byte, comparison, prefix and suffix *)

(** What [content] says about the buffer. *)
Lemma content_buffer this w bytes :
  content this w = Ok (bytes, w) ->
  exists buf,
    load_storage this w = Ok (buf, w) /\
    0 <= _size this <= Z.of_nat (length buf) /\
    bytes = take (Z.to_nat (_size this)) buf /\
    Z.of_nat (length bytes) = _size this.
Proof.
  intros H. apply content_inv in H as (buf & Hl & _ & Hsz & ->).
  exists buf. split; [exact Hl |]. split; [exact Hsz |]. split; [reflexivity |].
  rewrite length_take. lia.
Qed.

(** A range of the buffer inside the string is a range of its bytes. *)
Lemma subbuf_of_content (buf : list Z) (size pos len : Z) :
  0 <= pos -> 0 <= len -> pos + len <= size -> size <= Z.of_nat (length buf) ->
  subbuf buf pos len
    = Some (take (Z.to_nat len) (drop (Z.to_nat pos) (take (Z.to_nat size) buf))).
Proof.
  intros Hpos Hlen Hin Hsz. rewrite subbuf_ok by lia. f_equal.
  rewrite <- tail_of_content by lia. rewrite take_take. f_equal. lia.
Qed.

Lemma find_char_spec this ch pos bytes w :
  content this w = Ok (bytes, w) -> 0 <= pos ->
  exists r,
    find_char this ch pos w = Ok (r, w) /\
    ((r = npos /\
      forall i, (Z.to_nat pos <= i)%nat -> bytes !! i <> Some ch) \/
     (pos <= r < Z.of_nat (length bytes) /\
      bytes !! Z.to_nat r = Some ch /\
      forall i, (Z.to_nat pos <= i < Z.to_nat r)%nat -> bytes !! i <> Some ch)).
Proof.
  intros Hc Hpos.
  destruct (content_buffer this w bytes Hc) as (buf & Hl & Hsz & Hbytes & Hlen).
  unfold find_char.
  destruct (Z.leb_spec (_size this) pos) as [Hout | Hin].
  { exists npos. split; [reflexivity |]. left. split; [reflexivity |].
    intros i Hi. rewrite lookup_ge_None_2 by lia. discriminate. }
  unfold bind at 1. rewrite Hl.
  rewrite (subbuf_of_content buf (_size this)) by lia.
  rewrite <- Hbytes. cbn [lift]. unfold bind, ret.
  rewrite (take_ge (drop _ bytes)) by (rewrite length_drop; lia).
  destruct (memchr (drop (Z.to_nat pos) bytes) ch) as [d|] eqn:Hm.
  - apply memchr_Some in Hm as (Hd & Hat & Hbefore).
    rewrite lookup_drop in Hat.
    assert (Hdlt : (Z.to_nat pos + Z.to_nat d < length bytes)%nat).
    { apply lookup_lt_is_Some. eauto. }
    exists (pos + d). split; [reflexivity |]. right.
    split; [lia |]. split.
    + replace (Z.to_nat (pos + d)) with (Z.to_nat pos + Z.to_nat d)%nat by lia.
      exact Hat.
    + intros i Hi. specialize (Hbefore (i - Z.to_nat pos)%nat ltac:(lia)).
      rewrite lookup_drop in Hbefore.
      replace (Z.to_nat pos + (i - Z.to_nat pos))%nat with i in Hbefore by lia.
      exact Hbefore.
  - exists npos. split; [reflexivity |]. left. split; [reflexivity |].
    intros i Hi. pose proof (memchr_None _ _ Hm (i - Z.to_nat pos)%nat) as Hn.
    rewrite lookup_drop in Hn.
    replace (Z.to_nat pos + (i - Z.to_nat pos))%nat with i in Hn by lia.
    exact Hn.
Qed.

Lemma rfind_char_loop_spec p ch : forall fuel i,
  -1 <= i < Z.of_nat (length p) -> (Z.to_nat (i + 1) <= fuel)%nat ->
  exists r,
    rfind_char_loop fuel p ch i = Ok r /\
    ((r = npos /\
      forall j, 0 <= i -> (j <= Z.to_nat i)%nat -> p !! j <> Some ch) \/
     (0 <= r <= i /\ p !! Z.to_nat r = Some ch /\
      forall j, (Z.to_nat r < j <= Z.to_nat i)%nat -> p !! j <> Some ch)).
Proof.
  induction fuel as [|fuel IH]; intros i Hi Hfuel.
  - assert (i = -1) as -> by lia. exists npos. split; [reflexivity |].
    left. split; [reflexivity |]. intros; lia.
  - cbn [rfind_char_loop]. destruct (Z.leb_spec 0 i) as [Hge | Hneg].
    2:{ exists npos. split; [reflexivity |]. left. split; [reflexivity |].
        intros; lia. }
    unfold two_way.read. destruct (Z.leb_spec 0 i); [| lia].
    destruct (lookup_lt_is_Some_2 p (Z.to_nat i) ltac:(lia)) as [b Hb].
    rewrite Hb. destruct (Z.eqb_spec b ch) as [-> | Hne].
    + exists i. split; [reflexivity |]. right. split; [lia |].
      split; [exact Hb |]. intros; lia.
    + destruct (IH (i - 1) ltac:(lia) ltac:(lia)) as (r & Hr & Hcase).
      exists r. split; [exact Hr |].
      assert (Hhere : p !! Z.to_nat i <> Some ch) by congruence.
      destruct Hcase as [[-> Hnone] | (Hrange & Hat & Hafter)].
      * left. split; [reflexivity |]. intros j _ Hj.
        destruct (Nat.eq_dec j (Z.to_nat i)) as [-> | Hji]; [exact Hhere |].
        destruct (Z.eq_dec i 0) as [-> | Hi0]; [lia |].
        apply Hnone; lia.
      * right. split; [lia |]. split; [exact Hat |]. intros j Hj.
        destruct (Nat.eq_dec j (Z.to_nat i)) as [-> | Hji]; [exact Hhere |].
        apply Hafter. lia.
Qed.

Lemma rfind_char_spec this ch pos bytes w :
  content this w = Ok (bytes, w) -> 0 <= pos ->
  exists r,
    rfind_char this ch pos w = Ok (r, w) /\
    ((r = npos /\
      forall i, (i <= Z.to_nat pos)%nat -> bytes !! i <> Some ch) \/
     (0 <= r <= pos /\ r < Z.of_nat (length bytes) /\
      bytes !! Z.to_nat r = Some ch /\
      forall i, (Z.to_nat r < i <= Z.to_nat pos)%nat -> bytes !! i <> Some ch)).
Proof.
  intros Hc Hpos.
  destruct (content_buffer this w bytes Hc) as (buf & Hl & Hsz & Hbytes & Hlen).
  unfold rfind_char.
  destruct (Z.eqb_spec (_size this) 0) as [Hzero | Hnz].
  { exists npos. split; [reflexivity |]. left. split; [reflexivity |].
    intros i _. rewrite lookup_ge_None_2 by lia. discriminate. }
  set (last := if _size this <=? pos then _size this - 1 else pos).
  assert (Hlast : 0 <= last < _size this /\ last <= pos /\
                  (last < pos -> last = _size this - 1)).
  { subst last. destruct (Z.leb_spec (_size this) pos); lia. }
  rewrite Hl.
  destruct (rfind_char_loop_spec buf ch (Z.to_nat (last + 1)) last
              ltac:(lia) ltac:(lia)) as (r & Hr & Hcase).
  rewrite Hr. exists r. split; [reflexivity |].
  assert (Hsame : forall j, (j <= Z.to_nat last)%nat -> bytes !! j = buf !! j).
  { intros j Hj. rewrite Hbytes. apply lookup_take_lt. lia. }
  assert (Hbeyond : forall j, (Z.to_nat last < j <= Z.to_nat pos)%nat ->
                              bytes !! j <> Some ch).
  { intros j Hj. rewrite lookup_ge_None_2 by lia. discriminate. }
  destruct Hcase as [[-> Hnone] | (Hrange & Hat & Hafter)].
  - left. split; [reflexivity |]. intros i Hi.
    destruct (Nat.le_gt_cases i (Z.to_nat last)) as [Hle | Hgt].
    + rewrite Hsame by lia. apply Hnone; lia.
    + apply Hbeyond. lia.
  - right. split; [lia |]. split; [lia |].
    split; [rewrite Hsame by lia; exact Hat |]. intros i Hi.
    destruct (Nat.le_gt_cases i (Z.to_nat last)) as [Hle | Hgt].
    + rewrite Hsame by lia. apply Hafter. lia.
    + apply Hbeyond. lia.
Qed.

Lemma string_eq_spec this other a b w :
  content this w = Ok (a, w) -> content other w = Ok (b, w) ->
  string_eq this other w = Ok (bool_decide (a = b), w).
Proof.
  intros Ha Hb.
  destruct (content_buffer this w a Ha) as (bufa & Hla & Hsza & Hbytesa & Hlena).
  destruct (content_buffer other w b Hb) as (bufb & Hlb & Hszb & Hbytesb & Hlenb).
  unfold string_eq.
  destruct (Z.eqb_spec (_size this) (_size other)) as [Heq | Hne]; cbn [negb].
  - unfold bind at 1. rewrite Hla. unfold bind at 1. rewrite Hlb.
    rewrite !subbuf_ok by lia. cbn [lift]. unfold bind, ret.
    rewrite !drop_0. rewrite Heq at 2. rewrite <- Hbytesa, <- Hbytesb.
    f_equal. f_equal.
    destruct (bytes_eqb a b) eqn:E.
    + apply bytes_eqb_eq in E. now rewrite bool_decide_eq_true_2.
    + rewrite bool_decide_eq_false_2; [reflexivity |].
      intros Hab. apply bytes_eqb_eq in Hab. congruence.
  - unfold ret. rewrite bool_decide_eq_false_2; [reflexivity |].
    intros ->. lia.
Qed.

Lemma starts_with_spec this sv bytes w :
  content this w = Ok (bytes, w) ->
  starts_with this sv w = Ok (bool_decide (sv `prefix_of` bytes), w).
Proof.
  intros Hc.
  destruct (content_buffer this w bytes Hc) as (buf & Hl & Hsz & Hbytes & Hlen).
  unfold starts_with. cbv zeta.
  destruct (Z.ltb_spec (_size this) (Z.of_nat (length sv))) as [Hshort | Hfit].
  - unfold ret. rewrite bool_decide_eq_false_2; [reflexivity |].
    intros Hp. apply prefix_length in Hp. lia.
  - unfold bind at 1. rewrite Hl.
    rewrite (subbuf_of_content buf (_size this)) by lia.
    rewrite <- Hbytes, drop_0, Nat2Z.id. cbn [lift]. unfold bind, ret.
    f_equal. f_equal.
    destruct (bytes_eqb (take (length sv) bytes) sv) eqn:E.
    + apply bytes_eqb_eq in E. rewrite bool_decide_eq_true_2; [reflexivity |].
      exists (drop (length sv) bytes). rewrite <- E at 1. now rewrite take_drop.
    + rewrite bool_decide_eq_false_2; [reflexivity |].
      intros [k ->]. rewrite take_app_length in E.
      assert (bytes_eqb sv sv = true) by now apply bytes_eqb_eq.
      congruence.
Qed.

Lemma ends_with_spec this sv bytes w :
  content this w = Ok (bytes, w) ->
  ends_with this sv w = Ok (bool_decide (sv `suffix_of` bytes), w).
Proof.
  intros Hc.
  destruct (content_buffer this w bytes Hc) as (buf & Hl & Hsz & Hbytes & Hlen).
  unfold ends_with. cbv zeta.
  destruct (Z.ltb_spec (_size this) (Z.of_nat (length sv))) as [Hshort | Hfit].
  - unfold ret. rewrite bool_decide_eq_false_2; [reflexivity |].
    intros Hp. apply suffix_length in Hp. lia.
  - unfold bind at 1. rewrite Hl.
    rewrite (subbuf_of_content buf (_size this)) by lia.
    rewrite <- Hbytes, Nat2Z.id. cbn [lift]. unfold bind, ret.
    rewrite take_ge by (rewrite length_drop; lia).
    replace (Z.to_nat (_size this - Z.of_nat (length sv)))
      with (length bytes - length sv)%nat by lia.
    f_equal. f_equal.
    destruct (bytes_eqb (drop (length bytes - length sv) bytes) sv) eqn:E.
    + apply bytes_eqb_eq in E. rewrite bool_decide_eq_true_2; [reflexivity |].
      exists (take (length bytes - length sv) bytes).
      rewrite <- E at 2. now rewrite take_drop.
    + rewrite bool_decide_eq_false_2; [reflexivity |].
      intros [k ->]. rewrite length_app in E.
      replace (length k + length sv - length sv)%nat with (length k) in E by lia.
      rewrite drop_app_length in E.
      assert (bytes_eqb sv sv = true) by now apply bytes_eqb_eq.
      congruence.
Qed.

(** ** Substrings and [copy] *)

Lemma take_min_drop (bytes : list Z) (pos len size : Z) :
  0 <= pos <= size -> 0 <= len -> Z.of_nat (length bytes) = size ->
  take (Z.to_nat (Z.min len (size - pos))) (drop (Z.to_nat pos) bytes)
    = take (Z.to_nat len) (drop (Z.to_nat pos) bytes).
Proof.
  intros Hpos Hlen Hsz. destruct (Z.le_gt_cases len (size - pos)).
  - now rewrite Z.min_l by lia.
  - rewrite Z.min_r by lia. rewrite !take_ge by (rewrite length_drop; lia).
    reflexivity.
Qed.

Lemma substr_spec this pos len bytes w :
  heap_ok w -> valid this w -> content this w = Ok (bytes, w) ->
  0 <= pos -> 0 <= len ->
  (_size this < pos -> substr this pos len w = Throw out_of_range) /\
  (pos <= _size this ->
   exists s' w',
     substr this pos len w = Ok (s', w') /\
     heap_ok w' /\ valid s' w' /\
     content s' w'
       = Ok (take (Z.to_nat len) (drop (Z.to_nat pos) bytes), w') /\
     valid this w' /\ content this w' = Ok (bytes, w')).
Proof.
  intros Hok Hv Hc Hpos Hlen.
  destruct (content_buffer this w bytes Hc) as (buf & Hl & Hsz & Hbytes & Hbl).
  pose proof Hv as (Hsize & _ & Hb). pose proof Hb as (Hcap & _ & Hblock).
  unfold substr. split.
  - intros Hout. destruct (Z.ltb_spec (_size this) pos); [reflexivity | lia].
  - intros Hin. destruct (Z.ltb_spec (_size this) pos); [lia |].
    unfold bind at 1. rewrite Hl.
    rewrite (subbuf_of_content buf (_size this)) by lia.
    rewrite <- Hbytes. cbn [lift]. unfold bind at 1, ret at 1.
    rewrite (take_min_drop bytes pos len (_size this)) by lia.
    set (src := take (Z.to_nat len) (drop (Z.to_nat pos) bytes)).
    destruct (string_from_spec src w Hok) as
      (s' & w' & Hrun & Hok' & Hv' & Hc' & _ & Hmem & Hpool).
    { subst src. rewrite length_take, length_drop. lia. }
    exists s', w'. split; [exact Hrun |]. split; [exact Hok' |].
    split; [exact Hv' |]. split; [exact Hc' |].
    assert (Hsame : _is_heap_allocated this = true ->
              mem w' !! heap_ptr (_data this) = mem w !! heap_ptr (_data this)).
    { intros Hh. destruct (Hblock Hh) as (b & Hbuf & _ & Hnin).
      apply Hmem; [eauto | exact Hnin]. }
    split.
    + apply (valid_frame this w); [exact Hv |]. intros Hh.
      split; [exact (Hsame Hh) | apply Hpool].
    + apply (content_frame this w); [exact Hsame | exact Hc].
Qed.

Lemma string_sub_spec other pos count bytes w :
  heap_ok w -> valid other w -> content other w = Ok (bytes, w) ->
  0 <= pos -> 0 <= count ->
  (_size other < pos -> string_sub other pos count w = Throw out_of_range) /\
  (pos <= _size other ->
   exists s' w',
     string_sub other pos count w = Ok (s', w') /\
     heap_ok w' /\ valid s' w' /\
     content s' w'
       = Ok (take (Z.to_nat count) (drop (Z.to_nat pos) bytes), w') /\
     valid other w' /\ content other w' = Ok (bytes, w')).
Proof.
  intros Hok Hv Hc Hpos Hlen.
  destruct (content_buffer other w bytes Hc) as (buf & Hl & Hsz & Hbytes & Hbl).
  pose proof Hv as (Hsize & _ & Hb). pose proof Hb as (Hcap & _ & Hblock).
  unfold string_sub. cbv zeta.
  change (poke (sso_view (_data (mkString sso_fresh 0 0))) 0 0)
    with (Some (0 :: replicate 23 0)).
  cbn [lift].
  set (fresh := mkString (Sso (0 :: replicate 23 0)) 0 0).
  assert (Hfresh : forall w0, backed fresh w0).
  { intros w0. split; [unfold capacity; simpl; unfold SSO_CAPACITY; lia |].
    split; [reflexivity |]. intros H. discriminate. }
  split.
  - intros Hout. unfold bind at 1, ret at 1.
    destruct (Z.ltb_spec (_size other) pos); [reflexivity | lia].
  - intros Hin. unfold bind at 1, ret at 1. fold fresh.
    destruct (Z.ltb_spec (_size other) pos); [lia |].
    set (src := take (Z.to_nat count) (drop (Z.to_nat pos) bytes)).
    assert (Hsrc : Z.of_nat (length src) = Z.min count (_size other - pos)).
    { subst src. rewrite length_take, length_drop. lia. }
    assert (Hkeep : forall w',
              (forall q, is_Some (mem w !! q) -> ~ in_pool (tls w) q ->
                         mem w' !! q = mem w !! q) ->
              (forall q, in_pool (tls w') q -> in_pool (tls w) q) ->
              valid other w' /\ content other w' = Ok (bytes, w')).
    { intros w' Hmem Hpool.
      assert (Hsame : _is_heap_allocated other = true ->
                mem w' !! heap_ptr (_data other) = mem w !! heap_ptr (_data other)).
      { intros Hh. destruct (Hblock Hh) as (b & Hbuf & _ & Hnin).
        apply Hmem; [eauto | exact Hnin]. }
      split.
      - apply (valid_frame other w); [exact Hv |]. intros Hh.
        split; [exact (Hsame Hh) | apply Hpool].
      - apply (content_frame other w); [exact Hsame | exact Hc]. }
    destruct (Z.eqb_spec (Z.min count (_size other - pos)) 0) as [Hzero | Hnz].
    { assert (Hnil : src = []) by (destruct src; [reflexivity | simpl in Hsrc; lia]).
      rewrite Hnil.
      destruct (inline_valid (0 :: replicate 23 0) 0 w eq_refl ltac:(lia) eq_refl)
        as [Hvf Hcf].
      exists fresh, w. split; [reflexivity |]. split; [exact Hok |].
      split; [exact Hvf |]. split; [exact Hcf |]. split; [exact Hv | exact Hc]. }
    unfold bind at 1. rewrite Hl.
    rewrite (subbuf_of_content buf (_size other)) by lia.
    rewrite <- Hbytes. cbn [lift]. unfold bind at 1, ret at 1.
    rewrite (take_min_drop bytes pos count (_size other)) by lia.
    fold src. rewrite <- Hsrc.
    destruct (fits_in_sso (Z.of_nat (length src))) eqn:Hfit.
    + destruct (fill_from_spec fresh src w Hok (Hfresh w))
        as (s' & w' & Hrun & Hok' & Hv' & Hc' & _ & _ & _).
      { unfold fits_in_sso, SSO_THRESHOLD in Hfit. apply Z.ltb_lt in Hfit.
        unfold capacity. simpl. lia. }
      destruct (fill_from_frame _ _ _ _ _ Hrun) as (_ & _ & _ & Hw & _).
      rewrite (Hw eq_refl) in *.
      exists s', w. split; [exact Hrun |]. split; [exact Hok' |].
      split; [exact Hv' |]. split; [exact Hc' |]. split; [exact Hv | exact Hc].
    + destruct (allocate_heap_exact_backed fresh (Z.of_nat (length src)) w Hok
                  ltac:(lia))
        as (s1 & w1 & Ha & Hok1 & Hb1 & Hh1 & _ & Hcap1 & Hfrom & Hother & Hpool & _).
      unfold bind at 1. rewrite Ha.
      destruct (fill_from_spec s1 src w1 Hok1 Hb1 Hcap1)
        as (s' & w' & Hrun & Hok' & Hv' & Hc' & _ & _ & _).
      destruct (fill_from_frame _ _ _ _ _ Hrun) as (Ht & _ & _ & _ & Hm).
      exists s', w'. split; [exact Hrun |]. split; [exact Hok' |].
      split; [exact Hv' |]. split; [exact Hc' |].
      apply Hkeep.
      * intros q Hlive Hnin.
        assert (q <> heap_ptr (_data s1)).
        { intros ->. destruct Hfrom as [Hin' | Hnone]; [exact (Hnin Hin') |].
          rewrite Hnone in Hlive. destruct Hlive; discriminate. }
        rewrite Hm, Hother by assumption. reflexivity.
      * intros q. rewrite Ht. apply Hpool.
Qed.

(** X23.  [copy(dest, count, pos)] throws [std::out_of_range] when [pos]
    exceeds the length; otherwise it returns [min(count, size() - pos)],
    writes that many bytes of the string from [pos] on to the head of
    [dest], and leaves the rest of [dest] and the string alone. *)
Theorem copy_copies_range_or_throws
    (this : string) (dest : list Z) (count pos : Z) (bytes : list Z) (w : world) :
  content this w = Ok (bytes, w) -> 0 <= pos -> 0 <= count ->
  (_size this < pos -> copy this dest count pos w = Throw out_of_range) /\
  (pos <= _size this ->
   Z.min count (_size this - pos) <= Z.of_nat (length dest) ->
   copy this dest count pos w
     = Ok ((Z.min count (_size this - pos),
            take (Z.to_nat count) (drop (Z.to_nat pos) bytes)
              ++ drop (Z.to_nat (Z.min count (_size this - pos))) dest), w)).
Proof.
  intros Hc Hpos Hcount.
  destruct (content_buffer this w bytes Hc) as (buf & Hl & Hsz & Hbytes & Hbl).
  unfold copy. split.
  - intros Hout. destruct (Z.ltb_spec (_size this) pos); [reflexivity | lia].
  - intros Hin Hroom. destruct (Z.ltb_spec (_size this) pos); [lia |].
    unfold bind at 1. rewrite Hl.
    rewrite (subbuf_of_content buf (_size this)) by lia.
    rewrite <- Hbytes. cbn [lift]. unfold bind at 1, ret at 1.
    rewrite (take_min_drop bytes pos count (_size this)) by lia.
    set (src := take (Z.to_nat count) (drop (Z.to_nat pos) bytes)).
    assert (Hsrc : Z.of_nat (length src) = Z.min count (_size this - pos)).
    { subst src. rewrite length_take, length_drop. lia. }
    rewrite memcpy_at_ok by lia. cbn [lift]. unfold bind, ret.
    do 3 f_equal. change (take (Z.to_nat 0) dest) with (@nil Z). cbn [app].
    do 2 f_equal. lia.
Qed.

(** ** Concatenation *)

(** A write into a live block: what the block holds afterwards, and what
    is untouched. *)
Lemma block_write_facts p off bytes w buf :
  heap_ok w -> mem w !! p = Some buf -> 0 <= off ->
  off + Z.of_nat (length bytes) <= Z.of_nat (length buf) ->
  exists w',
    block_write p off bytes w = Ok (tt, w') /\ heap_ok w' /\
    mem w' !! p = Some (take (Z.to_nat off) buf ++ bytes
                          ++ drop (Z.to_nat off + length bytes) buf) /\
    (forall q, q <> p -> mem w' !! q = mem w !! q) /\
    tls w' = tls w /\ trace w' = trace w.
Proof.
  intros Hok Hp Hoff Hlen.
  rewrite (block_write_at p off bytes w buf Hp Hoff Hlen).
  eexists. split; [reflexivity |]. split.
  - eapply heap_ok_update; [exact Hok | exact Hp |].
    rewrite !length_app, length_take, length_drop. lia.
  - cbn [mem tls trace with_mem]. split; [apply lookup_insert_eq |].
    split; [| split; reflexivity].
    intros q Hq. now rewrite lookup_insert_ne.
Qed.

(** [if (n != 0) memcpy(dst + off, src, n);]. *)
Lemma guarded_write_facts p off bytes w buf :
  heap_ok w -> mem w !! p = Some buf -> 0 <= off ->
  off + Z.of_nat (length bytes) <= Z.of_nat (length buf) ->
  exists w',
    (if negb (Z.of_nat (length bytes) =? 0) then block_write p off bytes
     else ret tt) w = Ok (tt, w') /\ heap_ok w' /\
    mem w' !! p = Some (take (Z.to_nat off) buf ++ bytes
                          ++ drop (Z.to_nat off + length bytes) buf) /\
    (forall q, q <> p -> mem w' !! q = mem w !! q) /\
    tls w' = tls w /\ trace w' = trace w.
Proof.
  intros Hok Hp Hoff Hlen.
  destruct (Z.eqb_spec (Z.of_nat (length bytes)) 0) as [E | E]; cbn [negb].
  - destruct bytes; [| simpl in E; lia].
    exists w. split; [reflexivity |]. split; [exact Hok |].
    split; [| auto]. cbn [app length]. rewrite Nat.add_0_r, take_drop. exact Hp.
  - apply block_write_facts; assumption.
Qed.

Lemma concat_raw_spec lhs rhs w :
  heap_ok w ->
  Z.of_nat (length lhs) + Z.of_nat (length rhs) < 2 ^ 63 ->
  exists s' w',
    _concat_raw lhs rhs w = Ok (s', w') /\
    heap_ok w' /\ valid s' w' /\ content s' w' = Ok (lhs ++ rhs, w') /\
    (forall q, is_Some (mem w !! q) -> ~ in_pool (tls w) q ->
               mem w' !! q = mem w !! q) /\
    (forall q, in_pool (tls w') q -> in_pool (tls w) q).
Proof.
  intros Hok Hbig. unfold _concat_raw. cbv zeta.
  set (total := Z.of_nat (length lhs) + Z.of_nat (length rhs)).
  assert (Htotal : Z.of_nat (length (lhs ++ rhs)) = total).
  { rewrite length_app. lia. }
  rewrite sz_small by lia.
  destruct (Z.eqb_spec total 0) as [Hzero | Hnz].
  { assert (lhs = []) as -> by (destruct lhs; [reflexivity | simpl in *; lia]).
    assert (rhs = []) as -> by (destruct rhs; [reflexivity | simpl in *; lia]).
    destruct (inline_valid (replicate 24 0) 0 w eq_refl ltac:(lia) eq_refl)
      as [Hv Hc].
    exists string_default, w. split; [reflexivity |]. split; [exact Hok |].
    split; [exact Hv |]. split; [exact Hc |]. split; auto. }
  destruct (fits_in_sso total) eqn:Hfit.
  - unfold fits_in_sso, SSO_THRESHOLD, SSO_CAPACITY in Hfit.
    apply Z.ltb_lt in Hfit.
    change (sso_view (_data string_default)) with (replicate 24 0).
    set (buf0 := replicate 24 0).
    assert (Hlen0 : length buf0 = 24%nat) by reflexivity.
    assert (H1 : (if negb (Z.of_nat (length lhs) =? 0)
                  then lift (copy_sso buf0 lhs (Z.of_nat (length lhs)))
                  else ret buf0) w
                 = Ok (lhs ++ drop (length lhs) buf0, w)).
    { destruct (Z.eqb_spec (Z.of_nat (length lhs)) 0) as [E | E]; cbn [negb].
      - destruct lhs; [reflexivity | simpl in E; lia].
      - unfold copy_sso. rewrite copy_small_stores by lia.
        rewrite Nat2Z.id, firstn_all. reflexivity. }
    unfold bind at 1. rewrite H1.
    set (buf1 := lhs ++ drop (length lhs) buf0).
    assert (H2 : (if negb (Z.of_nat (length rhs) =? 0)
                  then
                    let* tail := lift (copy_sso (drop (Z.to_nat (Z.of_nat (length lhs))) buf1)
                                         rhs (Z.of_nat (length rhs))) in
                    ret (take (Z.to_nat (Z.of_nat (length lhs))) buf1 ++ tail)
                  else ret buf1) w
                 = Ok ((lhs ++ rhs) ++ drop (length (lhs ++ rhs)) buf0, w)).
    { rewrite !Nat2Z.id. subst buf1. rewrite drop_app_length, take_app_length.
      destruct (Z.eqb_spec (Z.of_nat (length rhs)) 0) as [E | E]; cbn [negb].
      - destruct rhs; [| simpl in E; lia]. rewrite !app_nil_r. reflexivity.
      - unfold copy_sso.
        rewrite copy_small_stores by (rewrite ?length_drop; lia).
        cbn [lift]. unfold bind, ret.
        rewrite Nat2Z.id, firstn_all, drop_drop, length_app, <- app_assoc.
        reflexivity. }
    unfold bind at 1. rewrite H2.
    set (rest := drop (length (lhs ++ rhs)) buf0).
    assert (Hrest : (1 <= length rest)%nat).
    { subst rest. rewrite length_drop. lia. }
    rewrite (poke_after (lhs ++ rhs) rest) by lia.
    cbn [lift]. unfold bind, ret.
    set (inl := (lhs ++ rhs) ++ 0 :: drop 1 rest).
    assert (Hlen' : length inl = 24%nat).
    { subst inl rest. rewrite length_app. cbn [length]. rewrite !length_drop. lia. }
    destruct (inline_valid inl total w Hlen' ltac:(lia)) as [Hv Hc].
    { rewrite <- Htotal, Nat2Z.id. apply prefix_terminated. }
    eexists _, w. split; [reflexivity |]. split; [exact Hok |].
    split; [exact Hv |]. split; [| split; auto].
    rewrite Hc, <- Htotal, Nat2Z.id. do 2 f_equal. apply prefix_terminated.
  - unfold fits_in_sso, SSO_THRESHOLD, SSO_CAPACITY in Hfit.
    apply Z.ltb_ge in Hfit.
    pose proof (calculate_new_capacity_bounds total ltac:(lia)) as [[Hnc1 Hnc2] _].
    change (_allocate_heap string_default total)
      with (_allocate_heap_exact string_default (_calculate_new_capacity total)).
    destruct (allocate_heap_exact_backed string_default
                (_calculate_new_capacity total) w Hok ltac:(lia))
      as (s1 & w1 & Ha & Hok1 & Hb1 & Hh1 & _ & Hcap1 & Hfrom & Hother & Hpool & _).
    unfold bind at 1. rewrite Ha.
    set (p := heap_ptr (_data s1)) in *.
    pose proof Hb1 as (Hcap1' & _ & Hblock1).
    destruct (Hblock1 Hh1) as (blk & Hp1 & Hblk & Hnin1). fold p in Hp1, Hnin1.
    assert (Hroom : total + 1 <= Z.of_nat (length blk)).
    { pose proof (usable_capacity_ge (capacity s1 + 1) ltac:(lia)). lia. }
    destruct (guarded_write_facts p 0 lhs w1 blk Hok1 Hp1 ltac:(lia) ltac:(lia))
      as (w2 & Hw2 & Hok2 & Hp2 & Hfr2 & Ht2 & _).
    unfold bind at 1. rewrite Hw2.
    change (take (Z.to_nat 0) blk) with (@nil Z) in Hp2. cbn [app] in Hp2.
    rewrite Nat.add_0_l in Hp2.
    destruct (guarded_write_facts p (Z.of_nat (length lhs)) rhs w2 _ Hok2 Hp2
                ltac:(lia))
      as (w3 & Hw3 & Hok3 & Hp3 & Hfr3 & Ht3 & _).
    { rewrite length_app, length_drop. lia. }
    unfold bind at 1. rewrite Hw3.
    rewrite Nat2Z.id, take_app_length in Hp3.
    rewrite drop_app_ge, drop_drop in Hp3 by lia.
    replace (length lhs + (length lhs + length rhs - length lhs))%nat
      with (length (lhs ++ rhs)) in Hp3 by (rewrite length_app; lia).
    rewrite app_assoc in Hp3.
    destruct (block_write_facts p total [0] w3 _ Hok3 Hp3 ltac:(lia))
      as (w4 & Hw4 & Hok4 & Hp4 & Hfr4 & Ht4 & _).
    { rewrite length_app, length_drop. simpl. lia. }
    unfold bind at 1. rewrite Hw4. unfold ret.
    rewrite <- Htotal, Nat2Z.id, take_app_length in Hp4.
    set (blk' := (lhs ++ rhs) ++ [0] ++ _) in Hp4.
    assert (Hlen' : length blk' = length blk).
    { subst blk'. rewrite !length_app, !length_drop, length_app, length_drop.
      simpl. lia. }
    assert (Hh4 : _is_heap_allocated (with_size s1 total) = true) by exact Hh1.
    assert (Hl4 : load_storage (with_size s1 total) w4 = Ok (blk', w4)).
    { apply load_storage_heap; [exact Hh4 | exact Hp4]. }
    assert (Hb4 : backed (with_size s1 total) w4).
    { split; [exact Hcap1' |]. split; [apply Hb1 |]. intros _.
      exists blk'. split; [exact Hp4 |].
      split; [rewrite Hlen'; exact Hblk |].
      rewrite Ht4, Ht3, Ht2. exact Hnin1. }
    exists (with_size s1 total), w4. split; [reflexivity |].
    split; [exact Hok4 |]. split.
    { apply (valid_intro _ _ blk' Hb4 Hl4).
      - cbn [with_size _size]. change (capacity (with_size s1 total)) with (capacity s1).
        lia.
      - cbn [with_size _size]. rewrite <- Htotal, Nat2Z.id.
        subst blk'. apply prefix_terminated. }
    split.
    { rewrite (content_of_storage _ _ _ Hl4) by (cbn [with_size _size]; lia).
      cbn [with_size _size]. rewrite <- Htotal, Nat2Z.id.
      do 2 f_equal. subst blk'. apply prefix_terminated. }
    split.
    + intros q Hlive Hnin.
      assert (q <> p).
      { intros ->. destruct Hfrom as [Hin' | Hnone]; [exact (Hnin Hin') |].
        rewrite Hnone in Hlive. destruct Hlive; discriminate. }
      rewrite Hfr4, Hfr3, Hfr2, Hother by assumption. reflexivity.
    + intros q. rewrite Ht4, Ht3, Ht2. apply Hpool.
Qed.

(** X24.  [operator+] on two valid strings returns a new valid string
    that holds the bytes of the left operand followed by those of the
    right one; both operands stay valid with their bytes. *)
Theorem concat_joins (lhs rhs : string) (a b : list Z) (w : world) :
  heap_ok w -> valid lhs w -> valid rhs w ->
  content lhs w = Ok (a, w) -> content rhs w = Ok (b, w) ->
  _size lhs + _size rhs < 2 ^ 63 ->
  exists s' w',
    concat lhs rhs w = Ok (s', w') /\
    heap_ok w' /\ valid s' w' /\ content s' w' = Ok (a ++ b, w') /\
    valid lhs w' /\ content lhs w' = Ok (a, w') /\
    valid rhs w' /\ content rhs w' = Ok (b, w').
Proof.
  intros Hok Hvl Hvr Hca Hcb Hbig.
  destruct (content_buffer lhs w a Hca) as (_ & _ & _ & _ & Hla).
  destruct (content_buffer rhs w b Hcb) as (_ & _ & _ & _ & Hlb).
  pose proof Hvl as (Hsl & _ & Hbl). pose proof Hbl as (Hcl & _ & Hblockl).
  pose proof Hvr as (Hsr & _ & Hbr). pose proof Hbr as (Hcr & _ & Hblockr).
  unfold concat. unfold bind at 1. rewrite Hca. unfold bind at 1. rewrite Hcb.
  destruct (concat_raw_spec a b w Hok ltac:(lia))
    as (s' & w' & Hrun & Hok' & Hv' & Hc' & Hmem & Hpool).
  exists s', w'. split; [exact Hrun |]. split; [exact Hok' |].
  split; [exact Hv' |]. split; [exact Hc' |].
  assert (Hkeep : forall other bytes, valid other w ->
            content other w = Ok (bytes, w) ->
            valid other w' /\ content other w' = Ok (bytes, w')).
  { intros other bytes Hv Hc. pose proof Hv as (_ & _ & _ & _ & Hblock).
    assert (Hsame : _is_heap_allocated other = true ->
              mem w' !! heap_ptr (_data other) = mem w !! heap_ptr (_data other)).
    { intros Hh. destruct (Hblock Hh) as (buf & Hbuf & _ & Hnin).
      apply Hmem; [eauto | exact Hnin]. }
    split.
    - apply (valid_frame other w); [exact Hv |]. intros Hh.
      split; [exact (Hsame Hh) | apply Hpool].
    - apply (content_frame other w); [exact Hsame | exact Hc]. }
  destruct (Hkeep lhs a Hvl Hca). destruct (Hkeep rhs b Hvr Hcb). auto.
Qed.

(** ** Filling and lazy concatenation *)




(** The copy loop of [materialize] lays the parts out one after the
    other from the write offset on. *)
Lemma materialize_parts_spec : forall parts buf (dst : nat),
  (dst + length (List.concat parts) <= length buf)%nat ->
  materialize_parts parts buf (Z.of_nat dst)
    = Some (take dst buf ++ List.concat parts
              ++ drop (dst + length (List.concat parts)) buf).
Proof.
  induction parts as [|part rest IH]; intros buf dst Hroom.
  - simpl. rewrite Nat.add_0_r, take_drop. reflexivity.
  - cbn [materialize_parts List.concat] in *. rewrite length_app in Hroom.
    rewrite Nat2Z.id.
    rewrite copy_small_stores by (rewrite ?length_drop; lia).
    cbn [mbind option_bind]. rewrite Nat2Z.id, firstn_all, drop_drop.
    rewrite <- Nat2Z.inj_add.
    rewrite IH
      by (rewrite !length_app, length_take, length_drop; lia).
    f_equal.
    set (laid := take dst buf ++ part ++ drop (dst + length part) buf).
    assert (Hx : take (dst + length part) laid = take dst buf ++ part).
    { subst laid. rewrite app_assoc. apply take_app_length'.
      rewrite length_app, length_take. lia. }
    assert (Hy : drop (dst + length part + length (List.concat rest)) laid
                 = drop (dst + length (part ++ List.concat rest)) buf).
    { subst laid. rewrite app_assoc.
      rewrite drop_app_ge by (rewrite length_app, length_take; lia).
      rewrite length_app, length_take, drop_drop, length_app.
      f_equal. lia. }
    rewrite Hx, Hy. now rewrite <- !app_assoc.
Qed.

Lemma lazy_chain_views parts :
  _views (foldl lazy_append lazy_empty parts) = parts.
Proof.
  assert (H : forall ps chain,
            _views (foldl lazy_append chain ps) = _views chain ++ ps).
  { induction ps as [|p ps IH]; intros chain; simpl.
    - now rewrite app_nil_r.
    - rewrite IH. simpl. now rewrite <- app_assoc. }
  now rewrite H.
Qed.

Lemma lazy_chain_size parts :
  Z.of_nat (length (List.concat parts)) < 2 ^ 64 ->
  _total_size (foldl lazy_append lazy_empty parts)
    = Z.of_nat (length (List.concat parts)).
Proof.
  assert (H : forall ps chain,
            0 <= _total_size chain ->
            _total_size chain + Z.of_nat (length (List.concat ps)) < 2 ^ 64 ->
            _total_size (foldl lazy_append chain ps)
              = _total_size chain + Z.of_nat (length (List.concat ps))).
  { induction ps as [|p ps IH]; intros chain H0 Hbig; simpl in *.
    - lia.
    - rewrite length_app in Hbig. rewrite IH; simpl.
      + rewrite sz_small by lia. rewrite length_app. lia.
      + rewrite sz_small by lia. lia.
      + rewrite sz_small by lia. lia. }
  intros Hbig. rewrite H; simpl; lia.
Qed.

Lemma materialize_spec chain w :
  heap_ok w ->
  _total_size chain = Z.of_nat (length (List.concat (_views chain))) ->
  _total_size chain < 2 ^ 63 ->
  exists s' w',
    materialize chain w = Ok (s', w') /\
    heap_ok w' /\ valid s' w' /\
    content s' w' = Ok (List.concat (_views chain), w').
Proof.
  intros Hok Htotal Hbig. unfold materialize.
  destruct (inline_valid (replicate 24 0) 0 w eq_refl ltac:(lia) eq_refl)
    as [Hv0 Hc0].
  change (mkString (Sso (replicate 24 0)) 0 0) with string_default in Hv0, Hc0.
  change (take (Z.to_nat 0) (replicate 24 0)) with (@nil Z) in Hc0.
  destruct (_views chain) as [|only [|second rest]] eqn:Hviews;
    rewrite ?Hviews in Htotal.
  - exists string_default, w. auto.
  - simpl. rewrite app_nil_r.
    destruct (string_from_spec only w Hok)
      as (s' & w' & Hrun & Hok' & Hv' & Hc' & _).
    { simpl in Htotal. rewrite app_nil_r in Htotal. lia. }
    exists s', w'. auto.
  - set (parts := only :: second :: rest) in *.
    set (n := _total_size chain) in *.
    destruct (reserve_spec string_default n [] w Hok Hv0 Hc0 ltac:(lia))
      as (s1 & w1 & Hres & Hok1 & Hv1 & Hc1 & Hsz1 & Hcap1 & _).
    unfold bind at 1. rewrite Hres.
    destruct (valid_storage s1 w1 Hv1) as (buf1 & Hl1 & Hb1len & _).
    unfold bind at 1. rewrite Hl1.
    assert (Hm := materialize_parts_spec parts buf1 0 ltac:(lia)).
    change (Z.of_nat 0) with 0 in Hm. rewrite Nat.add_0_l in Hm.
    rewrite take_0 in Hm. cbn [app] in Hm. rewrite Hm.
    cbn [lift]. unfold bind at 1, ret at 1.
    set (rest' := drop (length (List.concat parts)) buf1).
    assert (Hrest : (1 <= length rest')%nat).
    { subst rest'. rewrite length_drop. lia. }
    destruct Hv1 as (_ & _ & Hb1).
    destruct (store_backed s1 w1 buf1 (List.concat parts ++ rest') Hok1 Hb1 Hl1)
      as (s2 & w2 & Hs & Hok2 & Hn2 & _ & _).
    { rewrite length_app. subst rest'. rewrite length_drop. lia. }
    unfold bind at 1. rewrite Hs. cbv zeta.
    destruct (Hn2 n) as (Hb2 & Hl2 & Hc2 & _).
    unfold bind at 1. rewrite Hl2.
    rewrite (poke_after (List.concat parts) rest') by lia.
    cbn [lift]. unfold bind at 1, ret at 1.
    destruct (commit (with_size s2 n) w2 (List.concat parts ++ rest')
                (List.concat parts ++ 0 :: drop 1 rest') n Hok2 Hb2 Hl2)
      as (s3 & w3 & Hs3 & Hok3 & Hv3 & Hc3 & _).
    { rewrite !length_app. cbn [length]. rewrite length_drop. lia. }
    { rewrite Hc2. lia. }
    { replace (Z.to_nat n) with (length (List.concat parts)) by lia.
      apply prefix_terminated. }
    rewrite Hs3.
    assert (Hsz3 : _size s3 = n) by (apply store_storage_size in Hs3; exact Hs3).
    assert (Hsame : with_size s3 n = s3) by (rewrite <- Hsz3; apply with_size_same).
    rewrite Hsame in *.
    exists s3, w3. split; [reflexivity |]. split; [exact Hok3 |].
    split; [exact Hv3 |].
    rewrite Hc3. do 2 f_equal.
    replace (Z.to_nat n) with (length (List.concat parts)) by lia.
    apply prefix_terminated.
Qed.



(** ** The adaptive thresholds *)

Lemma adapt_keeps_tuning_ok st hl nl le fp :
  tuning_ok st -> tuning_ok (adapt_find_thresholds st hl nl le fp).
Proof.
  intros (Hs & Hs8 & Hb & Hb128). unfold adapt_find_thresholds. cbv zeta.
  destruct (negb _); [exact (conj Hs (conj Hs8 (conj Hb Hb128))) |].
  apply Z.mod_divide in Hs8; [| lia]. destruct Hs8 as [a Ha].
  apply Z.mod_divide in Hb128; [| lia]. destruct Hb128 as [b Hb'].
  unfold tuning_ok. cbn [small_haystack_cutoff bmh_haystack_cutoff].
  rewrite !sz_small by lia.
  split; [| split; [| split]].
  - destruct (_ && _); [lia |]. destruct (1024 <? hl); [| lia].
    destruct (Z.ltb_spec 128 (small_haystack_cutoff st)); lia.
  - apply Z.mod_divide; [lia |].
    destruct (_ && _).
    + destruct (Z.min_spec 512 (small_haystack_cutoff st + 16)) as [[_ ->] | [_ ->]].
      * exists 64. lia.
      * exists (a + 2). lia.
    + destruct (1024 <? hl); [| exists a; lia].
      destruct (128 <? small_haystack_cutoff st); [exists (a - 1) | exists a]; lia.
  - destruct (_ && _); [| lia]. destruct le; [lia |].
    destruct (Z.ltb_spec 2048 (bmh_haystack_cutoff st)); lia.
  - apply Z.mod_divide; [lia |].
    destruct (_ && _); [| exists b; lia]. destruct le.
    + destruct (Z.min_spec 8192 (bmh_haystack_cutoff st + 256)) as [[_ ->] | [_ ->]].
      * exists 64. lia.
      * exists (b + 2). lia.
    + destruct (2048 <? bmh_haystack_cutoff st); [exists (b - 1) | exists b]; lia.
Qed.

Lemma observations_keep_tuning_ok : forall obs st,
  tuning_ok st -> tuning_ok (foldl observe st obs).
Proof.
  induction obs as [|o obs IH]; intros st Hst; simpl; [exact Hst |].
  apply IH. apply adapt_keeps_tuning_ok. exact Hst.
Qed.

(** ** The builder: growth request and integer formatting *)

Import string_builder.

Lemma growth_loop_spec target : forall fuel c,
  64 <= c -> target <= 2 ^ 62 -> target - c <= Z.of_nat fuel ->
  exists r,
    growth_loop fuel c target = Ok r /\
    target <= r /\ c <= r /\
    (target <= c -> r = c) /\ (c < target -> r < 2 * target).
Proof.
  induction fuel as [|fuel IH]; intros c Hc Ht Hfuel; cbn [growth_loop].
  - destruct (Z.ltb_spec c target); [lia |].
    exists c. repeat split; lia.
  - destruct (Z.ltb_spec c target) as [Hlt | Hge].
    2:{ exists c. repeat split; lia. }
    cbv zeta. unfold kHalfGrowthThreshold, kInitialCapacity.
    set (c' := if c <? 256 then Z.max (sz (c * 2)) 64 else sz (c + c / 2)).
    assert (Hc' : c + 1 <= c' <= 2 * c).
    { subst c'. assert (0 <= c / 2 <= c / 1) as Hd.
      { split; [apply Z.div_pos; lia |].
        apply Z.div_le_compat_l; lia. }
      rewrite Z.div_1_r in Hd.
      assert (32 <= c / 2) by (apply Z.div_le_lower_bound; lia).
      destruct (c <? 256); rewrite sz_small by lia; lia. }
    destruct (IH c' ltac:(lia) Ht ltac:(lia)) as (r & Hr & H1 & H2 & H3 & H4).
    exists r. split; [exact Hr |]. split; [lia |]. split; [lia |].
    split; [lia |]. intros _.
    destruct (Z.lt_ge_cases c' target) as [Hl | Hg]; [apply H4; lia |].
    rewrite (H3 Hg). lia.
Qed.

(** X29.  When the builder needs [min_size > _capacity] bytes,
    [_calculate_growth_capacity] returns a capacity of at least
    [min_size] and at least 64: under the exponential policy less than
    twice [max(min_size, 64)], under the linear policy (for a builder
    that already has 64 bytes) the current capacity plus a whole number
    of increments, less than one increment above [min_size]. *)
Theorem growth_capacity_covers_request
    (policy : growth_policy) (capacity growth min_size : Z) :
  0 <= capacity -> 1 <= growth <= 2 ^ 62 -> 0 <= min_size <= 2 ^ 62 ->
  capacity < min_size ->
  exists r,
    _calculate_growth_capacity policy capacity growth min_size = Ok r /\
    min_size <= r /\ 64 <= r /\ capacity <= r /\
    match policy with
    | linear =>
        64 <= capacity -> r < min_size + growth /\ (r - capacity) mod growth = 0
    | exponential => r < 2 * Z.max min_size 64
    end.
Proof.
  intros Hcap Hg Hmin Hneed. unfold _calculate_growth_capacity. cbv zeta.
  unfold kInitialCapacity.
  set (target := Z.max min_size 64).
  assert (Htarget : min_size <= target /\ 64 <= target /\ target <= 2 ^ 62)
    by (subst target; lia).
  destruct policy.
  - destruct (Z.leb_spec target capacity) as [Hle | Hgt].
    { exists capacity. repeat split; try lia. }
    destruct (Z.eqb_spec growth 0); [lia |].
    rewrite (sz_small (target - capacity + growth - 1)) by lia.
    set (steps := (target - capacity + growth - 1) / growth).
    assert (Hsteps : target - capacity <= steps * growth
                     < target - capacity + growth).
    { subst steps.
      pose proof (Z.div_mod (target - capacity + growth - 1) growth ltac:(lia)).
      pose proof (Z.mod_pos_bound (target - capacity + growth - 1) growth ltac:(lia)).
      nia. }
    rewrite sz_small by lia.
    exists (Z.max (capacity + steps * growth) target).
    split; [reflexivity |]. split; [lia |]. split; [lia |]. split; [lia |].
    intros H64. rewrite Z.max_l by lia. split; [subst target; lia |].
    replace (capacity + steps * growth - capacity) with (steps * growth) by lia.
    apply Z.mod_mul. lia.
  - set (c0 := Z.max capacity 64).
    assert ((c0 =? 0) = false) as -> by (apply Z.eqb_neq; subst c0; lia).
    destruct (growth_loop_spec target (Z.to_nat target) c0)
      as (r & Hr & H1 & H2 & H3 & H4); [subst c0; lia | lia | subst c0; lia |].
    exists r. split; [exact Hr |]. split; [lia |]. split; [lia |].
    split; [subst c0; lia |].
    destruct (Z.lt_ge_cases c0 target) as [Hl | Hge]; [apply H4; exact Hl |].
    rewrite (H3 Hge). subst c0 target. lia.
Qed.

Lemma decimal_value_snoc digits c :
  decimal_value (digits ++ [c]) = 10 * decimal_value digits + (c - 48).
Proof. unfold decimal_value. now rewrite foldl_app. Qed.

(** [digits_of] lists the decimal digits, least significant first. *)
Lemma digits_of_spec : forall fuel v,
  0 <= v < 10 ^ Z.of_nat fuel ->
  Forall is_digit (digits_of fuel v) /\
  decimal_value (rev (digits_of fuel v)) = v /\
  (0 < v -> exists msd, last (digits_of fuel v) = Some msd /\ msd <> 48).
Proof.
  induction fuel as [|fuel IH]; intros v Hv.
  - simpl in Hv. cbn [digits_of]. destruct (Z.ltb_spec 0 v); [lia |].
    split; [constructor |]. split; [simpl; unfold decimal_value; simpl; lia | lia].
  - cbn [digits_of]. destruct (Z.ltb_spec 0 v) as [Hpos | Hzero].
    2:{ split; [constructor |].
        split; [unfold decimal_value; simpl; lia | lia]. }
    rewrite Nat2Z.inj_succ, Z.pow_succ_r in Hv by lia.
    assert (Hq : 0 <= v / 10 < 10 ^ Z.of_nat fuel).
    { split; [apply Z.div_pos; lia |]. apply Z.div_lt_upper_bound; lia. }
    pose proof (Z.mod_pos_bound v 10 ltac:(lia)) as Hm.
    pose proof (Z.div_mod v 10 ltac:(lia)) as Hdm.
    destruct (IH (v / 10) Hq) as (Hall & Hval & Hmsd).
    split; [constructor; [unfold is_digit; lia | exact Hall] |].
    split.
    + cbn [rev]. rewrite decimal_value_snoc, Hval. lia.
    + intros _. destruct (Z.eq_dec (v / 10) 0) as [E | E].
      * rewrite E. destruct fuel; cbn [digits_of]; simpl;
          (exists (48 + v mod 10); split; [reflexivity | lia]).
      * destruct (Hmsd ltac:(lia)) as (msd & Hl & Hne).
        exists msd. split; [| exact Hne].
        destruct (digits_of fuel (v / 10)) as [|d ds]; [discriminate |].
        exact Hl.
Qed.

Lemma digits_of_length : forall fuel v (k : nat),
  0 <= v < 10 ^ Z.of_nat k -> (length (digits_of fuel v) <= k)%nat.
Proof.
  induction fuel as [|fuel IH]; intros v k Hv; cbn [digits_of].
  - destruct (0 <? v); simpl; lia.
  - destruct (Z.ltb_spec 0 v) as [Hpos | Hzero]; [| simpl; lia].
    destruct k as [|k]; [simpl in Hv; lia |].
    rewrite Nat2Z.inj_succ, Z.pow_succ_r in Hv by lia.
    simpl. apply le_n_S. apply IH.
    split; [apply Z.div_pos; lia |]. apply Z.div_lt_upper_bound; lia.
Qed.

Lemma digits_of_nonempty fuel v :
  0 < v -> (1 <= fuel)%nat -> (1 <= length (digits_of fuel v))%nat.
Proof.
  intros Hv Hf. destruct fuel; [lia |]. cbn [digits_of].
  destruct (Z.ltb_spec 0 v); [simpl; lia | lia].
Qed.

Lemma format_digits_spec : forall fuel temp (len : nat) v,
  0 <= v < 10 ^ Z.of_nat fuel ->
  (len + length (digits_of fuel v) <= length temp)%nat ->
  format_digits fuel temp (Z.of_nat len) v
    = Ok (take len temp ++ digits_of fuel v
            ++ drop (len + length (digits_of fuel v)) temp,
          Z.of_nat (len + length (digits_of fuel v))).
Proof.
  induction fuel as [|fuel IH]; intros temp len v Hv Hroom;
    cbn [format_digits digits_of] in *.
  - simpl in Hv. destruct (Z.ltb_spec 0 v); [lia |].
    cbn [app length]. rewrite Nat.add_0_r, take_drop. reflexivity.
  - destruct (Z.ltb_spec 0 v) as [Hpos | Hzero].
    2:{ cbn [app length]. rewrite Nat.add_0_r, take_drop. reflexivity. }
    cbn [length] in Hroom.
    rewrite Nat2Z.inj_succ, Z.pow_succ_r in Hv by lia.
    unfold poke. rewrite memcpy_at_ok by (simpl; lia).
    rewrite Nat2Z.id.
    replace (Z.of_nat len + 1) with (Z.of_nat (S len)) by lia.
    rewrite IH.
    + f_equal. f_equal.
      * set (ds := digits_of fuel (v / 10)).
        set (d := 48 + v mod 10).
        set (laid := take len temp ++ [d] ++ drop (len + length [d]) temp).
        assert (Hx : take (S len) laid = take len temp ++ [d]).
        { subst laid. rewrite app_assoc. apply take_app_length'.
          rewrite length_app, length_take. simpl. lia. }
        assert (Hy : drop (S len + length ds) laid
                     = drop (len + length (d :: ds)) temp).
        { subst laid. rewrite app_assoc.
          rewrite drop_app_ge by (rewrite length_app, length_take; simpl; lia).
          rewrite length_app, length_take, drop_drop. cbn [length].
          f_equal. lia. }
        rewrite Hx, Hy, <- app_assoc. reflexivity.
      * cbn [length]. lia.
    + split; [apply Z.div_pos; lia |]. apply Z.div_lt_upper_bound; lia.
    + rewrite !length_app, length_take, length_drop. cbn [length]. lia.
Qed.

Lemma count_digits_spec : forall fuel len v,
  0 <= v < 10 ^ Z.of_nat fuel ->
  count_digits fuel len v = Ok (len + Z.of_nat (length (digits_of fuel v))).
Proof.
  induction fuel as [|fuel IH]; intros len v Hv; cbn [count_digits digits_of].
  - simpl in Hv. destruct (Z.ltb_spec 0 v); [lia |]. simpl. f_equal. lia.
  - destruct (Z.ltb_spec 0 v) as [Hpos | Hzero]; [| simpl; f_equal; lia].
    rewrite Nat2Z.inj_succ, Z.pow_succ_r in Hv by lia.
    rewrite IH.
    + cbn [length]. f_equal. lia.
    + split; [apply Z.div_pos; lia |]. apply Z.div_lt_upper_bound; lia.
Qed.

Lemma write_digits_spec : forall fuel buffer (pos : nat) v,
  0 <= v < 10 ^ Z.of_nat fuel ->
  (length (digits_of fuel v) <= pos <= length buffer)%nat ->
  Z.of_nat pos < 2 ^ 64 ->
  write_digits fuel buffer (Z.of_nat pos) v
    = Ok (take (pos - length (digits_of fuel v)) buffer
            ++ rev (digits_of fuel v) ++ drop pos buffer).
Proof.
  induction fuel as [|fuel IH]; intros buffer pos v Hv Hroom Hpos64;
    cbn [write_digits digits_of] in *.
  - simpl in Hv. destruct (Z.ltb_spec 0 v); [lia |].
    cbn [app length rev]. rewrite Nat.sub_0_r, take_drop. reflexivity.
  - destruct (Z.ltb_spec 0 v) as [Hpos | Hzero].
    2:{ cbn [app length rev]. rewrite Nat.sub_0_r, take_drop. reflexivity. }
    cbn [length] in Hroom. cbv zeta.
    rewrite Nat2Z.inj_succ, Z.pow_succ_r in Hv by lia.
    rewrite sz_small by lia.
    replace (Z.of_nat pos - 1) with (Z.of_nat (pos - 1)) by lia.
    unfold poke. rewrite memcpy_at_ok by (simpl; lia).
    rewrite Nat2Z.id. cbn [length].
    replace (pos - 1 + 1)%nat with pos by lia.
    rewrite IH.
    + f_equal. set (ds := digits_of fuel (v / 10)). cbn [rev length].
      rewrite take_app_le by (rewrite length_take; lia).
      rewrite take_take.
      replace ((pos - 1 - length ds) `min` (pos - 1))%nat
        with (pos - S (length ds))%nat by lia.
      f_equal. rewrite <- app_assoc. f_equal.
      rewrite drop_app_length' by (rewrite length_take; lia).
      reflexivity.
    + split; [apply Z.div_pos; lia |]. apply Z.div_lt_upper_bound; lia.
    + rewrite !length_app, length_take, length_drop. cbn [length]. lia.
    + lia.
Qed.

(** * The example values satisfy the invariants *)

Lemma heap_ok_world_zero : heap_ok world_zero.
Proof.
  split; [split; [reflexivity |]; split; [reflexivity |]; simpl;
          repeat constructor |].
  split; [pool_live_by_computation |]. split.
  - intros idx k idx' k' Hidx Hk. class_cases idx; cbv -[Z.le Z.lt] in Hk; lia.
  - split; [cbv; reflexivity |]. intros q [b Hq].
    unfold world_zero in Hq. cbn [mem] in Hq. rewrite lookup_empty in Hq.
    discriminate.
Qed.

Lemma heap_ok_demo_world : heap_ok demo_world.
Proof.
  split; [split; [reflexivity |]; split; [reflexivity |]; simpl;
          repeat constructor |].
  split; [pool_live_by_computation |]. split.
  - intros idx k idx' k' Hidx Hk. class_cases idx; cbv -[Z.le Z.lt] in Hk; lia.
  - split; [cbv; reflexivity |]. intros q [b Hq].
    unfold demo_world in *. cbn [mem brk] in *.
    destruct (Z.eq_dec q 4096) as [-> | Hne]; [lia |].
    rewrite lookup_singleton_ne in Hq by congruence. discriminate.
Qed.

Lemma not_in_pool_zero p : ~ in_pool tls_zero p.
Proof.
  intros (idx & k & Hidx & Hk & _). class_cases idx; cbv -[Z.le Z.lt] in Hk; lia.
Qed.

Lemma demo_inline_valid w :
  valid demo_inline w /\ content demo_inline w = Ok ([97; 98; 99], w).
Proof.
  apply (inline_valid ([97; 98; 99; 0] ++ replicate 20 0) 3 w);
    [reflexivity | lia | reflexivity].
Qed.

Lemma demo_heap_valid :
  valid demo_heap demo_world /\
  content demo_heap demo_world = Ok (demo_bytes, demo_world).
Proof.
  assert (Hl : load_storage demo_heap demo_world = Ok (demo_block, demo_world))
    by reflexivity.
  split.
  - apply (valid_intro _ _ demo_block); [| exact Hl | | reflexivity].
    + split; [cbv -[Z.le Z.lt]; lia |]. split; [reflexivity |].
      intros _. exists demo_block. split; [reflexivity |].
      split; [cbv -[Z.le Z.lt]; lia | apply not_in_pool_zero].
    + cbv -[Z.le Z.lt]. lia.
  - rewrite (content_of_storage _ _ _ Hl) by (cbv -[Z.le Z.lt]; lia).
    reflexivity.
Qed.

(** Strings a step leaves alone keep their invariant and their bytes. *)
Lemma others_kept w w' :
  (forall q, is_Some (mem w !! q) -> ~ in_pool (tls w) q ->
             mem w' !! q = mem w !! q) ->
  (forall q, in_pool (tls w') q -> in_pool (tls w) q) ->
  forall other bytes, valid other w -> content other w = Ok (bytes, w) ->
    valid other w' /\ content other w' = Ok (bytes, w').
Proof.
  intros Hmem Hpool other bytes Hv Hc.
  pose proof Hv as (_ & _ & _ & _ & Hblock).
  assert (Hsame : _is_heap_allocated other = true ->
            mem w' !! heap_ptr (_data other) = mem w !! heap_ptr (_data other)).
  { intros Hh. destruct (Hblock Hh) as (buf & Hbuf & _ & Hnin).
    apply Hmem; [eauto | exact Hnin]. }
  split.
  - apply (valid_frame other w); [exact Hv |]. intros Hh.
    split; [exact (Hsame Hh) | apply Hpool].
  - apply (content_frame other w); [exact Hsame | exact Hc].
Qed.

(** Before the 1024th observation the thresholds are not touched. *)
Lemma early_observations_change_nothing : forall obs st,
  0 <= local_tick st ->
  local_tick st + Z.of_nat (length obs) < 1024 ->
  small_haystack_cutoff (foldl observe st obs) = small_haystack_cutoff st /\
  bmh_haystack_cutoff (foldl observe st obs) = bmh_haystack_cutoff st.
Proof.
  induction obs as [|o obs IH]; intros st H0 Hlen; [split; reflexivity |].
  cbn [foldl length] in *.
  assert (Hstep : observe st o
                  = mkTuning (small_haystack_cutoff st) (bmh_haystack_cutoff st)
                             (adapt_counter st) (local_tick st + 1)).
  { unfold observe, adapt_find_thresholds. cbv zeta.
    rewrite (Z.mod_small (local_tick st + 1)) by lia.
    change 1023 with (Z.ones 10). rewrite Z.land_ones by lia.
    rewrite Z.mod_small by (change (2 ^ 10) with 1024; lia).
    destruct (Z.eqb_spec (local_tick st + 1) 0); [lia | reflexivity]. }
  rewrite Hstep. destruct (IH (mkTuning (small_haystack_cutoff st)
                                 (bmh_haystack_cutoff st) (adapt_counter st)
                                 (local_tick st + 1))) as [H1 H2];
    cbn [local_tick]; [lia | lia |].
  split; [exact H1 | exact H2].
Qed.

Lemma head_rev_last (l : list Z) : head (rev l) = last l.
Proof.
  rewrite <- (rev_involutive l) at 2. generalize (rev l). intros k.
  destruct k as [|z k]; [reflexivity |]. cbn [rev head].
  now rewrite last_snoc.
Qed.

(** * The properties, for a user of the code *)


(** X10.  [string(const char* cstr, size_type len)] yields a string that
    satisfies the representation invariant and holds exactly the given
    bytes, inline for fewer than 24 bytes and in a heap block otherwise;
    the invariant of the allocation layer is kept and every string that
    was valid stays valid with the same bytes. *)
Theorem constructor_establishes_invariant (cstr : list Z) (w : world) :
  heap_ok w -> Z.of_nat (length cstr) < 2 ^ 63 ->
  exists s' w',
    string_from cstr w = Ok (s', w') /\
    heap_ok w' /\ valid s' w' /\ content s' w' = Ok (cstr, w') /\
    _is_heap_allocated s' = negb (fits_in_sso (Z.of_nat (length cstr))) /\
    forall other bytes, valid other w -> content other w = Ok (bytes, w) ->
      valid other w' /\ content other w' = Ok (bytes, w').
Proof.
  intros Hok Hbig.
  destruct (string_from_spec cstr w Hok Hbig)
    as (s' & w' & Hrun & Hok' & Hv' & Hc' & Hh' & Hmem & Hpool).
  exists s', w'. split; [exact Hrun |]. split; [exact Hok' |].
  split; [exact Hv' |]. split; [exact Hc' |]. split; [exact Hh' |].
  apply others_kept; assumption.
Qed.




(** X16.  [push_back(ch)] leaves a valid string that holds the old bytes
    followed by [ch]; the capacity never goes down. *)
Theorem push_back_appends_byte
    (this : string) (ch : Z) (bytes : list Z) (w : world) :
  heap_ok w -> valid this w -> content this w = Ok (bytes, w) ->
  _size this + 1 < 2 ^ 63 ->
  exists s' w',
    push_back this ch w = Ok (s', w') /\
    heap_ok w' /\ valid s' w' /\
    content s' w' = Ok (bytes ++ [ch], w') /\
    capacity this <= capacity s'.
Proof. exact (push_back_spec this ch bytes w). Qed.

(** X17.  [pop_back] removes exactly the last byte (nothing from an empty
    string), keeps the capacity and makes no call to the allocation
    layer; so [pop_back] after [push_back(ch)] gives the original bytes
    back. *)
Theorem pop_back_removes_last_byte
    (this : string) (ch : Z) (bytes : list Z) (w : world) :
  heap_ok w -> valid this w -> content this w = Ok (bytes, w) ->
  _size this + 1 < 2 ^ 63 ->
  (exists s' w',
     pop_back this w = Ok (s', w') /\
     heap_ok w' /\ valid s' w' /\
     content s' w' = Ok (take (length bytes - 1) bytes, w') /\
     capacity s' = capacity this /\ trace w' = trace w) /\
  (exists s1 w1 s2 w2,
     push_back this ch w = Ok (s1, w1) /\
     pop_back s1 w1 = Ok (s2, w2) /\
     heap_ok w2 /\ valid s2 w2 /\ content s2 w2 = Ok (bytes, w2) /\
     capacity s2 = capacity s1).
Proof.
  intros Hok Hv Hc Hbig. split.
  - exact (pop_back_spec this bytes w Hok Hv Hc).
  - destruct (push_back_spec this ch bytes w Hok Hv Hc Hbig)
      as (s1 & w1 & Hpush & Hok1 & Hv1 & Hc1 & _).
    destruct (pop_back_spec s1 (bytes ++ [ch]) w1 Hok1 Hv1 Hc1)
      as (s2 & w2 & Hpop & Hok2 & Hv2 & Hc2 & Hcap2 & _).
    exists s1, w1, s2, w2. split; [exact Hpush |]. split; [exact Hpop |].
    split; [exact Hok2 |]. split; [exact Hv2 |]. split; [| exact Hcap2].
    rewrite Hc2. do 2 f_equal. rewrite length_app. cbn [length].
    replace (length bytes + 1 - 1)%nat with (length bytes) by lia.
    apply take_app_length.
Qed.

(** X18.  [clear] leaves a valid empty string with the same capacity and
    makes no call to the allocation layer. *)
Theorem clear_empties (this : string) (bytes : list Z) (w : world) :
  heap_ok w -> valid this w -> content this w = Ok (bytes, w) ->
  exists s' w',
    clear this w = Ok (s', w') /\
    heap_ok w' /\ valid s' w' /\
    content s' w' = Ok ([], w') /\ _size s' = 0 /\
    capacity s' = capacity this /\ trace w' = trace w.
Proof. exact (clear_spec this bytes w). Qed.

(** X20.  [find(ch, pos)] returns the smallest index at or after [pos]
    that holds [ch], [rfind(ch, pos)] the largest index at or before
    [pos], and each returns [npos] exactly when there is no such index;
    [contains(ch)] says whether [ch] is among the bytes.  None of them
    changes anything. *)
Theorem char_search_finds_first_and_last
    (this : string) (ch pos : Z) (bytes : list Z) (w : world) :
  valid this w -> content this w = Ok (bytes, w) -> 0 <= pos ->
  (exists r,
     find_char this ch pos w = Ok (r, w) /\
     ((r = npos /\
       forall i, (Z.to_nat pos <= i)%nat -> bytes !! i <> Some ch) \/
      (pos <= r < Z.of_nat (length bytes) /\
       bytes !! Z.to_nat r = Some ch /\
       forall i, (Z.to_nat pos <= i < Z.to_nat r)%nat ->
                 bytes !! i <> Some ch))) /\
  (exists r,
     rfind_char this ch pos w = Ok (r, w) /\
     ((r = npos /\
       forall i, (i <= Z.to_nat pos)%nat -> bytes !! i <> Some ch) \/
      (0 <= r <= pos /\ r < Z.of_nat (length bytes) /\
       bytes !! Z.to_nat r = Some ch /\
       forall i, (Z.to_nat r < i <= Z.to_nat pos)%nat ->
                 bytes !! i <> Some ch))) /\
  contains_char this ch w = Ok (bool_decide (ch ∈ bytes), w).
Proof.
  intros Hv Hc Hpos.
  split; [exact (find_char_spec this ch pos bytes w Hc Hpos) |].
  split; [exact (rfind_char_spec this ch pos bytes w Hc Hpos) |].
  destruct (find_char_spec this ch 0 bytes w Hc ltac:(lia)) as (r & Hr & Hcase).
  unfold contains_char, bind. rewrite Hr. unfold ret. do 2 f_equal.
  destruct (content_buffer this w bytes Hc) as (_ & _ & _ & _ & Hlen).
  destruct Hv as (Hsize & _ & Hcap & _).
  destruct Hcase as [[-> Hnone] | (Hrange & Hat & _)].
  - rewrite Z.eqb_refl. cbn [negb]. rewrite bool_decide_eq_false_2; [reflexivity |].
    intros Hin. apply list_elem_of_lookup in Hin as [i Hi].
    exact (Hnone i ltac:(lia) Hi).
  - assert ((r =? npos) = false) as ->.
    { apply Z.eqb_neq. unfold npos, SIZE_MAX. lia. }
    cbn [negb]. rewrite bool_decide_eq_true_2; [reflexivity |].
    apply list_elem_of_lookup. eauto.
Qed.

(** X21.  [operator==] decides equality of the bytes of two strings, and
    [starts_with(sv)] and [ends_with(sv)] decide whether [sv] is a prefix
    or a suffix of the bytes; none of them changes anything. *)
Theorem comparisons_decide
    (this other : string) (a b sv : list Z) (w : world) :
  content this w = Ok (a, w) -> content other w = Ok (b, w) ->
  string_eq this other w = Ok (bool_decide (a = b), w) /\
  starts_with this sv w = Ok (bool_decide (sv `prefix_of` a), w) /\
  ends_with this sv w = Ok (bool_decide (sv `suffix_of` a), w).
Proof.
  intros Ha Hb. split; [exact (string_eq_spec this other a b w Ha Hb) |].
  split; [exact (starts_with_spec this sv a w Ha) |].
  exact (ends_with_spec this sv a w Ha).
Qed.

(** X22.  [substr(pos, len)] and the constructor
    [string(other, pos, count)] throw [std::out_of_range] when [pos]
    exceeds the length, and otherwise return a new valid string that
    holds the bytes from [pos] on, at most [len] of them; the source
    stays valid with its bytes. *)
Theorem substr_returns_range_or_throws
    (this : string) (pos len : Z) (bytes : list Z) (w : world) :
  heap_ok w -> valid this w -> content this w = Ok (bytes, w) ->
  0 <= pos -> 0 <= len ->
  (_size this < pos ->
     substr this pos len w = Throw out_of_range /\
     string_sub this pos len w = Throw out_of_range) /\
  (pos <= _size this ->
   (exists s' w',
      substr this pos len w = Ok (s', w') /\
      heap_ok w' /\ valid s' w' /\
      content s' w'
        = Ok (take (Z.to_nat len) (drop (Z.to_nat pos) bytes), w') /\
      valid this w' /\ content this w' = Ok (bytes, w')) /\
   (exists s' w',
      string_sub this pos len w = Ok (s', w') /\
      heap_ok w' /\ valid s' w' /\
      content s' w'
        = Ok (take (Z.to_nat len) (drop (Z.to_nat pos) bytes), w') /\
      valid this w' /\ content this w' = Ok (bytes, w'))).
Proof.
  intros Hok Hv Hc Hpos Hlen.
  destruct (substr_spec this pos len bytes w Hok Hv Hc Hpos Hlen) as [H1 H2].
  destruct (string_sub_spec this pos len bytes w Hok Hv Hc Hpos Hlen) as [H3 H4].
  split; [intros H; split; [exact (H1 H) | exact (H3 H)] |].
  intros H; split; [exact (H2 H) | exact (H4 H)].
Qed.

(** X25.  A [lazy_concat] to which the parts [p1 .. pn] were appended in
    this order has their summed length as its size, and [materialize()]
    returns a valid string that holds [p1 ++ ... ++ pn]. *)
Theorem lazy_concat_materializes_parts (parts : list (list Z)) (w : world) :
  heap_ok w -> Z.of_nat (length (List.concat parts)) < 2 ^ 63 ->
  _total_size (foldl lazy_append lazy_empty parts)
    = Z.of_nat (length (List.concat parts)) /\
  exists s' w',
    materialize (foldl lazy_append lazy_empty parts) w = Ok (s', w') /\
    heap_ok w' /\ valid s' w' /\
    content s' w' = Ok (List.concat parts, w').
Proof.
  intros Hok Hbig.
  assert (Hsize := lazy_chain_size parts ltac:(lia)).
  split; [exact Hsize |].
  destruct (materialize_spec (foldl lazy_append lazy_empty parts) w Hok)
    as (s' & w' & Hrun & Hok' & Hv' & Hc').
  - rewrite lazy_chain_views. exact Hsize.
  - rewrite Hsize. exact Hbig.
  - rewrite lazy_chain_views in Hc'. exists s', w'. auto.
Qed.

(** X26.  Whatever observations [adapt_find_thresholds] is fed, starting
    from the initial thresholds, the small-haystack cutoff stays within
    [128, 512] and the Horspool cutoff within [2048, 8192]; and the
    thresholds are not touched before the 1024th call. *)
Theorem adaptive_thresholds_stay_bounded (obs : list observation) :
  128 <= small_haystack_cutoff (foldl observe tuning_initial obs) <= 512 /\
  2048 <= bmh_haystack_cutoff (foldl observe tuning_initial obs) <= 8192 /\
  (Z.of_nat (length obs) < 1024 ->
   small_haystack_cutoff (foldl observe tuning_initial obs) = 256 /\
   bmh_haystack_cutoff (foldl observe tuning_initial obs) = 4096).
Proof.
  assert (Hinit : tuning_ok tuning_initial).
  { unfold tuning_ok, tuning_initial. simpl. repeat split; lia. }
  destruct (observations_keep_tuning_ok obs tuning_initial Hinit)
    as (Hs & _ & Hb & _).
  split; [exact Hs |]. split; [exact Hb |]. intros Hlen.
  apply (early_observations_change_nothing obs tuning_initial); simpl; lia.
Qed.

(** X27.  For every 64-bit [value], a non-zero [capacity] and a buffer of
    at least 20 bytes, [_format_uint64] writes the decimal digits of
    [value] at the head of the buffer, most significant first and without
    a leading zero, returns their number (1 to 20) and leaves the rest of
    the buffer alone: reading the digits back gives [value].  [capacity]
    is only compared with zero: the digits are written whatever its
    value. *)
Theorem format_uint64_round_trip (buffer : list Z) (capacity value : Z) :
  0 <= value < 2 ^ 64 -> 0 < capacity -> 20 <= Z.of_nat (length buffer) ->
  exists digits,
    _format_uint64 buffer capacity value
      = Ok (Z.of_nat (length digits), digits ++ drop (length digits) buffer) /\
    Forall is_digit digits /\ decimal_value digits = value /\
    (1 <= length digits <= 20)%nat /\
    (value <> 0 -> head digits <> Some 48).
Proof.
  intros Hv Hcap Hbuf. unfold _format_uint64.
  destruct (Z.eqb_spec capacity 0); [lia |].
  destruct (Z.eqb_spec value 0) as [-> | Hnz].
  { exists [48]. unfold poke. rewrite memcpy_at_ok by (simpl; lia).
    split; [reflexivity |]. split; [repeat constructor; unfold is_digit; lia |].
    split; [reflexivity |]. split; [simpl; lia | congruence]. }
  assert (Hfuel : 0 <= value < 10 ^ Z.of_nat 21) by (simpl; lia).
  destruct (digits_of_spec 21 value Hfuel) as (Hall & Hval & Hmsd).
  assert (Hlen : (length (digits_of 21 value) <= 20)%nat).
  { apply digits_of_length. simpl. lia. }
  pose proof (digits_of_nonempty 21 value ltac:(lia) ltac:(lia)) as Hne.
  change (format_digits 21 (replicate 20 0) 0 value)
    with (format_digits 21 (replicate 20 0) (Z.of_nat 0) value).
  rewrite (format_digits_spec 21 (replicate 20 0) 0 value Hfuel)
    by (rewrite length_replicate; lia).
  rewrite take_0, Nat.add_0_l. cbn [app]. rewrite Nat2Z.id.
  rewrite take_app_length.
  set (ds := digits_of 21 value) in *.
  rewrite memcpy_at_ok by (rewrite ?length_rev; lia).
  exists (rev ds). rewrite length_rev. split; [reflexivity |].
  split; [apply Forall_rev; exact Hall |]. split; [exact Hval |].
  split; [lia |]. intros _.
  destruct (Hmsd ltac:(lia)) as (msd & Hlast & Hmsd48).
  rewrite head_rev_last, Hlast. congruence.
Qed.

(** X28.  For every 64-bit signed [value] (the smallest one included) and
    a buffer of [capacity > 0] bytes, [_format_int64] either writes the
    decimal text of [value] at the head of the buffer (a ['-'] for a
    negative value, then the digits of its magnitude, most significant
    first and without a leading zero) and returns the length of the
    text, or, when the text does not fit in [capacity] bytes, returns 0
    and leaves the buffer untouched; reading the text back gives
    [value]. *)
Theorem format_int64_round_trip (buffer : list Z) (capacity value : Z) :
  INT64_MIN <= value <= INT64_MAX ->
  0 < capacity <= Z.of_nat (length buffer) ->
  Z.of_nat (length buffer) < 2 ^ 64 ->
  exists digits text,
    text = (if value <? 0 then 45 :: digits else digits) /\
    Forall is_digit digits /\ decimal_value digits = Z.abs value /\
    (value <> 0 -> head digits <> Some 48) /\
    signed_decimal_value text = value /\ (1 <= length text <= 20)%nat /\
    _format_int64 buffer capacity value
      = if Z.of_nat (length text) <=? capacity
        then Ok (Z.of_nat (length text), text ++ drop (length text) buffer)
        else Ok (0, buffer).
Proof.
  unfold INT64_MIN, INT64_MAX. intros Hv Hcap Hbuf. unfold _format_int64.
  destruct (Z.eqb_spec capacity 0); [lia |].
  destruct (Z.eqb_spec value 0) as [-> | Hnz].
  { exists [48], [48]. split; [reflexivity |].
    split; [repeat constructor; unfold is_digit; lia |].
    split; [reflexivity |]. split; [congruence |].
    split; [reflexivity |]. split; [simpl; lia |].
    unfold poke. rewrite memcpy_at_ok by (simpl; lia).
    destruct (Z.leb_spec (Z.of_nat (length [48])) capacity); [reflexivity |].
    simpl in *. lia. }
  cbv zeta. unfold INT64_MIN, INT64_MAX.
  set (u := if value <? 0
            then (if value =? - 2 ^ 63 then 2 ^ 63 - 1 + 1 else - value)
            else value).
  assert (Hu : 0 < u <= 2 ^ 63 /\ u = Z.abs value).
  { subst u. destruct (Z.ltb_spec value 0).
    - destruct (Z.eqb_spec value (- 2 ^ 63)); lia.
    - lia. }
  assert (Hfuel : 0 <= u < 10 ^ Z.of_nat 21) by (simpl; lia).
  destruct (digits_of_spec 21 u Hfuel) as (Hall & Hval & Hmsd).
  assert (Hlen : (length (digits_of 21 u) <= 19)%nat).
  { apply digits_of_length. simpl. lia. }
  pose proof (digits_of_nonempty 21 u ltac:(lia) ltac:(lia)) as Hne.
  rewrite count_digits_spec by exact Hfuel.
  set (ds := digits_of 21 u) in *.
  replace (0 + Z.of_nat (length ds)) with (Z.of_nat (length ds)) by lia.
  assert (Hhead : head (rev ds) <> Some 48).
  { destruct (Hmsd ltac:(lia)) as (msd & Hlast & Hmsd48).
    rewrite head_rev_last, Hlast. congruence. }
  exists (rev ds), (if value <? 0 then 45 :: rev ds else rev ds).
  split; [reflexivity |]. split; [apply Forall_rev; exact Hall |].
  split; [lia |]. split; [intros _; exact Hhead |].
  destruct (Z.ltb_spec value 0) as [Hneg | Hpos].
  - cbn [length]. rewrite length_rev.
    split; [cbn [signed_decimal_value]; rewrite Z.eqb_refl, Hval; lia |].
    split; [lia |].
    replace (Z.of_nat (S (length ds))) with (Z.of_nat (length ds) + 1) by lia.
    destruct (Z.ltb_spec capacity (Z.of_nat (length ds) + 1)) as [Hsmall | Hfits].
    { destruct (Z.leb_spec (Z.of_nat (length ds) + 1) capacity); [lia | reflexivity]. }
    destruct (Z.leb_spec (Z.of_nat (length ds) + 1) capacity); [| lia].
    replace (Z.of_nat (length ds) + 1) with (Z.of_nat (S (length ds))) by lia.
    rewrite write_digits_spec by (fold ds; lia). fold ds.
    replace (S (length ds) - length ds)%nat with 1%nat by lia.
    unfold poke. rewrite memcpy_at_ok
      by (rewrite ?length_app, ?length_take, ?length_rev, ?length_drop; simpl; lia).
    do 2 f_equal. change (Z.to_nat 0) with 0%nat. rewrite take_0.
    cbn [app length Nat.add]. f_equal.
    rewrite drop_app_ge by (rewrite length_take; lia).
    rewrite length_take.
    replace (1 - 1 `min` length buffer)%nat with 0%nat by lia.
    rewrite drop_0. reflexivity.
  - rewrite length_rev.
    split.
    { destruct (rev ds) as [|c t] eqn:E.
      { apply (f_equal length) in E. rewrite length_rev in E.
        cbn [length] in E. lia. }
      cbn [signed_decimal_value].
      assert (Hc : is_digit c).
      { apply Forall_rev in Hall. rewrite E in Hall.
        now apply Forall_cons in Hall as [? _]. }
      unfold is_digit in Hc. destruct (Z.eqb_spec c 45); [lia |]. lia. }
    split; [lia |].
    destruct (Z.ltb_spec capacity (Z.of_nat (length ds))) as [Hsmall | Hfits].
    { destruct (Z.leb_spec (Z.of_nat (length ds)) capacity); [lia | reflexivity]. }
    destruct (Z.leb_spec (Z.of_nat (length ds)) capacity); [| lia].
    rewrite write_digits_spec by (fold ds; lia). fold ds.
    rewrite Nat.sub_diag, take_0. reflexivity.
Qed.

(** X30.  On a string that holds [bytes], for a needle of at most 8 bytes
    or with fewer than 65536 bytes from [pos] on, [find(sv, pos)] returns
    the index of the first occurrence of [sv] at or after [pos], and
    [npos] exactly when there is none; it changes nothing. *)
Theorem find_returns_first_occurrence
    (avx2 : bool) (this : string) (w : world) (bytes sv : list Z) (pos : Z) :
  content this w = Ok (bytes, w) ->
  0 <= pos ->
  Z.of_nat (length sv) <= 8 \/ Z.of_nat (length bytes) - pos < 65536 ->
  exists r,
    find avx2 this sv pos w = Ok (r, w) /\
    ((r = npos /\
      forall i, pos <= Z.of_nat i -> ~ occurs_at bytes sv i) \/
     (exists i : nat,
        r = Z.of_nat i /\ pos <= Z.of_nat i /\ occurs_at bytes sv i /\
        forall j, pos <= Z.of_nat j -> (j < i)%nat -> ~ occurs_at bytes sv j)).
Proof.
  intros Hc Hpos Htier.
  exists (brute_force_find bytes sv pos). split.
  - exact (find_on_string_agrees_off_the_factorization_path
             avx2 this w bytes sv pos Hc Hpos Htier).
  - exact (brute_force_find_first_occurrence bytes sv pos Hpos).
Qed.

(** * Instances of the further properties *)

Lemma copy_helpers_are_memcpy_witness :
  0 <= 5 /\
  5 <= Z.of_nat (length [1; 2; 3; 4; 5]) /\
  5 <= Z.of_nat (length (replicate 8 0)) /\
  memcpy_at (replicate 8 0) 0 (take (Z.to_nat 5) [1; 2; 3; 4; 5]) = Some (take
    (Z.to_nat 5) [1; 2; 3; 4; 5] ++ drop (Z.to_nat 5) (replicate 8 0)) /\
  copy_small (replicate 8 0) [1; 2; 3; 4; 5] 5 = memcpy_at (replicate 8 0) 0
      (take (Z.to_nat 5) [1; 2; 3; 4; 5]) /\
  copy_sso (replicate 8 0) [1; 2; 3; 4; 5] 5 = memcpy_at (replicate 8 0) 0
      (take (Z.to_nat 5) [1; 2; 3; 4; 5]) /\
  copy_heap_hot (replicate 8 0) [1; 2; 3; 4; 5] 5 = memcpy_at (replicate 8 0)
      0 (take (Z.to_nat 5) [1; 2; 3; 4; 5]).
Proof.
  split; [arith_by_computation |].
  split; [arith_by_computation |].
  split; [arith_by_computation |].
  apply (copy_helpers_are_memcpy (replicate 8 0) [1; 2; 3; 4; 5] 5);
    [arith_by_computation | arith_by_computation | arith_by_computation].
Defined.

Lemma bmh_compact_finds_first_occurrence_witness :
  Z.of_nat (length [97; 98; 100]) <= 255 /\
  Forall is_byte [97; 98; 99; 97; 98; 100] /\
  Forall is_byte [97; 98; 100] /\
  (exists r : option Z,
    find_substring_bmh_compact [97; 98; 99; 97; 98; 100] [97; 98; 100] = Ok r
        /\
    first_occurrence [97; 98; 99; 97; 98; 100] [97; 98; 100] r).
Proof.
  split; [arith_by_computation |].
  split; [repeat constructor; unfold is_byte; lia |].
  split; [repeat constructor; unfold is_byte; lia |].
  apply (bmh_compact_finds_first_occurrence [97; 98; 99; 97; 98; 100] [97;
     98; 100]);
    [arith_by_computation | repeat constructor; unfold is_byte; lia | repeat
     constructor; unfold is_byte; lia].
Defined.

Lemma find_substring_simd_finds_first_occurrence_witness :
  Forall is_byte [97; 98; 99; 97; 98; 100] /\
  Forall is_byte [97; 98; 100] /\
  (exists r : option Z,
    find_substring_simd [97; 98; 99; 97; 98; 100] [97; 98; 100] = Ok r /\
    first_occurrence [97; 98; 99; 97; 98; 100] [97; 98; 100] r).
Proof.
  split; [repeat constructor; unfold is_byte; lia |].
  split; [repeat constructor; unfold is_byte; lia |].
  apply (find_substring_simd_finds_first_occurrence [97; 98; 99; 97; 98;
     100] [97; 98; 100]);
    [repeat constructor; unfold is_byte; lia | repeat constructor; unfold
     is_byte; lia].
Defined.


Lemma erase_erases_witness :
  heap_ok world_zero /\
  valid demo_inline world_zero /\
  content demo_inline world_zero = Ok ([97; 98; 99], world_zero) /\
  0 <= 1 /\
  0 <= 1 /\
  (exists (s' : string) (w' : world),
    erase demo_inline 1 1 world_zero = Ok (s', w') /\
    heap_ok w' /\
    valid s' w' /\
    content s' w' = Ok (take (Z.to_nat 1) [97; 98; 99] ++ drop (Z.to_nat (1 +
        1)) [97; 98; 99], w') /\
    capacity s' = capacity demo_inline /\
    trace w' = trace world_zero).
Proof.
  split; [exact heap_ok_world_zero |].
  split; [exact (proj1 (demo_inline_valid world_zero)) |].
  split; [exact (proj2 (demo_inline_valid world_zero)) |].
  split; [arith_by_computation |].
  split; [arith_by_computation |].
  apply (erase_erases demo_inline 1 1 [97; 98; 99] world_zero);
    [exact heap_ok_world_zero | exact (proj1 (demo_inline_valid world_zero))
     | exact (proj2 (demo_inline_valid world_zero)) | arith_by_computation |
     arith_by_computation].
Defined.



Lemma destructor_releases_its_block_witness :
  heap_ok demo_world /\
  valid demo_heap demo_world /\
  (exists w' : world,
    destroy demo_heap demo_world = Ok ((), w') /\
    heap_ok w' /\
    trace w' = trace demo_world ++ (if _is_heap_allocated demo_heap then
        [EvDeallocate (heap_ptr (_data demo_heap)) (capacity demo_heap + 1)]
        else []) /\
    forall other : string,
      valid other demo_world ->
    (_is_heap_allocated demo_heap = true ->
     _is_heap_allocated other = true ->
     heap_ptr (_data other) <> heap_ptr (_data demo_heap)) ->
    valid other w' /\
    forall bytes : list Z,
      content other demo_world = Ok (bytes, demo_world) ->
    content other w' = Ok (bytes, w')).
Proof.
  split; [exact heap_ok_demo_world |].
  split; [exact (proj1 demo_heap_valid) |].
  apply (destructor_releases_its_block demo_heap demo_world);
    [exact heap_ok_demo_world | exact (proj1 demo_heap_valid)].
Defined.

Lemma constructor_establishes_invariant_witness :
  heap_ok world_zero /\
  Z.of_nat (length demo_bytes) < 2 ^ 63 /\
  (exists (s' : string) (w' : world),
    string_from demo_bytes world_zero = Ok (s', w') /\
    heap_ok w' /\
    valid s' w' /\
    content s' w' = Ok (demo_bytes, w') /\
    _is_heap_allocated s' = negb (fits_in_sso (Z.of_nat (length demo_bytes)))
        /\
    forall (other : string) (bytes : list Z),
      valid other world_zero ->
    content other world_zero = Ok (bytes, world_zero) ->
    valid other w' /\
    content other w' = Ok (bytes, w')).
Proof.
  split; [exact heap_ok_world_zero |].
  split; [arith_by_computation |].
  apply (constructor_establishes_invariant demo_bytes world_zero);
    [exact heap_ok_world_zero | arith_by_computation].
Defined.

Lemma copy_constructor_makes_deep_copy_witness :
  heap_ok demo_world /\
  valid demo_heap demo_world /\
  content demo_heap demo_world = Ok (demo_bytes, demo_world) /\
  (exists (s' : string) (w' : world),
    string_copy demo_heap demo_world = Ok (s', w') /\
    heap_ok w' /\
    valid s' w' /\
    content s' w' = Ok (demo_bytes, w') /\
    valid demo_heap w' /\
    content demo_heap w' = Ok (demo_bytes, w') /\
    _is_heap_allocated s' = _is_heap_allocated demo_heap /\
    (_is_heap_allocated demo_heap = true ->
     heap_ptr (_data s') <> heap_ptr (_data demo_heap))).
Proof.
  split; [exact heap_ok_demo_world |].
  split; [exact (proj1 demo_heap_valid) |].
  split; [exact (proj2 demo_heap_valid) |].
  apply (copy_constructor_makes_deep_copy demo_heap demo_bytes demo_world);
    [exact heap_ok_demo_world | exact (proj1 demo_heap_valid) | exact (proj2
     demo_heap_valid)].
Defined.





Lemma push_back_appends_byte_witness :
  heap_ok world_zero /\
  valid demo_inline world_zero /\
  content demo_inline world_zero = Ok ([97; 98; 99], world_zero) /\
  _size demo_inline + 1 < 2 ^ 63 /\
  (exists (s' : string) (w' : world),
    push_back demo_inline 100 world_zero = Ok (s', w') /\
    heap_ok w' /\
    valid s' w' /\
    content s' w' = Ok ([97; 98; 99] ++ [100], w') /\
    capacity demo_inline <= capacity s').
Proof.
  split; [exact heap_ok_world_zero |].
  split; [exact (proj1 (demo_inline_valid world_zero)) |].
  split; [exact (proj2 (demo_inline_valid world_zero)) |].
  split; [arith_by_computation |].
  apply (push_back_appends_byte demo_inline 100 [97; 98; 99] world_zero);
    [exact heap_ok_world_zero | exact (proj1 (demo_inline_valid world_zero))
     | exact (proj2 (demo_inline_valid world_zero)) | arith_by_computation].
Defined.

Lemma pop_back_removes_last_byte_witness :
  heap_ok world_zero /\
  valid demo_inline world_zero /\
  content demo_inline world_zero = Ok ([97; 98; 99], world_zero) /\
  _size demo_inline + 1 < 2 ^ 63 /\
  ((exists (s' : string) (w' : world),
   pop_back demo_inline world_zero = Ok (s', w') /\
   heap_ok w' /\
   valid s' w' /\
   content s' w' = Ok (take (length [97; 98; 99] - 1) [97; 98; 99], w') /\
   capacity s' = capacity demo_inline /\
   trace w' = trace world_zero) /\
  exists (s1 : string) (w1 : world) (s2 : string) (w2 : world),
    push_back demo_inline 100 world_zero = Ok (s1, w1) /\
    pop_back s1 w1 = Ok (s2, w2) /\
    heap_ok w2 /\
    valid s2 w2 /\
    content s2 w2 = Ok ([97; 98; 99], w2) /\
    capacity s2 = capacity s1).
Proof.
  split; [exact heap_ok_world_zero |].
  split; [exact (proj1 (demo_inline_valid world_zero)) |].
  split; [exact (proj2 (demo_inline_valid world_zero)) |].
  split; [arith_by_computation |].
  apply (pop_back_removes_last_byte demo_inline 100 [97; 98; 99]
     world_zero);
    [exact heap_ok_world_zero | exact (proj1 (demo_inline_valid world_zero))
     | exact (proj2 (demo_inline_valid world_zero)) | arith_by_computation].
Defined.

Lemma clear_empties_witness :
  heap_ok demo_world /\
  valid demo_heap demo_world /\
  content demo_heap demo_world = Ok (demo_bytes, demo_world) /\
  (exists (s' : string) (w' : world),
    clear demo_heap demo_world = Ok (s', w') /\
    heap_ok w' /\
    valid s' w' /\
    content s' w' = Ok ([], w') /\
    _size s' = 0 /\
    capacity s' = capacity demo_heap /\
    trace w' = trace demo_world).
Proof.
  split; [exact heap_ok_demo_world |].
  split; [exact (proj1 demo_heap_valid) |].
  split; [exact (proj2 demo_heap_valid) |].
  apply (clear_empties demo_heap demo_bytes demo_world);
    [exact heap_ok_demo_world | exact (proj1 demo_heap_valid) | exact (proj2
     demo_heap_valid)].
Defined.


Lemma char_search_finds_first_and_last_witness :
  valid demo_inline world_zero /\
  content demo_inline world_zero = Ok ([97; 98; 99], world_zero) /\
  0 <= 0 /\
  ((exists r : Z,
   find_char demo_inline 98 0 world_zero = Ok (r, world_zero) /\
   (r = npos /\ (forall i : nat, (Z.to_nat 0 <= i)%nat -> [97; 98; 99] !! i <>
       Some 98) \/ 0 <= r < Z.of_nat (length [97; 98; 99]) /\ [97; 98; 99] !!
       Z.to_nat r = Some 98 /\ forall i : nat, (Z.to_nat 0 <= i < Z.to_nat
       r)%nat -> [97; 98; 99] !! i <> Some 98)) /\
  (exists r : Z,
     rfind_char demo_inline 98 0 world_zero = Ok (r, world_zero) /\
     (r = npos /\ (forall i : nat, (i <= Z.to_nat 0)%nat -> [97; 98; 99] !! i
         <> Some 98) \/ 0 <= r <= 0 /\ r < Z.of_nat (length [97; 98; 99]) /\
         [97; 98; 99] !! Z.to_nat r = Some 98 /\ forall i : nat, (Z.to_nat r <
         i <= Z.to_nat 0)%nat -> [97; 98; 99] !! i <> Some 98)) /\
  contains_char demo_inline 98 world_zero = Ok (bool_decide (98 ∈ [97; 98;
      99]), world_zero)).
Proof.
  split; [exact (proj1 (demo_inline_valid world_zero)) |].
  split; [exact (proj2 (demo_inline_valid world_zero)) |].
  split; [arith_by_computation |].
  apply (char_search_finds_first_and_last demo_inline 98 0 [97; 98; 99]
     world_zero);
    [exact (proj1 (demo_inline_valid world_zero)) | exact (proj2
     (demo_inline_valid world_zero)) | arith_by_computation].
Defined.

Lemma comparisons_decide_witness :
  content demo_inline demo_world = Ok ([97; 98; 99], demo_world) /\
  content demo_heap demo_world = Ok (demo_bytes, demo_world) /\
  string_eq demo_inline demo_heap demo_world = Ok (bool_decide ([97; 98; 99] =
    demo_bytes), demo_world) /\
  starts_with demo_inline [97; 98] demo_world = Ok (bool_decide ([97; 98]
      `prefix_of` [97; 98; 99]), demo_world) /\
  ends_with demo_inline [97; 98] demo_world = Ok (bool_decide ([97; 98]
      `suffix_of` [97; 98; 99]), demo_world).
Proof.
  split; [exact (proj2 (demo_inline_valid demo_world)) |].
  split; [exact (proj2 demo_heap_valid) |].
  apply (comparisons_decide demo_inline demo_heap [97; 98; 99] demo_bytes
     [97; 98] demo_world);
    [exact (proj2 (demo_inline_valid demo_world)) | exact (proj2
     demo_heap_valid)].
Defined.

Lemma substr_returns_range_or_throws_witness :
  heap_ok demo_world /\
  valid demo_heap demo_world /\
  content demo_heap demo_world = Ok (demo_bytes, demo_world) /\
  0 <= 5 /\
  0 <= 10 /\
  ((_size demo_heap < 5 ->
 substr demo_heap 5 10 demo_world = Throw out_of_range /\
 string_sub demo_heap 5 10 demo_world = Throw out_of_range) /\
  (5 <= _size demo_heap ->
   (exists (s' : string) (w' : world), substr demo_heap 5 10 demo_world = Ok
       (s', w') /\ heap_ok w' /\ valid s' w' /\ content s' w' = Ok (take
       (Z.to_nat 10) (drop (Z.to_nat 5) demo_bytes), w') /\ valid demo_heap w'
       /\ content demo_heap w' = Ok (demo_bytes, w')) /\
   exists (s' : string) (w' : world),
     string_sub demo_heap 5 10 demo_world = Ok (s', w') /\
     heap_ok w' /\
     valid s' w' /\
     content s' w' = Ok (take (Z.to_nat 10) (drop (Z.to_nat 5) demo_bytes),
         w') /\
     valid demo_heap w' /\
     content demo_heap w' = Ok (demo_bytes, w'))).
Proof.
  split; [exact heap_ok_demo_world |].
  split; [exact (proj1 demo_heap_valid) |].
  split; [exact (proj2 demo_heap_valid) |].
  split; [arith_by_computation |].
  split; [arith_by_computation |].
  apply (substr_returns_range_or_throws demo_heap 5 10 demo_bytes
     demo_world);
    [exact heap_ok_demo_world | exact (proj1 demo_heap_valid) | exact (proj2
     demo_heap_valid) | arith_by_computation | arith_by_computation].
Defined.

Lemma copy_copies_range_or_throws_witness :
  content demo_inline world_zero = Ok ([97; 98; 99], world_zero) /\
  0 <= 1 /\
  0 <= 2 /\
  ((_size demo_inline < 1 ->
 copy demo_inline (replicate 4 0) 2 1 world_zero = Throw out_of_range) /\
  (1 <= _size demo_inline ->
   2 `min` (_size demo_inline - 1) <= Z.of_nat (length (replicate 4 0)) ->
   copy demo_inline (replicate 4 0) 2 1 world_zero = Ok (2 `min` (_size
       demo_inline - 1), take (Z.to_nat 2) (drop (Z.to_nat 1) [97; 98; 99]) ++
       drop (Z.to_nat (2 `min` (_size demo_inline - 1))) (replicate 4 0),
       world_zero))).
Proof.
  split; [exact (proj2 (demo_inline_valid world_zero)) |].
  split; [arith_by_computation |].
  split; [arith_by_computation |].
  apply (copy_copies_range_or_throws demo_inline (replicate 4 0) 2 1 [97;
     98; 99] world_zero);
    [exact (proj2 (demo_inline_valid world_zero)) | arith_by_computation |
     arith_by_computation].
Defined.

Lemma concat_joins_witness :
  heap_ok demo_world /\
  valid demo_inline demo_world /\
  valid demo_heap demo_world /\
  content demo_inline demo_world = Ok ([97; 98; 99], demo_world) /\
  content demo_heap demo_world = Ok (demo_bytes, demo_world) /\
  _size demo_inline + _size demo_heap < 2 ^ 63 /\
  (exists (s' : string) (w' : world),
    concat demo_inline demo_heap demo_world = Ok (s', w') /\
    heap_ok w' /\
    valid s' w' /\
    content s' w' = Ok ([97; 98; 99] ++ demo_bytes, w') /\
    valid demo_inline w' /\
    content demo_inline w' = Ok ([97; 98; 99], w') /\
    valid demo_heap w' /\
    content demo_heap w' = Ok (demo_bytes, w')).
Proof.
  split; [exact heap_ok_demo_world |].
  split; [exact (proj1 (demo_inline_valid demo_world)) |].
  split; [exact (proj1 demo_heap_valid) |].
  split; [exact (proj2 (demo_inline_valid demo_world)) |].
  split; [exact (proj2 demo_heap_valid) |].
  split; [arith_by_computation |].
  apply (concat_joins demo_inline demo_heap [97; 98; 99] demo_bytes
     demo_world);
    [exact heap_ok_demo_world | exact (proj1 (demo_inline_valid demo_world))
     | exact (proj1 demo_heap_valid) | exact (proj2 (demo_inline_valid
     demo_world)) | exact (proj2 demo_heap_valid) | arith_by_computation].
Defined.

Lemma lazy_concat_materializes_parts_witness :
  heap_ok world_zero /\
  Z.of_nat (length (List.concat [[97]; [98; 99]; []])) < 2 ^ 63 /\
  (_total_size (foldl lazy_append lazy_empty [[97]; [98; 99]; []]) = Z.of_nat
    (length (List.concat [[97]; [98; 99]; []])) /\
  exists (s' : string) (w' : world),
    materialize (foldl lazy_append lazy_empty [[97]; [98; 99]; []]) world_zero
        = Ok (s', w') /\
    heap_ok w' /\
    valid s' w' /\
    content s' w' = Ok (List.concat [[97]; [98; 99]; []], w')).
Proof.
  split; [exact heap_ok_world_zero |].
  split; [arith_by_computation |].
  apply (lazy_concat_materializes_parts [[97]; [98; 99]; []] world_zero);
    [exact heap_ok_world_zero | arith_by_computation].
Defined.

Lemma format_uint64_round_trip_witness :
  0 <= 1234567890 < 2 ^ 64 /\
  0 < 20 /\
  20 <= Z.of_nat (length (replicate 20 0)) /\
  (exists digits : list Z,
    _format_uint64 (replicate 20 0) 20 1234567890 = Ok (Z.of_nat (length
        digits), digits ++ drop (length digits) (replicate 20 0)) /\
    Forall is_digit digits /\
    decimal_value digits = 1234567890 /\
    (1 <= length digits <= 20)%nat /\
    (1234567890 <> 0 -> head digits <> Some 48)).
Proof.
  split; [arith_by_computation |].
  split; [arith_by_computation |].
  split; [arith_by_computation |].
  apply (format_uint64_round_trip (replicate 20 0) 20 1234567890);
    [arith_by_computation | arith_by_computation | arith_by_computation].
Defined.

Lemma format_int64_round_trip_witness :
  INT64_MIN <= -42 <= INT64_MAX /\
  0 < 20 <= Z.of_nat (length (replicate 20 0)) /\
  Z.of_nat (length (replicate 20 0)) < 2 ^ 64 /\
  (exists digits text : list Z,
    text = (if -42 <? 0 then 45 :: digits else digits) /\
    Forall is_digit digits /\
    decimal_value digits = Z.abs (-42) /\
    (-42 <> 0 -> head digits <> Some 48) /\
    signed_decimal_value text = -42 /\
    (1 <= length text <= 20)%nat /\
    _format_int64 (replicate 20 0) 20 (-42) = (if Z.of_nat (length text) <=?
        20 then Ok (Z.of_nat (length text), text ++ drop (length text)
        (replicate 20 0)) else Ok (0, replicate 20 0))).
Proof.
  split; [arith_by_computation |].
  split; [arith_by_computation |].
  split; [arith_by_computation |].
  apply (format_int64_round_trip (replicate 20 0) 20 (-42));
    [arith_by_computation | arith_by_computation | arith_by_computation].
Defined.

Lemma growth_capacity_covers_request_witness :
  0 <= 64 /\
  1 <= 32 <= 2 ^ 62 /\
  0 <= 100 <= 2 ^ 62 /\
  64 < 100 /\
  (exists r : Z,
    _calculate_growth_capacity exponential 64 32 100 = Ok r /\
    100 <= r /\
    64 <= r /\
    64 <= r /\
    match exponential with
| linear => 64 <= 64 ->
    r < 100 + 32 /\
    (r - 64) `mod` 32 = 0
| exponential => r < 2 * 100 `max` 64
end).
Proof.
  split; [arith_by_computation |].
  split; [arith_by_computation |].
  split; [arith_by_computation |].
  split; [arith_by_computation |].
  apply (growth_capacity_covers_request exponential 64 32 100);
    [arith_by_computation | arith_by_computation | arith_by_computation |
     arith_by_computation].
Defined.

Lemma find_returns_first_occurrence_witness :
  content demo_inline world_zero = Ok ([97; 98; 99], world_zero) /\
  0 <= 0 /\
  (Z.of_nat (length [98; 99]) <= 8 \/ Z.of_nat (length [97; 98; 99]) - 0 < 65536) /\
  (exists r : Z,
    find false demo_inline [98; 99] 0 world_zero = Ok (r, world_zero) /\
    (r = npos /\
     (forall i : nat, 0 <= Z.of_nat i -> ~ occurs_at [97; 98; 99] [98; 99] i)
         \/
     exists i : nat,
       r = Z.of_nat i /\
       0 <= Z.of_nat i /\
       occurs_at [97; 98; 99] [98; 99] i /\
       forall j : nat,
         0 <= Z.of_nat j ->
       (j < i)%nat ->
       ~ occurs_at [97; 98; 99] [98; 99] j)).
Proof.
  split; [exact (proj2 (demo_inline_valid world_zero)) |].
  split; [arith_by_computation |].
  split; [left; arith_by_computation |].
  apply (find_returns_first_occurrence false demo_inline world_zero [97; 98;
     99] [98; 99] 0);
    [exact (proj2 (demo_inline_valid world_zero)) | arith_by_computation |
     left; arith_by_computation].
Defined.
